(** * mocrelay: filter matching, validation, relay dispatch and containers

    A shallow embedding of the Go sources of the relay.  The repository
    holds several generations of the same code side by side; each one is
    embedded in a module named after its Go package:

    - [Nostr]     package nostr   (utils.go: matchers; nostr/client_msg.go)
    - [Main]      package main    (req_filter.go, relay.go, entity.go types)
    - [MainEntity] package main   (entity.go: the earlier NewFilter)
    - [Mocrelay]  package mocrelay (data_structure.go: containers, messages)

    Go values are modelled as follows.  [string] is a byte string
    ([String.string], one [ascii] per byte).  [int], [int64] are [Z];
    arithmetic that can leave the 64-bit range is wrapped with
    [wrap_int64].  A nil-able pointer or slice is an [option].  A Go map
    is a [gmap].  A run-time panic (index out of range) is [None] in the
    result of a function that can raise it. *)

From Stdlib Require Import ZArith String Ascii List Bool Lia Sorted.
From stdpp Require Import base option list gmap strings fin_maps.

Local Open Scope string_scope.
Local Open Scope list_scope.
Local Open Scope Z_scope.

#[local] Set Warnings "-clear-no-such-hyp".

(** ** Go primitives *)

Module Go.

Definition int64_min : Z := - 2 ^ 63.
Definition int64_max : Z := 2 ^ 63 - 1.

(** Two's complement wrap-around of a 64-bit signed integer. *)
Definition wrap_int64 (z : Z) : Z := (z + 2 ^ 63) mod 2 ^ 64 - 2 ^ 63.

(** [len(s)] of a string or a slice, as a Go [int]. *)
Definition len_string (s : string) : Z := Z.of_nat (String.length s).
Definition len {A} (s : list A) : Z := Z.of_nat (List.length s).

(** [strings.HasPrefix(s, prefix)]. *)
Definition HasPrefix (s prefix : string) : bool := String.prefix prefix s.

(** [slices.ContainsFunc(s, f)]: stops at the first element satisfying [f]. *)
Fixpoint ContainsFunc {A} (s : list A) (f : A -> bool) : bool :=
  match s with
  | [] => false
  | x :: s' => if f x then true else ContainsFunc s' f
  end.

(** [ContainsFunc] with a predicate that may panic. *)
Fixpoint ContainsFuncP {A} (s : list A) (f : A -> option bool) : option bool :=
  match s with
  | [] => Some false
  | x :: s' =>
      match f x with
      | None => None
      | Some true => Some true
      | Some false => ContainsFuncP s' f
      end
  end.

(** [sliceAllFunc(vs, f)] of utils.go:
    [!slices.ContainsFunc(vs, func(v) bool { return !f(v) })]. *)
Definition sliceAllFunc {A} (vs : list A) (f : A -> bool) : bool :=
  negb (ContainsFunc vs (fun v => negb (f v))).

(** [a && b] and [a || b] with operands that may panic: the right operand
    is only evaluated when the left one does not decide the result. *)
Definition and_then (a b : option bool) : option bool :=
  match a with
  | Some true => b
  | Some false => Some false
  | None => None
  end.

Definition or_else (a b : option bool) : option bool :=
  match a with
  | Some false => b
  | Some true => Some true
  | None => None
  end.

(** A JSON value as [encoding/json] hands it over when decoding into
    [interface{}] with [UseNumber]: a number keeps its literal. *)
#[warnings="-register-all"]
Inductive json :=
  | JNull
  | JBool (b : bool)
  | JNumber (literal : string)
  | JString (s : string)
  | JArray (elems : list json)
  | JObject (members : list (string * json)).

(** Decoding an object into a Go map: a repeated key keeps its last value. *)
Definition decodeObject (members : list (string * json)) : gmap string json :=
  fold_left (fun obj kv => <[kv.1 := kv.2]> obj) members ∅.

(** Type assertions [v.(string)], [v.(json.Number)], [v.([]any)]. *)
Definition asString (v : json) : option string :=
  match v with JString s => Some s | _ => None end.

Definition asNumber (v : json) : option string :=
  match v with JNumber literal => Some literal | _ => None end.

Definition asArray (v : json) : option (list json) :=
  match v with JArray elems => Some elems | _ => None end.

(** [s[i]] on a string: the byte at index [i], a panic out of range. *)
Definition byte_at (s : string) (i : nat) : option ascii := String.get i s.

(** [string(b)] for a byte [b]: the UTF-8 encoding of the code point
    [b]; one byte below 0x80, two bytes from 0x80 on. *)
Definition string_of_byte (b : ascii) : string :=
  let n := N.to_nat (N_of_ascii b) in
  if (n <? 128)%nat then String b EmptyString
  else String (ascii_of_nat (192 + n / 64))
         (String (ascii_of_nat (128 + n mod 64)) EmptyString).

End Go.

Import Go.

(** ** package nostr: event matchers (utils.go) *)

Module Nostr.

Definition Tag := list string.

Record Event := mkEvent {
  ID : string;
  Pubkey : string;
  CreatedAt : Z;
  Kind : Z;
  Tags : list Tag;
  Content : string;
  Sig : string
}.

(** The filter the matcher reads: every field is a pointer, [None] is nil. *)
Record ReqFilter := mkReqFilter {
  fIDs : option (list string);
  fAuthors : option (list string);
  fKinds : option (list Z);
  fTags : option (gmap string (list string));
  fSince : option Z;
  fUntil : option Z;
  fLimit : option Z
}.

Record ReqFilterEventMatcher := mkMatcher {
  cnt : Z;
  f : ReqFilter
}.

(** [filter] is a pointer; the constructor panics on nil. *)
Definition NewReqFilterMatcher (filter : option ReqFilter) : option ReqFilterEventMatcher :=
  match filter with
  | None => None
  | Some filter => Some {| cnt := 0; f := filter |}
  end.

(** The innermost closure of [Match]:
    [len(tagArr) >= 1 && tagArr[0] == string(tag[1]) &&
     (len(tagArr) == 1 || strings.HasPrefix(tagArr[1], v))]. *)
Definition tagArrMatch (tag v : string) (tagArr : Tag) : option bool :=
  and_then (Some (1 <=? len tagArr))
    (and_then
       (t0 ← tagArr !! 0%nat; b ← byte_at tag 1; Some (String.eqb t0 (string_of_byte b)))
       (or_else (Some (len tagArr =? 1))
          (t1 ← tagArr !! 1%nat; Some (HasPrefix t1 v)))).

(** One iteration of [for tag, vs := range *m.f.Tags]. *)
Definition tagEntryMatch (event : Event) (tag : string) (vs : list string) : option bool :=
  ContainsFuncP vs (fun v => ContainsFuncP (Tags event) (tagArrMatch tag v)).

(** The loop over the tag map.  Go ranges over a map in an unspecified
    order; the model ranges in the order of [map_to_list]. *)
Definition tagsLoop (event : Event) (tags : list (string * list string))
    (match_ : option bool) : option bool :=
  fold_left (fun acc '(tag, vs) => and_then acc (tagEntryMatch event tag vs)) tags match_.

Definition Match (m : ReqFilterEventMatcher) (event : Event) : option bool :=
  let match_ := Some true in
  let match_ :=
    match fIDs (f m) with
    | Some ids => and_then match_ (Some (ContainsFunc ids (fun id => HasPrefix (ID event) id)))
    | None => match_
    end in
  let match_ :=
    match fKinds (f m) with
    | Some kinds => and_then match_ (Some (ContainsFunc kinds (fun kind => Kind event =? kind)))
    | None => match_
    end in
  let match_ :=
    match fAuthors (f m) with
    | Some authors =>
        and_then match_ (Some (ContainsFunc authors (fun author => HasPrefix (Pubkey event) author)))
    | None => match_
    end in
  let match_ :=
    match fTags (f m) with
    | Some tags => tagsLoop event (map_to_list tags) match_
    | None => match_
    end in
  let match_ :=
    match fSince (f m) with
    | Some since => and_then match_ (Some (since <=? CreatedAt event))
    | None => match_
    end in
  let match_ :=
    match fUntil (f m) with
    | Some until => and_then match_ (Some (CreatedAt event <=? until))
    | None => match_
    end in
  match_.

(** [CountMatch] returns the result together with the matcher after the
    call; a panic in [Match] leaves no result. *)
Definition CountMatch (m : ReqFilterEventMatcher) (event : Event)
    : option (bool * ReqFilterEventMatcher) :=
  match_ ← Match m event;
  let m := if match_ : bool then {| cnt := wrap_int64 (cnt m + 1); f := f m |} else m in
  Some (match_, m).

Definition Count (m : ReqFilterEventMatcher) : Z := cnt m.

Definition Done (m : ReqFilterEventMatcher) : bool :=
  match fLimit (f m) with
  | Some limit => limit <=? cnt m
  | None => false
  end.

(** The interface [EventCountMatcher] (which embeds [EventMatcher]). *)
Class EventCountMatcher (T : Type) := {
  ecmMatch : T -> Event -> option bool;
  ecmCountMatch : T -> Event -> option (bool * T);
  ecmCount : T -> Z;
  ecmDone : T -> bool
}.

#[global] Instance ReqFilterEventMatcher_is_EventCountMatcher :
  EventCountMatcher ReqFilterEventMatcher :=
  {| ecmMatch := Match; ecmCountMatch := CountMatch; ecmCount := Count; ecmDone := Done |}.

(** [EventCountMatchers[T]] is a slice of [T]; for the pointer type
    [*ReqFilterEventMatcher] the list holds the pointed-to matchers, which
    [NewReqFiltersEventMatchers] allocates one per filter. *)
Section EventCountMatchers.
Context {T : Type} `{EventCountMatcher T}.

(** [match = mm.Match(event) || match]: the call is the left operand of
    [||] and is evaluated in every iteration. *)
Fixpoint MatchLoop (m : list T) (event : Event) (match_ : bool) : option bool :=
  match m with
  | [] => Some match_
  | mm :: m' =>
      r ← ecmMatch mm event;
      MatchLoop m' event (r || match_)
  end.

Definition MatchSet (m : list T) (event : Event) : option bool :=
  MatchLoop m event false.

(** [match = mm.CountMatch(event) || match], with the members after the
    calls. *)
Fixpoint CountMatchLoop (m : list T) (event : Event) (match_ : bool)
    : option (bool * list T) :=
  match m with
  | [] => Some (match_, [])
  | mm :: m' =>
      rm ← ecmCountMatch mm event;
      rest ← CountMatchLoop m' event (rm.1 || match_);
      Some (rest.1, rm.2 :: rest.2)
  end.

Definition CountMatchSet (m : list T) (event : Event) : option (bool * list T) :=
  CountMatchLoop m event false.

(** [var ret int64; for ... { ret = max(ret, mm.Count()) }]. *)
Definition CountSet (m : list T) : Z :=
  fold_left (fun ret mm => Z.max ret (ecmCount mm)) m 0.

Definition DoneSet (m : list T) : bool :=
  fold_left (fun done mm => done && ecmDone mm) m true.
End EventCountMatchers.

(** [filters] is a slice of pointers; nil slice and nil element panic. *)
Definition NewReqFiltersEventMatchers (filters : option (list (option ReqFilter)))
    : option (list ReqFilterEventMatcher) :=
  match filters with
  | None => None
  | Some filters => mapM NewReqFilterMatcher filters
  end.

End Nostr.

(** ** Facts about the Go primitives *)

Module GoFacts.

Lemma wrap_int64_small (z : Z) :
  int64_min <= z <= int64_max -> wrap_int64 z = z.
Proof.
  unfold int64_min, int64_max, wrap_int64. intros Hz.
  rewrite Z.mod_small by lia. lia.
Qed.

Lemma wrap_int64_range (z : Z) : int64_min <= wrap_int64 z <= int64_max.
Proof.
  unfold int64_min, int64_max, wrap_int64.
  pose proof (Z.mod_pos_bound (z + 2 ^ 63) (2 ^ 64)). lia.
Qed.

Lemma append_String (b : ascii) (p r : string) :
  (String b p ++ r)%string = String b (p ++ r)%string.
Proof. reflexivity. Qed.

Lemma HasPrefix_spec (s p : string) :
  HasPrefix s p = true <-> exists r, s = (p ++ r)%string.
Proof.
  unfold HasPrefix. revert s.
  induction p as [|a p IH]; intros [|b s]; cbn.
  - split; [intros _; by exists EmptyString | done].
  - split; [intros _; by exists (String b s) | done].
  - split; [done | intros [r Hr]; discriminate].
  - destruct (ascii_dec a b) as [->|Hne].
    + rewrite IH. split; intros [r Hr]; exists r.
      * by rewrite append_String, Hr.
      * rewrite append_String in Hr. congruence.
    + split; [done | intros [r Hr]; rewrite append_String in Hr; congruence].
Qed.

Lemma HasPrefix_empty (s : string) : HasPrefix s "" = true.
Proof. by destruct s. Qed.

Lemma ContainsFunc_existsb {A} (s : list A) (g : A -> bool) :
  ContainsFunc s g = existsb g s.
Proof. induction s as [|x s IH]; simpl; [done|]. rewrite IH. by destruct (g x). Qed.

Lemma ContainsFunc_true {A} (s : list A) (g : A -> bool) :
  ContainsFunc s g = true <-> exists x, x ∈ s /\ g x = true.
Proof.
  rewrite ContainsFunc_existsb, existsb_exists.
  split; intros (x & Hx & Hg); exists x; split; auto; by apply list_elem_of_In.
Qed.

Lemma ContainsFuncP_total {A} (s : list A) (g : A -> bool) (gp : A -> option bool) :
  (forall x, x ∈ s -> gp x = Some (g x)) ->
  ContainsFuncP s gp = Some (ContainsFunc s g).
Proof.
  induction s as [|x s IH]; intros Hg; simpl; [done|].
  rewrite (Hg x) by apply list_elem_of_here.
  destruct (g x); [done|]. apply IH. intros y Hy. apply Hg. by apply list_elem_of_further.
Qed.

Lemma sliceAllFunc_forallb {A} (vs : list A) (g : A -> bool) :
  sliceAllFunc vs g = forallb g vs.
Proof.
  unfold sliceAllFunc. induction vs as [|x vs IH]; simpl; [done|].
  destruct (g x); simpl; [exact IH | done].
Qed.

Lemma string_of_byte_ascii (b : ascii) :
  (N.to_nat (N_of_ascii b) < 128)%nat -> string_of_byte b = String b EmptyString.
Proof.
  intros Hb. unfold string_of_byte.
  destruct (Nat.ltb_spec (N.to_nat (N_of_ascii b)) 128); [done | lia].
Qed.

End GoFacts.

Import GoFacts.

(** ** The matcher as a pure predicate *)

Module NostrFacts.
Import Nostr.

(** What the innermost closure computes once [string(tag[1])] is known. *)
Definition tagArrHolds (name v : string) (tagArr : Tag) : bool :=
  match tagArr with
  | [] => false
  | [t0] => String.eqb t0 name
  | t0 :: t1 :: _ => String.eqb t0 name && HasPrefix t1 v
  end.

(** One entry [tag -> vs] of the tag map; [false] stands in where the key
    has no byte at index 1 (the call panics there, see [keys_ok]). *)
Definition entryHolds (event : Event) (entry : string * list string) : bool :=
  match byte_at entry.1 1 with
  | Some b =>
      existsb (fun v => existsb (tagArrHolds (string_of_byte b) v) (Tags event)) entry.2
  | None => false
  end.

Definition idsHold (fl : ReqFilter) (event : Event) : bool :=
  match fIDs fl with
  | Some ids => existsb (fun id => HasPrefix (ID event) id) ids
  | None => true
  end.

Definition kindsHold (fl : ReqFilter) (event : Event) : bool :=
  match fKinds fl with
  | Some kinds => existsb (fun kind => Kind event =? kind) kinds
  | None => true
  end.

Definition authorsHold (fl : ReqFilter) (event : Event) : bool :=
  match fAuthors fl with
  | Some authors => existsb (fun author => HasPrefix (Pubkey event) author) authors
  | None => true
  end.

Definition tagsHold (fl : ReqFilter) (event : Event) : bool :=
  match fTags fl with
  | Some tags => forallb (entryHolds event) (map_to_list tags)
  | None => true
  end.

Definition sinceHolds (fl : ReqFilter) (event : Event) : bool :=
  match fSince fl with
  | Some since => since <=? CreatedAt event
  | None => true
  end.

Definition untilHolds (fl : ReqFilter) (event : Event) : bool :=
  match fUntil fl with
  | Some until => CreatedAt event <=? until
  | None => true
  end.

Definition matchSpec (fl : ReqFilter) (event : Event) : bool :=
  idsHold fl event && kindsHold fl event && authorsHold fl event &&
  tagsHold fl event && sinceHolds fl event && untilHolds fl event.

(** Every key of the tag map has a byte at index 1, as the keys the
    parser stores (["#A"] ... ["#z"]) have. *)
Definition keys_ok (fl : ReqFilter) : Prop :=
  match fTags fl with
  | Some tags => map_Forall (fun k _ => is_Some (byte_at k 1)) tags
  | None => True
  end.

Lemma tagArrMatch_pure (tag v : string) (tagArr : Tag) (b : ascii) :
  byte_at tag 1 = Some b ->
  tagArrMatch tag v tagArr = Some (tagArrHolds (string_of_byte b) v tagArr).
Proof.
  intros Hb. unfold tagArrMatch, len. rewrite Hb.
  destruct tagArr as [|t0 [|t1 rest]].
  - reflexivity.
  - cbn. by destruct (String.eqb t0 (string_of_byte b)).
  - cbn [length tagArrHolds].
    destruct (Z.leb_spec 1 (Z.of_nat (S (S (length rest))))) as [_|?]; [|lia].
    destruct (Z.eqb_spec (Z.of_nat (S (S (length rest)))) 1) as [?|_]; [lia|].
    cbn. by destruct (String.eqb t0 (string_of_byte b)).
Qed.

Lemma tagEntryMatch_pure (event : Event) (tag : string) (vs : list string) (b : ascii) :
  byte_at tag 1 = Some b ->
  tagEntryMatch event tag vs = Some (entryHolds event (tag, vs)).
Proof.
  intros Hb. unfold tagEntryMatch, entryHolds. cbn [fst snd]. rewrite Hb.
  rewrite <- ContainsFunc_existsb.
  apply ContainsFuncP_total. intros v _.
  rewrite <- ContainsFunc_existsb.
  apply ContainsFuncP_total. intros tagArr _. by apply tagArrMatch_pure.
Qed.

Lemma tagsLoop_pure (event : Event) (l : list (string * list string)) (acc : bool) :
  Forall (fun kv => is_Some (byte_at kv.1 1)) l ->
  tagsLoop event l (Some acc) = Some (acc && forallb (entryHolds event) l).
Proof.
  unfold tagsLoop. revert acc.
  induction l as [|[k vs] l IH]; intros acc Hl; cbn [fold_left forallb].
  - by rewrite andb_true_r.
  - inversion Hl as [|? ? [b Hb] Hl']; subst. cbn [fst] in Hb.
    rewrite (tagEntryMatch_pure _ _ _ _ Hb).
    destruct acc; cbn [and_then].
    + rewrite IH by done. done.
    + rewrite IH by done. done.
Qed.

Lemma and_then_Some (a b : bool) : and_then (Some a) (Some b) = Some (a && b).
Proof. by destruct a. Qed.

(** [Match] never panics on a filter with well-formed keys, and computes
    the conjunction of the six field predicates. *)
Lemma Match_pure (m : ReqFilterEventMatcher) (event : Event) :
  keys_ok (f m) -> Match m event = Some (matchSpec (f m) event).
Proof.
  intros Hk. unfold Match, matchSpec, idsHold, kindsHold, authorsHold, tagsHold,
    sinceHolds, untilHolds, keys_ok in *.
  destruct (fIDs (f m)) as [ids|], (fKinds (f m)) as [kinds|],
    (fAuthors (f m)) as [authors|], (fSince (f m)) as [since|],
    (fUntil (f m)) as [until|], (fTags (f m)) as [tags|];
    rewrite ?ContainsFunc_existsb;
    repeat first
      [ rewrite and_then_Some
      | rewrite tagsLoop_pure
          by (apply map_Forall_to_list in Hk;
              eapply Forall_impl; [exact Hk | by intros [??]]) ];
    f_equal; rewrite ?andb_true_l, ?andb_true_r; reflexivity.
Qed.

(** *** What the matcher decides for the time bounds and for a tag entry *)

(** With [since] present, an accepted event is not older than [since];
    with [until] present, it is not newer than [until]. *)
Lemma Match_true_time (m : ReqFilterEventMatcher) (event : Event) :
  keys_ok (f m) -> Match m event = Some true ->
  (forall since, fSince (f m) = Some since -> since <= CreatedAt event) /\
  (forall until, fUntil (f m) = Some until -> CreatedAt event <= until).
Proof.
  intros Hk Hm. rewrite Match_pure in Hm by done. injection Hm as Hm.
  unfold matchSpec in Hm. rewrite !andb_true_iff in Hm.
  destruct Hm as [[_ Hs] Hu]. unfold sinceHolds, untilHolds in *.
  split; [intros since Hf; rewrite Hf in Hs | intros bound Hf; rewrite Hf in Hu]; lia.
Qed.

(** A filter that constrains nothing. *)
Definition emptyFilter : ReqFilter :=
  {| fIDs := None; fAuthors := None; fKinds := None; fTags := None;
     fSince := None; fUntil := None; fLimit := None |}.

Definition sinceFilter (since : Z) : ReqFilter :=
  {| fIDs := None; fAuthors := None; fKinds := None; fTags := None;
     fSince := Some since; fUntil := None; fLimit := None |}.

Definition untilFilter (until : Z) : ReqFilter :=
  {| fIDs := None; fAuthors := None; fKinds := None; fTags := None;
     fSince := None; fUntil := Some until; fLimit := None |}.

(** The time predicate on its own: inclusive on both sides. *)
Lemma Match_since_inclusive (since n : Z) (event : Event) :
  Match {| cnt := n; f := sinceFilter since |} event = Some true <->
  since <= CreatedAt event.
Proof. cbn. rewrite <- Z.leb_le. split; [by intros [= ->] | by intros ->]. Qed.

Lemma Match_until_inclusive (until n : Z) (event : Event) :
  Match {| cnt := n; f := untilFilter until |} event = Some true <->
  CreatedAt event <= until.
Proof. cbn. rewrite <- Z.leb_le. split; [by intros [= ->] | by intros ->]. Qed.

Lemma tagArrHolds_spec (name v : string) (tagArr : Tag) :
  tagArrHolds name v tagArr = true <->
  tagArr = [name] \/
  exists value rest r, tagArr = name :: value :: rest /\ value = (v ++ r)%string.
Proof.
  unfold tagArrHolds. destruct tagArr as [|t0 [|t1 rest]].
  - split; [done | intros [?|(?&?&?&?&_)]; done].
  - rewrite String.eqb_eq. split.
    + intros ->. by left.
    + intros [[= ->]|(?&?&?&?&_)]; done.
  - rewrite andb_true_iff, String.eqb_eq, HasPrefix_spec. split.
    + intros [-> [r ->]]. right. by exists (v ++ r)%string, rest, r.
    + intros [?|(value & rest' & r & [= -> -> ->] & ->)]; [done|]. split; [done | by exists r].
Qed.

(** The key ["#X"] for a byte [X]. *)
Definition tagKey (X : ascii) : string := String "#" (String X EmptyString).

(** An entry [#X -> vs] holds for an event exactly when some tag of the
    event has the name [X] and either no further element or a second
    element that begins with one of the strings of [vs]. *)
Lemma tagEntryMatch_spec (event : Event) (X : ascii) (vs : list string) :
  (N.to_nat (N_of_ascii X) < 128)%nat ->
  tagEntryMatch event (tagKey X) vs = Some true <->
  exists v tagArr,
    v ∈ vs /\ tagArr ∈ Tags event /\
    (tagArr = [String X EmptyString] \/
     exists value rest r,
       tagArr = String X EmptyString :: value :: rest /\ value = (v ++ r)%string).
Proof.
  intros HX. rewrite (tagEntryMatch_pure event (tagKey X) vs X) by done.
  unfold entryHolds. cbn [fst snd tagKey byte_at String.get].
  rewrite string_of_byte_ascii by done.
  split.
  - intros [= Hex]. apply existsb_exists in Hex as (v & Hv & Hex).
    apply existsb_exists in Hex as (tagArr & Ht & Hh).
    exists v, tagArr. rewrite <- !list_elem_of_In in *.
    split; [done|]. split; [done|]. by apply tagArrHolds_spec.
  - intros (v & tagArr & Hv & Ht & Hh). f_equal.
    apply existsb_exists. exists v. rewrite <- list_elem_of_In. split; [done|].
    apply existsb_exists. exists tagArr. rewrite <- list_elem_of_In. split; [done|].
    by apply tagArrHolds_spec.
Qed.

End NostrFacts.

(** ** Counted matchers and matcher sets (utils.go) *)

Module CountFacts.
Import Nostr NostrFacts.

(** The matcher after [CountMatch] on an event its filter accepts or not. *)
Definition bump (m : ReqFilterEventMatcher) : ReqFilterEventMatcher :=
  {| cnt := wrap_int64 (cnt m + 1); f := f m |}.

Definition step (m : ReqFilterEventMatcher) (event : Event) : ReqFilterEventMatcher :=
  if matchSpec (f m) event then bump m else m.

(** A sequence of [CountMatch] calls on one matcher. *)
Fixpoint run (m : ReqFilterEventMatcher) (events : list Event)
    : option ReqFilterEventMatcher :=
  match events with
  | [] => Some m
  | event :: events' =>
      rm ← CountMatch m event;
      run rm.2 events'
  end.

(** A sequence of [CountMatch] calls on a matcher set. *)
Fixpoint runSet (ms : list ReqFilterEventMatcher) (events : list Event)
    : option (list ReqFilterEventMatcher) :=
  match events with
  | [] => Some ms
  | event :: events' =>
      rm ← CountMatchSet ms event;
      runSet rm.2 events'
  end.

Lemma CountMatch_pure (m : ReqFilterEventMatcher) (event : Event) :
  keys_ok (f m) ->
  CountMatch m event = Some (matchSpec (f m) event, step m event).
Proof.
  intros Hk. unfold CountMatch, step, bump. rewrite Match_pure by done. cbn.
  by destruct (matchSpec (f m) event).
Qed.

Lemma f_step (m : ReqFilterEventMatcher) (event : Event) : f (step m event) = f m.
Proof. unfold step, bump. by destruct (matchSpec (f m) event). Qed.

Lemma cnt_step (m : ReqFilterEventMatcher) (event : Event) :
  cnt (step m event) =
  if matchSpec (f m) event then wrap_int64 (cnt m + 1) else cnt m.
Proof. unfold step, bump. by destruct (matchSpec (f m) event). Qed.

Lemma cnt_step_bounds (m : ReqFilterEventMatcher) (event : Event) :
  int64_min <= cnt m < int64_max ->
  cnt m <= cnt (step m event) <= cnt m + 1.
Proof.
  intros Hc. rewrite cnt_step. destruct (matchSpec (f m) event); [|lia].
  rewrite wrap_int64_small; lia.
Qed.

Lemma Done_iff (m : ReqFilterEventMatcher) :
  Done m = true <-> exists limit, fLimit (f m) = Some limit /\ limit <= cnt m.
Proof.
  unfold Done. destruct (fLimit (f m)) as [limit|].
  - rewrite Z.leb_le. split; [intros Hl; by exists limit | intros (l & [= <-] & Hl); done].
  - split; [done | intros (l & Hl & _); done].
Qed.

Lemma Done_mono (m m' : ReqFilterEventMatcher) :
  f m' = f m -> cnt m <= cnt m' -> Done m = true -> Done m' = true.
Proof.
  rewrite !Done_iff. intros Hf Hc (limit & Hl & Hle).
  exists limit. rewrite Hf. split; [done | lia].
Qed.

Lemma run_pure (events : list Event) (m : ReqFilterEventMatcher) :
  keys_ok (f m) ->
  int64_min <= cnt m ->
  cnt m + Z.of_nat (length events) <= int64_max ->
  exists m', run m events = Some m' /\ f m' = f m /\
             cnt m <= cnt m' <= cnt m + Z.of_nat (length events).
Proof.
  revert m. induction events as [|event events IH]; intros m Hk Hlo Hhi.
  - exists m. cbn. split; [done|]. split; [done|]. cbn in Hhi. lia.
  - cbn [run]. rewrite CountMatch_pure by done. cbn [mbind option_bind snd].
    cbn [length] in Hhi.
    pose proof (cnt_step_bounds m event ltac:(lia)) as Hs.
    destruct (IH (step m event)) as (m' & Hrun & Hf & Hc).
    + by rewrite f_step.
    + lia.
    + lia.
    + exists m'. split; [done|]. rewrite Hf, f_step. split; [done|].
      cbn [length]. lia.
Qed.

(** *** Matcher sets, for any implementation of the interface *)

Section SetFacts.
Context {T : Type} `{EventCountMatcher T}.

(** Every member's [CountMatch] is called, in order ([mapM]); the result
    is the disjunction of the members' results and every member is left
    as its own call left it. *)
Lemma CountMatchLoop_mapM (m : list T) (event : Event) (match_ : bool) :
  CountMatchLoop m event match_ =
  rs ← mapM (fun mm => ecmCountMatch mm event) m;
  Some (existsb fst rs || match_, snd <$> rs).
Proof.
  revert match_. induction m as [|mm m IH]; intros match_; cbn; [done|].
  destruct (ecmCountMatch mm event) as [[r mm']|]; cbn; [|done].
  rewrite IH. destruct (mapM _ m) as [rs|]; cbn; [|done].
  do 2 f_equal. by destruct r, (existsb fst rs), match_.
Qed.

Lemma CountSet_fold_ge (m : list T) (a : Z) :
  a <= fold_left (fun ret mm => Z.max ret (ecmCount mm)) m a.
Proof.
  revert a. induction m as [|mm m IH]; intros a; cbn; [lia|].
  specialize (IH (Z.max a (ecmCount mm))). lia.
Qed.

Lemma CountSet_fold_upper (m : list T) (a : Z) (mm : T) :
  mm ∈ m -> ecmCount mm <= fold_left (fun ret mm => Z.max ret (ecmCount mm)) m a.
Proof.
  revert a. induction m as [|x m IH]; intros a Hin; cbn.
  - by apply elem_of_nil in Hin.
  - apply elem_of_cons in Hin as [->|Hin].
    + pose proof (CountSet_fold_ge m (Z.max a (ecmCount x))). lia.
    + by apply IH.
Qed.

Lemma CountSet_fold_attained (m : list T) (a : Z) :
  fold_left (fun ret mm => Z.max ret (ecmCount mm)) m a = a \/
  exists mm, mm ∈ m /\ fold_left (fun ret mm => Z.max ret (ecmCount mm)) m a = ecmCount mm.
Proof.
  revert a. induction m as [|x m IH]; intros a; cbn; [by left|].
  destruct (IH (Z.max a (ecmCount x))) as [Heq|(mm & Hin & Heq)].
  - rewrite Heq. destruct (Z.max_spec a (ecmCount x)) as [[_ ->]|[_ ->]].
    + right. exists x. split; [apply list_elem_of_here | done].
    + by left.
  - right. exists mm. split; [by apply list_elem_of_further | done].
Qed.

(** [Count] of a set whose members' counts are not negative is the
    largest member count, and 0 for the empty set. *)
Lemma CountSet_is_max (m : list T) :
  Forall (fun mm => 0 <= ecmCount mm) m ->
  (forall mm, mm ∈ m -> ecmCount mm <= CountSet m) /\
  (m = [] -> CountSet m = 0) /\
  (m <> [] -> exists mm, mm ∈ m /\ CountSet m = ecmCount mm).
Proof.
  intros Hpos. unfold CountSet. split; [|split].
  - intros mm Hin. by apply CountSet_fold_upper.
  - by intros ->.
  - intros Hne. destruct (CountSet_fold_attained m 0) as [Heq|Hex]; [|done].
    destruct m as [|x m]; [done|].
    assert (ecmCount x <= 0) as Hx.
    { rewrite <- Heq. apply CountSet_fold_upper, list_elem_of_here. }
    apply Forall_cons in Hpos as [Hx0 _].
    exists x. split; [apply list_elem_of_here|]. lia.
Qed.

End SetFacts.

(** *** Matcher sets of [ReqFilterEventMatcher] *)

Lemma mapM_CountMatch_pure (ms : list ReqFilterEventMatcher) (event : Event) :
  Forall (fun mm => keys_ok (f mm)) ms ->
  mapM (fun mm => CountMatch mm event) ms =
  Some ((fun mm => (matchSpec (f mm) event, step mm event)) <$> ms).
Proof.
  induction 1 as [|mm ms Hk _ IH]; cbn; [done|].
  rewrite CountMatch_pure by done. cbn. rewrite IH. done.
Qed.

Lemma CountMatchSet_pure (ms : list ReqFilterEventMatcher) (event : Event) :
  Forall (fun mm => keys_ok (f mm)) ms ->
  CountMatchSet ms event =
  Some (existsb (fun mm => matchSpec (f mm) event) ms,
        (fun mm => step mm event) <$> ms).
Proof.
  intros Hk. unfold CountMatchSet. rewrite CountMatchLoop_mapM.
  cbn [ecmCountMatch ReqFilterEventMatcher_is_EventCountMatcher].
  rewrite mapM_CountMatch_pure by done. cbn [mbind option_bind].
  f_equal. f_equal.
  - rewrite orb_false_r. clear Hk. induction ms as [|mm ms IH]; cbn; [done|].
    by rewrite IH.
  - rewrite <- list_fmap_compose. done.
Qed.

(** Members built by [NewReqFiltersEventMatchers] and driven by fewer than
    2^63 calls keep their filters and have counts between 0 and the number
    of calls. *)
Definition counts_within (n : Z) (filters : list ReqFilter)
    (ms : list ReqFilterEventMatcher) : Prop :=
  Forall2 (fun fl mm => f mm = fl /\ 0 <= cnt mm <= n) filters ms.

Lemma NewReqFiltersEventMatchers_counts (filters : list ReqFilter) :
  exists ms, NewReqFiltersEventMatchers (Some (Some <$> filters)) = Some ms /\
             counts_within 0 filters ms.
Proof.
  unfold NewReqFiltersEventMatchers, counts_within.
  induction filters as [|fl filters (ms & Hms & Hc)]; cbn.
  - exists []. split; [done | constructor].
  - rewrite Hms. cbn. eexists. split; [done|]. constructor; [|done]. cbn. split; [done | lia].
Qed.

Lemma step_counts_within (n : Z) (filters : list ReqFilter)
    (ms : list ReqFilterEventMatcher) (event : Event) :
  n < int64_max ->
  counts_within n filters ms ->
  counts_within (n + 1) filters ((fun mm => step mm event) <$> ms).
Proof.
  intros Hn. unfold counts_within. induction 1 as [|fl mm filters ms [Hf Hc] _ IH]; cbn.
  - constructor.
  - constructor; [|done]. rewrite f_step. split; [done|].
    pose proof (cnt_step_bounds mm event). unfold int64_min in *. lia.
Qed.

Lemma counts_within_keys_ok (n : Z) (filters : list ReqFilter)
    (ms : list ReqFilterEventMatcher) :
  Forall keys_ok filters -> counts_within n filters ms ->
  Forall (fun mm => keys_ok (f mm)) ms.
Proof.
  intros Hk Hc. revert Hk. induction Hc as [|fl mm filters ms [Hf _] _ IH]; intros Hk.
  - constructor.
  - apply Forall_cons in Hk as [Hk1 Hk2]. constructor; [by rewrite Hf | by apply IH].
Qed.

Lemma runSet_counts (events : list Event) (n : Z) (filters : list ReqFilter)
    (ms : list ReqFilterEventMatcher) :
  Forall keys_ok filters ->
  counts_within n filters ms ->
  n + Z.of_nat (length events) <= int64_max ->
  exists ms', runSet ms events = Some ms' /\
              counts_within (n + Z.of_nat (length events)) filters ms'.
Proof.
  intros Hk. revert n ms. induction events as [|event events IH]; intros n ms Hc Hn.
  - exists ms. split; [done|]. cbn. by rewrite Z.add_0_r.
  - cbn [runSet]. rewrite CountMatchSet_pure by (by eapply counts_within_keys_ok).
    cbn [mbind option_bind snd]. cbn [length] in Hn.
    destruct (IH (n + 1) ((fun mm => step mm event) <$> ms)) as (ms' & Hrun & Hc').
    + apply step_counts_within; [lia | done].
    + lia.
    + exists ms'. split; [done|].
      replace (n + Z.of_nat (length (event :: events)))
        with (n + 1 + Z.of_nat (length events)) by (cbn [length]; lia).
      done.
Qed.

End CountFacts.

(** ** package main: filters (req_filter.go, entity.go) *)

Module Main.

(** entity.go: [EventJSON] and [Event].  [Event] embeds a pointer to the
    parsed [EventJSON]; the relay only builds events around a parsed,
    non-nil one. *)
Record EventJSON := mkEventJSON {
  ID : string;
  Pubkey : string;
  CreatedAt : Z;
  Kind : Z;
  Tags : list (list string);
  Content : string;
  Sig : string;
  Raw : string
}.

Record Event := mkEvent {
  EventJSON_ : EventJSON;
  ReceivedAt : Z
}.

(** entity.go: [FilterJSON]; every field is a pointer. *)
Record FilterJSON := mkFilterJSON {
  IDs : option (list string);
  Authors : option (list string);
  Kinds : option (list Z);
  Etags : option (list string);
  Ptags : option (list string);
  Since : option Z;
  Until : option Z;
  Limit : option Z
}.

(** [type Filter struct { *FilterJSON }]; [NewFilter] is its constructor
    and refuses a nil [FilterJSON]. *)
Record Filter := mkFilter { FilterJSON_ : FilterJSON }.

#[warnings="-register-all"]
Inductive error :=
  | ErrNilFilter
  | ReqFilterMinPrefixError (What : string) (Length : Z)
  | ErrFilterTooLong
  | joinError (errs : list error).

(** [errors.Join(a, b)]: nil when both are nil, else an error wrapping the
    non-nil ones. *)
Definition errors_Join (a b : option error) : option error :=
  match a, b with
  | None, None => None
  | Some a, None => Some (joinError [a])
  | None, Some b => Some (joinError [b])
  | Some a, Some b => Some (joinError [a; b])
  end.

(** [errors.As(err, &target)] for [target *ReqFilterMinPrefixError], on the
    errors [NewFilter] returns. *)
Definition As_ReqFilterMinPrefixError (err : error) : bool :=
  match err with
  | ReqFilterMinPrefixError _ _ => true
  | _ => false
  end.

(** The first entry of [l] shorter than [MinPrefix], by its length. *)
Fixpoint firstShort (MinPrefix : Z) (l : list string) : option Z :=
  match l with
  | [] => None
  | id :: l' =>
      if len_string id <? MinPrefix then Some (len_string id)
      else firstShort MinPrefix l'
  end.

Section Config.
(** [*Cfg.MinPrefix] and [Cfg.MaxFilters]; the configuration itself is
    declared outside these files. *)
Variable MinPrefix : Z.
Variable MaxFilters : Z.

Definition checkField (what : string) (field : option (list string)) : option error :=
  match field with
  | Some ids =>
      match firstShort MinPrefix ids with
      | Some n => Some (ReqFilterMinPrefixError what n)
      | None => None
      end
  | None => None
  end.

(** req_filter.go: [NewFilter].  Each [return] gives either a filter and
    a nil error, or nil and an error. *)
Definition NewFilter (json : option FilterJSON) : Filter + error :=
  match json with
  | None => inr ErrNilFilter
  | Some json =>
      match checkField "ids" (IDs json) with
      | Some e => inr e
      | None =>
      match checkField "authors" (Authors json) with
      | Some e => inr e
      | None =>
      match checkField "ptags" (Ptags json) with
      | Some e => inr e
      | None =>
      match checkField "etags" (Etags json) with
      | Some e => inr e
      | None => inl {| FilterJSON_ := json |}
      end end end end
  end.

(** The loop of [NewFiltersFromFilterJSONs]: [res] and [errs] are the two
    accumulators. *)
Fixpoint NewFiltersLoop (jsons : list (option FilterJSON)) (res : list Filter)
    (errs : option error) : option (list Filter) * option error :=
  match jsons with
  | [] => (Some res, errs)
  | json :: jsons' =>
      match NewFilter json with
      | inr err =>
          if As_ReqFilterMinPrefixError err
          then NewFiltersLoop jsons' res (errors_Join errs (Some err))
          else (None, Some err)
      | inl fil => NewFiltersLoop jsons' (res ++ [fil]) errs
      end
  end.

(** req_filter.go: [NewFiltersFromFilterJSONs]. *)
Definition NewFiltersFromFilterJSONs (jsons : list (option FilterJSON))
    : option (list Filter) * option error :=
  if len jsons >? wrap_int64 (MaxFilters + 2) then (None, Some ErrFilterTooLong)
  else NewFiltersLoop jsons [] None.

End Config.

(** *** Matching.  The receiver [fil *Filter] may be nil. *)

Definition MatchIDs (fil : option Filter) (event : Event) : bool :=
  match fil with
  | None => true
  | Some fil =>
      match IDs (FilterJSON_ fil) with
      | None => true
      | Some ids => ContainsFunc ids (fun prefix => HasPrefix (ID (EventJSON_ event)) prefix)
      end
  end.

Definition MatchAuthors (fil : option Filter) (event : Event) : bool :=
  match fil with
  | None => true
  | Some fil =>
      match Authors (FilterJSON_ fil) with
      | None => true
      | Some ids => ContainsFunc ids (fun prefix => HasPrefix (Pubkey (EventJSON_ event)) prefix)
      end
  end.

Definition MatchKinds (fil : option Filter) (event : Event) : bool :=
  match fil with
  | None => true
  | Some fil =>
      match Kinds (FilterJSON_ fil) with
      | None => true
      | Some kinds => ContainsFunc kinds (fun k => Kind (EventJSON_ event) =? k)
      end
  end.

(** The body of the inner loop of [MatchEtags] and [MatchPtags]:
    [if len(tag) < 2 { continue }] and then
    [tag[0] == name && strings.HasPrefix(tag[1], id)]. *)
Definition tagHit (name id : string) (tag : list string) : bool :=
  match tag with
  | t0 :: t1 :: _ => String.eqb t0 name && HasPrefix t1 id
  | _ => false
  end.

Definition MatchEtags (fil : option Filter) (event : Event) : bool :=
  match fil with
  | None => true
  | Some fil =>
      match Etags (FilterJSON_ fil) with
      | None => true
      | Some ids =>
          ContainsFunc ids (fun id => ContainsFunc (Tags (EventJSON_ event)) (tagHit "e" id))
      end
  end.

Definition MatchPtags (fil : option Filter) (event : Event) : bool :=
  match fil with
  | None => true
  | Some fil =>
      match Ptags (FilterJSON_ fil) with
      | None => true
      | Some ids =>
          ContainsFunc ids (fun id => ContainsFunc (Tags (EventJSON_ event)) (tagHit "p" id))
      end
  end.

Definition MatchSince (fil : option Filter) (event : Event) : bool :=
  match fil with
  | None => true
  | Some fil =>
      match Since (FilterJSON_ fil) with
      | None => true
      | Some since => CreatedAt (EventJSON_ event) >? since
      end
  end.

Definition MatchUntil (fil : option Filter) (event : Event) : bool :=
  match fil with
  | None => true
  | Some fil =>
      match Until (FilterJSON_ fil) with
      | None => true
      | Some until => CreatedAt (EventJSON_ event) <? until
      end
  end.

Definition Match (fil : option Filter) (event : Event) : bool :=
  MatchIDs fil event &&
  MatchAuthors fil event &&
  MatchKinds fil event &&
  MatchEtags fil event &&
  MatchPtags fil event &&
  MatchSince fil event &&
  MatchUntil fil event.

(** [Filters.Match]: the first matching filter decides. *)
Definition FiltersMatch (fils : list (option Filter)) (event : Event) : bool :=
  ContainsFunc fils (fun fil => Match fil event).

(** *** Counters *)

Record FilterCounter := mkFilterCounter {
  Filter_ : Filter;
  count : Z
}.

Definition NewFilterCounter (fil : Filter) : FilterCounter :=
  {| Filter_ := fil; count := 0 |}.

Definition Done (fil : FilterCounter) : bool :=
  match Limit (FilterJSON_ (Filter_ fil)) with
  | None => false
  | Some limit => count fil >=? limit
  end.

(** [FilterCounter.Match]: the result and the counter after the call. *)
Definition CounterMatch (fil : FilterCounter) (event : Event) : bool * FilterCounter :=
  if Done fil then (false, fil)
  else if Match (Some (Filter_ fil)) event
       then (true, {| Filter_ := Filter_ fil; count := wrap_int64 (count fil + 1) |})
       else (false, fil).

Definition NewFiltersCounter (fils : list Filter) : list FilterCounter :=
  map NewFilterCounter fils.

(** [FiltersCounter.Done]: false at the first member that is not done. *)
Fixpoint FiltersCounterDone (fils : list FilterCounter) : bool :=
  match fils with
  | [] => true
  | fil :: fils' => if negb (Done fil) then false else FiltersCounterDone fils'
  end.

(** [FiltersCounter.Match]: [res = fil.Match(event) || res]. *)
Fixpoint FiltersCounterLoop (fils : list FilterCounter) (event : Event) (res : bool)
    : bool * list FilterCounter :=
  match fils with
  | [] => (res, [])
  | fil :: fils' =>
      let rf := CounterMatch fil event in
      let rest := FiltersCounterLoop fils' event (rf.1 || res) in
      (rest.1, rf.2 :: rest.2)
  end.

Definition FiltersCounterMatch (fils : list FilterCounter) (event : Event)
    : bool * list FilterCounter :=
  FiltersCounterLoop fils event false.

End Main.

(** ** package main, earlier generation: entity.go's [NewFilter] *)

Module MainEntity.
Import Main.

Inductive error :=
  | ErrNilFilter
  | ErrTooShort (what : string)
  | ErrEmptyFilter
  | ErrFilterTooLong.

Definition anyShort (MinPrefix : Z) (field : option (list string)) : bool :=
  match field with
  | Some ids => ContainsFunc ids (fun id => len_string id <? MinPrefix)
  | None => false
  end.

(** A field that is nil or points to an empty slice. *)
Definition nilOrEmpty (field : option (list string)) : bool :=
  match field with
  | None => true
  | Some ids => len ids =? 0
  end.

Section Config.
Variable MinPrefix : Z.
Variable MaxFilters : Z.

Definition NewFilter (json : option FilterJSON) : Filter + error :=
  match json with
  | None => inr ErrNilFilter
  | Some json =>
      if anyShort MinPrefix (IDs json) then inr (ErrTooShort "too short id prefix")
      else if anyShort MinPrefix (Authors json) then inr (ErrTooShort "too short author id prefix")
      else if anyShort MinPrefix (Ptags json) then inr (ErrTooShort "too short ptag id prefix")
      else if anyShort MinPrefix (Etags json) then inr (ErrTooShort "too short etag id prefix")
      else if nilOrEmpty (IDs json) && nilOrEmpty (Authors json) &&
              nilOrEmpty (Ptags json) && nilOrEmpty (Etags json)
      then inr ErrEmptyFilter
      else inl {| FilterJSON_ := json |}
  end.

(** The loop [res[i], err = NewFilter(json); if err != nil { return nil, err }]. *)
Fixpoint NewFiltersLoop (jsons : list (option FilterJSON)) : list Filter + error :=
  match jsons with
  | [] => inl []
  | json :: jsons' =>
      match NewFilter json with
      | inr err => inr err
      | inl fil =>
          match NewFiltersLoop jsons' with
          | inr err => inr err
          | inl res => inl (fil :: res)
          end
      end
  end.

Definition NewFiltersFromFilterJSONs (jsons : list (option FilterJSON))
    : option (list Filter) * option error :=
  if len jsons >? wrap_int64 (MaxFilters + 2) then (None, Some ErrFilterTooLong)
  else match NewFiltersLoop jsons with
       | inr err => (None, Some err)
       | inl res => (Some res, None)
       end.

End Config.
End MainEntity.

(** ** Facts about package main's filters *)

Module MainFacts.
Import Main.

Lemma MatchSince_strict (fil : Filter) (event : Event) (since : Z) :
  Since (FilterJSON_ fil) = Some since ->
  MatchSince (Some fil) event = true <-> since < CreatedAt (EventJSON_ event).
Proof. intros Hs. unfold MatchSince. rewrite Hs, Z.gtb_ltb, Z.ltb_lt. done. Qed.

Lemma MatchUntil_strict (fil : Filter) (event : Event) (until : Z) :
  Until (FilterJSON_ fil) = Some until ->
  MatchUntil (Some fil) event = true <-> CreatedAt (EventJSON_ event) < until.
Proof. intros Hs. unfold MatchUntil. rewrite Hs, Z.ltb_lt. done. Qed.

Lemma tagHit_spec (name id : string) (tag : list string) :
  tagHit name id tag = true <->
  exists value rest, tag = name :: value :: rest /\ exists r, value = (id ++ r)%string.
Proof.
  unfold tagHit. destruct tag as [|t0 [|t1 rest]].
  - split; [done | intros (? & ? & ? & _); done].
  - split; [done | intros (? & ? & ? & _); done].
  - rewrite andb_true_iff, String.eqb_eq, HasPrefix_spec. split.
    + intros [-> Hp]. by exists t1, rest.
    + intros (value & rest' & [= -> -> ->] & Hp). done.
Qed.

(** A tag entry of the filter holds when some tag of the event carries the
    name and a value that begins with one of the listed strings. *)
Definition tagged (name : string) (ids : list string) (event : Event) : Prop :=
  exists id tag value rest r,
    id ∈ ids /\ tag ∈ Tags (EventJSON_ event) /\
    tag = name :: value :: rest /\ value = (id ++ r)%string.

Lemma tag_loops_spec (name : string) (ids : list string) (event : Event) :
  ContainsFunc ids (fun id => ContainsFunc (Tags (EventJSON_ event)) (tagHit name id)) = true
  <-> tagged name ids event.
Proof.
  rewrite ContainsFunc_true. unfold tagged. split.
  - intros (id & Hid & Hc). apply ContainsFunc_true in Hc as (tag & Htag & Hhit).
    apply tagHit_spec in Hhit as (value & rest & -> & r & ->).
    by exists id, (name :: (id ++ r)%string :: rest), (id ++ r)%string, rest, r.
  - intros (id & tag & value & rest & r & Hid & Htag & -> & ->).
    exists id. split; [done|]. apply ContainsFunc_true.
    eexists. split; [done|]. apply tagHit_spec. eauto.
Qed.

Lemma MatchEtags_spec (fil : Filter) (event : Event) (ids : list string) :
  Etags (FilterJSON_ fil) = Some ids ->
  MatchEtags (Some fil) event = true <-> tagged "e" ids event.
Proof. intros He. unfold MatchEtags. rewrite He. apply tag_loops_spec. Qed.

Lemma MatchPtags_spec (fil : Filter) (event : Event) (ids : list string) :
  Ptags (FilterJSON_ fil) = Some ids ->
  MatchPtags (Some fil) event = true <-> tagged "p" ids event.
Proof. intros He. unfold MatchPtags. rewrite He. apply tag_loops_spec. Qed.

(** *** Counters *)

Lemma CounterDone_iff (fil : FilterCounter) :
  Done fil = true <->
  exists limit, Limit (FilterJSON_ (Filter_ fil)) = Some limit /\ limit <= count fil.
Proof.
  unfold Done. destruct (Limit (FilterJSON_ (Filter_ fil))) as [limit|].
  - rewrite Z.geb_le. split; [intros Hl; by exists limit | intros (l & [= <-] & Hl); done].
  - split; [done | intros (l & Hl & _); done].
Qed.

(** A counter that is done refuses every event and keeps its count. *)
Lemma CounterMatch_done (fil : FilterCounter) (event : Event) :
  Done fil = true -> CounterMatch fil event = (false, fil).
Proof. intros Hd. unfold CounterMatch. by rewrite Hd. Qed.

(** A counter that is not done answers with its filter's predicate and
    counts the event when the answer is true. *)
Lemma CounterMatch_not_done (fil : FilterCounter) (event : Event) :
  Done fil = false ->
  CounterMatch fil event =
  (Match (Some (Filter_ fil)) event,
   if Match (Some (Filter_ fil)) event
   then {| Filter_ := Filter_ fil; count := wrap_int64 (count fil + 1) |}
   else fil).
Proof.
  intros Hd. unfold CounterMatch. rewrite Hd.
  by destruct (Match (Some (Filter_ fil)) event).
Qed.

Lemma CounterMatch_Filter (fil : FilterCounter) (event : Event) :
  Filter_ (CounterMatch fil event).2 = Filter_ fil.
Proof.
  unfold CounterMatch. destruct (Done fil); [done|].
  by destruct (Match (Some (Filter_ fil)) event).
Qed.

Lemma CounterMatch_Done_stays (fil : FilterCounter) (event : Event) :
  Done fil = true -> Done (CounterMatch fil event).2 = true.
Proof. intros Hd. by rewrite CounterMatch_done. Qed.

(** A sequence of [Match] calls on one counter. *)
Fixpoint counterRun (fil : FilterCounter) (events : list Event) : FilterCounter :=
  match events with
  | [] => fil
  | event :: events' => counterRun (CounterMatch fil event).2 events'
  end.

Lemma counterRun_Done_stays (events : list Event) (fil : FilterCounter) :
  Done fil = true -> Done (counterRun fil events) = true.
Proof.
  revert fil. induction events as [|event events IH]; intros fil Hd; cbn; [done|].
  apply IH. by apply CounterMatch_Done_stays.
Qed.

(** [FiltersCounter.Match] calls every member, answers with the
    disjunction of the members' answers and leaves every member as its own
    call left it. *)
Lemma FiltersCounterLoop_spec (fils : list FilterCounter) (event : Event) (res : bool) :
  FiltersCounterLoop fils event res =
  (existsb (fun fil => (CounterMatch fil event).1) fils || res,
   (fun fil => (CounterMatch fil event).2) <$> fils).
Proof.
  revert res. induction fils as [|fil fils IH]; intros res; cbn; [done|].
  rewrite IH. cbn. f_equal.
  by destruct (CounterMatch fil event).1, (existsb _ fils), res.
Qed.

Lemma FiltersCounterMatch_spec (fils : list FilterCounter) (event : Event) :
  FiltersCounterMatch fils event =
  (existsb (fun fil => (CounterMatch fil event).1) fils,
   (fun fil => (CounterMatch fil event).2) <$> fils).
Proof. unfold FiltersCounterMatch. by rewrite FiltersCounterLoop_spec, orb_false_r. Qed.

(** *** Building the filters of a subscription (req_filter.go) *)

Definition anyShort (MinPrefix : Z) (field : option (list string)) : bool :=
  match field with
  | Some ids => existsb (fun id => len_string id <? MinPrefix) ids
  | None => false
  end.

(** A filter with an [ids], [authors], [#p] or [#e] entry shorter than
    [MinPrefix]. *)
Definition hasShort (MinPrefix : Z) (json : FilterJSON) : bool :=
  anyShort MinPrefix (IDs json) || anyShort MinPrefix (Authors json) ||
  anyShort MinPrefix (Ptags json) || anyShort MinPrefix (Etags json).

(** The error [NewFilter] reports for such a filter. *)
Definition tooShort (MinPrefix : Z) (json : FilterJSON) : option error :=
  match NewFilter MinPrefix (Some json) with
  | inr e => Some e
  | inl _ => None
  end.

(** The errors an [errors.Join] chain holds. *)
Fixpoint joined (e : error) : list error :=
  match e with
  | joinError errs => concat (map joined errs)
  | e => [e]
  end.

Definition collected (errs : option error) : list error :=
  match errs with
  | Some e => joined e
  | None => []
  end.

Lemma firstShort_None (MinPrefix : Z) (l : list string) :
  firstShort MinPrefix l = None <-> existsb (fun id => len_string id <? MinPrefix) l = false.
Proof.
  induction l as [|id l IH]; cbn; [done|].
  destruct (len_string id <? MinPrefix); cbn; [done | exact IH].
Qed.

Lemma firstShort_Some (MinPrefix : Z) (l : list string) (n : Z) :
  firstShort MinPrefix l = Some n ->
  n < MinPrefix /\ exists id, id ∈ l /\ len_string id = n.
Proof.
  induction l as [|id l IH]; cbn; [done|].
  destruct (Z.ltb_spec (len_string id) MinPrefix) as [Hlt|_].
  - intros [= <-]. split; [done|]. exists id. split; [apply list_elem_of_here | done].
  - intros Hn. destruct (IH Hn) as (Hlt & id' & Hin & Hlen).
    split; [done|]. exists id'. split; [by apply list_elem_of_further | done].
Qed.

Lemma checkField_None (MinPrefix : Z) (what : string) (field : option (list string)) :
  checkField MinPrefix what field = None <-> anyShort MinPrefix field = false.
Proof.
  unfold checkField, anyShort. destruct field as [ids|]; [|done].
  rewrite <- firstShort_None. by destruct (firstShort MinPrefix ids).
Qed.

Lemma checkField_Some (MinPrefix : Z) (what : string) (field : option (list string)) (e : error) :
  checkField MinPrefix what field = Some e ->
  exists n, e = ReqFilterMinPrefixError what n /\ n < MinPrefix.
Proof.
  unfold checkField. destruct field as [ids|]; [|done].
  destruct (firstShort MinPrefix ids) as [n|] eqn:Hn; [|done].
  intros [= <-]. exists n. split; [done|]. by apply firstShort_Some in Hn as [? _].
Qed.

Lemma tooShort_None (MinPrefix : Z) (json : FilterJSON) :
  tooShort MinPrefix json = None <-> hasShort MinPrefix json = false.
Proof.
  unfold tooShort, NewFilter, hasShort.
  rewrite !orb_false_iff.
  rewrite <- (checkField_None MinPrefix "ids"), <- (checkField_None MinPrefix "authors"),
    <- (checkField_None MinPrefix "ptags"), <- (checkField_None MinPrefix "etags").
  destruct (checkField MinPrefix "ids" (IDs json)),
    (checkField MinPrefix "authors" (Authors json)),
    (checkField MinPrefix "ptags" (Ptags json)),
    (checkField MinPrefix "etags" (Etags json)); intuition congruence.
Qed.

Lemma tooShort_Some (MinPrefix : Z) (json : FilterJSON) (e : error) :
  tooShort MinPrefix json = Some e ->
  exists what n, e = ReqFilterMinPrefixError what n /\ n < MinPrefix.
Proof.
  unfold tooShort, NewFilter.
  destruct (checkField MinPrefix "ids" (IDs json)) eqn:H1.
  { intros [= <-]. exists "ids". by eapply checkField_Some. }
  destruct (checkField MinPrefix "authors" (Authors json)) eqn:H2.
  { intros [= <-]. exists "authors". by eapply checkField_Some. }
  destruct (checkField MinPrefix "ptags" (Ptags json)) eqn:H3.
  { intros [= <-]. exists "ptags". by eapply checkField_Some. }
  destruct (checkField MinPrefix "etags" (Etags json)) eqn:H4.
  { intros [= <-]. exists "etags". by eapply checkField_Some. }
  done.
Qed.

Lemma NewFilter_Some (MinPrefix : Z) (json : FilterJSON) :
  NewFilter MinPrefix (Some json) =
  match tooShort MinPrefix json with
  | Some e => inr e
  | None => inl {| FilterJSON_ := json |}
  end.
Proof.
  unfold tooShort, NewFilter.
  by destruct (checkField MinPrefix "ids" (IDs json)),
    (checkField MinPrefix "authors" (Authors json)),
    (checkField MinPrefix "ptags" (Ptags json)),
    (checkField MinPrefix "etags" (Etags json)).
Qed.

(** The filters [NewFilter] accepts, in the order given. *)
Definition accepted (MinPrefix : Z) (jsons : list FilterJSON) : list Filter :=
  mkFilter <$> List.filter (fun json => negb (hasShort MinPrefix json)) jsons.

(** The errors of the filters it refuses, in the order given. *)
Definition refusals (MinPrefix : Z) (jsons : list FilterJSON) : list error :=
  omap (tooShort MinPrefix) jsons.

Lemma NewFiltersLoop_spec (MinPrefix : Z) (jsons : list FilterJSON)
    (res : list Filter) (errs : option error) :
  NewFiltersLoop MinPrefix (Some <$> jsons) res errs =
  (Some (res ++ accepted MinPrefix jsons)%list,
   fold_left (fun acc e => errors_Join acc (Some e)) (refusals MinPrefix jsons) errs).
Proof.
  unfold accepted, refusals. revert res errs.
  induction jsons as [|json jsons IH]; intros res errs.
  - cbn. by rewrite app_nil_r.
  - cbn [fmap list_fmap NewFiltersLoop List.filter omap list_omap].
    rewrite NewFilter_Some.
    destruct (tooShort MinPrefix json) as [e|] eqn:Ht.
    + destruct (tooShort_Some _ _ _ Ht) as (what & n & -> & _).
      cbn [As_ReqFilterMinPrefixError].
      assert (hasShort MinPrefix json = true) as ->.
      { destruct (hasShort MinPrefix json) eqn:Hh; [done|].
        apply tooShort_None in Hh. congruence. }
      cbn [negb fold_left]. apply IH.
    + apply tooShort_None in Ht as ->. cbn [negb fmap list_fmap].
      rewrite IH. by rewrite <- app_assoc.
Qed.

Lemma collected_fold (es : list error) (errs : option error) :
  Forall (fun e => joined e = [e]) es ->
  collected (fold_left (fun acc e => errors_Join acc (Some e)) es errs) =
  (collected errs ++ es)%list.
Proof.
  intros Hes. revert errs. induction Hes as [|e es He _ IH]; intros errs; cbn [fold_left].
  - by rewrite app_nil_r.
  - rewrite IH. destruct errs as [a|]; cbn; rewrite He, ?app_nil_r.
    + by rewrite <- app_assoc.
    + done.
Qed.

Lemma refusals_joined (MinPrefix : Z) (jsons : list FilterJSON) :
  Forall (fun e => joined e = [e]) (refusals MinPrefix jsons).
Proof.
  unfold refusals. induction jsons as [|json jsons IH]; cbn; [constructor|].
  destruct (tooShort MinPrefix json) as [e|] eqn:Ht; [|done].
  constructor; [|done]. by destruct (tooShort_Some _ _ _ Ht) as (what & n & -> & _).
Qed.

(** [NewFiltersFromFilterJSONs] on a request within the length limit
    whose filter objects are all present: the filters without a short
    entry are returned, in order, and the error joins one "too short"
    error per refused filter. *)
Lemma NewFiltersFromFilterJSONs_collects (MinPrefix MaxFilters : Z)
    (jsons : list FilterJSON) :
  len jsons <= wrap_int64 (MaxFilters + 2) ->
  exists errs,
    NewFiltersFromFilterJSONs MinPrefix MaxFilters (Some <$> jsons) =
      (Some (accepted MinPrefix jsons), errs) /\
    collected errs = refusals MinPrefix jsons.
Proof.
  intros Hlen. unfold NewFiltersFromFilterJSONs, len in *. rewrite length_fmap.
  destruct (Z.gtb_spec (Z.of_nat (length jsons)) (wrap_int64 (MaxFilters + 2))); [lia|].
  rewrite NewFiltersLoop_spec. eexists. split; [done|].
  by rewrite collected_fold by apply refusals_joined.
Qed.

End MainFacts.

(** ** package mocrelay: messages and validation (data_structure.go, utils.go) *)

Module Mocrelay.

(** *** Library functions the validators call *)

Definition isDigit (b : ascii) : bool :=
  let n := nat_of_ascii b in (48 <=? n)%nat && (n <=? 57)%nat.

Definition digitVal (b : ascii) : Z := Z.of_nat (nat_of_ascii b) - 48.

(** The digits of [strconv.ParseUint(s, 10, 64)]; [None] is a syntax error. *)
Fixpoint parseDigits (s : string) (acc : Z) : option Z :=
  match s with
  | EmptyString => Some acc
  | String b s' => if isDigit b then parseDigits s' (10 * acc + digitVal b) else None
  end.

(** [strconv.ParseInt(s, 10, 64)]: an optional sign, at least one digit,
    a value in the int64 range; [None] is any error. *)
Definition ParseInt (s : string) : option Z :=
  match s with
  | EmptyString => None
  | String b s' =>
      let neg := Ascii.eqb b "-" in
      let s0 := if Ascii.eqb b "+" || neg then s' else s in
      match s0 with
      | EmptyString => None
      | _ =>
          un ← parseDigits s0 0;
          if neg then (if un >? 2 ^ 63 then None else Some (- un))
          else (if un >=? 2 ^ 63 then None else Some un)
      end
  end.

(** [strings.Split(s, ":")]: the pieces between the separators; one piece
    (the whole string) when there is none. *)
Fixpoint splitColon (s : string) : list string :=
  match s with
  | EmptyString => [EmptyString]
  | String b s' =>
      if Ascii.eqb b ":" then EmptyString :: splitColon s'
      else match splitColon s' with
           | piece :: pieces => String b piece :: pieces
           | [] => [String b EmptyString]
           end
  end.

(** *** utils.go *)

Definition isLowerHex (b : ascii) : bool :=
  let n := nat_of_ascii b in
  (48 <=? n)%nat && (n <=? 57)%nat || (97 <=? n)%nat && (n <=? 102)%nat.

(** The loop of [validHexString] ranges over the runes of [s].  Every rune
    it accepts is a single byte below 0x80, and a byte from 0x80 on is
    part of a rune it refuses, so the loop is the same test on every byte. *)
Fixpoint allLowerHex (s : string) : bool :=
  match s with
  | EmptyString => true
  | String b s' => if negb (isLowerHex b) then false else allLowerHex s'
  end.

Definition validHexString (s : string) : bool :=
  if len_string s =? 0 then false else allLowerHex s.

(** *** data_structure.go: events *)

Definition Tag := list string.

Record Event := mkEvent {
  ID : string;
  Pubkey : string;
  CreatedAt : Z;
  Kind : Z;
  Tags : option (list Tag);
  Content : string;
  Sig : string
}.

Definition validID (id : string) : bool := (len_string id =? 64) && validHexString id.

Definition validPubkey (pubkey : string) : bool :=
  (len_string pubkey =? 64) && validHexString pubkey.

(** [func validKind(kind int64) bool { return 0 <= kind || kind <= 65535 }]. *)
Definition validKind (kind : Z) : bool := (0 <=? kind) || (kind <=? 65535).

(** [len(tag) >= 1 && tag[0] != ""]. *)
Definition validTag (tag : Tag) : bool :=
  match tag with
  | [] => false
  | t0 :: _ => negb (String.eqb t0 "")
  end.

Definition validNaddr (naddr : string) : bool :=
  match splitColon naddr with
  | [e0; e1; _] =>
      match ParseInt e0 with
      | None => false
      | Some kind => if negb (validKind kind) then false else
                     if negb (validPubkey e1) then false else true
      end
  | _ => false
  end.

Definition validSig (sig : string) : bool := (len_string sig =? 128) && validHexString sig.

(** [Event.Valid]; the receiver is a pointer. *)
Definition EventValid (ev : option Event) : bool :=
  match ev with
  | None => false
  | Some ev =>
      validID (ID ev) &&
      validPubkey (Pubkey ev) &&
      validKind (Kind ev) &&
      match Tags ev with
      | None => false
      | Some tags => sliceAllFunc tags validTag && validSig (Sig ev)
      end
  end.

(** *** data_structure.go: request filters *)

Record ReqFilter := mkReqFilter {
  fIDs : option (list string);
  fAuthors : option (list string);
  fKinds : option (list Z);
  fTags : option (gmap string (option (list string)));
  fSince : option Z;
  fUntil : option Z;
  fLimit : option Z
}.

Definition isLetter (b : ascii) : bool :=
  let n := nat_of_ascii b in
  (65 <=? n)%nat && (n <=? 90)%nat || (97 <=? n)%nat && (n <=? 122)%nat.

(** The test on a key of the tag map:
    [len(tag) != 2 || tag[0] != '#' || !(letter tag[1])] refuses. *)
Definition validTagKey (tag : string) : bool :=
  match tag with
  | String c0 (String c1 EmptyString) => Ascii.eqb c0 "#" && isLetter c1
  | _ => false
  end.

(** One iteration of the loop over [fil.Tags]: [false] is [return]. *)
Definition validTagEntry (entry : string * option (list string)) : bool :=
  if negb (validTagKey entry.1) then false else
  match entry.2 with
  | None => false
  | Some vals =>
      if String.eqb entry.1 "#e" then sliceAllFunc vals validID
      else if String.eqb entry.1 "#p" then sliceAllFunc vals validPubkey
      else if String.eqb entry.1 "#a" then sliceAllFunc vals validNaddr
      else true
  end.

Definition optAll {A} (field : option A) (ok : A -> bool) : bool :=
  match field with
  | None => true
  | Some x => ok x
  end.

(** [ReqFilter.Valid]: every test that fails returns with [ok] still
    false; the order of the map iteration does not change the result. *)
Definition ReqFilterValid (fil : option ReqFilter) : bool :=
  match fil with
  | None => false
  | Some fil =>
      if negb (optAll (fIDs fil) (fun ids => sliceAllFunc ids validID)) then false else
      if negb (optAll (fAuthors fil) (fun ids => sliceAllFunc ids validPubkey)) then false else
      if negb (optAll (fKinds fil) (fun kinds => sliceAllFunc kinds validKind)) then false else
      if negb (optAll (fTags fil) (fun tags => forallb validTagEntry (map_to_list tags)))
      then false else
      if negb (optAll (fSince fil) (fun since => negb (since <? 0))) then false else
      if negb (optAll (fUntil fil) (fun until => negb (until <? 0))) then false else
      if match fSince fil, fUntil fil with
         | Some since, Some until => since >? until
         | _, _ => false
         end then false else
      if negb (optAll (fLimit fil) (fun limit => negb (limit <? 0))) then false else
      true
  end.

(** *** data_structure.go: [Event.UnmarshalJSON] *)

(** [anySliceAs[T](sli)] on a non-nil slice: every element must assert to
    [T]. *)
Definition anySliceAs {T} (as_T : json -> option T) (sli : list json) : option (list T) :=
  mapM as_T sli.

Definition orErr {A} (o : option A) (msg : string) : A + string :=
  match o with
  | Some a => inl a
  | None => inr msg
  end.

Notation "x <-? e ; k" :=
  (match e with inl x => k | inr err => inr err end)
  (at level 100, e at next level, k at level 200, right associativity,
   format "'[v' x  <-?  e ; '/' k ']'").

(** [dec.Decode(&obj)] into a [map[string]interface{}]: an object fills the
    map, [null] leaves it nil (empty), any other value is an error. *)
Definition decodeMap (b : json) : option (gmap string json) :=
  match b with
  | JObject members => Some (decodeObject members)
  | JNull => Some ∅
  | _ => None
  end.

Definition UnmarshalJSON (b : json) : Event + string :=
  obj <-? orErr (decodeMap b) "not a json object";
  if negb (Z.of_nat (size obj) =? 7) then inr "contains some extra fields" else
  tmp <-? orErr (obj !! "id") "id not found";
  id <-? orErr (asString tmp) "id is not a json string";
  tmp <-? orErr (obj !! "pubkey") "pubkey not found";
  pubkey <-? orErr (asString tmp) "pubkey is not a json string";
  tmp <-? orErr (obj !! "created_at") "created_at not found";
  tmpnum <-? orErr (asNumber tmp) "created_at is not a json number";
  created_at <-? orErr (ParseInt tmpnum) "created_at is not an integer";
  tmp <-? orErr (obj !! "kind") "kind not found";
  tmpnum <-? orErr (asNumber tmp) "kind is not a json number";
  kind <-? orErr (ParseInt tmpnum) "kind is not an integer";
  tmp <-? orErr (obj !! "tags") "tags not found";
  tmpSli <-? orErr (asArray tmp) "tags is not a json array";
  slisli <-? orErr (anySliceAs asArray tmpSli) "tags is not a array of json array";
  tags <-? orErr (mapM (anySliceAs asString) slisli) "tags is not string arrays of json array";
  tmp <-? orErr (obj !! "content") "content not found";
  content <-? orErr (asString tmp) "content is not a json string";
  tmp <-? orErr (obj !! "sig") "sig not found";
  sig <-? orErr (asString tmp) "sig is not a json string";
  inl {| ID := id; Pubkey := pubkey; CreatedAt := created_at; Kind := kind;
         Tags := Some tags; Content := content; Sig := sig |}.

End Mocrelay.

(** ** Validation of kinds *)

Module ValidFacts.
Import Mocrelay.

(** The event of the repository's tests (TestServerEventMsg_MarshalJSON),
    with the kind left open. *)
Definition testEvent (kind : Z) : Event :=
  {| ID := "49d58222bd85ddabfc19b8052d35bcce2bad8f1f3030c0bc7dc9f10dba82a8a2";
     Pubkey := "dbf0becf24bf8dd7d779d7fb547e6112964ff042b77a42cc2d8488636eed9f5e";
     CreatedAt := 1693157791;
     Kind := kind;
     Tags := Some [["e"; "d2ea747b6e3a35d2a8b759857b73fcaba5e9f3cfb6f38d317e034bddc0bf0d1c"; ""; "root"];
                   ["p"; "dbf0becf24bf8dd7d779d7fb547e6112964ff042b77a42cc2d8488636eed9f5e"]];
     Content := "powa";
     Sig := "795e51656e8b863805c41b3a6e1195ed63bf8c5df1fc3a4078cd45aaf0d8838f2dc57b802819443364e8e38c0f35c97e409181680bfff83e58949500f5a8f0c8" |}.

(** A filter that constrains nothing but the kinds. *)
Definition kindsFilter (kinds : list Z) : ReqFilter :=
  {| fIDs := None; fAuthors := None; fKinds := Some kinds; fTags := None;
     fSince := None; fUntil := None; fLimit := None |}.

(** The disjunction in [validKind] holds for every integer. *)
Lemma validKind_always (kind : Z) : validKind kind = true.
Proof.
  unfold validKind. destruct (Z.leb_spec 0 kind); [done|].
  destruct (Z.leb_spec kind 65535); [done | lia].
Qed.

Lemma sliceAllFunc_validKind (kinds : list Z) : sliceAllFunc kinds validKind = true.
Proof.
  rewrite sliceAllFunc_forallb. apply forallb_forall. intros k _. apply validKind_always.
Qed.

(** [Event.Valid] does not depend on the kind. *)
Lemma EventValid_any_kind (ev : Event) (kind : Z) :
  EventValid (Some {| ID := ID ev; Pubkey := Pubkey ev; CreatedAt := CreatedAt ev;
                      Kind := kind; Tags := Tags ev; Content := Content ev;
                      Sig := Sig ev |}) =
  EventValid (Some ev).
Proof. unfold EventValid. cbn. by rewrite !validKind_always. Qed.

(** [ReqFilter.Valid] accepts any list of kinds. *)
Lemma ReqFilterValid_any_kinds (kinds : list Z) :
  ReqFilterValid (Some (kindsFilter kinds)) = true.
Proof. unfold ReqFilterValid, kindsFilter. cbn. by rewrite sliceAllFunc_validKind. Qed.

End ValidFacts.

(** ** The fields of a parsed event (data_structure.go) *)

Module UnmarshalFacts.
Import Mocrelay.

Definition eventKeys : gset string :=
  {[ "id"; "pubkey"; "created_at"; "kind"; "tags"; "content"; "sig" ]}.

Lemma size_eventKeys : size eventKeys = 7%nat.
Proof. reflexivity. Qed.

Lemma dom_fold_insert (members : list (string * json)) (obj : gmap string json) :
  dom (fold_left (fun obj kv => <[kv.1 := kv.2]> obj) members obj) =
  dom obj ∪ list_to_set members.*1.
Proof.
  revert obj. induction members as [|[k v] members IH]; intros obj; cbn.
  - set_solver.
  - rewrite IH, dom_insert_L. set_solver.
Qed.

(** The keys of the decoded map are the member names of the object. *)
Lemma dom_decodeObject (members : list (string * json)) :
  dom (decodeObject members) = list_to_set members.*1.
Proof. unfold decodeObject. rewrite dom_fold_insert. set_solver. Qed.

Ltac step_unmarshal H :=
  match type of H with
  | context [orErr ?o _] =>
      let E := fresh "E" in
      destruct o eqn:E; cbn [orErr] in H; [|discriminate H]
  end.

(** A successful parse has consumed a JSON object whose member names are
    exactly the seven field names. *)
Lemma UnmarshalJSON_fields (b : json) (ev : Event) :
  UnmarshalJSON b = inl ev ->
  exists members, b = JObject members /\ dom (decodeObject members) = eventKeys.
Proof.
  intros H. unfold UnmarshalJSON in H.
  step_unmarshal H.
  destruct (Z.eqb_spec (Z.of_nat (size g)) 7) as [Hsz|]; cbn [negb] in H; [|done].
  assert (eventKeys ⊆ dom g) as Hsub.
  { repeat step_unmarshal H.
    unfold eventKeys. repeat apply union_least; apply singleton_subseteq_l;
      apply elem_of_dom; eauto. }
  assert (dom g = eventKeys) as Hdom.
  { symmetry. apply set_subseteq_size_eq; [done|].
    rewrite size_dom, size_eventKeys. lia. }
  destruct b as [| | | | |members]; try discriminate E.
  - cbn in E. injection E as <-. rewrite map_size_empty in Hsz. done.
  - cbn in E. injection E as <-. by exists members.
Qed.

(** An object with a member outside the seven fields is refused. *)
Lemma UnmarshalJSON_unknown_field (members : list (string * json)) (k : string) :
  k ∈ members.*1 -> k ∉ eventKeys ->
  exists err, UnmarshalJSON (JObject members) = inr err.
Proof.
  intros Hk Hnot. destruct (UnmarshalJSON (JObject members)) as [ev|err] eqn:Hu; [|by exists err].
  apply UnmarshalJSON_fields in Hu as (members' & [= <-] & Hdom).
  rewrite dom_decodeObject in Hdom. exfalso. apply Hnot. rewrite <- Hdom.
  by apply elem_of_list_to_set.
Qed.

End UnmarshalFacts.

(** ** package main: [ParseEventJSON] (entity.go) *)

Module MainJSON.
Import Main.

(** [ji.Unmarshal(json, &ev)] is json-iterator's decoder in the
    configuration that behaves as [encoding/json].  Its code is not part
    of the repository; the model follows the documented behaviour of
    decoding an object into a struct: a member is matched to the field
    whose tag equals its name, letter case ignored; a member that matches
    no field is skipped; [null] leaves a field as it is; a value of the
    wrong type is an error. *)
Inductive field := FID | FPubkey | FCreatedAt | FKind | FTags | FContent | FSig.

Definition lowerByte (b : ascii) : ascii :=
  let n := nat_of_ascii b in
  if (65 <=? n)%nat && (n <=? 90)%nat then ascii_of_nat (n + 32) else b.

Fixpoint lowerString (s : string) : string :=
  match s with
  | EmptyString => EmptyString
  | String b s' => String (lowerByte b) (lowerString s')
  end.

Definition fieldOf (name : string) : option field :=
  let name := lowerString name in
  if String.eqb name "id" then Some FID
  else if String.eqb name "pubkey" then Some FPubkey
  else if String.eqb name "created_at" then Some FCreatedAt
  else if String.eqb name "kind" then Some FKind
  else if String.eqb name "tags" then Some FTags
  else if String.eqb name "content" then Some FContent
  else if String.eqb name "sig" then Some FSig
  else None.

Definition decodeString (v : json) (old : string) : option string :=
  match v with
  | JString s => Some s
  | JNull => Some old
  | _ => None
  end.

Definition decodeInt (v : json) (old : Z) : option Z :=
  match v with
  | JNumber literal => Mocrelay.ParseInt literal
  | JNull => Some old
  | _ => None
  end.

Definition decodeStrings (v : json) : option (list string) :=
  match v with
  | JArray elems => mapM (fun e => decodeString e EmptyString) elems
  | JNull => Some []
  | _ => None
  end.

Definition decodeTags (v : json) (old : list (list string)) : option (list (list string)) :=
  match v with
  | JArray elems => mapM decodeStrings elems
  | JNull => Some old
  | _ => None
  end.

Definition setField (ev : EventJSON) (fld : field) (v : json) : option EventJSON :=
  match fld with
  | FID => s ← decodeString v (ID ev);
      Some {| ID := s; Pubkey := Pubkey ev; CreatedAt := CreatedAt ev; Kind := Kind ev;
              Tags := Tags ev; Content := Content ev; Sig := Sig ev; Raw := Raw ev |}
  | FPubkey => s ← decodeString v (Pubkey ev);
      Some {| ID := ID ev; Pubkey := s; CreatedAt := CreatedAt ev; Kind := Kind ev;
              Tags := Tags ev; Content := Content ev; Sig := Sig ev; Raw := Raw ev |}
  | FCreatedAt => n ← decodeInt v (CreatedAt ev);
      Some {| ID := ID ev; Pubkey := Pubkey ev; CreatedAt := n; Kind := Kind ev;
              Tags := Tags ev; Content := Content ev; Sig := Sig ev; Raw := Raw ev |}
  | FKind => n ← decodeInt v (Kind ev);
      Some {| ID := ID ev; Pubkey := Pubkey ev; CreatedAt := CreatedAt ev; Kind := n;
              Tags := Tags ev; Content := Content ev; Sig := Sig ev; Raw := Raw ev |}
  | FTags => t ← decodeTags v (Tags ev);
      Some {| ID := ID ev; Pubkey := Pubkey ev; CreatedAt := CreatedAt ev; Kind := Kind ev;
              Tags := t; Content := Content ev; Sig := Sig ev; Raw := Raw ev |}
  | FContent => s ← decodeString v (Content ev);
      Some {| ID := ID ev; Pubkey := Pubkey ev; CreatedAt := CreatedAt ev; Kind := Kind ev;
              Tags := Tags ev; Content := s; Sig := Sig ev; Raw := Raw ev |}
  | FSig => s ← decodeString v (Sig ev);
      Some {| ID := ID ev; Pubkey := Pubkey ev; CreatedAt := CreatedAt ev; Kind := Kind ev;
              Tags := Tags ev; Content := Content ev; Sig := s; Raw := Raw ev |}
  end.

Fixpoint decodeMembers (members : list (string * json)) (ev : EventJSON) : option EventJSON :=
  match members with
  | [] => Some ev
  | (name, v) :: members' =>
      match fieldOf name with
      | None => decodeMembers members' ev
      | Some fld => ev' ← setField ev fld v; decodeMembers members' ev'
      end
  end.

Definition Unmarshal (v : json) (ev : EventJSON) : option EventJSON :=
  match v with
  | JObject members => decodeMembers members ev
  | JNull => Some ev
  | _ => None
  end.

(** [var ev EventJSON]: the zero value. *)
Definition zeroEventJSON : EventJSON :=
  {| ID := ""; Pubkey := ""; CreatedAt := 0; Kind := 0; Tags := [];
     Content := ""; Sig := ""; Raw := "" |}.

(** entity.go: [ParseEventJSON]; [raw] is the text of [json]. *)
Definition ParseEventJSON (raw : string) (json_ : json) : EventJSON + string :=
  match Unmarshal json_ zeroEventJSON with
  | None => inr "failed to unmarshal event json"
  | Some ev =>
      inl {| ID := ID ev; Pubkey := Pubkey ev; CreatedAt := CreatedAt ev; Kind := Kind ev;
             Tags := Tags ev; Content := Content ev; Sig := Sig ev; Raw := raw |}
  end.

(** Members that match no field do not change the outcome. *)
Lemma decodeMembers_skips_unknown (members : list (string * json)) (ev : EventJSON) :
  decodeMembers (List.filter (fun kv => bool_decide (is_Some (fieldOf kv.1))) members) ev =
  decodeMembers members ev.
Proof.
  revert ev. induction members as [|[name v] members IH]; intros ev; cbn; [done|].
  destruct (fieldOf name) as [fld|] eqn:Hf; cbn.
  - rewrite Hf. destruct (setField ev fld v); cbn; [apply IH | done].
  - apply IH.
Qed.

End MainJSON.

(** ** package main: the relay's handling of an EVENT message (relay.go) *)

Module Relay.
Import Main.

(** entity.go: the messages a server can send. *)
Inductive ServerMsg :=
  | ServerEventMsg (SubscriptionID : string) (event : EventJSON)
  | ServerEOSEMsg (SubscriptionID : string)
  | ServerNoticeMsg (Message : string)
  | ServerOKMsg (EventID : string) (Succeeded : bool) (MessagePrefix Message : string).

Definition ServerOKMsgPrefixInvalid : string := "invalid: ".

(** [hex.DecodeString]: pairs of hexadecimal digits of either case; an odd
    length or another byte is an error. *)
Definition fromHexChar (b : ascii) : option nat :=
  let n := nat_of_ascii b in
  if (48 <=? n)%nat && (n <=? 57)%nat then Some (n - 48)%nat
  else if (97 <=? n)%nat && (n <=? 102)%nat then Some (n - 87)%nat
  else if (65 <=? n)%nat && (n <=? 70)%nat then Some (n - 55)%nat
  else None.

Fixpoint hex_DecodeString (s : string) : option string :=
  match s with
  | EmptyString => Some EmptyString
  | String _ EmptyString => None
  | String a (String b s') =>
      hi ← fromHexChar a;
      lo ← fromHexChar b;
      rest ← hex_DecodeString s';
      Some (String (ascii_of_nat (16 * hi + lo)) rest)
  end.

(** [time.Until(t)] is a [Duration]: nanoseconds, saturating at the ends
    of the int64 range. *)
Definition saturate (d : Z) : Z := Z.max int64_min (Z.min int64_max d).

Definition Minute : Z := 60 * 1000000000.

(** [Event.ValidCreatedAt], with the clock reading [now] in nanoseconds
    since the epoch. *)
Definition ValidCreatedAt (now : Z) (e : Event) : bool :=
  let sub := saturate (CreatedAt (EventJSON_ e) * 1000000000 - now) in
  (-10 * Minute <=? sub) && (sub <=? 5 * Minute).

Inductive serveError :=
  | ErrVerify
  | ErrInvalidSignature
  | ErrInvalidCreatedAt
  | ErrPublish.

Section Collaborators.
(** What lies outside these files: the JSON encoder behind [Serialize],
    SHA-256, the Schnorr library, and the cache and the router.  [World]
    is the state of the cache and the router; [Publish] may also queue
    messages on the send channel of the connection, which the router
    holds for the connection's subscriptions. *)
Variable Serialize : EventJSON -> option string.
Variable sha256 : string -> string.
Variable PubKey Signature : Type.
Variable ParsePubKey : string -> option PubKey.
Variable ParseSignature : string -> option Signature.
Variable sigVerify : Signature -> string -> PubKey -> bool.
Variable World : Type.
Variable Save : Event -> World -> World.
Variable Publish : Event -> World -> list ServerMsg -> World * list ServerMsg * bool.

(** entity.go: [EventJSON.Verify]; the second component is [err != nil]. *)
Definition Verify (e : option EventJSON) : bool * bool :=
  match e with
  | None => (false, true)
  | Some e =>
      match Serialize e with
      | None => (false, true)
      | Some ser =>
          let hash := sha256 ser in
          match hex_DecodeString (ID e) with
          | None => (false, true)
          | Some idBin =>
              if negb (String.eqb hash idBin) then (false, false) else
              match hex_DecodeString (Pubkey e) with
              | None => (false, true)
              | Some pKeyBin =>
                  match ParsePubKey pKeyBin with
                  | None => (false, true)
                  | Some pKey =>
                      match hex_DecodeString (Sig e) with
                      | None => (false, true)
                      | Some sigBin =>
                          match ParseSignature sigBin with
                          | None => (false, true)
                          | Some sig => (sigVerify sig hash pKey, false)
                          end
                      end
                  end
              end
          end
      end
  end.

(** The state around the handler: the cache and the router, the messages
    queued on the connection's send channel, and the counter
    [promEventCounter]. *)
Record State := mkState {
  world : World;
  sender : list ServerMsg;
  promEventCounter : Z
}.

(** relay.go: [serveClientEventMsgJSON]; [msg] is the message's
    [EventJSON] pointer, [now] the reading of [time.Now()]. *)
Definition serveClientEventMsgJSON (now : Z) (st : State) (msg : option EventJSON)
    : State * option serveError :=
  match Verify msg, msg with
  | (_, true), _ => (st, Some ErrVerify)
  | (false, false), _ => (st, Some ErrInvalidSignature)
  | (true, false), None => (st, Some ErrVerify)
  | (true, false), Some json =>
      let st := {| world := world st; sender := sender st;
                   promEventCounter := promEventCounter st + 1 |} in
      let event := {| EventJSON_ := json; ReceivedAt := now |} in
      if negb (ValidCreatedAt now event) then (st, Some ErrInvalidCreatedAt) else
      let st := {| world := Save event (world st); sender := sender st;
                   promEventCounter := promEventCounter st |} in
      let '(w, queued, failed) := Publish event (world st) (sender st) in
      let st := {| world := w; sender := queued;
                   promEventCounter := promEventCounter st |} in
      if failed then (st, Some ErrPublish) else (st, None)
  end.

(** relay.go: the [*ClientEventMsgJSON] case of the receiver loop.  An
    error is written to the log and the loop continues; the handler is
    not given the send channel. *)
Definition receiveEventMsg (now : Z) (st : State) (logStderr : list serveError)
    (msg : option EventJSON) : State * list serveError :=
  match serveClientEventMsgJSON now st msg with
  | (st', Some err) => (st', logStderr ++ [err])
  | (st', None) => (st', logStderr)
  end.

End Collaborators.
End Relay.

(** ** Facts about the EVENT handler *)

Module RelayFacts.
Import Main Relay.

Section Collaborators.
Variable Serialize : EventJSON -> option string.
Variable sha256 : string -> string.
Variable PubKey Signature : Type.
Variable ParsePubKey : string -> option PubKey.
Variable ParseSignature : string -> option Signature.
Variable sigVerify : Signature -> string -> PubKey -> bool.
Variable World : Type.
Variable Save : Event -> World -> World.
Variable Publish : Event -> World -> list ServerMsg -> World * list ServerMsg * bool.

Abbreviation Verify := (Verify Serialize sha256 PubKey Signature ParsePubKey ParseSignature sigVerify).
Abbreviation serve := (serveClientEventMsgJSON Serialize sha256 PubKey Signature ParsePubKey
                     ParseSignature sigVerify World Save Publish).
Abbreviation receive := (receiveEventMsg Serialize sha256 PubKey Signature ParsePubKey
                       ParseSignature sigVerify World Save Publish).

(** An identifier that decodes but is not the hash fails verification. *)
Lemma Verify_wrong_id (e : EventJSON) (ser idBin : string) :
  Serialize e = Some ser ->
  hex_DecodeString (ID e) = Some idBin ->
  String.eqb (sha256 ser) idBin = false ->
  Verify (Some e) = (false, false).
Proof. intros Hs Hi Hne. unfold Relay.Verify. by rewrite Hs, Hi, Hne. Qed.

(** A signature that the Schnorr check refuses fails verification. *)
Lemma Verify_wrong_sig (e : EventJSON) (ser idBin pKeyBin sigBin : string)
    (pKey : PubKey) (sig : Signature) :
  Serialize e = Some ser ->
  hex_DecodeString (ID e) = Some idBin ->
  String.eqb (sha256 ser) idBin = true ->
  hex_DecodeString (Pubkey e) = Some pKeyBin ->
  ParsePubKey pKeyBin = Some pKey ->
  hex_DecodeString (Sig e) = Some sigBin ->
  ParseSignature sigBin = Some sig ->
  sigVerify sig (sha256 ser) pKey = false ->
  Verify (Some e) = (false, false).
Proof.
  intros Hs Hi He Hp Hpk Hsg Hsig Hv. unfold Relay.Verify.
  by rewrite Hs, Hi, He, Hp, Hpk, Hsg, Hsig, Hv.
Qed.

(** When verification does not succeed the handler returns an error and
    leaves the state as it was. *)
Lemma serve_unverified (now : Z) (st : State World) (msg : option EventJSON) :
  Verify msg <> (true, false) ->
  exists err, serve now st msg = (st, Some err) /\
              (err = ErrVerify \/ err = ErrInvalidSignature).
Proof.
  intros Hv. unfold serveClientEventMsgJSON.
  destruct (Verify msg) as [[|] [|]]; [| done | |].
  - exists ErrVerify. split; [done | by left].
  - exists ErrVerify. split; [done | by left].
  - exists ErrInvalidSignature. split; [done | by right].
Qed.

Lemma receive_unverified (now : Z) (st : State World) (logStderr : list serveError)
    (msg : option EventJSON) :
  Verify msg <> (true, false) ->
  exists err, receive now st logStderr msg = (st, logStderr ++ [err]) /\
              (err = ErrVerify \/ err = ErrInvalidSignature).
Proof.
  intros Hv. destruct (serve_unverified now st msg Hv) as (err & Hs & He).
  exists err. split; [|done]. unfold receiveEventMsg. by rewrite Hs.
Qed.

End Collaborators.
End RelayFacts.

(** ** package mocrelay: the random-evict cache (data_structure.go) *)

Module RandCache.

Section RandCache.
(** [K comparable, V any]; [zeroK] is the zero value of [K]. *)
Context {K V : Type} `{Countable K}.
Variable zeroK : K.

Record randCache := mkRandCache {
  Cap : Z;
  c : gmap K V
}.

Definition newRandCache (capacity : Z) : randCache :=
  {| Cap := capacity; c := ∅ |}.

(** [v, found = c.c[key]]: [None] is [found == false]. *)
Definition Get (cache : randCache) (key : K) : option V := c cache !! key.

(** [var k K; for k = range c.c { break }]: the first key the iteration
    yields, or the zero value when the map is empty.  Go starts a map
    iteration at an arbitrary entry; [pick] says which one. *)
Definition rangeFirst (pick : nat) (m : gmap K V) : K :=
  nth (pick mod length (map_to_list m)) (map_to_list m).*1 zeroK.

(** [Set]: the result [added] and the cache after the call. *)
Definition Set_ (cache : randCache) (key : K) (value : V) (pick : nat)
    : bool * randCache :=
  match c cache !! key with
  | Some _ => (false, cache)
  | None =>
      let m := c cache in
      let m := if Z.of_nat (size m) >=? Cap cache
               then delete (rangeFirst pick m) m
               else m in
      (true, {| Cap := Cap cache; c := <[key := value]> m |})
  end.

(** The operations of a client, with the choice made by each iteration. *)
Inductive op :=
  | OpSet (key : K) (value : V) (pick : nat)
  | OpGet (key : K).

Definition apply (cache : randCache) (o : op) : randCache :=
  match o with
  | OpSet key value pick => (Set_ cache key value pick).2
  | OpGet key => cache
  end.

Definition run (cache : randCache) (ops : list op) : randCache :=
  fold_left apply ops cache.

(** *** Facts *)

Lemma rangeFirst_elem (pick : nat) (m : gmap K V) :
  m <> ∅ -> is_Some (m !! rangeFirst pick m).
Proof.
  intros Hne. unfold rangeFirst.
  assert (length (map_to_list m) <> 0%nat) as Hlen.
  { rewrite length_map_to_list. by apply map_size_non_empty_iff. }
  assert (nth (pick mod length (map_to_list m)) (map_to_list m).*1 zeroK
            ∈ (map_to_list m).*1) as Hin.
  { apply list_elem_of_In, nth_In. rewrite length_fmap.
    by apply Nat.mod_upper_bound. }
  apply list_elem_of_fmap in Hin as ([k v] & -> & Hkv).
  apply elem_of_map_to_list in Hkv. by exists v.
Qed.

Lemma Set_present (cache : randCache) (key : K) (value old : V) (pick : nat) :
  c cache !! key = Some old -> Set_ cache key value pick = (false, cache).
Proof. intros Hk. unfold Set_. by rewrite Hk. Qed.

Lemma Set_Cap (cache : randCache) (key : K) (value : V) (pick : nat) :
  Cap (Set_ cache key value pick).2 = Cap cache.
Proof. unfold Set_. by destruct (c cache !! key). Qed.

Lemma Set_size (cache : randCache) (key : K) (value : V) (pick : nat) :
  1 <= Cap cache ->
  Z.of_nat (size (c cache)) <= Cap cache ->
  Z.of_nat (size (c (Set_ cache key value pick).2)) <= Cap cache.
Proof.
  intros Hcap Hinv. unfold Set_.
  destruct (c cache !! key) as [old|] eqn:Hk; [done|]. cbn [snd c].
  destruct (Z.geb_spec (Z.of_nat (size (c cache))) (Cap cache)) as [Hfull|Hroom].
  - assert (c cache <> ∅) as Hne.
    { apply map_size_non_empty_iff. lia. }
    destruct (rangeFirst_elem pick (c cache) Hne) as [v Hv].
    rewrite map_size_insert_None.
    + rewrite map_size_delete_Some by done.
      assert (size (c cache) <> 0%nat) by (by apply map_size_non_empty_iff). lia.
    + rewrite lookup_delete_ne; [done|]. intros Heq. rewrite Heq in Hv. congruence.
  - rewrite map_size_insert_None by done. lia.
Qed.

Lemma run_Cap (ops : list op) (cache : randCache) : Cap (run cache ops) = Cap cache.
Proof.
  revert cache. induction ops as [|o ops IH]; intros cache; cbn; [done|].
  unfold run in IH. rewrite IH. destruct o; cbn; [apply Set_Cap | done].
Qed.

Lemma run_size (ops : list op) (cache : randCache) :
  1 <= Cap cache ->
  Z.of_nat (size (c cache)) <= Cap cache ->
  Z.of_nat (size (c (run cache ops))) <= Cap cache.
Proof.
  revert cache. induction ops as [|o ops IH]; intros cache Hcap Hinv; cbn; [done|].
  unfold run in IH. destruct o as [key value pick|key]; cbn.
  - rewrite <- (Set_Cap cache key value pick). apply IH.
    + by rewrite Set_Cap.
    + rewrite Set_Cap. by apply Set_size.
  - by apply IH.
Qed.

End RandCache.
End RandCache.

(** ** package mocrelay: the skip list, used by one goroutine (data_structure.go)

    Nodes live in a heap indexed by addresses; a nil pointer is [None].
    The locks are left out: with one goroutine they are always free.  The
    inner loops follow [Nexts] pointers and take a bound [fuel] on the
    number of steps; [None] as a result means that the call did not
    return a value within the bound, or panicked. *)

Module SkipList.

Definition skipListMaxHeight : nat := 16.

(** Addresses of nodes. *)
Abbreviation ptr := nat (only parsing).

(** [bits.LeadingZeros16(x)] for [0 <= x < 2^16]. *)
Definition LeadingZeros16 (x : Z) : Z :=
  if x =? 0 then 16 else 15 - Z.log2 x.

(** [bits.LeadingZeros16(uint16(n|1)) + 1] for the draw [n] of
    [rnd.Uint32()]. *)
Definition heightOf (n : Z) : nat :=
  Z.to_nat (LeadingZeros16 (Z.lor n 1 mod 2 ^ 16) + 1).

Section SkipList.
(** [K any, V any] with their zero values, and the list's [Cmp]. *)
Context {K V : Type}.
Variable zeroK : K.
Variable zeroV : V.
Variable Cmp : K -> K -> Z.

Record skipListNode := mkNode {
  nodeK : K;
  nodeV : V;
  Nexts : list (option ptr)
}.

(** [rnd] is the sequence of values the list's generator yields, [rndPos]
    how many have been drawn; [brk] is the next free address. *)
Record skipList := mkSkipList {
  heap : gmap ptr skipListNode;
  Head : ptr;
  len : Z;
  rnd : nat -> Z;
  rndPos : nat;
  brk : ptr
}.

Definition newSkipList (rnd : nat -> Z) : skipList :=
  {| heap := {[ 0%nat := {| nodeK := zeroK; nodeV := zeroV;
                            Nexts := replicate skipListMaxHeight None |} ]};
     Head := 0%nat; len := 0; rnd := rnd; rndPos := 0%nat; brk := 1%nat |}.

Definition Len (l : skipList) : Z := len l.

(** *** Find *)

(** The inner loop of [Find] at level [h], from [node]. *)
Fixpoint findAdvance (fuel : nat) (hp : gmap ptr skipListNode) (k : K) (h : nat)
    (node : ptr) : option ptr :=
  match fuel with
  | O => None
  | S fuel' =>
      n ← hp !! node;
      next ← Nexts n !! h;
      match next with
      | None => Some node
      | Some next =>
          nn ← hp !! next;
          if Cmp (nodeK nn) k >? 0 then Some node
          else findAdvance fuel' hp k h next
      end
  end.

(** The outer loop of [Find] over the levels [levels - 1 ... 0].  The
    value is [Some v] for [(v, true)] and [None] for [(zero, false)]. *)
Fixpoint findLevels (fuel : nat) (hp : gmap ptr skipListNode) (head : ptr) (k : K)
    (levels : nat) (node : ptr) : option (option V) :=
  match levels with
  | O => Some None
  | S h =>
      node ← findAdvance fuel hp k h node;
      n ← hp !! node;
      if Cmp (nodeK n) k =? 0 then
        if Nat.eqb node head then Some None else Some (Some (nodeV n))
      else findLevels fuel hp head k h node
  end.

Definition Find (fuel : nat) (l : skipList) (k : K) : option (option V) :=
  findLevels fuel (heap l) (Head l) k skipListMaxHeight (Head l).

(** *** Add *)

Record skipListStackEntry := mkEntry {
  node : option ptr;
  nexts : list (option ptr)
}.

Definition zeroEntry : skipListStackEntry := {| node := None; nexts := [] |}.

(** The inner loop of [tryAdd] and [tryDelete] at level [h]: the node it
    stops at, the copy of its [Nexts], and [next]. *)
Fixpoint seekAdvance (fuel : nat) (hp : gmap ptr skipListNode) (k : K) (h : nat)
    (node : ptr) : option (ptr * list (option ptr) * option ptr) :=
  match fuel with
  | O => None
  | S fuel' =>
      n ← hp !! node;
      let nexts := Nexts n in
      next ← nexts !! h;
      match next with
      | None => Some (node, nexts, None)
      | Some nx =>
          nn ← hp !! nx;
          if Cmp (nodeK nn) k >=? 0 then Some (node, nexts, Some nx)
          else seekAdvance fuel' hp k h nx
      end
  end.

(** [next != nil && l.Cmp(next.K, k) == 0]. *)
Definition hits (hp : gmap ptr skipListNode) (k : K) (next : option ptr) : option bool :=
  match next with
  | None => Some false
  | Some nx => nn ← hp !! nx; Some (Cmp (nodeK nn) k =? 0)
  end.

(** The outer loop of [tryAdd]: [None] inside is the early
    [return false, true], otherwise the filled [switched]. *)
Fixpoint addLevels (fuel : nat) (hp : gmap ptr skipListNode) (k : K) (levels : nat)
    (node : ptr) (switched : list skipListStackEntry)
    : option (option (list skipListStackEntry)) :=
  match levels with
  | O => Some (Some switched)
  | S h =>
      r ← seekAdvance fuel hp k h node;
      let '(node, nexts, next) := r in
      hit ← hits hp k next;
      if hit : bool then Some None
      else addLevels fuel hp k h node
             (<[h := {| node := Some node; nexts := nexts |}]> switched)
  end.

(** The first loop of [tryAddInsert] and [tryDeleteRemove]: every
    recorded node still has the [Nexts] that were copied. *)
Fixpoint unchanged (hp : gmap ptr skipListNode) (switched : list skipListStackEntry)
    (skipNil : bool) (levels : nat) : option bool :=
  match levels with
  | O => Some true
  | S h =>
      e ← switched !! h;
      match node e with
      | None => if skipNil then unchanged hp switched skipNil h else None
      | Some nd =>
          n ← hp !! nd;
          if bool_decide (Nexts n = nexts e) then unchanged hp switched skipNil h
          else Some false
      end
  end.

Definition setNext (hp : gmap ptr skipListNode) (nd : ptr) (h : nat) (next : option ptr)
    : option (gmap ptr skipListNode) :=
  n ← hp !! nd;
  _ ← Nexts n !! h;
  Some (<[nd := {| nodeK := nodeK n; nodeV := nodeV n;
                   Nexts := <[h := next]> (Nexts n) |}]> hp).

(** The second loop of [tryAddInsert]. *)
Fixpoint link (hp : gmap ptr skipListNode) (switched : list skipListStackEntry)
    (newNode : ptr) (levels : nat) : option (gmap ptr skipListNode) :=
  match levels with
  | O => Some hp
  | S h =>
      e ← switched !! h;
      nd ← node e;
      n ← hp !! nd;
      next ← Nexts n !! h;
      hp ← setNext hp newNode h next;
      hp ← setNext hp nd h (Some newNode);
      link hp switched newNode h
  end.

(** [tryAdd] with [tryAddInsert] and [newHeight]: [(added, ok)] and the
    list after the call. *)
Definition tryAdd (fuel : nat) (l : skipList) (k : K) (v : V)
    : option (bool * bool * skipList) :=
  found ← addLevels fuel (heap l) k skipListMaxHeight (Head l)
            (replicate skipListMaxHeight zeroEntry);
  match found with
  | None => Some (false, true, l)
  | Some switched =>
      let height := heightOf (rnd l (rndPos l)) in
      let newNode := brk l in
      let hp := <[newNode := {| nodeK := k; nodeV := v;
                                Nexts := replicate height None |}]> (heap l) in
      let l := {| heap := hp; Head := Head l; len := len l; rnd := rnd l;
                  rndPos := S (rndPos l); brk := S (brk l) |} in
      same ← unchanged hp switched false height;
      if same : bool then
        hp ← link hp switched newNode height;
        Some (true, true,
              {| heap := hp; Head := Head l; len := len l; rnd := rnd l;
                 rndPos := rndPos l; brk := brk l |})
      else Some (true, false, l)
  end.

Definition addLen (l : skipList) (d : Z) : skipList :=
  {| heap := heap l; Head := Head l; len := wrap_int64 (len l + d); rnd := rnd l;
     rndPos := rndPos l; brk := brk l |}.

(** [Add]: the loop retries until [tryAdd] reports [ok]; [tries] bounds
    the number of attempts. *)
Fixpoint Add (tries fuel : nat) (l : skipList) (k : K) (v : V)
    : option (bool * skipList) :=
  match tries with
  | O => None
  | S tries' =>
      r ← tryAdd fuel l k v;
      let '(added, ok, l) := r in
      if ok : bool then Some (added, if added : bool then addLen l 1 else l)
      else Add tries' fuel l k v
  end.

(** *** Delete *)

(** The outer loop of [tryDelete]. *)
Fixpoint deleteLevels (fuel : nat) (hp : gmap ptr skipListNode) (k : K) (levels : nat)
    (node : ptr) (switched : list skipListStackEntry)
    : option (list skipListStackEntry) :=
  match levels with
  | O => Some switched
  | S h =>
      r ← seekAdvance fuel hp k h node;
      let '(node, nexts, next) := r in
      hit ← hits hp k next;
      deleteLevels fuel hp k h node
        (if hit : bool then <[h := {| node := Some node; nexts := nexts |}]> switched
         else switched)
  end.

(** The second loop of [tryDeleteRemove]:
    [node.Nexts[h] = node.Nexts[h].Nexts[h]]. *)
Fixpoint unlink (hp : gmap ptr skipListNode) (switched : list skipListStackEntry)
    (levels : nat) : option (gmap ptr skipListNode) :=
  match levels with
  | O => Some hp
  | S h =>
      e ← switched !! h;
      match node e with
      | None => unlink hp switched h
      | Some nd =>
          n ← hp !! nd;
          next ← Nexts n !! h;
          target ← next;
          t ← hp !! target;
          after ← Nexts t !! h;
          hp ← setNext hp nd h after;
          unlink hp switched h
      end
  end.

Definition tryDelete (fuel : nat) (l : skipList) (k : K) : option (bool * bool * skipList) :=
  switched ← deleteLevels fuel (heap l) k skipListMaxHeight (Head l)
               (replicate skipListMaxHeight zeroEntry);
  if ContainsFunc switched (fun e => bool_decide (node e <> None)) then
    same ← unchanged (heap l) switched true (length switched);
    if same : bool then
      hp ← unlink (heap l) switched (length switched);
      Some (true, true,
            {| heap := hp; Head := Head l; len := len l; rnd := rnd l;
               rndPos := rndPos l; brk := brk l |})
    else Some (true, false, l)
  else Some (false, true, l).

Fixpoint Delete (tries fuel : nat) (l : skipList) (k : K) : option (bool * skipList) :=
  match tries with
  | O => None
  | S tries' =>
      r ← tryDelete fuel l k;
      let '(deleted, ok, l) := r in
      if ok : bool then Some (deleted, if deleted : bool then addLen l (-1) else l)
      else Delete tries' fuel l k
  end.

End SkipList.
End SkipList.

(** ** The skip list used by one goroutine

    The list is related to the sequence of its entries in key order; the
    facts below follow the loops of [Find], [tryAdd] and [tryDelete] over
    that sequence. *)

Module SkipListFacts.
Import SkipList.

Section Facts.
Context {K V : Type}.
Variable zeroK : K.
Variable zeroV : V.
Variable Cmp : K -> K -> Z.

(** [Cmp] is a total order: it answers 0 exactly on equal keys, a
    negative number one way round exactly when a positive number the other
    way round, and "less" is transitive. *)
Hypothesis Cmp_eq : forall a b, Cmp a b = 0 <-> a = b.
Hypothesis Cmp_flip : forall a b, Cmp a b < 0 <-> 0 < Cmp b a.
Hypothesis Cmp_trans : forall a b c, Cmp a b < 0 -> Cmp b c < 0 -> Cmp a c < 0.

(** The entries of the list, in order: address, key, value, height. *)
Record entry := mkEntry_ {
  ap : ptr;
  ak : K;
  av : V;
  ah : nat
}.

(** The first entry that takes part in level [h]. *)
Fixpoint first_at (h : nat) (xs : list entry) : option entry :=
  match xs with
  | [] => None
  | x :: xs' => if (h <? ah x)%nat then Some x else first_at h xs'
  end.

Definition succ_at (h : nat) (xs : list entry) : option ptr := ap <$> first_at h xs.

Definition nexts_of (height : nat) (post : list entry) : list (option ptr) :=
  (fun h => succ_at h post) <$> seq 0 height.

Definition node_of (x : entry) (post : list entry) : @skipListNode K V :=
  {| nodeK := ak x; nodeV := av x; Nexts := nexts_of (ah x) post |}.

Definition head_of (xs : list entry) : @skipListNode K V :=
  {| nodeK := zeroK; nodeV := zeroV; Nexts := nexts_of skipListMaxHeight xs |}.

Definition key_lt (x y : entry) : Prop := Cmp (ak x) (ak y) < 0.

(** The heap holds the head and one node per entry, linked level by
    level in the order of the entries, which is the order of the keys. *)
Record Repr (hp : gmap ptr (@skipListNode K V)) (head : ptr) (xs : list entry) : Prop := {
  repr_head : hp !! head = Some (head_of xs);
  repr_nodes : forall pre x post, xs = pre ++ x :: post -> hp !! ap x = Some (node_of x post);
  repr_sorted : StronglySorted key_lt xs;
  repr_nodup : NoDup (head :: (ap <$> xs));
  repr_heights : Forall (fun x => (1 <= ah x <= skipListMaxHeight)%nat) xs
}.

(** The node a search stands on: the last entry passed, or the head. *)
Definition cur_ptr (head : ptr) (pre : list entry) : ptr :=
  match last pre with
  | Some x => ap x
  | None => head
  end.

Definition cur_height (pre : list entry) : nat :=
  match last pre with
  | Some x => ah x
  | None => skipListMaxHeight
  end.

Definition cur_key (pre : list entry) : K :=
  match last pre with
  | Some x => ak x
  | None => zeroK
  end.

Definition cur_value (pre : list entry) : V :=
  match last pre with
  | Some x => av x
  | None => zeroV
  end.

Definition cur_node (pre post : list entry) : @skipListNode K V :=
  {| nodeK := cur_key pre; nodeV := cur_value pre; Nexts := nexts_of (cur_height pre) post |}.

Lemma lookup_nexts_of (height h : nat) (post : list entry) :
  (h < height)%nat -> nexts_of height post !! h = Some (succ_at h post).
Proof.
  intros Hh. unfold nexts_of. rewrite list_lookup_fmap, lookup_seq_lt by done. done.
Qed.

Lemma length_nexts_of (height : nat) (post : list entry) :
  length (nexts_of height post) = height.
Proof. unfold nexts_of. by rewrite length_fmap, length_seq. Qed.

Lemma Repr_cur (hp : gmap ptr skipListNode) (head : ptr) (pre post : list entry) :
  Repr hp head (pre ++ post) ->
  hp !! cur_ptr head pre = Some (cur_node pre post).
Proof.
  intros HR. unfold cur_ptr, cur_node, cur_key, cur_value, cur_height.
  destruct (last pre) as [x|] eqn:Hl.
  - apply last_Some in Hl as [pre' ->].
    rewrite (repr_nodes _ _ _ HR pre' x post) by (by rewrite <- app_assoc). done.
  - apply last_None in Hl as ->. apply (repr_head _ _ _ HR).
Qed.

(** Splitting at the first entry of level [h]. *)
Lemma first_at_Some (h : nat) (xs : list entry) (y : entry) :
  first_at h xs = Some y ->
  exists low post, xs = low ++ y :: post /\ (h < ah y)%nat /\
                   Forall (fun x => (ah x <= h)%nat) low.
Proof.
  induction xs as [|x xs IH]; cbn [first_at]; [done|].
  destruct (Nat.ltb_spec h (ah x)) as [Hlt|Hge].
  - intros [= ->]. exists [], xs. split; [done|]. split; [done | constructor].
  - intros Hf. destruct (IH Hf) as (low & post & -> & Hy & Hlow).
    exists (x :: low), post. split; [done|]. split; [done|]. by constructor.
Qed.

Lemma first_at_None (h : nat) (xs : list entry) :
  first_at h xs = None -> Forall (fun x => (ah x <= h)%nat) xs.
Proof.
  induction xs as [|x xs IH]; cbn [first_at]; [constructor|].
  destruct (Nat.ltb_spec h (ah x)) as [Hlt|Hge]; [done|].
  intros Hf. constructor; [done | by apply IH].
Qed.

Lemma first_at_app_low (h : nat) (low xs : list entry) :
  Forall (fun x => (ah x <= h)%nat) low -> first_at h (low ++ xs) = first_at h xs.
Proof.
  induction 1 as [|x low Hx _ IH]; cbn [first_at app]; [done|].
  destruct (Nat.ltb_spec h (ah x)); [lia | done].
Qed.

Lemma first_at_app_hit (h : nat) (xs ys : list entry) (y : entry) :
  first_at h xs = Some y -> first_at h (xs ++ ys) = Some y.
Proof.
  induction xs as [|x xs IH]; cbn [first_at app]; [done|].
  destruct (h <? ah x)%nat; [done | exact IH].
Qed.

(** *** The order of the keys *)

Lemma Cmp_refl (a : K) : Cmp a a = 0.
Proof. by apply Cmp_eq. Qed.

Lemma Cmp_lt_le_trans (a b c : K) : Cmp a b < 0 -> Cmp b c <= 0 -> Cmp a c < 0.
Proof.
  intros Hab Hbc. destruct (Z.eq_dec (Cmp b c) 0) as [Heq|Hne].
  - apply Cmp_eq in Heq as <-. done.
  - apply (Cmp_trans a b c); [done | lia].
Qed.

Lemma Cmp_le_lt_trans (a b c : K) : Cmp a b <= 0 -> Cmp b c < 0 -> Cmp a c < 0.
Proof.
  intros Hab Hbc. destruct (Z.eq_dec (Cmp a b) 0) as [Heq|Hne].
  - apply Cmp_eq in Heq as <-. done.
  - apply (Cmp_trans a b c); [lia | done].
Qed.

Lemma Cmp_gt_lt (a b : K) : 0 < Cmp a b -> Cmp b a < 0.
Proof. intros H. by apply Cmp_flip. Qed.

Lemma Cmp_lt_ne (a b : K) : Cmp a b < 0 -> a <> b.
Proof. intros H ->. rewrite Cmp_refl in H. lia. Qed.

Lemma sorted_app_inv (xs ys : list entry) :
  StronglySorted key_lt (xs ++ ys) ->
  StronglySorted key_lt xs /\ StronglySorted key_lt ys /\
  Forall (fun x => Forall (key_lt x) ys) xs.
Proof.
  induction xs as [|x xs IH]; cbn [app]; intros Hs.
  - split; [constructor|]. split; [done | constructor].
  - apply StronglySorted_inv in Hs as [Hs Hx].
    destruct (IH Hs) as (H1 & H2 & H3).
    apply Forall_app in Hx as [Hx1 Hx2].
    split; [by constructor|]. split; [done|]. by constructor.
Qed.

Lemma sorted_middle (pre post : list entry) (y : entry) :
  StronglySorted key_lt (pre ++ y :: post) ->
  Forall (fun x => key_lt x y) pre /\ Forall (key_lt y) post.
Proof.
  intros Hs. apply sorted_app_inv in Hs as (_ & Hy & Hpre).
  apply StronglySorted_inv in Hy as [_ Hpost]. split; [|done].
  eapply Forall_impl; [exact Hpre|]. cbn. intros x Hx. by apply Forall_cons in Hx as [? _].
Qed.

(** *** Find *)

(** Where the inner loop of [Find] stops at level [h]: nothing follows at
    this level, or the key that follows is greater than [k]. *)
Definition find_stop (h : nat) (k : K) (post : list entry) : Prop :=
  match first_at h post with
  | Some y => 0 < Cmp (ak y) k
  | None => True
  end.

Lemma cur_ptr_snoc (head : ptr) (pre : list entry) (y : entry) :
  cur_ptr head (pre ++ [y]) = ap y.
Proof. unfold cur_ptr. by rewrite last_snoc. Qed.

Lemma cur_height_snoc (pre : list entry) (y : entry) : cur_height (pre ++ [y]) = ah y.
Proof. unfold cur_height. by rewrite last_snoc. Qed.

Lemma findAdvance_spec (hp : gmap ptr skipListNode) (head : ptr) (k : K) (h : nat)
    (fuel : nat) (pre post : list entry) :
  Repr hp head (pre ++ post) ->
  (h < cur_height pre)%nat ->
  (length post < fuel)%nat ->
  exists mid post',
    post = mid ++ post' /\
    findAdvance Cmp fuel hp k h (cur_ptr head pre) = Some (cur_ptr head (pre ++ mid)) /\
    (h < cur_height (pre ++ mid))%nat /\
    Forall (fun x => Cmp (ak x) k <= 0) mid /\
    find_stop h k post'.
Proof.
  revert pre post. induction fuel as [|fuel IH]; intros pre post HR Hh Hfuel; [lia|].
  cbn [findAdvance]. rewrite (Repr_cur hp head pre post HR). cbn [mbind option_bind].
  cbn [cur_node Nexts]. rewrite lookup_nexts_of by done. cbn [mbind option_bind].
  unfold succ_at. destruct (first_at h post) as [y|] eqn:Hfirst; cbn [fmap option_fmap option_map].
  - destruct (first_at_Some h post y Hfirst) as (low & post2 & -> & Hy & Hlow).
    assert (hp !! ap y = Some (node_of y post2)) as Hnode.
    { apply (repr_nodes _ _ _ HR (pre ++ low) y post2). by rewrite <- app_assoc. }
    rewrite Hnode. cbn [mbind option_bind node_of nodeK].
    destruct (Z.gtb_spec (Cmp (ak y) k) 0) as [Hgt|Hle].
    + exists [], (low ++ y :: post2). rewrite app_nil_r. split; [done|]. split; [done|].
      split; [done|]. split; [constructor|]. unfold find_stop. rewrite Hfirst. lia.
    + destruct (IH (pre ++ low ++ [y]) post2) as (mid & post' & -> & Hrun & Hh' & Hmid & Hstop).
      * by rewrite <- !app_assoc.
      * rewrite app_assoc, cur_height_snoc. done.
      * rewrite length_app in Hfuel. cbn [length] in Hfuel. lia.
      * exists (low ++ y :: mid), post'. split; [by rewrite <- app_assoc|].
        rewrite app_assoc, cur_ptr_snoc in Hrun.
        split.
        { rewrite Hrun. f_equal. f_equal. rewrite <- !app_assoc. done. }
        split.
        { replace (pre ++ low ++ y :: mid) with ((pre ++ low ++ [y]) ++ mid)
            by (by rewrite <- !app_assoc). done. }
        split; [|done].
        apply Forall_app. split; [|by constructor].
        pose proof (repr_sorted _ _ _ HR) as Hs.
        apply sorted_app_inv in Hs as (_ & Hs & _).
        apply sorted_middle in Hs as [Hlt _].
        eapply Forall_impl; [exact Hlt|]. cbn. intros x Hx.
        pose proof (Cmp_lt_le_trans (ak x) (ak y) k Hx Hle). lia.
  - exists [], post. rewrite app_nil_r. split; [done|]. split; [done|].
    split; [done|]. split; [constructor|]. unfold find_stop. by rewrite Hfirst.
Qed.

(** The value stored under [k], if any. *)
Definition lookup_key (k : K) (xs : list entry) : option V :=
  av <$> List.find (fun x => Cmp (ak x) k =? 0) xs.

Lemma lookup_key_app_lt (k : K) (xs ys : list entry) :
  Forall (fun x => Cmp (ak x) k < 0) xs ->
  lookup_key k (xs ++ ys) = lookup_key k ys.
Proof.
  unfold lookup_key. induction 1 as [|x xs Hx _ IH]; cbn [app List.find]; [done|].
  destruct (Z.eqb_spec (Cmp (ak x) k) 0); [lia | exact IH].
Qed.

Lemma lookup_key_gt (k : K) (xs : list entry) :
  Forall (fun x => 0 < Cmp (ak x) k) xs -> lookup_key k xs = None.
Proof.
  unfold lookup_key. induction 1 as [|x xs Hx _ IH]; cbn [List.find]; [done|].
  destruct (Z.eqb_spec (Cmp (ak x) k) 0); [lia | exact IH].
Qed.

Lemma lookup_key_here (k : K) (x : entry) (xs : list entry) :
  Cmp (ak x) k = 0 -> lookup_key k (x :: xs) = Some (av x).
Proof.
  intros Hx. unfold lookup_key. cbn [List.find]. rewrite Hx. done.
Qed.

(** Keys after a key greater than [k] are greater than [k]. *)
Lemma sorted_all_gt (k : K) (y : entry) (post : list entry) :
  StronglySorted key_lt (y :: post) -> 0 < Cmp (ak y) k ->
  Forall (fun x => 0 < Cmp (ak x) k) (y :: post).
Proof.
  intros Hs Hy. apply StronglySorted_inv in Hs as [_ Hpost].
  constructor; [done|]. eapply Forall_impl; [exact Hpost|]. cbn. intros x Hx.
  apply Cmp_flip. apply (Cmp_trans k (ak y) (ak x)); [by apply Cmp_flip | exact Hx].
Qed.

Lemma snoc_all_lt (k : K) (rest : list entry) (y : entry) :
  StronglySorted key_lt (rest ++ [y]) -> Cmp (ak y) k <= 0 ->
  Forall (fun x => Cmp (ak x) k < 0) rest.
Proof.
  intros Hs Hy. apply sorted_middle in Hs as [Hlt _].
  eapply Forall_impl; [exact Hlt|]. cbn. intros x Hx.
  by apply (Cmp_lt_le_trans (ak x) (ak y) k).
Qed.

Lemma find_stop_top (k : K) (xs : list entry) :
  Forall (fun x => (1 <= ah x <= skipListMaxHeight)%nat) xs ->
  find_stop skipListMaxHeight k xs.
Proof.
  intros Hh. unfold find_stop.
  destruct (first_at skipListMaxHeight xs) as [y|] eqn:Hf; [|done].
  apply first_at_Some in Hf as (low & post & -> & Hy & _).
  apply Forall_app in Hh as [_ Hh]. apply Forall_cons in Hh as [Hh _]. lia.
Qed.

Lemma findLevels_spec (hp : gmap ptr skipListNode) (head : ptr) (k : K) (fuel : nat)
    (levels : nat) (pre post : list entry) :
  Repr hp head (pre ++ post) ->
  Cmp zeroK k <> 0 ->
  (levels <= cur_height pre)%nat ->
  Forall (fun x => Cmp (ak x) k < 0) pre ->
  find_stop levels k post ->
  (length post < fuel)%nat ->
  findLevels Cmp fuel hp head k levels (cur_ptr head pre) = Some (lookup_key k post).
Proof.
  revert pre post. induction levels as [|h IH]; intros pre post HR Hz Hlev Hpre Hstop Hfuel.
  - cbn [findLevels]. f_equal. symmetry.
    destruct post as [|y post]; [done|].
    unfold find_stop in Hstop. cbn [first_at] in Hstop.
    pose proof (repr_heights _ _ _ HR) as Hh.
    apply Forall_app in Hh as [_ Hh]. apply Forall_cons in Hh as [Hy _].
    destruct (Nat.ltb_spec 0 (ah y)); [|lia].
    apply lookup_key_gt. apply sorted_all_gt; [|done].
    pose proof (repr_sorted _ _ _ HR) as Hs. by apply sorted_app_inv in Hs as (_ & Hs & _).
  - cbn [findLevels].
    destruct (findAdvance_spec hp head k h fuel pre post HR) as
      (mid & post' & -> & Hrun & Hh' & Hmid & Hstop'); [lia | done |].
    rewrite Hrun. cbn [mbind option_bind].
    assert (Repr hp head ((pre ++ mid) ++ post')) as HR' by (by rewrite <- app_assoc).
    rewrite (Repr_cur hp head (pre ++ mid) post' HR'). cbn [mbind option_bind cur_node nodeK nodeV].
    pose proof (repr_sorted _ _ _ HR) as Hs.
    apply sorted_app_inv in Hs as (_ & Hs & _).
    apply sorted_app_inv in Hs as (Hsmid & _ & _).
    destruct mid as [|y mid _] using rev_ind.
    + rewrite app_nil_r in *. cbn [app] in *.
      assert (Cmp (cur_key pre) k <> 0) as Hne.
      { unfold cur_key. destruct (last pre) as [x|] eqn:Hl; [|done].
        apply last_Some in Hl as [pre' ->]. apply Forall_app in Hpre as [_ Hx].
        apply Forall_cons in Hx as [Hx _]. lia. }
      destruct (Z.eqb_spec (Cmp (cur_key pre) k) 0); [done|].
      apply IH; try done. lia.
    + apply Forall_app in Hmid as [Hmid Hy]. apply Forall_cons in Hy as [Hy _].
      pose proof (snoc_all_lt k mid y Hsmid Hy) as Hlt.
      unfold cur_key, cur_value. rewrite app_assoc, last_snoc.
      rewrite app_assoc, cur_height_snoc in Hh'.
      destruct (Z.eqb_spec (Cmp (ak y) k) 0) as [Heq|Hne].
      * assert (cur_ptr head ((pre ++ mid) ++ [y]) <> head) as Hnh.
        { rewrite cur_ptr_snoc. pose proof (repr_nodup _ _ _ HR) as Hnd.
          apply NoDup_cons in Hnd as [Hnin _]. intros Heq'. apply Hnin.
          rewrite <- Heq'. apply list_elem_of_fmap. exists y. split; [done|].
          set_solver. }
        destruct (Nat.eqb_spec (cur_ptr head ((pre ++ mid) ++ [y])) head); [done|].
        f_equal. symmetry. rewrite <- app_assoc. rewrite lookup_key_app_lt by done.
        cbn [app]. by apply lookup_key_here.
      * rewrite <- app_assoc in HR'. rewrite <- (app_assoc pre mid [y]).
        rewrite (IH (pre ++ mid ++ [y]) post').
        -- f_equal. symmetry. apply lookup_key_app_lt.
           apply Forall_app. split; [done|]. constructor; [lia | constructor].
        -- by rewrite <- !app_assoc in *.
        -- done.
        -- rewrite app_assoc, cur_height_snoc. lia.
        -- apply Forall_app. split; [done|]. apply Forall_app. split; [done|].
           constructor; [lia | constructor].
        -- done.
        -- rewrite length_app in Hfuel. lia.
Qed.

(** [Find] on a key other than the zero value of [K]: it returns, with
    the value stored under the key if there is one. *)
Lemma Find_spec (l : skipList) (xs : list entry) (k : K) (fuel : nat) :
  Repr (heap l) (Head l) xs ->
  Cmp zeroK k <> 0 ->
  (length xs < fuel)%nat ->
  Find Cmp fuel l k = Some (lookup_key k xs).
Proof.
  intros HR Hz Hfuel. unfold Find.
  apply (findLevels_spec (heap l) (Head l) k fuel skipListMaxHeight [] xs);
    [done | done | done | constructor | | done].
  apply find_stop_top. apply (repr_heights _ _ _ HR).
Qed.

(** *** The search of [tryAdd] and [tryDelete] *)

(** Where the inner loop stops at level [h]: nothing follows at this
    level, or the key that follows is not less than [k]. *)
Definition seek_stop (h : nat) (k : K) (post : list entry) : Prop :=
  match first_at h post with
  | Some y => 0 <= Cmp (ak y) k
  | None => True
  end.

Lemma seekAdvance_spec (hp : gmap ptr skipListNode) (head : ptr) (k : K) (h : nat)
    (fuel : nat) (pre post : list entry) :
  Repr hp head (pre ++ post) ->
  (h < cur_height pre)%nat ->
  (length post < fuel)%nat ->
  exists mid post',
    post = mid ++ post' /\
    seekAdvance Cmp fuel hp k h (cur_ptr head pre) =
      Some (cur_ptr head (pre ++ mid), nexts_of (cur_height (pre ++ mid)) post',
            succ_at h post') /\
    (h < cur_height (pre ++ mid))%nat /\
    Forall (fun x => Cmp (ak x) k < 0) mid /\
    seek_stop h k post'.
Proof.
  revert pre post. induction fuel as [|fuel IH]; intros pre post HR Hh Hfuel; [lia|].
  cbn [seekAdvance]. rewrite (Repr_cur hp head pre post HR). cbn [mbind option_bind].
  cbn [cur_node Nexts]. rewrite lookup_nexts_of by done. cbn [mbind option_bind].
  unfold succ_at at 1.
  destruct (first_at h post) as [y|] eqn:Hfirst; cbn [fmap option_fmap option_map].
  - destruct (first_at_Some h post y Hfirst) as (low & post2 & -> & Hy & Hlow).
    assert (hp !! ap y = Some (node_of y post2)) as Hnode.
    { apply (repr_nodes _ _ _ HR (pre ++ low) y post2). by rewrite <- app_assoc. }
    rewrite Hnode. cbn [mbind option_bind node_of nodeK].
    destruct (Z.geb_spec (Cmp (ak y) k) 0) as [Hge|Hlt].
    + exists [], (low ++ y :: post2). rewrite app_nil_r. split; [done|].
      split; [by unfold succ_at; rewrite Hfirst|].
      split; [done|]. split; [constructor|]. unfold seek_stop. rewrite Hfirst. lia.
    + destruct (IH (pre ++ low ++ [y]) post2) as (mid & post' & -> & Hrun & Hh' & Hmid & Hstop).
      * by rewrite <- !app_assoc.
      * rewrite app_assoc, cur_height_snoc. done.
      * rewrite length_app in Hfuel. cbn [length] in Hfuel. lia.
      * exists (low ++ y :: mid), post'. split; [by rewrite <- app_assoc|].
        assert (cur_ptr head (pre ++ low ++ [y]) = ap y) as Hp
          by (rewrite app_assoc; apply cur_ptr_snoc).
        rewrite Hp in Hrun. rewrite <- !app_assoc in Hrun, Hh'. cbn [app] in Hrun, Hh'.
        split; [done|]. split; [done|]. split; [|done].
        apply Forall_app. split; [|by constructor].
        pose proof (repr_sorted _ _ _ HR) as Hs.
        apply sorted_app_inv in Hs as (_ & Hs & _).
        apply sorted_middle in Hs as [Hlt' _].
        eapply Forall_impl; [exact Hlt'|]. cbn. intros x Hx.
        by apply (Cmp_trans (ak x) (ak y) k).
  - exists [], post. rewrite app_nil_r. split; [done|].
    split; [by unfold succ_at; rewrite Hfirst|].
    split; [done|]. split; [constructor|]. unfold seek_stop. by rewrite Hfirst.
Qed.

(** [hits] on the node that follows at level [h]. *)
Lemma hits_spec (hp : gmap ptr skipListNode) (head : ptr) (k : K) (h : nat)
    (pre post : list entry) :
  Repr hp head (pre ++ post) ->
  hits Cmp hp k (succ_at h post) =
  Some (match first_at h post with
        | Some y => Cmp (ak y) k =? 0
        | None => false
        end).
Proof.
  intros HR. unfold hits, succ_at.
  destruct (first_at h post) as [y|] eqn:Hfirst; cbn [fmap option_fmap option_map]; [|done].
  destruct (first_at_Some h post y Hfirst) as (low & post2 & -> & Hy & Hlow).
  rewrite (repr_nodes _ _ _ HR (pre ++ low) y post2) by (by rewrite <- app_assoc).
  done.
Qed.

(** What one level records: the node where the search went down, and
    what follows it. *)
Definition recorded (head : ptr) (k : K) (h : nat) (xs : list entry)
    (e : skipListStackEntry) : Prop :=
  exists p post,
    xs = p ++ post /\
    Forall (fun x => Cmp (ak x) k < 0) p /\
    (h < cur_height p)%nat /\
    find_stop h k post /\
    e = {| node := Some (cur_ptr head p); nexts := nexts_of (cur_height p) post |}.

Lemma find_stop_absent (k : K) (post : list entry) :
  StronglySorted key_lt post ->
  Forall (fun x => (1 <= ah x <= skipListMaxHeight)%nat) post ->
  find_stop 0 k post -> lookup_key k post = None.
Proof.
  intros Hs Hh Hstop. destruct post as [|y post]; [done|].
  unfold find_stop in Hstop. cbn [first_at] in Hstop.
  apply Forall_cons in Hh as [Hy _].
  destruct (Nat.ltb_spec 0 (ah y)); [|lia].
  apply lookup_key_gt. by apply sorted_all_gt.
Qed.

Lemma addLevels_spec (hp : gmap ptr skipListNode) (head : ptr) (k : K) (fuel : nat)
    (levels : nat) (pre post : list entry) (switched : list skipListStackEntry) :
  Repr hp head (pre ++ post) ->
  (levels <= cur_height pre)%nat ->
  (levels <= length switched)%nat ->
  Forall (fun x => Cmp (ak x) k < 0) pre ->
  find_stop levels k post ->
  (length post < fuel)%nat ->
  match lookup_key k post with
  | Some _ => addLevels Cmp fuel hp k levels (cur_ptr head pre) switched = Some None
  | None =>
      exists switched',
        addLevels Cmp fuel hp k levels (cur_ptr head pre) switched = Some (Some switched') /\
        length switched' = length switched /\
        (forall h, (levels <= h)%nat -> switched' !! h = switched !! h) /\
        (forall h, (h < levels)%nat ->
           exists e, switched' !! h = Some e /\ recorded head k h (pre ++ post) e)
  end.
Proof.
  revert pre post switched.
  induction levels as [|h IH]; intros pre post switched HR Hlev Hlen Hpre Hstop Hfuel.
  - pose proof (repr_sorted _ _ _ HR) as Hs. apply sorted_app_inv in Hs as (_ & Hs & _).
    pose proof (repr_heights _ _ _ HR) as Hh. apply Forall_app in Hh as [_ Hh].
    rewrite (find_stop_absent k post Hs Hh Hstop).
    exists switched. cbn [addLevels]. split; [done|]. split; [done|].
    split; [done|]. intros h Hh'. lia.
  - cbn [addLevels].
    destruct (seekAdvance_spec hp head k h fuel pre post HR) as
      (mid & post' & -> & Hrun & Hh' & Hmid & Hstop'); [lia | done |].
    rewrite Hrun. cbn [mbind option_bind].
    assert (Repr hp head ((pre ++ mid) ++ post')) as HR' by (by rewrite <- app_assoc).
    rewrite (hits_spec hp head k h (pre ++ mid) post' HR'). cbn [mbind option_bind].
    rewrite (lookup_key_app_lt k mid post' Hmid).
    pose proof (repr_sorted _ _ _ HR') as Hs. apply sorted_app_inv in Hs as (_ & Hs & _).
    destruct (first_at h post') as [y|] eqn:Hfirst.
    + destruct (first_at_Some h post' y Hfirst) as (low & post2 & -> & Hy & Hlow).
      destruct (Z.eqb_spec (Cmp (ak y) k) 0) as [Heq|Hne].
      * apply sorted_middle in Hs as [Hlt _].
        rewrite lookup_key_app_lt.
        -- by rewrite lookup_key_here.
        -- eapply Forall_impl; [exact Hlt|]. cbn. intros x Hx.
           apply Cmp_eq in Heq as <-. exact Hx.
      * unfold seek_stop in Hstop'. rewrite Hfirst in Hstop'.
        assert (find_stop h k (low ++ y :: post2)) as Hfs.
        { unfold find_stop. rewrite Hfirst. lia. }
        specialize (IH (pre ++ mid) (low ++ y :: post2)
                      (<[h := {| node := Some (cur_ptr head (pre ++ mid));
                                 nexts := nexts_of (cur_height (pre ++ mid))
                                            (low ++ y :: post2) |}]> switched)).
        destruct (lookup_key k (low ++ y :: post2)) as [v|] eqn:Hlk.
        -- apply IH; try done; [lia | rewrite length_insert; lia |
             apply Forall_app; by split | rewrite !length_app in *; lia].
        -- destruct IH as (sw' & Hadd & Hlen' & Hkeep & Hrec); try done;
             [lia | rewrite length_insert; lia | apply Forall_app; by split |
              rewrite !length_app in *; lia |].
           exists sw'. split; [done|]. rewrite length_insert in Hlen'. split; [done|].
           split.
           ++ intros h' Hh''. rewrite Hkeep by lia. apply list_lookup_insert_ne. lia.
           ++ intros h' Hh''. destruct (decide (h' = h)) as [->|Hneq].
              ** rewrite Hkeep by lia. rewrite list_lookup_insert_eq by lia.
                 eexists. split; [done|].
                 exists (pre ++ mid), (low ++ y :: post2). split; [by rewrite <- app_assoc|].
                 split; [apply Forall_app; by split|]. done.
              ** destruct (Hrec h') as (e & He & Hr); [lia|].
                 exists e. split; [done|]. by rewrite <- app_assoc in Hr.
    + assert (find_stop h k post') as Hfs.
      { unfold find_stop. by rewrite Hfirst. }
      specialize (IH (pre ++ mid) post'
                    (<[h := {| node := Some (cur_ptr head (pre ++ mid));
                               nexts := nexts_of (cur_height (pre ++ mid)) post' |}]> switched)).
      destruct (lookup_key k post') as [v|] eqn:Hlk.
      * apply IH; try done; [lia | rewrite length_insert; lia |
          apply Forall_app; by split | rewrite !length_app in *; lia].
      * destruct IH as (sw' & Hadd & Hlen' & Hkeep & Hrec); try done;
          [lia | rewrite length_insert; lia | apply Forall_app; by split |
           rewrite !length_app in *; lia |].
        exists sw'. split; [done|]. rewrite length_insert in Hlen'. split; [done|].
        split.
        -- intros h' Hh''. rewrite Hkeep by lia. apply list_lookup_insert_ne. lia.
        -- intros h' Hh''. destruct (decide (h' = h)) as [->|Hneq].
           ++ rewrite Hkeep by lia. rewrite list_lookup_insert_eq by lia.
              eexists. split; [done|].
              exists (pre ++ mid), post'. split; [by rewrite <- app_assoc|].
              split; [apply Forall_app; by split|]. done.
           ++ destruct (Hrec h') as (e & He & Hr); [lia|].
              exists e. split; [done|]. by rewrite <- app_assoc in Hr.
Qed.

(** *** Prefixes of the entries *)

Lemma cur_ptr_inj (head : ptr) (lo p r p' r' : list entry) :
  NoDup (head :: (ap <$> lo)) ->
  lo = p ++ r -> lo = p' ++ r' ->
  cur_ptr head p = cur_ptr head p' -> p = p'.
Proof.
  intros Hnd Hp Hp' Heq. unfold cur_ptr in Heq.
  apply NoDup_cons in Hnd as [Hhead Hnd].
  destruct (last p) as [x|] eqn:Hl, (last p') as [x'|] eqn:Hl'.
  - apply last_Some in Hl as [q ->]. apply last_Some in Hl' as [q' ->].
    assert (length q = length q') as Hlen.
    { rewrite <- !app_assoc in *. cbn [app] in *.
      assert ((ap <$> lo) !! length q = Some (ap x)) as H1.
      { rewrite Hp, list_lookup_fmap, lookup_app_r, Nat.sub_diag by lia. done. }
      assert ((ap <$> lo) !! length q' = Some (ap x')) as H2.
      { rewrite Hp', list_lookup_fmap, lookup_app_r, Nat.sub_diag by lia. done. }
      rewrite <- Heq in H2. by eapply NoDup_lookup. }
    rewrite Hp in Hp'. rewrite <- !app_assoc in Hp'.
    apply app_inj_1 in Hp' as [-> Hrest]; [|done].
    cbn [app] in Hrest. by injection Hrest as -> _.
  - exfalso. apply Hhead. rewrite <- Heq. apply last_Some in Hl as [q ->].
    rewrite Hp. set_solver.
  - exfalso. apply Hhead. rewrite Heq. apply last_Some in Hl' as [q ->].
    rewrite Hp'. set_solver.
  - apply last_None in Hl as ->. by apply last_None in Hl' as ->.
Qed.

(** The node where a level-[h] search for a position goes down is
    unique: it takes part in level [h] and no entry up to the position
    does after it. *)
Lemma pred_unique (h : nat) (lo p r p' r' : list entry) :
  lo = p ++ r -> lo = p' ++ r' ->
  Forall (fun x => (ah x <= h)%nat) r -> Forall (fun x => (ah x <= h)%nat) r' ->
  (h < cur_height p)%nat -> (h < cur_height p')%nat ->
  p = p'.
Proof.
  intros Hp Hp' Hr Hr' Hh Hh'. rewrite Hp in Hp'.
  apply app_eq_inv in Hp' as [(q & -> & ->)|(q & -> & ->)].
  - destruct q as [|y q _] using rev_ind; [by rewrite app_nil_r|].
    rewrite app_assoc in Hh. unfold cur_height in Hh. rewrite last_snoc in Hh.
    apply Forall_app in Hr' as [Hq _]. apply Forall_app in Hq as [_ Hy].
    apply Forall_cons in Hy as [Hy _]. lia.
  - destruct q as [|y q _] using rev_ind; [by rewrite app_nil_r|].
    rewrite app_assoc in Hh'. unfold cur_height in Hh'. rewrite last_snoc in Hh'.
    apply Forall_app in Hr as [Hq _]. apply Forall_app in Hq as [_ Hy].
    apply Forall_cons in Hy as [Hy _]. lia.
Qed.

Lemma find_stop_low (h : nat) (k : K) (r hi : list entry) :
  Forall (fun x => Cmp (ak x) k < 0) r ->
  find_stop h k (r ++ hi) ->
  Forall (fun x => (ah x <= h)%nat) r.
Proof.
  intros Hr Hstop. destruct (first_at h r) as [y|] eqn:Hf.
  - unfold find_stop in Hstop. rewrite (first_at_app_hit h r hi y Hf) in Hstop.
    apply first_at_Some in Hf as (low & post & -> & _ & _).
    apply Forall_app in Hr as [_ Hr]. apply Forall_cons in Hr as [Hy _]. lia.
  - by apply first_at_None.
Qed.

(** What a level has recorded, against the split of the entries at [k]. *)
Lemma recorded_split (head : ptr) (k : K) (h : nat) (lo hi : list entry)
    (e : skipListStackEntry) :
  Forall (fun x => Cmp (ak x) k < 0) lo ->
  Forall (fun x => 0 < Cmp (ak x) k) hi ->
  recorded head k h (lo ++ hi) e ->
  exists p r,
    lo = p ++ r /\
    Forall (fun x => (ah x <= h)%nat) r /\
    (h < cur_height p)%nat /\
    e = {| node := Some (cur_ptr head p); nexts := nexts_of (cur_height p) (r ++ hi) |}.
Proof.
  intros Hlo Hhi (p & post & Heq & Hp & Hh & Hstop & ->).
  apply app_eq_inv in Heq as [(q & Hq1 & Hq2)|(q & Hq1 & Hq2)].
  - subst lo post. exists p, q. split; [done|]. apply Forall_app in Hlo as [_ Hq].
    split; [by eapply find_stop_low | done].
  - subst p hi. destruct q as [|y q].
    + rewrite app_nil_r in *. cbn [app] in *. exists lo, []. rewrite app_nil_r.
      split; [done|]. split; [constructor | done].
    + exfalso. apply Forall_app in Hp as [_ Hq]. apply Forall_cons in Hq as [Hy _].
      cbn [app] in Hhi. apply Forall_cons in Hhi as [Hy' _]. lia.
Qed.

(** *** Tables of successors *)

Definition tab (n : nat) (f : nat -> option ptr) : list (option ptr) := f <$> seq 0 n.

Lemma lookup_tab (n h : nat) (f : nat -> option ptr) :
  (h < n)%nat -> tab n f !! h = Some (f h).
Proof. intros Hh. unfold tab. by rewrite list_lookup_fmap, lookup_seq_lt. Qed.

Lemma lookup_tab_ge (n h : nat) (f : nat -> option ptr) :
  (n <= h)%nat -> tab n f !! h = None.
Proof. intros Hh. unfold tab. by rewrite list_lookup_fmap, lookup_seq_ge. Qed.

Lemma length_tab (n : nat) (f : nat -> option ptr) : length (tab n f) = n.
Proof. unfold tab. by rewrite length_fmap, length_seq. Qed.

Lemma tab_ext (n : nat) (f g : nat -> option ptr) :
  (forall h, (h < n)%nat -> f h = g h) -> tab n f = tab n g.
Proof.
  intros Hfg. apply list_eq. intros h. destruct (Nat.lt_ge_cases h n) as [Hlt|Hge].
  - by rewrite !lookup_tab, Hfg.
  - by rewrite !lookup_tab_ge.
Qed.

Lemma tab_insert (n h : nat) (x : option ptr) (f g : nat -> option ptr) :
  (forall h', (h' < n)%nat -> g h' = if Nat.eqb h' h then x else f h') ->
  <[h := x]> (tab n f) = tab n g.
Proof.
  intros Hg. apply list_eq. intros h'.
  destruct (Nat.lt_ge_cases h' n) as [Hlt|Hge].
  - rewrite lookup_tab, Hg by done. destruct (Nat.eqb_spec h' h) as [->|Hne].
    + apply list_lookup_insert_eq. by rewrite length_tab.
    + rewrite list_lookup_insert_ne by done. by apply lookup_tab.
  - rewrite lookup_tab_ge by done. apply lookup_ge_None.
    by rewrite length_insert, length_tab.
Qed.

Lemma tab_None (n : nat) : tab n (fun _ => None) = replicate n None.
Proof.
  apply list_eq. intros h. destruct (Nat.lt_ge_cases h n) as [Hlt|Hge].
  - by rewrite lookup_tab, lookup_replicate_2.
  - rewrite lookup_tab_ge by done. symmetry. by apply lookup_replicate_None.
Qed.

Lemma nexts_of_tab (height : nat) (post : list entry) :
  nexts_of height post = tab height (fun h => succ_at h post).
Proof. done. Qed.

Lemma setNext_Some (hp : gmap ptr (@skipListNode K V)) (nd : ptr) (h : nat)
    (next : option ptr) (n : skipListNode) :
  hp !! nd = Some n -> (h < length (Nexts n))%nat ->
  setNext hp nd h next =
    Some (<[nd := {| nodeK := nodeK n; nodeV := nodeV n;
                     Nexts := <[h := next]> (Nexts n) |}]> hp).
Proof.
  intros Hn Hh. unfold setNext. rewrite Hn. cbn [mbind option_bind].
  destruct (lookup_lt_is_Some_2 _ _ Hh) as [x ->]. done.
Qed.

Lemma sorted_insert_at (x : entry) (lo hi : list entry) :
  StronglySorted key_lt (lo ++ hi) ->
  Forall (fun y => key_lt y x) lo -> Forall (key_lt x) hi ->
  StronglySorted key_lt (lo ++ x :: hi).
Proof.
  induction lo as [|y lo IH]; cbn [app]; intros Hs Hlo Hhi.
  - by constructor.
  - apply Forall_cons in Hlo as [Hy Hlo].
    apply StronglySorted_inv in Hs as [Hs Hys].
    apply Forall_app in Hys as [Hy1 Hy2].
    constructor; [by apply IH|].
    apply Forall_app. split; [done|]. by constructor.
Qed.

(** *** Splicing an entry in and out *)

Section Splice.
Variables (head new : ptr) (k : K) (v : V) (hn : nat).
Variables (lo hi : list entry).

(** The entry that goes in or out, between [lo] and [hi]. *)
Definition newx : entry := {| ap := new; ak := k; av := v; ah := hn |}.

Hypothesis Hnd : NoDup (head :: (ap <$> (lo ++ hi))).
Hypothesis Hnew : new ∉ head :: (ap <$> (lo ++ hi)).

(** The successor at level [h] of a node followed by [r] in [lo], when
    the entry is linked at the levels in [P]. *)
Definition lvl (P : nat -> bool) (h : nat) (r : list entry) : option ptr :=
  if P h then succ_at h (r ++ newx :: hi) else succ_at h (r ++ hi).

Record Spliced (P : nat -> bool) (hp : gmap ptr (@skipListNode K V)) : Prop := {
  spliced_lo : forall p r, lo = p ++ r ->
    hp !! cur_ptr head p =
      Some {| nodeK := cur_key p; nodeV := cur_value p;
              Nexts := tab (cur_height p) (fun h => lvl P h r) |};
  spliced_hi : forall p y r, hi = p ++ y :: r -> hp !! ap y = Some (node_of y r)
}.

Lemma nodup_lo : NoDup (head :: (ap <$> lo)).
Proof.
  pose proof Hnd as H0. rewrite fmap_app in H0.
  apply NoDup_cons in H0 as [H1 H2]. apply NoDup_app in H2 as (H2 & _ & _).
  apply NoDup_cons. split; [|done]. intros Hin. apply H1. set_solver.
Qed.

Lemma cur_ptr_lookup (p r : list entry) :
  lo = p ++ r -> (head :: (ap <$> (lo ++ hi))) !! length p = Some (cur_ptr head p).
Proof.
  intros Hp. unfold cur_ptr. destruct (last p) as [x|] eqn:Hl.
  - apply last_Some in Hl as [q Hq]. rewrite Hp, Hq, length_app, Nat.add_1_r.
    cbn [lookup list_lookup].
    change (((ap <$> ((q ++ [x]) ++ r) ++ hi)) !! length q = Some (ap x)).
    rewrite list_lookup_fmap, <- !app_assoc, lookup_app_r, Nat.sub_diag by lia. done.
  - apply last_None in Hl. by rewrite Hl.
Qed.

Lemma hi_lookup (p r : list entry) (y : entry) :
  hi = p ++ y :: r ->
  (head :: (ap <$> (lo ++ hi))) !! S (length lo + length p) = Some (ap y).
Proof.
  intros Hp. rewrite Hp.
  change (((ap <$> lo ++ p ++ y :: r)) !! (length lo + length p)%nat = Some (ap y)).
  rewrite list_lookup_fmap, app_assoc, lookup_app_r by (rewrite length_app; lia).
  rewrite length_app, Nat.sub_diag. done.
Qed.

Lemma cur_ptr_ne_new (p r : list entry) : lo = p ++ r -> cur_ptr head p <> new.
Proof.
  intros Hp Heq. apply Hnew. rewrite <- Heq.
  eapply list_elem_of_lookup_2. by eapply cur_ptr_lookup.
Qed.

Lemma hi_ne_new (p r : list entry) (y : entry) : hi = p ++ y :: r -> ap y <> new.
Proof.
  intros Hp Heq. apply Hnew. rewrite <- Heq.
  eapply list_elem_of_lookup_2. by eapply hi_lookup.
Qed.

Lemma hi_ne_cur (p r p' r' : list entry) (y : entry) :
  hi = p ++ y :: r -> lo = p' ++ r' -> ap y <> cur_ptr head p'.
Proof.
  intros Hp Hp' Heq.
  pose proof (hi_lookup p r y Hp) as H1.
  pose proof (cur_ptr_lookup p' r' Hp') as H2. rewrite <- Heq in H2.
  pose proof (NoDup_lookup _ _ _ _ Hnd H1 H2) as Hi.
  apply (f_equal length) in Hp'. rewrite length_app in Hp'. lia.
Qed.

Lemma succ_at_skip_new (h : nat) (r : list entry) :
  (hn <= h)%nat -> succ_at h (r ++ newx :: hi) = succ_at h (r ++ hi).
Proof.
  intros Hh. unfold succ_at. f_equal.
  induction r as [|x r IH]; cbn [first_at app].
  - cbn [ah newx]. destruct (Nat.ltb_spec h hn); [lia | done].
  - by rewrite IH.
Qed.

Lemma succ_at_hit (h : nat) (r : list entry) (y : entry) :
  first_at h r = Some y -> succ_at h (r ++ newx :: hi) = succ_at h (r ++ hi).
Proof.
  intros Hf. unfold succ_at.
  by rewrite (first_at_app_hit h r _ y Hf), (first_at_app_hit h r _ y Hf).
Qed.

Lemma succ_at_low_new (h : nat) (r : list entry) :
  Forall (fun x => (ah x <= h)%nat) r -> (h < hn)%nat ->
  succ_at h (r ++ newx :: hi) = Some new.
Proof.
  intros Hr Hh. unfold succ_at. rewrite first_at_app_low by done.
  cbn [first_at ah newx]. destruct (Nat.ltb_spec h hn); [done | lia].
Qed.

Lemma succ_at_low (h : nat) (r : list entry) :
  Forall (fun x => (ah x <= h)%nat) r -> succ_at h (r ++ hi) = succ_at h hi.
Proof. intros Hr. unfold succ_at. by rewrite first_at_app_low. Qed.

Lemma lvl_ext (P P' : nat -> bool) (h : nat) (r : list entry) :
  ((h < hn)%nat -> P h = P' h) -> lvl P h r = lvl P' h r.
Proof.
  intros HP. unfold lvl. destruct (Nat.lt_ge_cases h hn) as [Hlt|Hge].
  - by rewrite HP.
  - destruct (P h), (P' h); by rewrite ?succ_at_skip_new.
Qed.

Lemma Spliced_ext (P P' : nat -> bool) (hp : gmap ptr skipListNode) :
  (forall h, (h < hn)%nat -> P h = P' h) -> Spliced P hp -> Spliced P' hp.
Proof.
  intros HP HS. split.
  - intros p r Hp. rewrite (spliced_lo _ _ HS p r Hp). f_equal. f_equal.
    apply tab_ext. intros h _. apply lvl_ext. apply HP.
  - apply (spliced_hi _ _ HS).
Qed.

(** The cell of the entry itself is not part of the picture. *)
Lemma Spliced_other (P : nat -> bool) (hp : gmap ptr skipListNode) (n : skipListNode) :
  Spliced P hp -> Spliced P (<[new := n]> hp).
Proof.
  intros HS. split.
  - intros p r Hp. rewrite lookup_insert_ne by (apply not_eq_sym; by eapply cur_ptr_ne_new).
    by apply (spliced_lo _ _ HS).
  - intros p y r Hp. rewrite lookup_insert_ne by (apply not_eq_sym; by eapply hi_ne_new).
    by eapply (spliced_hi _ _ HS).
Qed.

(** Changing level [h] of the node where the search for the entry went
    down at level [h] changes level [h] of the picture. *)
Lemma splice_step (P P' : nat -> bool) (h : nat) (hp : gmap ptr skipListNode)
    (p r : list entry) (x : option ptr) :
  Spliced P hp ->
  lo = p ++ r ->
  Forall (fun y => (ah y <= h)%nat) r ->
  (h < cur_height p)%nat ->
  (forall h', h' <> h -> P' h' = P h') ->
  x = lvl P' h r ->
  Spliced P'
    (<[cur_ptr head p :=
         {| nodeK := cur_key p; nodeV := cur_value p;
            Nexts := <[h := x]> (tab (cur_height p) (fun h' => lvl P h' r)) |}]> hp).
Proof.
  intros HS Hp Hr Hcur HP Hx. split.
  - intros p' r' Hp'.
    destruct (decide (cur_ptr head p' = cur_ptr head p)) as [Heq|Hdiff].
    + assert (p' = p) as Hpp by (eapply (cur_ptr_inj head lo); eauto using nodup_lo).
      rewrite Hpp in *.
      assert (r' = r) as Hrr by (rewrite Hp in Hp'; by apply app_inv_head in Hp').
      rewrite Hrr in *.
      rewrite lookup_insert_eq. f_equal. f_equal.
      apply tab_insert. intros h' Hh'. destruct (Nat.eqb_spec h' h) as [Hhh|Hne'].
      * by rewrite Hhh, Hx.
      * apply lvl_ext. intros _. by apply HP.
    + rewrite lookup_insert_ne by done.
      rewrite (spliced_lo _ _ HS p' r' Hp'). f_equal. f_equal.
      apply tab_ext. intros h' Hh'. destruct (decide (h' = h)) as [Hhh|Hne'].
      * rewrite Hhh in *. destruct (first_at h r') as [y|] eqn:Hf.
        -- unfold lvl. destruct (P h), (P' h); by rewrite ?(succ_at_hit h r' y Hf).
        -- exfalso. apply Hdiff. f_equal.
           apply (pred_unique h lo p' r' p r); try done. by apply first_at_None.
      * apply lvl_ext. intros _. symmetry. by apply HP.
  - intros p' y r' Hp'.
    rewrite lookup_insert_ne by (intros Heq; by eapply (hi_ne_cur p' r' p r y)).
    by eapply (spliced_hi _ _ HS).
Qed.

Lemma Spliced_without (hp : gmap ptr skipListNode) :
  Repr hp head (lo ++ hi) -> Spliced (fun _ => false) hp.
Proof.
  intros HR. split.
  - intros p r Hp.
    rewrite (Repr_cur hp head p (r ++ hi)) by (by rewrite app_assoc, <- Hp). done.
  - intros p y r Hp. apply (repr_nodes _ _ _ HR (lo ++ p)). by rewrite Hp, app_assoc.
Qed.

Lemma Spliced_with (hp : gmap ptr skipListNode) :
  Repr hp head (lo ++ newx :: hi) -> Spliced (fun _ => true) hp.
Proof.
  intros HR. split.
  - intros p r Hp.
    rewrite (Repr_cur hp head p (r ++ newx :: hi)) by (by rewrite app_assoc, <- Hp). done.
  - intros p y r Hp. apply (repr_nodes _ _ _ HR (lo ++ newx :: p)).
    by rewrite Hp, <- app_assoc.
Qed.

Lemma Repr_without (hp : gmap ptr skipListNode) :
  Spliced (fun _ => false) hp ->
  StronglySorted key_lt (lo ++ hi) ->
  Forall (fun x => (1 <= ah x <= skipListMaxHeight)%nat) (lo ++ hi) ->
  Repr hp head (lo ++ hi).
Proof.
  intros HS Hs Hh. split; [| |done|done|done].
  - exact (spliced_lo _ _ HS [] lo eq_refl).
  - intros pre x post Heq.
    apply app_eq_inv in Heq as [(q & Hq1 & Hq2)|(q & Hq1 & Hq2)].
    + destruct q as [|y q]; cbn [app] in Hq2.
      * exact (spliced_hi _ _ HS [] x post (eq_sym Hq2)).
      * injection Hq2 as Hy Hpost. subst y post.
        pose proof (spliced_lo _ _ HS (pre ++ [x]) q) as Hx.
        rewrite cur_ptr_snoc in Hx. rewrite Hx by (by rewrite <- app_assoc).
        unfold node_of, cur_key, cur_value. rewrite cur_height_snoc, last_snoc.
        done.
    + by apply (spliced_hi _ _ HS q x post).
Qed.

Lemma nodup_with : NoDup (head :: (ap <$> (lo ++ newx :: hi))).
Proof.
  pose proof Hnd as H0. pose proof Hnew as H1.
  rewrite fmap_app in *. rewrite fmap_cons. cbn [ap newx].
  apply NoDup_cons in H0 as [H2 H3]. apply NoDup_app in H3 as (H3 & H4 & H5).
  apply NoDup_cons. split; [set_solver|].
  apply NoDup_app. split; [done|]. split.
  - intros x Hx Hin. apply elem_of_cons in Hin as [->|Hin]; [set_solver|].
    by apply (H4 x).
  - apply NoDup_cons. split; [set_solver | done].
Qed.

Lemma Repr_with (hp : gmap ptr skipListNode) :
  Spliced (fun _ => true) hp ->
  hp !! new = Some (node_of newx hi) ->
  StronglySorted key_lt (lo ++ newx :: hi) ->
  Forall (fun x => (1 <= ah x <= skipListMaxHeight)%nat) (lo ++ hi) ->
  (1 <= hn <= skipListMaxHeight)%nat ->
  Repr hp head (lo ++ newx :: hi).
Proof.
  intros HS Hn Hs Hh Hhn. split.
  - exact (spliced_lo _ _ HS [] lo eq_refl).
  - intros pre x post Heq.
    apply app_eq_inv in Heq as [(q & Hq1 & Hq2)|(q & Hq1 & Hq2)].
    + destruct q as [|y q]; cbn [app] in Hq2.
      * injection Hq2 as Hx Hpost. subst x post. exact Hn.
      * injection Hq2 as Hy Hpost. subst y post.
        pose proof (spliced_lo _ _ HS (pre ++ [x]) q) as Hx.
        rewrite cur_ptr_snoc in Hx. rewrite Hx by (by rewrite <- app_assoc).
        unfold node_of, cur_key, cur_value. rewrite cur_height_snoc, last_snoc.
        done.
    + destruct q as [|y q]; cbn [app] in Hq2.
      * injection Hq2 as Hx Hpost. subst x post. exact Hn.
      * injection Hq2 as Hy Hpost. exact (spliced_hi _ _ HS q x post Hpost).
  - done.
  - apply nodup_with.
  - apply Forall_app in Hh as [Hh1 Hh2]. apply Forall_app. split; [done|]. by constructor.
Qed.

End Splice.

(** *** Linking a new node *)

Section Link.
Variables (head new : ptr) (k : K) (v : V) (hn : nat).
Variables (lo hi : list entry) (sw : list skipListStackEntry).

Hypothesis Hnd : NoDup (head :: (ap <$> (lo ++ hi))).
Hypothesis Hnew : new ∉ head :: (ap <$> (lo ++ hi)).
Hypothesis Hlo : Forall (fun x => Cmp (ak x) k < 0) lo.
Hypothesis Hhi : Forall (fun x => 0 < Cmp (ak x) k) hi.
Hypothesis Hsw : forall h, (h < hn)%nat ->
  exists e, sw !! h = Some e /\ recorded head k h (lo ++ hi) e.

(** The levels from [j] upwards are linked. *)
Definition from (j : nat) : nat -> bool := fun h => (j <=? h)%nat.

Record Linked (j : nat) (hp : gmap ptr (@skipListNode K V)) : Prop := {
  linked_spliced : Spliced head new k v hn lo hi (from j) hp;
  linked_new :
    hp !! new =
      Some {| nodeK := k; nodeV := v;
              Nexts := tab hn (fun h => if from j h then succ_at h hi else None) |}
}.

(** One round of the loop of [tryAddInsert]. *)
Lemma link_step (h : nat) (hp : gmap ptr skipListNode) :
  (h < hn)%nat -> Linked (S h) hp ->
  exists hp', link hp sw new (S h) = link hp' sw new h /\ Linked h hp'.
Proof.
  intros Hh [HS Hnew_n].
  destruct (Hsw h Hh) as (e & Hswh & Hrec).
  destruct (recorded_split head k h lo hi e Hlo Hhi Hrec)
    as (p & r & Hp & Hr & Hcur & He). rewrite He in Hswh.
  pose proof (spliced_lo _ _ _ _ _ _ _ _ _ HS p r Hp) as Hnd_p.
  pose proof (cur_ptr_ne_new head new lo hi Hnew p r Hp) as Hne.
  assert (forall h', h' <> h -> from h h' = from (S h) h') as Hfrom.
  { intros h' Hh'. unfold from.
    destruct (Nat.leb_spec h h'), (Nat.leb_spec (S h) h'); done || lia. }
  eexists. split.
  - cbn [link]. rewrite Hswh. cbn [mbind option_bind node].
    rewrite Hnd_p. cbn [mbind option_bind Nexts].
    rewrite lookup_tab by done. cbn [mbind option_bind].
    rewrite (setNext_Some _ _ _ _ _ Hnew_n) by (cbn [Nexts]; by rewrite length_tab).
    cbn [mbind option_bind Nexts nodeK nodeV].
    rewrite (setNext_Some _ (cur_ptr head p) _ _ _
               (eq_trans (lookup_insert_ne _ _ _ _ (not_eq_sym Hne)) Hnd_p))
      by (cbn [Nexts]; by rewrite length_tab).
    cbn [mbind option_bind Nexts nodeK nodeV]. reflexivity.
  - split.
    + apply splice_step with (P := from (S h)); try done.
      * by apply Spliced_other.
      * unfold lvl, from. destruct (Nat.leb_spec h h); [|lia].
        symmetry. by apply succ_at_low_new.
    + rewrite lookup_insert_ne by done. rewrite lookup_insert_eq. f_equal. f_equal.
      apply tab_insert. intros h' Hh'. destruct (Nat.eqb_spec h' h) as [->|Hne'].
      * unfold lvl, from. destruct (Nat.leb_spec (S h) h); [lia|].
        destruct (Nat.leb_spec h h); [|lia]. symmetry. by apply succ_at_low.
      * by rewrite Hfrom.
Qed.

Lemma link_spec (j : nat) (hp : gmap ptr skipListNode) :
  (j <= hn)%nat -> Linked j hp ->
  exists hp', link hp sw new j = Some hp' /\ Linked 0 hp'.
Proof.
  revert hp. induction j as [|h IH]; intros hp Hj HL.
  - by exists hp.
  - destruct (link_step h hp) as (hp1 & -> & HL1); [lia | done |].
    apply IH; [lia | done].
Qed.

(** With the new node allocated and no level linked yet, every other
    node is as it was. *)
Lemma Linked_init (hp : gmap ptr skipListNode) :
  Repr hp head (lo ++ hi) ->
  Linked hn (<[new := {| nodeK := k; nodeV := v; Nexts := replicate hn None |}]> hp).
Proof.
  intros HR. split.
  - apply Spliced_other; [done|].
    apply Spliced_ext with (P := fun _ => false).
    + intros h Hh. unfold from. destruct (Nat.leb_spec hn h); [lia | done].
    + by apply Spliced_without.
  - rewrite lookup_insert_eq. f_equal. f_equal. rewrite <- tab_None.
    apply tab_ext. intros h Hh. unfold from. destruct (Nat.leb_spec hn h); [lia | done].
Qed.

(** The first loop of [tryAddInsert] finds every recorded node as it was
    copied. *)
Lemma unchanged_spec (hp : gmap ptr skipListNode) (j : nat) :
  Linked hn hp -> (j <= hn)%nat -> unchanged hp sw false j = Some true.
Proof.
  intros [HS _]. induction j as [|h IH]; intros Hj; [done|].
  destruct (Hsw h) as (e & Hswh & Hrec); [lia|].
  destruct (recorded_split head k h lo hi e Hlo Hhi Hrec)
    as (p & r & Hp & Hr & Hcur & He). rewrite He in Hswh.
  cbn [unchanged]. rewrite Hswh. cbn [mbind option_bind node nexts].
  rewrite (spliced_lo _ _ _ _ _ _ _ _ _ HS p r Hp). cbn [mbind option_bind Nexts].
  rewrite bool_decide_eq_true_2; [apply IH; lia|].
  rewrite nexts_of_tab. apply tab_ext. intros h' _.
  apply (lvl_ext new k v hn hi (from hn) (fun _ => false)).
  intros Hlt. unfold from. destruct (Nat.leb_spec hn h'); [lia | done].
Qed.

Lemma sorted_insert :
  StronglySorted key_lt (lo ++ hi) -> StronglySorted key_lt (lo ++ newx new k v hn :: hi).
Proof.
  intros Hs. apply sorted_insert_at; [done | done |].
  eapply Forall_impl; [exact Hhi|].
  intros y Hy. unfold key_lt. cbn [ak newx]. by apply Cmp_gt_lt.
Qed.

(** With every level linked the heap holds the list with the new entry
    in its place. *)
Lemma Linked_Repr (hp : gmap ptr skipListNode) :
  Linked 0 hp ->
  StronglySorted key_lt (lo ++ hi) ->
  Forall (fun x => (1 <= ah x <= skipListMaxHeight)%nat) (lo ++ hi) ->
  (1 <= hn <= skipListMaxHeight)%nat ->
  Repr hp head (lo ++ newx new k v hn :: hi).
Proof.
  intros [HS Hn] Hs Hh Hhn.
  apply Repr_with; try done. by apply sorted_insert.
Qed.

End Link.

(** *** Add *)

Lemma heightOf_bounds (n : Z) : (1 <= heightOf n <= skipListMaxHeight)%nat.
Proof.
  unfold heightOf, LeadingZeros16, skipListMaxHeight.
  set (x := Z.lor n 1 mod 2 ^ 16).
  assert (0 <= x < 2 ^ 16) as Hx by (apply Z.mod_pos_bound; lia).
  assert (x <> 0) as Hx0.
  { intros H0. assert (Z.testbit x 0 = true) as Hb.
    { unfold x. rewrite Z.mod_pow2_bits_low by lia.
      rewrite Z.lor_spec. apply orb_true_r. }
    rewrite H0 in Hb. done. }
  destruct (Z.eqb_spec x 0) as [|_]; [done|].
  assert (0 <= Z.log2 x < 16).
  { split; [apply Z.log2_nonneg|]. apply Z.log2_lt_pow2; lia. }
  lia.
Qed.

Lemma wrap_int64_add (a b : Z) : wrap_int64 (wrap_int64 a + b) = wrap_int64 (a + b).
Proof.
  unfold wrap_int64.
  replace ((a + 2 ^ 63) mod 2 ^ 64 - 2 ^ 63 + b + 2 ^ 63)
    with ((a + 2 ^ 63) mod 2 ^ 64 + b) by lia.
  replace (a + b + 2 ^ 63) with (a + 2 ^ 63 + b) by lia.
  by rewrite Zplus_mod_idemp_l.
Qed.

Lemma find_stop_all_gt (k : K) (post : list entry) :
  StronglySorted key_lt post ->
  Forall (fun x => (1 <= ah x <= skipListMaxHeight)%nat) post ->
  find_stop 0 k post -> Forall (fun x => 0 < Cmp (ak x) k) post.
Proof.
  intros Hs Hh Hstop. destruct post as [|y post]; [constructor|].
  unfold find_stop in Hstop. cbn [first_at] in Hstop.
  apply Forall_cons in Hh as [Hy _].
  destruct (Nat.ltb_spec 0 (ah y)); [|lia].
  by apply sorted_all_gt.
Qed.

Lemma lookup_key_insert (k k' : K) (x : entry) (lo hi : list entry) :
  ak x = k ->
  Forall (fun y => Cmp (ak y) k < 0) lo ->
  lookup_key k' (lo ++ x :: hi) =
    if Cmp k k' =? 0 then Some (av x) else lookup_key k' (lo ++ hi).
Proof.
  intros Hx Hlo. destruct (Z.eqb_spec (Cmp k k') 0) as [Heq|Hne].
  - apply Cmp_eq in Heq as <-. rewrite lookup_key_app_lt by done.
    apply lookup_key_here. rewrite Hx. apply Cmp_refl.
  - clear Hlo. unfold lookup_key. induction lo as [|y lo IH]; cbn [app List.find].
    + rewrite Hx. destruct (Z.eqb_spec (Cmp k k') 0); [done | done].
    + destruct (Cmp (ak y) k' =? 0); [done | exact IH].
Qed.

(** What the list stands for, and that every address in use is below
    the next free one. *)
Record Inv (l : skipList) (xs : list entry) : Prop := {
  inv_repr : Repr (heap l) (Head l) xs;
  inv_brk : Forall (fun p => (p < brk l)%nat) (Head l :: (ap <$> xs))
}.

Lemma fresh_brk (l : skipList) (xs : list entry) :
  Inv l xs -> brk l ∉ Head l :: (ap <$> xs).
Proof.
  intros [_ Hb] Hin. rewrite Forall_forall in Hb. specialize (Hb _ Hin). lia.
Qed.

(** One attempt of [Add] on a list nobody else changes: a key that is
    present is refused, a key that is not is linked in at its place in the
    order, in a node at the next free address with the height drawn. *)
Lemma tryAdd_spec (l : skipList) (xs : list entry) (k : K) (v : V) (fuel : nat) :
  Inv l xs -> (length xs < fuel)%nat ->
  match lookup_key k xs with
  | Some _ => tryAdd Cmp fuel l k v = Some (false, true, l)
  | None =>
      exists lo hi hp',
        xs = lo ++ hi /\
        Forall (fun x => Cmp (ak x) k < 0) lo /\
        tryAdd Cmp fuel l k v =
          Some (true, true,
                {| heap := hp'; Head := Head l; len := len l; rnd := rnd l;
                   rndPos := S (rndPos l); brk := S (brk l) |}) /\
        Repr hp' (Head l) (lo ++ newx (brk l) k v (heightOf (rnd l (rndPos l))) :: hi)
  end.
Proof.
  intros HI Hfuel. pose proof (inv_repr _ _ HI) as HR.
  pose proof (addLevels_spec (heap l) (Head l) k fuel skipListMaxHeight [] xs
                (replicate skipListMaxHeight zeroEntry)) as Hadd.
  cbn [app] in Hadd. specialize (Hadd HR).
  rewrite length_replicate in Hadd.
  specialize (Hadd (le_n _) (le_n _) (Forall_nil_2 _)
                (find_stop_top k xs (repr_heights _ _ _ HR)) Hfuel).
  unfold tryAdd. change (cur_ptr (Head l) []) with (Head l) in Hadd.
  destruct (lookup_key k xs) as [w|].
  - rewrite Hadd. done.
  - destruct Hadd as (sw & -> & Hlen & _ & Hrec). cbn [mbind option_bind].
    destruct (Hrec 0%nat) as (e0 & _ & (lo & hi & Hxs & Hlo & _ & Hstop & _));
      [unfold skipListMaxHeight; lia|].
    subst xs.
    pose proof (repr_sorted _ _ _ HR) as Hs.
    pose proof (repr_heights _ _ _ HR) as Hh.
    assert (Forall (fun x => 0 < Cmp (ak x) k) hi) as Hhi.
    { apply sorted_app_inv in Hs as (_ & Hs2 & _). apply Forall_app in Hh as [_ Hh2].
      by apply find_stop_all_gt. }
    set (hn := heightOf (rnd l (rndPos l))).
    pose proof (heightOf_bounds (rnd l (rndPos l))) as Hhn. fold hn in Hhn.
    assert (forall h, (h < hn)%nat ->
              exists e, sw !! h = Some e /\ recorded (Head l) k h (lo ++ hi) e) as Hsw.
    { intros h Hlt. apply Hrec. lia. }
    pose proof (repr_nodup _ _ _ HR) as Hnd.
    pose proof (fresh_brk l _ HI) as Hnew.
    assert (Linked (Head l) (brk l) k v hn lo hi hn
              (<[brk l := {| nodeK := k; nodeV := v; Nexts := replicate hn None |}]> (heap l)))
      as HL by (by apply Linked_init).
    rewrite (unchanged_spec (Head l) (brk l) k v hn lo hi sw) by done.
    cbn [mbind option_bind].
    destruct (link_spec (Head l) (brk l) k v hn lo hi sw) with (j := hn)
      (hp := <[brk l := {| nodeK := k; nodeV := v; Nexts := replicate hn None |}]> (heap l))
      as (hp' & -> & HL'); try done.
    cbn [mbind option_bind heap Head len rnd rndPos brk].
    exists lo, hi, hp'. split; [done|]. split; [done|]. split; [done|].
    by apply Linked_Repr.
Qed.

(** The list stands for [xs], and [Len] is its length as an [int]. *)
Record Model (l : skipList) (xs : list entry) : Prop := {
  model_inv : Inv l xs;
  model_len : len l = wrap_int64 (Z.of_nat (length xs))
}.

Lemma Model_new (draws : nat -> Z) : Model (newSkipList zeroK zeroV draws) [].
Proof.
  split; [split|]; [split|..].
  - apply lookup_singleton_eq.
  - intros pre x post Heq. by destruct pre.
  - constructor.
  - cbn. apply NoDup_singleton.
  - constructor.
  - cbn. repeat constructor.
  - done.
Qed.

(** [Add] on a list nobody else changes needs one attempt. *)
Lemma Add_spec (l : skipList) (xs : list entry) (k : K) (v : V) (tries fuel : nat) :
  Model l xs -> (length xs < fuel)%nat ->
  match lookup_key k xs with
  | Some _ => Add Cmp (S tries) fuel l k v = Some (false, l)
  | None =>
      exists l' xs',
        Add Cmp (S tries) fuel l k v = Some (true, l') /\
        Model l' xs' /\
        length xs' = S (length xs) /\
        forall k', lookup_key k' xs' =
                     if Cmp k k' =? 0 then Some v else lookup_key k' xs
  end.
Proof.
  intros [HI Hlen] Hfuel. pose proof (tryAdd_spec l xs k v fuel HI Hfuel) as Htry.
  cbn [Add]. destruct (lookup_key k xs) as [w|].
  - rewrite Htry. done.
  - destruct Htry as (lo & hi & hp' & -> & Hlo & -> & HR').
    cbn [mbind option_bind].
    eexists _, _. split; [reflexivity|]. split; [split; [split|]|].
    + exact HR'.
    + cbn [addLen heap Head len rnd rndPos brk].
      pose proof (inv_brk _ _ HI) as Hb.
      apply Forall_cons in Hb as [Hb1 Hb2]. rewrite fmap_app in Hb2.
      apply Forall_app in Hb2 as [Hb2 Hb3].
      constructor; [lia|]. rewrite fmap_app, fmap_cons. apply Forall_app. split.
      * eapply Forall_impl; [exact Hb2|]. cbn. lia.
      * constructor; [cbn; lia|]. eapply Forall_impl; [exact Hb3|]. cbn. lia.
    + cbn [addLen len]. rewrite Hlen, wrap_int64_add. f_equal.
      rewrite !length_app, length_cons. lia.
    + split; [rewrite !length_app, length_cons; lia|].
      intros k'. by apply lookup_key_insert.
Qed.

(** *** Delete *)

(** Whether the node that follows at level [h] holds [k]. *)
Definition hit_at (h : nat) (k : K) (post : list entry) : bool :=
  match first_at h post with
  | Some y => Cmp (ak y) k =? 0
  | None => false
  end.

(** What one level of [tryDelete] leaves in [switched]. *)
Definition del_recorded (head : ptr) (k : K) (h : nat) (xs : list entry)
    (e : skipListStackEntry) : Prop :=
  exists p post,
    xs = p ++ post /\
    Forall (fun x => Cmp (ak x) k < 0) p /\
    (h < cur_height p)%nat /\
    seek_stop h k post /\
    e = if hit_at h k post
        then {| node := Some (cur_ptr head p); nexts := nexts_of (cur_height p) post |}
        else zeroEntry.

Lemma deleteLevels_spec (hp : gmap ptr skipListNode) (head : ptr) (k : K) (fuel : nat)
    (levels : nat) (pre post : list entry) (switched : list skipListStackEntry) :
  Repr hp head (pre ++ post) ->
  (levels <= cur_height pre)%nat ->
  (levels <= length switched)%nat ->
  Forall (fun x => Cmp (ak x) k < 0) pre ->
  (length post < fuel)%nat ->
  (forall h, (h < levels)%nat -> switched !! h = Some zeroEntry) ->
  exists switched',
    deleteLevels Cmp fuel hp k levels (cur_ptr head pre) switched = Some switched' /\
    length switched' = length switched /\
    (forall h, (levels <= h)%nat -> switched' !! h = switched !! h) /\
    (forall h, (h < levels)%nat ->
       exists e, switched' !! h = Some e /\ del_recorded head k h (pre ++ post) e).
Proof.
  revert pre post switched.
  induction levels as [|h IH]; intros pre post switched HR Hlev Hlen Hpre Hfuel Hzero.
  - exists switched. cbn [deleteLevels]. split; [done|]. split; [done|].
    split; [done|]. intros h Hh. lia.
  - cbn [deleteLevels].
    destruct (seekAdvance_spec hp head k h fuel pre post HR) as
      (mid & post' & -> & Hrun & Hh' & Hmid & Hstop'); [lia | done |].
    rewrite Hrun. cbn [mbind option_bind].
    assert (Repr hp head ((pre ++ mid) ++ post')) as HR' by (by rewrite <- app_assoc).
    rewrite (hits_spec hp head k h (pre ++ mid) post' HR'). cbn [mbind option_bind].
    fold (hit_at h k post').
    set (sw1 := if hit_at h k post'
                then <[h := {| node := Some (cur_ptr head (pre ++ mid));
                               nexts := nexts_of (cur_height (pre ++ mid)) post' |}]> switched
                else switched).
    assert (length sw1 = length switched) as Hlen1.
    { unfold sw1. destruct (hit_at h k post'); [by rewrite length_insert | done]. }
    assert (forall h', h' <> h -> sw1 !! h' = switched !! h') as Hother.
    { intros h' Hne. unfold sw1. destruct (hit_at h k post'); [|done].
      by rewrite list_lookup_insert_ne. }
    destruct (IH (pre ++ mid) post' sw1) as (sw' & Hdel & Hlen' & Hkeep & Hrec);
      try done; [lia | lia | apply Forall_app; by split |
                 rewrite !length_app in *; lia |
                 intros h' Hh''; rewrite Hother by lia; apply Hzero; lia |].
    exists sw'. split; [done|]. split; [lia|]. split.
    + intros h' Hh''. rewrite Hkeep by lia. apply Hother. lia.
    + intros h' Hh''. destruct (decide (h' = h)) as [->|Hneq].
      * rewrite Hkeep by lia.
        exists (if hit_at h k post'
                then {| node := Some (cur_ptr head (pre ++ mid));
                        nexts := nexts_of (cur_height (pre ++ mid)) post' |}
                else zeroEntry).
        split.
        -- unfold sw1. destruct (hit_at h k post') eqn:Hhit.
           ++ apply list_lookup_insert_eq. lia.
           ++ apply Hzero. lia.
        -- exists (pre ++ mid), post'. split; [by rewrite <- app_assoc|].
           split; [apply Forall_app; by split|]. done.
      * destruct (Hrec h') as (e & He & Hr); [lia|].
        exists e. split; [done|]. by rewrite <- app_assoc in Hr.
Qed.

(** Where a recorded node lies when the entries are split at [k]. *)
Lemma seek_split (k : K) (h : nat) (lo rest p post : list entry) :
  Forall (fun x => Cmp (ak x) k < 0) lo ->
  Forall (fun x => 0 <= Cmp (ak x) k) rest ->
  lo ++ rest = p ++ post ->
  Forall (fun x => Cmp (ak x) k < 0) p ->
  seek_stop h k post ->
  exists r, lo = p ++ r /\ post = r ++ rest /\ Forall (fun x => (ah x <= h)%nat) r.
Proof.
  intros Hlo Hrest Heq Hp Hstop.
  apply app_eq_inv in Heq as [(q & Hq1 & Hq2)|(q & Hq1 & Hq2)].
  - subst lo post. exists q. split; [done|]. split; [done|].
    apply Forall_app in Hlo as [_ Hq].
    destruct (first_at h q) as [y|] eqn:Hf; [|by apply first_at_None].
    exfalso. unfold seek_stop in Hstop. rewrite (first_at_app_hit h q rest y Hf) in Hstop.
    apply first_at_Some in Hf as (low & post & -> & _ & _).
    apply Forall_app in Hq as [_ Hq]. apply Forall_cons in Hq as [Hy _]. lia.
  - subst p rest. destruct q as [|y q].
    + exists []. rewrite !app_nil_r. split; [done|]. split; [done | constructor].
    + exfalso. apply Forall_app in Hp as [_ Hq]. apply Forall_cons in Hq as [Hy _].
      cbn [app] in Hrest. apply Forall_cons in Hrest as [Hy' _]. lia.
Qed.

(** The entries split at [k]: smaller keys, then the entry of [k] if
    there is one, then greater keys. *)
Lemma key_split (k : K) (xs : list entry) :
  StronglySorted key_lt xs ->
  exists lo rest,
    xs = lo ++ rest /\
    Forall (fun x => Cmp (ak x) k < 0) lo /\
    ((Forall (fun x => 0 < Cmp (ak x) k) rest /\ lookup_key k xs = None) \/
     (exists x hi, rest = x :: hi /\ ak x = k /\
                   Forall (fun y => 0 < Cmp (ak y) k) hi /\
                   lookup_key k xs = Some (av x))).
Proof.
  induction xs as [|x xs IH]; intros Hs.
  - exists [], []. split; [done|]. split; [constructor|]. left. split; [constructor | done].
  - pose proof Hs as Hs0. apply StronglySorted_inv in Hs as [Hs Hx].
    destruct (Z.lt_trichotomy (Cmp (ak x) k) 0) as [Hlt|[Heq|Hgt]].
    + destruct (IH Hs) as (lo & rest & -> & Hlo & Hcase).
      exists (x :: lo), rest. split; [done|]. split; [by constructor|].
      assert (lookup_key k (x :: lo ++ rest) = lookup_key k (lo ++ rest)) as Hlk.
      { apply (lookup_key_app_lt k [x]). by constructor. }
      rewrite Hlk. exact Hcase.
    + exists [], (x :: xs). split; [done|]. split; [constructor|]. right.
      exists x, xs. split; [done|]. apply Cmp_eq in Heq as Hk. split; [done|].
      split; [|by apply lookup_key_here].
      eapply Forall_impl; [exact Hx|]. cbn. intros y Hy. unfold key_lt in Hy.
      rewrite Hk in Hy. by apply Cmp_flip.
    + exists [], (x :: xs). split; [done|]. split; [constructor|]. left.
      pose proof (sorted_all_gt k x xs Hs0 Hgt) as Hall.
      split; [done | by apply lookup_key_gt].
Qed.

Lemma hit_at_gt (h : nat) (k : K) (hi : list entry) :
  Forall (fun x => 0 < Cmp (ak x) k) hi -> hit_at h k hi = false.
Proof.
  intros Hhi. unfold hit_at. destruct (first_at h hi) as [y|] eqn:Hf; [|done].
  apply first_at_Some in Hf as (low & post & -> & _ & _).
  apply Forall_app in Hhi as [_ Hhi]. apply Forall_cons in Hhi as [Hy _].
  destruct (Z.eqb_spec (Cmp (ak y) k) 0); [lia | done].
Qed.

Lemma del_recorded_present (head : ptr) (k : K) (h : nat) (lo hi : list entry)
    (x : entry) (e : skipListStackEntry) :
  ak x = k ->
  Forall (fun y => Cmp (ak y) k < 0) lo ->
  Forall (fun y => 0 < Cmp (ak y) k) hi ->
  del_recorded head k h (lo ++ x :: hi) e ->
  if (h <? ah x)%nat
  then exists p r,
         lo = p ++ r /\
         Forall (fun y => (ah y <= h)%nat) r /\
         (h < cur_height p)%nat /\
         e = {| node := Some (cur_ptr head p);
                nexts := nexts_of (cur_height p) (r ++ x :: hi) |}
  else e = zeroEntry.
Proof.
  intros Hk Hlo Hhi (p & post & Heq & Hp & Hcur & Hstop & He).
  destruct (seek_split k h lo (x :: hi) p post) as (r & Hr1 & Hr2 & Hlow); try done.
  { constructor; [rewrite Hk, Cmp_refl; lia|].
    eapply Forall_impl; [exact Hhi|]. cbn. lia. }
  assert (hit_at h k post = (h <? ah x)%nat) as Hhit.
  { rewrite Hr2. unfold hit_at. rewrite first_at_app_low by done. cbn [first_at].
    destruct (Nat.ltb_spec h (ah x)).
    - rewrite Hk, Cmp_refl. done.
    - by apply hit_at_gt. }
  rewrite Hhit in He. destruct (h <? ah x)%nat; [|done].
  exists p, r. rewrite <- Hr2. done.
Qed.

Lemma del_recorded_absent (head : ptr) (k : K) (h : nat) (lo hi : list entry)
    (e : skipListStackEntry) :
  Forall (fun y => Cmp (ak y) k < 0) lo ->
  Forall (fun y => 0 < Cmp (ak y) k) hi ->
  del_recorded head k h (lo ++ hi) e ->
  e = zeroEntry.
Proof.
  intros Hlo Hhi (p & post & Heq & Hp & Hcur & Hstop & He).
  destruct (seek_split k h lo hi p post) as (r & Hr1 & Hr2 & Hlow); try done.
  { eapply Forall_impl; [exact Hhi|]. cbn. lia. }
  assert (hit_at h k post = false) as Hhit.
  { rewrite Hr2. unfold hit_at. rewrite first_at_app_low by done. by apply hit_at_gt. }
  by rewrite Hhit in He.
Qed.

(** *** Unlinking a node *)

Section Unlink.
Variables (head new : ptr) (k : K) (v : V) (hn : nat).
Variables (lo hi : list entry) (sw : list skipListStackEntry).

Hypothesis Hnd : NoDup (head :: (ap <$> (lo ++ hi))).
Hypothesis Hnew : new ∉ head :: (ap <$> (lo ++ hi)).
Hypothesis Hhn : (hn <= skipListMaxHeight)%nat.
Hypothesis Hsw : forall h, (h < skipListMaxHeight)%nat ->
  exists e, sw !! h = Some e /\
    if (h <? hn)%nat
    then exists p r,
           lo = p ++ r /\
           Forall (fun y => (ah y <= h)%nat) r /\
           (h < cur_height p)%nat /\
           e = {| node := Some (cur_ptr head p);
                  nexts := nexts_of (cur_height p) (r ++ newx new k v hn :: hi) |}
    else e = zeroEntry.

(** The levels below [j] are still linked. *)
Definition upto (j : nat) : nat -> bool := fun h => (h <? j)%nat.

Record Unlinked (j : nat) (hp : gmap ptr (@skipListNode K V)) : Prop := {
  unlinked_spliced : Spliced head new k v hn lo hi (upto j) hp;
  unlinked_node : hp !! new = Some (node_of (newx new k v hn) hi)
}.

(** One round of the loop of [tryDeleteRemove]. *)
Lemma unlink_step (h : nat) (hp : gmap ptr skipListNode) :
  (h < skipListMaxHeight)%nat -> Unlinked (S h) hp ->
  exists hp', unlink hp sw (S h) = unlink hp' sw h /\ Unlinked h hp'.
Proof.
  intros Hh [HS Hx].
  destruct (Hsw h Hh) as (e & Hswh & He).
  assert (forall h', h' <> h -> upto h h' = upto (S h) h') as Hupto.
  { intros h' Hh'. unfold upto.
    destruct (Nat.ltb_spec h' h), (Nat.ltb_spec h' (S h)); done || lia. }
  destruct (Nat.ltb_spec h hn) as [Hlt|Hge].
  - destruct He as (p & r & Hp & Hr & Hcur & He). rewrite He in Hswh.
    pose proof (spliced_lo _ _ _ _ _ _ _ _ _ HS p r Hp) as Hnd_p.
    pose proof (cur_ptr_ne_new head new lo hi Hnew p r Hp) as Hne.
    assert (lvl new k v hn hi (upto (S h)) h r = Some new) as Hnext.
    { unfold lvl, upto. destruct (Nat.ltb_spec h (S h)); [|lia].
      by apply succ_at_low_new. }
    eexists. split.
    + cbn [unlink]. rewrite Hswh. cbn [mbind option_bind node].
      rewrite Hnd_p. cbn [mbind option_bind Nexts].
      rewrite lookup_tab by done. cbn [mbind option_bind]. rewrite Hnext.
      cbn [mbind option_bind]. rewrite Hx. cbn [mbind option_bind node_of Nexts].
      rewrite lookup_nexts_of by done. cbn [mbind option_bind].
      rewrite (setNext_Some _ (cur_ptr head p) _ _ _ Hnd_p)
        by (cbn [Nexts]; by rewrite length_tab).
      cbn [mbind option_bind Nexts nodeK nodeV]. reflexivity.
    + split.
      * apply splice_step with (P := upto (S h)); try done.
        unfold lvl, upto. destruct (Nat.ltb_spec h h); [lia|].
        symmetry. by apply succ_at_low.
      * by rewrite lookup_insert_ne.
  - rewrite He in Hswh. exists hp. split.
    + cbn [unlink]. rewrite Hswh. done.
    + split; [|done]. apply Spliced_ext with (P := upto (S h)); [|done].
      intros h' Hh'. symmetry. apply Hupto. lia.
Qed.

Lemma unlink_spec (j : nat) (hp : gmap ptr skipListNode) :
  (j <= skipListMaxHeight)%nat -> Unlinked j hp ->
  exists hp', unlink hp sw j = Some hp' /\ Unlinked 0 hp'.
Proof.
  revert hp. induction j as [|h IH]; intros hp Hj HL.
  - by exists hp.
  - destruct (unlink_step h hp) as (hp1 & -> & HL1); [lia | done |].
    apply IH; [lia | done].
Qed.

Lemma Unlinked_init (hp : gmap ptr skipListNode) :
  Repr hp head (lo ++ newx new k v hn :: hi) -> Unlinked skipListMaxHeight hp.
Proof.
  intros HR. split.
  - apply Spliced_ext with (P := fun _ => true).
    + intros h Hh. unfold upto. destruct (Nat.ltb_spec h skipListMaxHeight); [done | lia].
    + by apply Spliced_with.
  - exact (repr_nodes _ _ _ HR lo (newx new k v hn) hi eq_refl).
Qed.

(** The first loop of [tryDeleteRemove] finds every recorded node as it
    was copied. *)
Lemma unchanged_del_spec (hp : gmap ptr skipListNode) (j : nat) :
  Unlinked skipListMaxHeight hp -> (j <= skipListMaxHeight)%nat ->
  unchanged hp sw true j = Some true.
Proof.
  intros [HS _]. induction j as [|h IH]; intros Hj; [done|].
  destruct (Hsw h) as (e & Hswh & He); [lia|].
  cbn [unchanged]. rewrite Hswh. cbn [mbind option_bind].
  destruct (Nat.ltb_spec h hn) as [Hlt|Hge].
  - destruct He as (p & r & Hp & Hr & Hcur & ->). cbn [node nexts].
    rewrite (spliced_lo _ _ _ _ _ _ _ _ _ HS p r Hp). cbn [mbind option_bind Nexts].
    rewrite bool_decide_eq_true_2; [apply IH; lia|].
    rewrite nexts_of_tab. apply tab_ext. intros h' _.
    apply (lvl_ext new k v hn hi (upto skipListMaxHeight) (fun _ => true)).
    intros Hlt'. unfold upto. destruct (Nat.ltb_spec h' skipListMaxHeight); [done | lia].
  - rewrite He. cbn [node zeroEntry]. apply IH. lia.
Qed.

(** With every level unlinked the heap holds the list without the
    entry. *)
Lemma Unlinked_Repr (hp : gmap ptr skipListNode) :
  Unlinked 0 hp ->
  StronglySorted key_lt (lo ++ hi) ->
  Forall (fun x => (1 <= ah x <= skipListMaxHeight)%nat) (lo ++ hi) ->
  Repr hp head (lo ++ hi).
Proof.
  intros [HS _] Hs Hh. apply (Repr_without head new k v hn); try done.
Qed.

End Unlink.

Lemma sorted_remove (x : entry) (lo hi : list entry) :
  StronglySorted key_lt (lo ++ x :: hi) -> StronglySorted key_lt (lo ++ hi).
Proof.
  induction lo as [|y lo IH]; cbn [app]; intros Hs.
  - by apply StronglySorted_inv in Hs as [Hs _].
  - apply StronglySorted_inv in Hs as [Hs Hy].
    apply Forall_app in Hy as [Hy1 Hy2]. apply Forall_cons in Hy2 as [_ Hy2].
    constructor; [by apply IH|]. apply Forall_app. by split.
Qed.

Lemma nodup_remove (head : ptr) (x : entry) (lo hi : list entry) :
  NoDup (head :: (ap <$> (lo ++ x :: hi))) ->
  NoDup (head :: (ap <$> (lo ++ hi))) /\ ap x ∉ head :: (ap <$> (lo ++ hi)).
Proof.
  rewrite !fmap_app, fmap_cons. intros Hnd.
  apply NoDup_cons in Hnd as [H1 H2]. apply NoDup_app in H2 as (H2 & H3 & H4).
  apply NoDup_cons in H4 as [H4 H5]. split.
  - apply NoDup_cons. split; [set_solver|]. apply NoDup_app. split; [done|].
    split; [|done]. intros y Hy Hin. apply (H3 y Hy). by right.
  - intros Hin. apply elem_of_cons in Hin as [Heq|Hin].
    + apply H1. rewrite <- Heq. set_solver.
    + apply elem_of_app in Hin as [Hin|Hin]; [|done].
      apply (H3 _ Hin). by left.
Qed.

(** One attempt of [Delete] on a list nobody else changes: a key that
    is not present is refused, the node of a key that is present is
    unlinked at every level it takes part in. *)
Lemma tryDelete_spec (l : skipList) (xs : list entry) (k : K) (fuel : nat) :
  Inv l xs -> (length xs < fuel)%nat ->
  match lookup_key k xs with
  | None => tryDelete Cmp fuel l k = Some (false, true, l)
  | Some _ =>
      exists lo x hi hp',
        xs = lo ++ x :: hi /\
        ak x = k /\
        tryDelete Cmp fuel l k =
          Some (true, true,
                {| heap := hp'; Head := Head l; len := len l; rnd := rnd l;
                   rndPos := rndPos l; brk := brk l |}) /\
        Repr hp' (Head l) (lo ++ hi)
  end.
Proof.
  intros HI Hfuel. pose proof (inv_repr _ _ HI) as HR.
  destruct (deleteLevels_spec (heap l) (Head l) k fuel skipListMaxHeight [] xs
              (replicate skipListMaxHeight zeroEntry) HR (le_n _))
    as (sw & Hdel & Hlen & _ & Hrec);
    [by rewrite length_replicate | constructor | done |
     intros h Hh; by apply lookup_replicate_2 |].
  rewrite length_replicate in Hlen. cbn [app] in Hrec.
  change (cur_ptr (Head l) []) with (Head l) in Hdel.
  unfold tryDelete. rewrite Hdel. cbn [mbind option_bind].
  pose proof (repr_sorted _ _ _ HR) as Hs.
  pose proof (repr_heights _ _ _ HR) as Hh.
  destruct (key_split k xs Hs) as (lo & rest & Hxs & Hlo & [[Hhi Hlk]|(x & hi & Hrest & Hk & Hhi & Hlk)]);
    rewrite Hlk.
  - subst xs.
    destruct (ContainsFunc sw _) eqn:Hany; [|done].
    apply ContainsFunc_true in Hany as (e & Hin & He).
    apply list_elem_of_lookup in Hin as [i Hi].
    pose proof (lookup_lt_Some _ _ _ Hi) as Hlt. rewrite Hlen in Hlt.
    destruct (Hrec i Hlt) as (e' & He' & Hdr).
    rewrite Hi in He'. injection He' as <-.
    rewrite (del_recorded_absent (Head l) k i lo rest e Hlo Hhi Hdr) in He. done.
  - subst xs rest. destruct x as [xp xk xv xh]. cbn [ak] in Hk. subst xk.
    assert (1 <= xh <= skipListMaxHeight)%nat as Hxh.
    { apply Forall_app in Hh as [_ Hh]. by apply Forall_cons in Hh as [Hh _]. }
    assert (forall h, (h < skipListMaxHeight)%nat ->
      exists e, sw !! h = Some e /\
        if (h <? xh)%nat
        then exists p r,
               lo = p ++ r /\
               Forall (fun y => (ah y <= h)%nat) r /\
               (h < cur_height p)%nat /\
               e = {| node := Some (cur_ptr (Head l) p);
                      nexts := nexts_of (cur_height p) (r ++ newx xp k xv xh :: hi) |}
        else e = zeroEntry) as Hsw.
    { intros h Hlt. destruct (Hrec h Hlt) as (e & He & Hdr). exists e. split; [done|].
      by apply (del_recorded_present (Head l) k h lo hi (mkEntry_ xp k xv xh) e). }
    destruct (nodup_remove _ _ _ _ (repr_nodup _ _ _ HR)) as [Hnd Hnew]. cbn [ap] in Hnew.
    assert (ContainsFunc sw (fun e => bool_decide (node e <> None)) = true) as ->.
    { apply ContainsFunc_true. destruct (Hsw 0%nat) as (e & He & Hcase);
        [unfold skipListMaxHeight; lia|].
      destruct (Nat.ltb_spec 0 xh); [|lia].
      destruct Hcase as (p & r & _ & _ & _ & ->).
      eexists. split; [by eapply list_elem_of_lookup_2 | done]. }
    pose proof (proj2 Hxh) as Hhn.
    assert (Unlinked (Head l) xp k xv xh lo hi skipListMaxHeight (heap l)) as HU
      by (by apply Unlinked_init).
    rewrite Hlen.
    rewrite (unchanged_del_spec (Head l) xp k xv xh lo hi sw) by (done || lia).
    cbn [mbind option_bind].
    destruct (unlink_spec (Head l) xp k xv xh lo hi sw) with (j := skipListMaxHeight)
      (hp := heap l) as (hp' & -> & HU'); try (done || lia).
    cbn [mbind option_bind].
    exists lo, (mkEntry_ xp k xv xh), hi, hp'. split; [done|]. split; [done|].
    split; [done|].
    apply (Unlinked_Repr (Head l) xp k xv xh); try done.
    + by apply sorted_remove in Hs.
    + apply Forall_app in Hh as [Hh1 Hh2]. apply Forall_cons in Hh2 as [_ Hh2].
      apply Forall_app. by split.
Qed.

(** [Delete] on a list nobody else changes needs one attempt. *)
Lemma Delete_spec (l : skipList) (xs : list entry) (k : K) (tries fuel : nat) :
  Model l xs -> (length xs < fuel)%nat ->
  match lookup_key k xs with
  | None => Delete Cmp (S tries) fuel l k = Some (false, l)
  | Some _ =>
      exists l' xs',
        Delete Cmp (S tries) fuel l k = Some (true, l') /\
        Model l' xs' /\
        length xs = S (length xs') /\
        forall k', lookup_key k' xs' =
                     if Cmp k k' =? 0 then None else lookup_key k' xs
  end.
Proof.
  intros [HI Hlen] Hfuel. pose proof (tryDelete_spec l xs k fuel HI Hfuel) as Htry.
  cbn [Delete]. destruct (lookup_key k xs) as [w|].
  - destruct Htry as (lo & x & hi & hp' & -> & Hk & -> & HR').
    cbn [mbind option_bind].
    pose proof (repr_sorted _ _ _ (inv_repr _ _ HI)) as Hs.
    apply sorted_middle in Hs as [Hlo Hhi].
    assert (Forall (fun y => Cmp (ak y) k < 0) lo) as Hlo'.
    { eapply Forall_impl; [exact Hlo|]. cbn. intros y Hy. unfold key_lt in Hy.
      by rewrite Hk in Hy. }
    assert (Forall (fun y => 0 < Cmp (ak y) k) hi) as Hhi'.
    { eapply Forall_impl; [exact Hhi|]. cbn. intros y Hy. unfold key_lt in Hy.
      rewrite Hk in Hy. by apply Cmp_flip. }
    eexists _, (lo ++ hi). split; [reflexivity|]. split; [split; [split|]|].
    + exact HR'.
    + cbn [addLen heap Head len rnd rndPos brk].
      pose proof (inv_brk _ _ HI) as Hb.
      apply Forall_cons in Hb as [Hb1 Hb2]. rewrite fmap_app, fmap_cons in Hb2.
      apply Forall_app in Hb2 as [Hb2 Hb3]. apply Forall_cons in Hb3 as [_ Hb3].
      constructor; [done|]. rewrite fmap_app. apply Forall_app. by split.
    + cbn [addLen len]. rewrite Hlen, wrap_int64_add. f_equal.
      rewrite !length_app, length_cons. lia.
    + split; [rewrite !length_app, length_cons; lia|].
      intros k'. rewrite (lookup_key_insert k k' x lo hi Hk Hlo').
      destruct (Z.eqb_spec (Cmp k k') 0) as [Heq|Hne]; [|done].
      apply Cmp_eq in Heq as <-. rewrite lookup_key_app_lt by done.
      by apply lookup_key_gt.
  - rewrite Htry. done.
Qed.

(** *** Sequences of calls *)

Inductive call : Type :=
  | CallAdd (k : K) (v : V)
  | CallDelete (k : K).

Definition perform (fuel : nat) (l : skipList) (o : call) : option (bool * skipList) :=
  match o with
  | CallAdd k v => Add Cmp 1 fuel l k v
  | CallDelete k => Delete Cmp 1 fuel l k
  end.

(** The calls of [ops] in order, with their results. *)
Fixpoint performAll (fuel : nat) (l : skipList) (ops : list call) : option (list bool * skipList) :=
  match ops with
  | [] => Some ([], l)
  | o :: ops' =>
      r ← perform fuel l o;
      rest ← performAll fuel r.2 ops';
      Some (r.1 :: rest.1, rest.2)
  end.

(** Successful [Add]s minus successful [Delete]s. *)
Fixpoint net (ops : list call) (rs : list bool) : Z :=
  match ops, rs with
  | o :: ops', r :: rs' =>
      (if r : bool then match o with CallAdd _ _ => 1 | CallDelete _ => -1 end else 0)
      + net ops' rs'
  | _, _ => 0
  end.

Lemma perform_spec (fuel : nat) (l : skipList) (xs : list entry) (o : call) :
  Model l xs -> (length xs < fuel)%nat ->
  exists r l' xs',
    perform fuel l o = Some (r, l') /\
    Model l' xs' /\
    Z.of_nat (length xs') = Z.of_nat (length xs) + net [o] [r].
Proof.
  intros HM Hfuel. destruct o as [k v|k]; cbn [perform net].
  - pose proof (Add_spec l xs k v 0 fuel HM Hfuel) as HA.
    destruct (lookup_key k xs).
    + exists false, l, xs. split; [done|]. split; [done | lia].
    + destruct HA as (l' & xs' & HA & HM' & Hlen & _).
      exists true, l', xs'. split; [done|]. split; [done | lia].
  - pose proof (Delete_spec l xs k 0 fuel HM Hfuel) as HD.
    destruct (lookup_key k xs).
    + destruct HD as (l' & xs' & HD & HM' & Hlen & _).
      exists true, l', xs'. split; [done|]. split; [done | lia].
    + exists false, l, xs. split; [done|]. split; [done | lia].
Qed.

(** Every call of a sequence returns, the list stands for some entries
    after it, and their number has changed by the successful [Add]s minus
    the successful [Delete]s. *)
Lemma performAll_spec (fuel : nat) (ops : list call) (l : skipList) (xs : list entry) :
  Model l xs -> (length xs + length ops < fuel)%nat ->
  exists rs l' xs',
    performAll fuel l ops = Some (rs, l') /\
    length rs = length ops /\
    Model l' xs' /\
    (length xs' <= length xs + length ops)%nat /\
    Z.of_nat (length xs') = Z.of_nat (length xs) + net ops rs.
Proof.
  revert l xs. induction ops as [|o ops IH]; intros l xs HM Hfuel.
  - exists [], l, xs. split; [done|]. split; [done|]. split; [done|].
    split; cbn; lia.
  - cbn [length] in Hfuel.
    destruct (perform_spec fuel l xs o HM) as (r & l1 & xs1 & Ha & HM1 & Hlen1); [lia|].
    cbn [net] in Hlen1.
    assert (length xs1 <= S (length xs))%nat as Hle1 by (destruct r, o; lia).
    destruct (IH l1 xs1 HM1) as (rs & l' & xs' & Hrun & Hrs & HM' & Hle & Hlen'); [lia|].
    exists (r :: rs), l', xs'. cbn [performAll]. rewrite Ha. cbn [mbind option_bind fst snd].
    rewrite Hrun. cbn [mbind option_bind fst snd]. split; [done|].
    split; [cbn; lia|]. split; [done|]. split; [cbn [length]; lia|]. cbn [net]. lia.
Qed.

(** *** The list used by one goroutine *)

(** After any sequence of [Add]s and [Delete]s on a new list: [Len] is
    the number of successful [Add]s minus the number of successful
    [Delete]s (as an [int]); and for a key other than the zero value of
    the key type, [Add] returns true exactly when [Find] does not find the
    key, after a successful [Add] the key is found with the value added,
    and an [Add] that returns false leaves the list as it was. *)
Lemma sequential_spec (draws : nat -> Z) (ops : list call) (k : K) (v : V) (fuel : nat) :
  (S (length ops) < fuel)%nat ->
  Cmp zeroK k <> 0 ->
  exists rs l,
    performAll fuel (newSkipList zeroK zeroV draws) ops = Some (rs, l) /\
    Len l = wrap_int64 (net ops rs) /\
    exists added l',
      Add Cmp 1 fuel l k v = Some (added, l') /\
      (added = true <-> Find Cmp fuel l k = Some None) /\
      (added = true -> Find Cmp fuel l' k = Some (Some v)) /\
      (added = false -> l' = l) /\
      Len l' = wrap_int64 (Len l + if added then 1 else 0).
Proof.
  intros Hfuel Hz.
  destruct (performAll_spec fuel ops (newSkipList zeroK zeroV draws) [] (Model_new draws))
    as (rs & l & xs & Hrun & Hrs & HM & Hle & Hlen); [cbn [length]; lia|].
  cbn [length] in Hle, Hlen. exists rs, l. split; [done|].
  pose proof (model_len _ _ HM) as HLen. unfold Len.
  split; [rewrite HLen; f_equal; lia|].
  pose proof (Find_spec l xs k fuel (inv_repr _ _ (model_inv _ _ HM)) Hz) as HF.
  rewrite HF by lia.
  pose proof (Add_spec l xs k v 0 fuel HM) as HA.
  destruct (lookup_key k xs) as [w|].
  - exists false, l. split; [apply HA; lia|]. split; [done|]. split; [done|].
    split; [done|]. rewrite Z.add_0_r, HLen.
    symmetry. apply wrap_int64_small. apply wrap_int64_range.
  - destruct HA as (l' & xs' & HA & HM' & Hlen' & Hlk); [lia|].
    exists true, l'. split; [done|]. split; [done|]. split.
    + intros _.
      rewrite (Find_spec l' xs' k fuel (inv_repr _ _ (model_inv _ _ HM')) Hz) by lia.
      rewrite Hlk, Cmp_refl. done.
    + split; [done|]. rewrite (model_len _ _ HM'), HLen, wrap_int64_add. f_equal. lia.
Qed.

(** [Find] does not find the zero value of the key type, whatever has
    been added (unless its node has the full height). *)
Lemma Find_misses_zero_key (draws : nat -> Z) (v : V) :
  (heightOf (draws 0%nat) < skipListMaxHeight)%nat ->
  exists l1,
    Add Cmp 1 1 (newSkipList zeroK zeroV draws) zeroK v = Some (true, l1) /\
    Len l1 = 1 /\
    Find Cmp 1 l1 zeroK = Some None.
Proof.
  intros Hh. pose proof (Cmp_refl zeroK) as Hz. unfold Add, tryAdd.
  cbn [newSkipList heap Head rnd rndPos brk len].
  remember (heightOf (draws 0%nat)) as h eqn:Eh. clear Eh.
  unfold skipListMaxHeight in Hh.
  do 16 (destruct h as [|h];
         [eexists; split; [vm_compute; reflexivity|]; split; [reflexivity|];
          vm_compute; rewrite Hz; reflexivity|]).
  lia.
Qed.

End Facts.
End SkipListFacts.


(** ** package mocrelay: the ring buffer (data_structure.go) *)

Module RingBuffer.

Section RingBuffer.
(** [T any], with its zero value. *)
Context {T : Type}.
Variable zeroT : T.

Record ringBuffer := mkRingBuffer {
  Cap : Z;
  s : list T;
  head : Z;
  tail : Z
}.

(** [s[k]] and [s[k] = v] on a slice: a panic when [k] is out of range. *)
Definition index (sl : list T) (k : Z) : option T :=
  if k <? 0 then None else sl !! Z.to_nat k.

Definition store (sl : list T) (k : Z) (v : T) : option (list T) :=
  if (k <? 0) || (len sl <=? k) then None else Some (<[Z.to_nat k := v]> sl).

(** [newRingBuffer]: [panicf] for a capacity that is not positive;
    [make([]T, capacity)] is a slice of zero values. *)
Definition newRingBuffer (capacity : Z) : option ringBuffer :=
  if capacity <=? 0 then None
  else Some {| Cap := capacity; s := replicate (Z.to_nat capacity) zeroT;
               head := 0; tail := 0 |}.

(** [a % rb.Cap]: the remainder has the sign of [a]; a zero [Cap] is a
    run-time panic. *)
Definition mod_ (rb : ringBuffer) (a : Z) : option Z :=
  if Cap rb =? 0 then None else Some (Z.rem a (Cap rb)).

Definition Len (rb : ringBuffer) : Z := wrap_int64 (tail rb - head rb).

Definition idx (rb : ringBuffer) (i : Z) : option Z :=
  if (i <? 0) || (Len rb <=? i) then None
  else mod_ rb (wrap_int64 (wrap_int64 (tail rb - 1) - i)).

Definition At (rb : ringBuffer) (i : Z) : option T :=
  k ← idx rb i; index (s rb) k.

Definition Enqueue (rb : ringBuffer) (v : T) : option ringBuffer :=
  if Len rb =? Cap rb then None
  else
    k ← mod_ rb (tail rb);
    sl ← store (s rb) k v;
    Some {| Cap := Cap rb; s := sl; head := head rb; tail := wrap_int64 (tail rb + 1) |}.

Definition Dequeue (rb : ringBuffer) : option (T * ringBuffer) :=
  if Len rb =? 0 then None
  else
    modhead ← mod_ rb (head rb);
    old ← index (s rb) modhead;
    sl ← store (s rb) modhead zeroT;
    Some (old, {| Cap := Cap rb; s := sl; head := wrap_int64 (head rb + 1);
                  tail := tail rb |}).

(** [rb.s[ii], rb.s[jj] = rb.s[jj], rb.s[ii]]: both right-hand sides are
    read before the first assignment. *)
Definition Swap (rb : ringBuffer) (i j : Z) : option ringBuffer :=
  ii ← idx rb i;
  jj ← idx rb j;
  vj ← index (s rb) jj;
  vi ← index (s rb) ii;
  sl ← store (s rb) ii vj;
  sl ← store sl jj vi;
  Some {| Cap := Cap rb; s := sl; head := head rb; tail := tail rb |}.

(** The loop of [IdxFunc] from [i], with [n] iterations left before
    [i < rb.Len()] fails. *)
Fixpoint IdxLoop (rb : ringBuffer) (f : T -> bool) (i : Z) (n : nat) : option Z :=
  match n with
  | O => Some (-1)
  | S n' =>
      v ← At rb i;
      if f v then Some i else IdxLoop rb f (i + 1) n'
  end.

Definition IdxFunc (rb : ringBuffer) (f : T -> bool) : option Z :=
  IdxLoop rb f 0 (Z.to_nat (Len rb)).

End RingBuffer.
End RingBuffer.


Module RingBufferFacts.
Import RingBuffer.

Section Facts.
Context {T : Type}.
Variable zeroT : T.

(** The buffer holds the queue [q], oldest element first: element [j]
    sits in slot [(head + j) mod Cap]. *)
Record Holds (rb : @ringBuffer T) (q : list T) : Prop := {
  holds_cap : 0 < Cap rb;
  holds_len : len (s rb) = Cap rb;
  holds_head : 0 <= head rb;
  holds_tail : tail rb = head rb + len q;
  holds_room : len q <= Cap rb;
  holds_int : tail rb < int64_max;
  holds_slots : forall (j : nat) (x : T),
    q !! j = Some x -> s rb !! Z.to_nat ((head rb + Z.of_nat j) mod Cap rb) = Some x
}.

Lemma mod_offset_inj (h c a b : Z) :
  0 < c -> 0 <= a < c -> 0 <= b < c -> (h + a) mod c = (h + b) mod c -> a = b.
Proof.
  intros Hc Ha Hb Heq.
  assert ((a - b) mod c = 0) as Hd.
  { replace (a - b) with ((h + a) - (h + b)) by lia.
    rewrite Zminus_mod, Heq, Z.sub_diag. by apply Z.mod_0_l; lia. }
  apply Z.mod_divide in Hd; [|lia]. destruct Hd as [m Hm].
  assert (m = 0) by nia. lia.
Qed.

Lemma Len_Holds (rb : ringBuffer) (q : list T) : Holds rb q -> Len rb = len q.
Proof.
  intros HH. unfold Len. rewrite (holds_tail _ _ HH).
  replace (head rb + len q - head rb) with (len q) by lia.
  apply wrap_int64_small. pose proof (holds_int _ _ HH). pose proof (holds_head _ _ HH).
  pose proof (holds_tail _ _ HH). unfold int64_min, int64_max, len in *. lia.
Qed.

Lemma mod_Holds (rb : ringBuffer) (q : list T) (a : Z) :
  Holds rb q -> 0 <= a -> mod_ rb a = Some (a mod Cap rb).
Proof.
  intros HH Ha. unfold mod_. pose proof (holds_cap _ _ HH).
  destruct (Z.eqb_spec (Cap rb) 0); [lia|]. by rewrite Z.rem_mod_nonneg by lia.
Qed.

Lemma index_lookup (sl : list T) (k : Z) : 0 <= k -> index sl k = sl !! Z.to_nat k.
Proof. intros Hk. unfold index. destruct (Z.ltb_spec k 0); [lia | done]. Qed.

Lemma store_insert (sl : list T) (k : Z) (v : T) :
  0 <= k < len sl -> store sl k v = Some (<[Z.to_nat k := v]> sl).
Proof.
  intros Hk. unfold store.
  destruct (Z.ltb_spec k 0); [lia|]. destruct (Z.leb_spec (len sl) k); [lia | done].
Qed.

Lemma slot_range (rb : ringBuffer) (q : list T) (a : Z) :
  Holds rb q -> 0 <= a mod Cap rb < len (s rb).
Proof.
  intros HH. rewrite (holds_len _ _ HH). apply Z.mod_pos_bound. apply (holds_cap _ _ HH).
Qed.

(** [newRingBuffer] *)
Lemma new_Holds (capacity : Z) :
  0 < capacity ->
  exists rb, newRingBuffer zeroT capacity = Some rb /\ Holds rb [] /\ Cap rb = capacity.
Proof.
  intros Hc. unfold newRingBuffer. destruct (Z.leb_spec capacity 0); [lia|].
  eexists. split; [done|]. split; [|done].
  split; cbn [Cap s head tail]; unfold len, int64_max;
    rewrite ?length_replicate; cbn [length]; try lia.
  intros j x Hj. done.
Qed.

(** [Enqueue] *)
Lemma Enqueue_Holds (rb : ringBuffer) (q : list T) (v : T) :
  Holds rb q -> tail rb + 1 < int64_max ->
  if len q =? Cap rb then Enqueue rb v = None
  else exists rb', Enqueue rb v = Some rb' /\ Holds rb' (q ++ [v]) /\ Cap rb' = Cap rb /\
                   tail rb' = tail rb + 1.
Proof.
  intros HH Hint. unfold Enqueue. rewrite (Len_Holds rb q HH).
  destruct (Z.eqb_spec (len q) (Cap rb)) as [|Hne]; [done|].
  pose proof (holds_cap _ _ HH) as Hcap. pose proof (holds_head _ _ HH) as Hhead.
  pose proof (holds_tail _ _ HH) as Htail. pose proof (holds_room _ _ HH) as Hroom.
  assert (0 <= tail rb) as Ht0 by (unfold len in *; lia).
  rewrite (mod_Holds rb q (tail rb) HH Ht0). cbn [mbind option_bind].
  rewrite store_insert by (by eapply slot_range). cbn [mbind option_bind].
  assert (wrap_int64 (tail rb + 1) = tail rb + 1) as Hw.
  { apply wrap_int64_small. unfold int64_min, int64_max in *. lia. }
  eexists. split; [done|]. split; [|done].
  split; cbn [Cap s head tail]; try done.
  - unfold len. rewrite length_insert. apply (holds_len _ _ HH).
  - rewrite Hw, Htail. unfold len. rewrite length_app. cbn. lia.
  - unfold len in *. rewrite length_app. cbn. lia.
  - by rewrite Hw.
  - intros j x Hj. destruct (decide (j = length q)) as [->|Hjne].
    + rewrite lookup_app_r, Nat.sub_diag in Hj by lia. injection Hj as <-.
      rewrite Htail. apply list_lookup_insert_eq.
      pose proof (slot_range rb q (head rb + len q) HH) as Hr. unfold len in *. lia.
    + assert (j < length q)%nat as Hlt.
      { apply lookup_lt_Some in Hj. rewrite length_app in Hj. cbn in Hj. lia. }
      rewrite lookup_app_l in Hj by done.
      rewrite list_lookup_insert_ne; [by apply (holds_slots _ _ HH)|].
      intros Heq. apply Z2Nat.inj in Heq;
        [| apply Z.mod_pos_bound; lia | apply Z.mod_pos_bound; lia].
      rewrite Htail in Heq. symmetry in Heq.
      apply mod_offset_inj in Heq; unfold len in *; lia.
Qed.

(** [Dequeue] *)
Lemma Dequeue_Holds (rb : ringBuffer) (q : list T) :
  Holds rb q ->
  match q with
  | [] => Dequeue zeroT rb = None
  | x :: q' =>
      exists rb', Dequeue zeroT rb = Some (x, rb') /\ Holds rb' q' /\ Cap rb' = Cap rb /\
                  tail rb' = tail rb /\
                  s rb' !! Z.to_nat (head rb mod Cap rb) = Some zeroT
  end.
Proof.
  intros HH. unfold Dequeue. rewrite (Len_Holds rb q HH).
  pose proof (holds_cap _ _ HH) as Hcap. pose proof (holds_head _ _ HH) as Hhead.
  pose proof (holds_tail _ _ HH) as Htail. pose proof (holds_room _ _ HH) as Hroom.
  pose proof (holds_int _ _ HH) as Hint.
  destruct q as [|x q']; [done|].
  destruct (Z.eqb_spec (len (x :: q')) 0) as [H0|_]; [unfold len in H0; cbn in H0; lia|].
  rewrite (mod_Holds rb _ (head rb) HH Hhead). cbn [mbind option_bind].
  pose proof (slot_range rb _ (head rb) HH) as Hr.
  rewrite index_lookup by lia.
  pose proof (holds_slots _ _ HH 0%nat x eq_refl) as H0.
  rewrite Z.add_0_r in H0. rewrite H0. cbn [mbind option_bind].
  rewrite store_insert by done. cbn [mbind option_bind].
  assert (wrap_int64 (head rb + 1) = head rb + 1) as Hw.
  { apply wrap_int64_small. unfold int64_min, int64_max, len in *. cbn in Htail. lia. }
  eexists. split; [done|]. split; [|split; [done|split; [done|]]].
  - split; cbn [Cap s head tail]; try done.
    + unfold len. rewrite length_insert. apply (holds_len _ _ HH).
    + lia.
    + rewrite Hw, Htail. unfold len. cbn. lia.
    + unfold len in *. cbn in Hroom. lia.
    + intros j y Hj. rewrite Hw.
      rewrite list_lookup_insert_ne.
      * replace (head rb + 1 + Z.of_nat j) with (head rb + Z.of_nat (S j)) by lia.
        by apply (holds_slots _ _ HH).
      * intros Heq. apply Z2Nat.inj in Heq;
          [| apply Z.mod_pos_bound; lia | apply Z.mod_pos_bound; lia].
        replace (head rb) with (head rb + 0) in Heq at 1 by lia.
        replace (head rb + 1 + Z.of_nat j) with (head rb + (1 + Z.of_nat j)) in Heq by lia.
        apply lookup_lt_Some in Hj.
        apply mod_offset_inj in Heq; unfold len in *; cbn in Hroom; lia.
  - cbn [s]. apply list_lookup_insert_eq. unfold len in Hr. lia.
Qed.

Lemma slot_inj (rb : ringBuffer) (q : list T) (a b : nat) :
  Holds rb q -> (a < length q)%nat -> (b < length q)%nat ->
  Z.to_nat ((head rb + Z.of_nat a) mod Cap rb) = Z.to_nat ((head rb + Z.of_nat b) mod Cap rb) ->
  a = b.
Proof.
  intros HH Ha Hb Heq. pose proof (holds_cap _ _ HH). pose proof (holds_room _ _ HH) as Hr.
  apply Z2Nat.inj in Heq; [| apply Z.mod_pos_bound; lia | apply Z.mod_pos_bound; lia].
  apply mod_offset_inj in Heq; unfold len in *; lia.
Qed.

(** [idx] and [At]: index 0 is the newest element. *)
Lemma idx_Holds (rb : ringBuffer) (q : list T) (i : Z) :
  Holds rb q ->
  idx rb i =
    if (0 <=? i) && (i <? len q)
    then Some ((head rb + (len q - 1 - i)) mod Cap rb)
    else None.
Proof.
  intros HH. unfold idx. rewrite (Len_Holds rb q HH).
  pose proof (holds_head _ _ HH) as Hhead. pose proof (holds_tail _ _ HH) as Htail.
  pose proof (holds_int _ _ HH) as Hint.
  destruct (Z.ltb_spec i 0), (Z.leb_spec 0 i), (Z.leb_spec (len q) i), (Z.ltb_spec i (len q));
    try lia; cbn [orb andb]; try done.
  assert (wrap_int64 (tail rb - 1) = tail rb - 1) as ->.
  { apply wrap_int64_small. unfold int64_min, int64_max, len in *. lia. }
  assert (wrap_int64 (tail rb - 1 - i) = tail rb - 1 - i) as ->.
  { apply wrap_int64_small. unfold int64_min, int64_max, len in *. lia. }
  rewrite (mod_Holds rb q _ HH) by (unfold len in *; lia).
  do 2 f_equal. lia.
Qed.

Lemma At_Holds (rb : ringBuffer) (q : list T) (i : Z) :
  Holds rb q ->
  At rb i = if (0 <=? i) && (i <? len q) then reverse q !! Z.to_nat i else None.
Proof.
  intros HH. unfold At. rewrite (idx_Holds rb q i HH).
  destruct (Z.leb_spec 0 i), (Z.ltb_spec i (len q)); cbn [andb mbind option_bind]; try done.
  pose proof (holds_cap _ _ HH).
  rewrite index_lookup by (apply Z.mod_pos_bound; lia).
  unfold len in *. rewrite reverse_lookup by lia.
  destruct (lookup_lt_is_Some_2 q (length q - S (Z.to_nat i))) as [x Hx]; [lia|].
  rewrite Hx. rewrite <- (holds_slots _ _ HH _ x Hx). do 3 f_equal. lia.
Qed.

(** [Swap] *)
Lemma Swap_Holds (rb : ringBuffer) (q : list T) (i j : Z) :
  Holds rb q ->
  if (0 <=? i) && (i <? len q) && (0 <=? j) && (j <? len q)
  then exists rb' a b xa xb,
         a = (length q - S (Z.to_nat i))%nat /\ b = (length q - S (Z.to_nat j))%nat /\
         q !! a = Some xa /\ q !! b = Some xb /\
         Swap rb i j = Some rb' /\
         Holds rb' (<[b := xa]> (<[a := xb]> q)) /\ Cap rb' = Cap rb
  else Swap rb i j = None.
Proof.
  intros HH. unfold Swap. rewrite !(idx_Holds rb q _ HH).
  pose proof (holds_cap _ _ HH) as Hcap.
  destruct (Z.leb_spec 0 i), (Z.ltb_spec i (len q)); cbn [andb mbind option_bind]; try done.
  destruct (Z.leb_spec 0 j), (Z.ltb_spec j (len q)); cbn [andb mbind option_bind]; try done.
  unfold len in *.
  set (a := (length q - S (Z.to_nat i))%nat). set (b := (length q - S (Z.to_nat j))%nat).
  destruct (lookup_lt_is_Some_2 q a) as [xa Hxa]; [lia|].
  destruct (lookup_lt_is_Some_2 q b) as [xb Hxb]; [lia|].
  replace (Z.of_nat (length q) - 1 - i) with (Z.of_nat a) by lia.
  replace (Z.of_nat (length q) - 1 - j) with (Z.of_nat b) by lia.
  rewrite !index_lookup by (apply Z.mod_pos_bound; lia).
  rewrite (holds_slots _ _ HH _ _ Hxa), (holds_slots _ _ HH _ _ Hxb).
  cbn [mbind option_bind].
  rewrite store_insert by (by eapply slot_range). cbn [mbind option_bind].
  rewrite store_insert
    by (unfold len; rewrite length_insert; by eapply (slot_range rb q)).
  cbn [mbind option_bind].
  exists {| Cap := Cap rb;
            s := <[Z.to_nat ((head rb + Z.of_nat b) mod Cap rb) := xa]>
                   (<[Z.to_nat ((head rb + Z.of_nat a) mod Cap rb) := xb]> (s rb));
            head := head rb; tail := tail rb |}, a, b, xa, xb.
  split; [done|]. split; [done|]. split; [done|]. split; [done|]. split; [done|].
  split; [|done].
  split; cbn [Cap s head tail]; try apply HH.
  - unfold len. rewrite !length_insert. apply (holds_len _ _ HH).
  - unfold len. rewrite !length_insert. apply (holds_tail _ _ HH).
  - unfold len. rewrite !length_insert. apply (holds_room _ _ HH).
  - intros k x Hk.
    assert (k < length q)%nat as Hklt.
    { apply lookup_lt_Some in Hk. by rewrite !length_insert in Hk. }
    pose proof (slot_range rb q (head rb + Z.of_nat a) HH) as Hra.
    pose proof (slot_range rb q (head rb + Z.of_nat b) HH) as Hrb.
    unfold len in Hra, Hrb.
    destruct (decide (k = b)) as [->|Hkb].
    + rewrite list_lookup_insert_eq in Hk by (rewrite length_insert; lia).
      injection Hk as <-. apply list_lookup_insert_eq. rewrite length_insert. lia.
    + rewrite list_lookup_insert_ne in Hk by done.
      rewrite list_lookup_insert_ne
        by (intros Heq; apply Hkb; symmetry; by apply (slot_inj rb q b k HH); try lia).
      destruct (decide (k = a)) as [->|Hka].
      * rewrite list_lookup_insert_eq in Hk by lia.
        injection Hk as <-. apply list_lookup_insert_eq. lia.
      * rewrite list_lookup_insert_ne in Hk by done.
        rewrite list_lookup_insert_ne
          by (intros Heq; apply Hka; symmetry; by apply (slot_inj rb q a k HH); try lia).
        by apply (holds_slots _ _ HH).
Qed.

(** [IdxFunc] *)

(** The first position from [i] on whose element satisfies [f], or -1. *)
Fixpoint firstIndex (f : T -> bool) (l : list T) (i : Z) : Z :=
  match l with
  | [] => -1
  | x :: l' => if f x then i else firstIndex f l' (i + 1)
  end.

Lemma IdxLoop_Holds (rb : ringBuffer) (q : list T) (f : T -> bool) (n : nat) (i : Z) :
  Holds rb q -> 0 <= i -> Z.of_nat n = len q - i ->
  IdxLoop rb f i n = Some (firstIndex f (drop (Z.to_nat i) (reverse q)) i).
Proof.
  intros HH. revert i. induction n as [|n IH]; intros i Hi Hn.
  - cbn [IdxLoop]. rewrite drop_ge; [done|]. rewrite length_reverse. unfold len in *. lia.
  - cbn [IdxLoop]. rewrite (At_Holds rb q i HH).
    destruct (Z.leb_spec 0 i), (Z.ltb_spec i (len q)); try lia. cbn [andb].
    destruct (lookup_lt_is_Some_2 (reverse q) (Z.to_nat i)) as [x Hx].
    { rewrite length_reverse. unfold len in *. lia. }
    rewrite Hx. cbn [mbind option_bind].
    rewrite (drop_S _ _ _ Hx). cbn [firstIndex].
    destruct (f x); [done|].
    rewrite IH by lia. do 3 f_equal. lia.
Qed.

Lemma IdxFunc_Holds (rb : ringBuffer) (q : list T) (f : T -> bool) :
  Holds rb q -> IdxFunc rb f = Some (firstIndex f (reverse q) 0).
Proof.
  intros HH. unfold IdxFunc. rewrite (Len_Holds rb q HH).
  rewrite (IdxLoop_Holds rb q f _ 0 HH); [done | lia | unfold len; lia].
Qed.

Lemma firstIndex_spec (f : T -> bool) (l : list T) (i : Z) :
  (firstIndex f l i = -1 /\ 0 <= i -> Forall (fun x => f x = false) l) /\
  (0 <= i ->
   (firstIndex f l i = -1 /\ Forall (fun x => f x = false) l) \/
   (exists (k : nat) (x : T),
      firstIndex f l i = i + Z.of_nat k /\ l !! k = Some x /\ f x = true /\
      forall (k' : nat) (y : T), (k' < k)%nat -> l !! k' = Some y -> f y = false)).
Proof.
  assert (forall i, 0 <= i ->
   (firstIndex f l i = -1 /\ Forall (fun x => f x = false) l) \/
   (exists (k : nat) (x : T),
      firstIndex f l i = i + Z.of_nat k /\ l !! k = Some x /\ f x = true /\
      forall (k' : nat) (y : T), (k' < k)%nat -> l !! k' = Some y -> f y = false)) as Hmain.
  { clear i. induction l as [|x l IH]; intros i Hi; cbn [firstIndex].
    - left. split; [done | constructor].
    - destruct (f x) eqn:Hfx.
      + right. exists 0%nat, x. split; [lia|]. split; [done|]. split; [done|]. lia.
      + destruct (IH (i + 1)) as [[Hr Hall]|(k & y & Hr & Hk & Hy & Hbefore)]; [lia|..].
        * left. split; [done | by constructor].
        * right. exists (S k), y. split; [lia|]. split; [done|]. split; [done|].
          intros [|k'] z Hlt Hz; [by injection Hz as <-|].
          apply (Hbefore k'); [lia | done]. }
  split; [|apply Hmain].
  intros [Hr Hi]. destruct (Hmain i Hi) as [[_ Hall]|(k & x & Hk & _)]; [done | lia].
Qed.

(** *** Sequences of calls *)

Inductive qop : Type :=
  | OpEnqueue (v : T)
  | OpDequeue
  | OpSwap (i j : Z).

(** The calls in order: the values the [Dequeue]s return and the buffer
    after the last call; [None] when a call panics. *)
Fixpoint runOps (rb : ringBuffer) (ops : list qop) : option (list T * ringBuffer) :=
  match ops with
  | [] => Some ([], rb)
  | OpEnqueue v :: ops' => rb' ← Enqueue rb v; runOps rb' ops'
  | OpDequeue :: ops' =>
      r ← Dequeue zeroT rb;
      rest ← runOps r.2 ops';
      Some (r.1 :: rest.1, rest.2)
  | OpSwap i j :: ops' => rb' ← Swap rb i j; runOps rb' ops'
  end.

(** Exchanging the [i]-th and the [j]-th newest element of a list kept
    oldest first. *)
Definition swapQueue (q : list T) (i j : Z) : option (list T) :=
  if (0 <=? i) && (i <? len q) && (0 <=? j) && (j <? len q)
  then
    let a := (length q - S (Z.to_nat i))%nat in
    let b := (length q - S (Z.to_nat j))%nat in
    xa ← q !! a; xb ← q !! b; Some (<[b := xa]> (<[a := xb]> q))
  else None.

(** The same calls on a queue kept as a list, oldest element first, with
    a bound on its length. *)
Fixpoint runQueue (capacity : Z) (q : list T) (ops : list qop) : option (list T * list T) :=
  match ops with
  | [] => Some ([], q)
  | OpEnqueue v :: ops' =>
      if len q =? capacity then None else runQueue capacity (q ++ [v]) ops'
  | OpDequeue :: ops' =>
      match q with
      | [] => None
      | x :: q' =>
          rest ← runQueue capacity q' ops';
          Some (x :: rest.1, rest.2)
      end
  | OpSwap i j :: ops' => q' ← swapQueue q i j; runQueue capacity q' ops'
  end.

Lemma Swap_swapQueue (rb : ringBuffer) (q : list T) (i j : Z) :
  Holds rb q ->
  match swapQueue q i j with
  | None => Swap rb i j = None
  | Some q' =>
      exists rb', Swap rb i j = Some rb' /\ Holds rb' q' /\ Cap rb' = Cap rb /\
                  tail rb' = tail rb
  end.
Proof.
  intros HH. pose proof (Swap_Holds rb q i j HH) as HS. unfold swapQueue.
  destruct ((0 <=? i) && (i <? len q) && (0 <=? j) && (j <? len q)); [|done].
  destruct HS as (rb' & a & b & xa & xb & -> & -> & Ha & Hb & HS & HH' & Hc).
  rewrite Ha, Hb. cbn [mbind option_bind]. exists rb'. split; [done|]. split; [done|].
  split; [done|].
  rewrite (holds_tail _ _ HH'), (holds_tail _ _ HH). unfold len. rewrite !length_insert.
  f_equal. unfold Swap in HS.
  destruct (idx rb i); [|done]. destruct (idx rb j); [|done]. cbn [mbind option_bind] in HS.
  destruct (index (s rb) z0); [|done]. destruct (index (s rb) z); [|done].
  cbn [mbind option_bind] in HS. destruct (store (s rb) z t); [|done].
  cbn [mbind option_bind] in HS. destruct (store l z0 t0); [|done].
  cbn [mbind option_bind] in HS. by injection HS as <-.
Qed.

Lemma runOps_Holds (ops : list qop) (rb : ringBuffer) (q : list T) :
  Holds rb q -> tail rb + Z.of_nat (length ops) < int64_max ->
  match runQueue (Cap rb) q ops with
  | None => runOps rb ops = None
  | Some (out, q') =>
      exists rb', runOps rb ops = Some (out, rb') /\ Holds rb' q' /\ Cap rb' = Cap rb
  end.
Proof.
  revert rb q. induction ops as [|o ops IH]; intros rb q HH Hint.
  - cbn. by exists rb.
  - cbn [length] in Hint. destruct o as [v| |i j]; cbn [runOps runQueue].
    + pose proof (Enqueue_Holds rb q v HH) as HE.
      destruct (Z.eqb_spec (len q) (Cap rb)) as [Hfull|Hroom].
      * rewrite HE by lia. done.
      * destruct HE as (rb1 & -> & HH1 & Hc1 & Ht1); [lia|]. cbn [mbind option_bind].
        rewrite <- Hc1. apply IH; [done | lia].
    + pose proof (Dequeue_Holds rb q HH) as HD. destruct q as [|x q'].
      * by rewrite HD.
      * destruct HD as (rb1 & -> & HH1 & Hc1 & Ht1 & _). cbn [mbind option_bind fst snd].
        specialize (IH rb1 q' HH1). rewrite Hc1 in IH.
        assert (tail rb1 + Z.of_nat (length ops) < int64_max) as Hint1 by lia.
        specialize (IH Hint1).
        destruct (runQueue (Cap rb) q' ops) as [[out q'']|].
        -- destruct IH as (rb' & -> & HH' & Hc'). cbn [mbind option_bind fst snd].
           exists rb'. split; [done|]. split; [done | congruence].
        -- rewrite IH. done.
    + pose proof (Swap_swapQueue rb q i j HH) as HS.
      destruct (swapQueue q i j) as [q1|]; cbn [mbind option_bind].
      * destruct HS as (rb1 & -> & HH1 & Hc1 & Ht1). cbn [mbind option_bind].
        rewrite <- Hc1. apply IH; [done | lia].
      * by rewrite HS.
Qed.

(** A buffer reached from a new one stands for the queue the list
    version of the calls gives. *)
Lemma reached_Holds (capacity : Z) (ops : list qop) (rb0 rb : ringBuffer) (out : list T) :
  newRingBuffer zeroT capacity = Some rb0 ->
  runOps rb0 ops = Some (out, rb) ->
  Z.of_nat (length ops) < int64_max ->
  exists q, runQueue capacity [] ops = Some (out, q) /\ Holds rb q /\ Cap rb = capacity.
Proof.
  intros Hnew Hrun Hlen.
  assert (0 < capacity) as Hc.
  { unfold newRingBuffer in Hnew. destruct (Z.leb_spec capacity 0); [done | lia]. }
  destruct (new_Holds capacity Hc) as (rb0' & Hnew' & HH0 & Hc0).
  rewrite Hnew in Hnew'. injection Hnew' as <-.
  pose proof (runOps_Holds ops rb0 [] HH0) as HR.
  rewrite Hc0 in HR.
  assert (tail rb0 = 0) as Ht0.
  { unfold newRingBuffer in Hnew. destruct (capacity <=? 0); [done|]. by injection Hnew as <-. }
  rewrite Ht0 in HR. specialize (HR Hlen).
  destruct (runQueue capacity [] ops) as [[out' q]|].
  - destruct HR as (rb' & Hrun' & HH' & Hc'). rewrite Hrun in Hrun'.
    injection Hrun' as <- <-. by exists q.
  - rewrite Hrun in HR. done.
Qed.

End Facts.
End RingBufferFacts.


Module RandCacheFacts.
Import RandCache.

Section Facts.
Context {K V : Type} `{Countable K}.
Variable zeroK : K.

(** What a [Set] that adds does to the map: it removes at most one
    entry, the victim, and then stores the new one. *)
Lemma Set_added (cache : randCache) (key : K) (value : V) (pick : nat) :
  c cache !! key = None ->
  exists m,
    Set_ zeroK cache key value pick =
      (true, {| Cap := Cap cache; c := <[key := value]> m |}) /\
    ((Z.of_nat (size (c cache)) < Cap cache /\ m = c cache) \/
     (Z.of_nat (size (c cache)) >= Cap cache /\
      m = delete (rangeFirst zeroK pick (c cache)) (c cache))).
Proof.
  intros Hk. unfold Set_. rewrite Hk.
  destruct (Z.geb_spec (Z.of_nat (size (c cache))) (Cap cache)).
  - eexists. split; [done|]. right. split; [lia | done].
  - eexists. split; [done|]. left. split; [lia | done].
Qed.

Lemma Get_Set (cache : randCache) (key : K) (value : V) (pick : nat) :
  Get (Set_ zeroK cache key value pick).2 key =
    match Get cache key with
    | Some old => Some old
    | None => Some value
    end.
Proof.
  unfold Get, Set_. destruct (c cache !! key) as [old|] eqn:Hk; cbn [snd c].
  - by rewrite Hk.
  - by rewrite lookup_insert_eq.
Qed.

Lemma Set_room (cache : randCache) (key : K) (value : V) (pick : nat) (k' : K) :
  Get cache key = None ->
  Z.of_nat (size (c cache)) < Cap cache ->
  Get (Set_ zeroK cache key value pick).2 k' =
    if decide (k' = key) then Some value else Get cache k'.
Proof.
  intros Hk Hroom. unfold Get in *. unfold Set_. rewrite Hk. cbn [snd c].
  destruct (Z.geb_spec (Z.of_nat (size (c cache))) (Cap cache)); [lia|].
  destruct (decide (k' = key)) as [->|Hne].
  - by rewrite lookup_insert_eq.
  - by rewrite lookup_insert_ne.
Qed.

Lemma Set_full (cache : randCache) (key : K) (value : V) (pick : nat) :
  Get cache key = None ->
  Z.of_nat (size (c cache)) >= Cap cache ->
  c cache <> ∅ ->
  exists victim old,
    Get cache victim = Some old /\ victim <> key /\
    size (c (Set_ zeroK cache key value pick).2) = size (c cache) /\
    forall k', Get (Set_ zeroK cache key value pick).2 k' =
                 if decide (k' = key) then Some value
                 else if decide (k' = victim) then None
                 else Get cache k'.
Proof.
  intros Hk Hfull Hne. unfold Get in *. unfold Set_. rewrite Hk. cbn [snd c].
  destruct (Z.geb_spec (Z.of_nat (size (c cache))) (Cap cache)); [|lia].
  destruct (rangeFirst_elem zeroK pick (c cache) Hne) as [old Hold].
  exists (rangeFirst zeroK pick (c cache)), old. split; [done|].
  assert (rangeFirst zeroK pick (c cache) <> key) as Hvk.
  { intros Heq. rewrite Heq in Hold. congruence. }
  split; [done|]. split.
  - rewrite map_size_insert_None by (by rewrite lookup_delete_ne).
    rewrite map_size_delete_Some by done.
    assert (size (c cache) <> 0%nat) by (by apply map_size_non_empty_iff). lia.
  - intros k'. destruct (decide (k' = key)) as [->|Hne1].
    + by rewrite lookup_insert_eq.
    + rewrite lookup_insert_ne by done.
      destruct (decide (k' = rangeFirst zeroK pick (c cache))) as [->|Hne2].
      * by rewrite lookup_delete_eq.
      * by rewrite lookup_delete_ne.
Qed.

(** With a capacity that is not positive: the eviction loop finds no key
    in an empty map and [delete] of the zero key removes nothing. *)
Lemma Set_no_capacity (cache : randCache) (key : K) (value : V) (pick : nat) :
  Cap cache <= 0 ->
  (size (c cache) <= 1)%nat ->
  Get cache key = None ->
  Set_ zeroK cache key value pick = (true, {| Cap := Cap cache; c := {[key := value]} |}).
Proof.
  intros Hcap Hsize Hk. unfold Get in Hk. unfold Set_. rewrite Hk.
  destruct (Z.geb_spec (Z.of_nat (size (c cache))) (Cap cache)); [|lia].
  assert (delete (rangeFirst zeroK pick (c cache)) (c cache) = ∅) as ->.
  { destruct (decide (c cache = ∅)) as [He|Hne].
    - rewrite He. apply delete_empty.
    - destruct (rangeFirst_elem zeroK pick (c cache) Hne) as [old Hold].
      assert (size (c cache) <> 0%nat) by (by apply map_size_non_empty_iff).
      apply map_size_empty_inv. rewrite map_size_delete_Some by done. lia. }
  by rewrite insert_empty.
Qed.

Lemma run_no_capacity (ops : list (@op K V)) (cache : randCache) :
  Cap cache <= 0 -> (size (c cache) <= 1)%nat ->
  (size (c (run zeroK cache ops)) <= 1)%nat.
Proof.
  revert cache. induction ops as [|o ops IH]; intros cache Hcap Hsize; [done|].
  cbn. unfold run in IH. apply IH.
  - destruct o; cbn; [by rewrite Set_Cap | done].
  - destruct o as [key value pick|key]; cbn; [|done].
    destruct (c cache !! key) as [old|] eqn:Hk.
    + by rewrite (Set_present zeroK cache key value old pick Hk).
    + rewrite Set_no_capacity by done. cbn. by rewrite map_size_singleton.
Qed.

End Facts.
End RandCacheFacts.


(** ** More about the filters and counters of req_filter.go *)

Module MainMatchFacts.
Import Main MainFacts.

(** [s] begins with one of the strings of [ids]. *)
Definition prefixed (s : string) (ids : list string) : Prop :=
  exists id r, id ∈ ids /\ s = (id ++ r)%string.

Lemma ContainsFunc_prefixed (s : string) (ids : list string) :
  ContainsFunc ids (fun prefix => HasPrefix s prefix) = true <-> prefixed s ids.
Proof.
  rewrite ContainsFunc_true. unfold prefixed. split.
  - intros (id & Hin & Hp). apply HasPrefix_spec in Hp as [r ->]. by exists id, r.
  - intros (id & r & Hin & ->). exists id. split; [done|]. apply HasPrefix_spec. by exists r.
Qed.

Lemma ContainsFunc_kind (k : Z) (kinds : list Z) :
  ContainsFunc kinds (fun k' => k =? k') = true <-> k ∈ kinds.
Proof.
  rewrite ContainsFunc_true. split.
  - intros (k' & Hin & Heq). apply Z.eqb_eq in Heq. by subst.
  - intros Hin. exists k. split; [done|]. apply Z.eqb_refl.
Qed.

(** The number of events of [events] the filter matches. *)
Definition matching (fil : Filter) (events : list Event) : Z :=
  len (List.filter (fun event => Match (Some fil) event) events).

Lemma matching_nonneg (fil : Filter) (events : list Event) : 0 <= matching fil events.
Proof. unfold matching, len. lia. Qed.

Lemma counterRun_Filter (events : list Event) (fc : FilterCounter) :
  Filter_ (counterRun fc events) = Filter_ fc.
Proof.
  revert fc. induction events as [|e events IH]; intros fc; cbn; [done|].
  by rewrite IH, CounterMatch_Filter.
Qed.

Lemma matching_cons (fil : Filter) (e : Event) (events : list Event) :
  matching fil (e :: events) =
    (if Match (Some fil) e then 1 else 0) + matching fil events.
Proof.
  unfold matching, len. cbn [List.filter].
  destruct (Match (Some fil) e); cbn [length]; lia.
Qed.

Lemma counterRun_count (events : list Event) (fc : FilterCounter) (limit : Z) :
  Limit (FilterJSON_ (Filter_ fc)) = Some limit ->
  limit <= int64_max ->
  0 <= count fc ->
  count (counterRun fc events) =
    if count fc >=? limit then count fc
    else Z.min (count fc + matching (Filter_ fc) events) limit.
Proof.
  intros HL Hmax. revert fc HL.
  induction events as [|e events IH]; intros fc HL Hc; cbn [counterRun].
  - unfold matching, len. cbn. destruct (Z.geb_spec (count fc) limit); lia.
  - rewrite matching_cons. pose proof (matching_nonneg (Filter_ fc) events) as Hm0.
    unfold CounterMatch, Done. rewrite HL.
    destruct (Z.geb_spec (count fc) limit) as [Hdone|Hroom]; cbn [snd].
    + rewrite IH by done. destruct (Z.geb_spec (count fc) limit); [done | lia].
    + destruct (Match (Some (Filter_ fc)) e) eqn:Hm; cbn [snd].
      * assert (wrap_int64 (count fc + 1) = count fc + 1) as Hw.
        { apply wrap_int64_small. unfold int64_min, int64_max in *. lia. }
        rewrite IH; cbn [Filter_ count]; rewrite ?Hw; [|done|lia].
        destruct (Z.geb_spec (count fc + 1) limit); lia.
      * rewrite IH by done.
        destruct (Z.geb_spec (count fc) limit); [lia | done].
Qed.

(** A nil filter among the filter objects stops the loop of
    [NewFiltersFromFilterJSONs]. *)
Lemma NewFiltersLoop_nil (MinPrefix : Z) (jsons : list (option FilterJSON))
    (res : list Filter) (errs : option error) :
  None ∈ jsons ->
  NewFiltersLoop MinPrefix jsons res errs = (None, Some ErrNilFilter).
Proof.
  revert res errs. induction jsons as [|json jsons IH]; intros res errs Hin.
  - by apply elem_of_nil in Hin.
  - cbn [NewFiltersLoop]. destruct json as [json|]; [|done].
    apply elem_of_cons in Hin as [?|Hin]; [done|].
    rewrite NewFilter_Some. destruct (tooShort MinPrefix json) as [e|] eqn:Ht.
    + destruct (tooShort_Some _ _ _ Ht) as (what & n & -> & _).
      cbn [As_ReqFilterMinPrefixError]. by apply IH.
    + by apply IH.
Qed.

End MainMatchFacts.


(** ** More about the matchers of utils.go *)

Module NostrMatchFacts.
Import Nostr NostrFacts MainMatchFacts.

(** An entry [key -> vs] of the tag map holds for an event: some tag of
    the event is named by the byte at index 1 of the key, and has no
    further element or a second element beginning with one of [vs]. *)
Definition entry_holds (event : Event) (key : string) (vs : list string) : Prop :=
  exists b v tagArr,
    byte_at key 1 = Some b /\ v ∈ vs /\ tagArr ∈ Tags event /\
    (tagArr = [string_of_byte b] \/
     exists value rest r,
       tagArr = string_of_byte b :: value :: rest /\ value = (v ++ r)%string).

Lemma entryHolds_spec (event : Event) (key : string) (vs : list string) :
  entryHolds event (key, vs) = true <-> entry_holds event key vs.
Proof.
  unfold entryHolds, entry_holds. cbn [fst snd].
  destruct (byte_at key 1) as [b|]; [|split; [done | by intros (? & ? & ? & ? & _)]].
  split.
  - intros Hex. apply existsb_exists in Hex as (v & Hv & Hex).
    apply existsb_exists in Hex as (tagArr & Ht & Hh).
    exists b, v, tagArr. rewrite <- !list_elem_of_In in *.
    split; [done|]. split; [done|]. split; [done|]. by apply tagArrHolds_spec.
  - intros (b' & v & tagArr & [= <-] & Hv & Ht & Hh).
    apply existsb_exists. exists v. rewrite <- list_elem_of_In. split; [done|].
    apply existsb_exists. exists tagArr. rewrite <- list_elem_of_In. split; [done|].
    by apply tagArrHolds_spec.
Qed.

Lemma existsb_prefixed (s : string) (ids : list string) :
  existsb (fun id => HasPrefix s id) ids = true <-> prefixed s ids.
Proof. rewrite <- ContainsFunc_existsb. apply ContainsFunc_prefixed. Qed.

Lemma existsb_kind (k : Z) (kinds : list Z) :
  existsb (fun k' => k =? k') kinds = true <-> k ∈ kinds.
Proof. rewrite <- ContainsFunc_existsb. apply ContainsFunc_kind. Qed.

Lemma tagsHold_spec (fl : ReqFilter) (event : Event) :
  tagsHold fl event = true <->
  forall tags key vs, fTags fl = Some tags -> tags !! key = Some vs ->
                      entry_holds event key vs.
Proof.
  unfold tagsHold. destruct (fTags fl) as [tags|]; [|split; [by intros _ ? ? ? [=] | done]].
  rewrite forallb_forall. split.
  - intros Hall tags' key vs [= <-] Hk. apply entryHolds_spec. apply Hall.
    apply list_elem_of_In. by apply elem_of_map_to_list.
  - intros Hall [key vs] Hin. apply entryHolds_spec.
    apply list_elem_of_In, elem_of_map_to_list in Hin. by apply (Hall tags).
Qed.

Lemma matchSpec_spec (fl : ReqFilter) (event : Event) :
  matchSpec fl event = true <->
  (forall ids, fIDs fl = Some ids -> prefixed (ID event) ids) /\
  (forall kinds, fKinds fl = Some kinds -> Kind event ∈ kinds) /\
  (forall authors, fAuthors fl = Some authors -> prefixed (Pubkey event) authors) /\
  (forall tags key vs, fTags fl = Some tags -> tags !! key = Some vs ->
                       entry_holds event key vs) /\
  (forall since, fSince fl = Some since -> since <= CreatedAt event) /\
  (forall bound, fUntil fl = Some bound -> CreatedAt event <= bound).
Proof.
  unfold matchSpec. rewrite !andb_true_iff, tagsHold_spec.
  unfold idsHold, kindsHold, authorsHold, sinceHolds, untilHolds.
  destruct (fIDs fl) as [ids|], (fKinds fl) as [kinds|], (fAuthors fl) as [authors|],
    (fSince fl) as [since|], (fUntil fl) as [bound|];
    rewrite ?existsb_prefixed, ?existsb_kind, ?Z.leb_le;
    (split;
     [ intros [[[[[? ?] ?] ?] ?] ?]; repeat split; try done; intros ? [= <-]; done
     | intros (? & ? & ? & ? & ? & ?); repeat split; auto ]).
Qed.

(** *** Matcher sets *)

Section SetFacts.
Context {T : Type} `{EventCountMatcher T}.

Lemma MatchLoop_spec (ms : list T) (event : Event) (acc : bool) :
  MatchLoop ms event acc =
  rs ← mapM (fun mm => ecmMatch mm event) ms;
  Some (existsb id rs || acc).
Proof.
  revert acc. induction ms as [|mm ms IH]; intros acc; cbn; [done|].
  destruct (ecmMatch mm event) as [r|]; cbn; [|done].
  rewrite IH. destruct (mapM _ ms) as [rs|]; cbn; [|done].
  f_equal. destruct r; cbn; [by rewrite orb_true_r | done].
Qed.

Lemma DoneSet_spec (ms : list T) :
  DoneSet ms = forallb ecmDone ms.
Proof.
  unfold DoneSet.
  assert (forall acc, fold_left (fun done mm => done && ecmDone mm) ms acc
                      = acc && forallb ecmDone ms) as Hgen.
  { induction ms as [|mm ms IH]; intros acc; cbn; [by rewrite andb_true_r|].
    rewrite IH. by rewrite andb_assoc. }
  by rewrite Hgen.
Qed.

End SetFacts.

End NostrMatchFacts.


(** ** package mocrelay: verification and the check of a client message
    (data_structure.go) *)

Module MocrelayCheck.
Import Mocrelay.

(** The errors of [Event.Verify], by the statement that returns them. *)
Inductive verifyError :=
  | ErrNilEvent
  | ErrEventSerialize
  | ErrDecodeID
  | ErrDecodePubkey
  | ErrParsePubkey
  | ErrDecodeSig
  | ErrParseSig.

(** [fmt.Errorf("failed to verify event: %w", err)]. *)
Inductive checkError :=
  | ErrFailedToVerify (err : verifyError).

(** *** The client messages.  Every message is handled through a pointer,
    which may be nil. *)

Record ClientUnknownMsg := mkClientUnknownMsg {
  Label : string;
  Msg : option (list json)
}.

Record ClientEventMsg := mkClientEventMsg {
  Event_ : option Event
}.

Record ClientReqMsg := mkClientReqMsg {
  ReqSubscriptionID : string;
  ReqFilters : list (option ReqFilter)
}.

Record ClientCloseMsg := mkClientCloseMsg {
  CloseSubscriptionID : string
}.

Record ClientAuthMsg := mkClientAuthMsg {
  Challenge : string
}.

Record ClientCountMsg := mkClientCountMsg {
  CountSubscriptionID : string;
  CountReqFilters : list (option ReqFilter)
}.

(** A non-nil [ClientMsg] interface value: the dynamic type and the
    pointer. *)
Inductive ClientMsg :=
  | ofClientUnknownMsg (msg : option ClientUnknownMsg)
  | ofClientEventMsg (msg : option ClientEventMsg)
  | ofClientReqMsg (msg : option ClientReqMsg)
  | ofClientCloseMsg (msg : option ClientCloseMsg)
  | ofClientAuthMsg (msg : option ClientAuthMsg)
  | ofClientCountMsg (msg : option ClientCountMsg).

Definition ClientUnknownMsgValid (msg : option ClientUnknownMsg) : bool :=
  match msg with
  | None => false
  | Some msg => match Msg msg with Some _ => true | None => false end
  end.

Definition ClientEventMsgValid (msg : option ClientEventMsg) : bool :=
  match msg with
  | None => false
  | Some msg => EventValid (Event_ msg)
  end.

(** [ClientReqMsg.Valid] and [ClientCountMsg.Valid] on the filters of a
    non-nil message. *)
Definition filtersValid (filters : list (option ReqFilter)) : bool :=
  if len filters =? 0 then false else
  if negb (sliceAllFunc filters ReqFilterValid) then false else
  true.

Definition ClientReqMsgValid (msg : option ClientReqMsg) : bool :=
  match msg with
  | None => false
  | Some msg => filtersValid (ReqFilters msg)
  end.

Definition ClientCloseMsgValid (msg : option ClientCloseMsg) : bool :=
  match msg with
  | None => false
  | Some _ => true
  end.

Definition ClientAuthMsgValid (msg : option ClientAuthMsg) : bool :=
  match msg with
  | None => false
  | Some _ => true
  end.

Definition ClientCountMsgValid (msg : option ClientCountMsg) : bool :=
  match msg with
  | None => false
  | Some msg => filtersValid (CountReqFilters msg)
  end.

Section Collaborators.
(** What lies outside these files: [json.Marshal] on the six-element array
    of [Serialize], SHA-256 and the Schnorr library. *)
Variable Marshal : Event -> option string.
Variable sha256 : string -> string.
Variable PubKey Signature : Type.
Variable ParsePubKey : string -> option PubKey.
Variable ParseSignature : string -> option Signature.
Variable sigVerify : Signature -> string -> PubKey -> bool.

(** [Event.Serialize]. *)
Definition Serialize (ev : option Event) : option string :=
  match ev with
  | None => None
  | Some ev => Marshal ev
  end.

(** [Event.Verify]: the result and the error. *)
Definition Verify (ev : option Event) : bool * option verifyError :=
  match ev with
  | None => (false, Some ErrNilEvent)
  | Some e =>
      match Serialize ev with
      | None => (false, Some ErrEventSerialize)
      | Some serialized =>
          match Relay.hex_DecodeString (ID e) with
          | None => (false, Some ErrDecodeID)
          | Some idBin =>
              let hash := sha256 serialized in
              if negb (String.eqb idBin hash) then (false, None) else
              match Relay.hex_DecodeString (Pubkey e) with
              | None => (false, Some ErrDecodePubkey)
              | Some pubkeyBin =>
                  match ParsePubKey pubkeyBin with
                  | None => (false, Some ErrParsePubkey)
                  | Some pubkey =>
                      match Relay.hex_DecodeString (Sig e) with
                      | None => (false, Some ErrDecodeSig)
                      | Some sigBin =>
                          match ParseSignature sigBin with
                          | None => (false, Some ErrParseSig)
                          | Some sig => (sigVerify sig idBin pubkey, None)
                          end
                      end
                  end
              end
          end
      end
  end.

(** [CheckClientMsg]; [msg] is the interface value, nil or not. *)
Definition CheckClientMsg (msg : option ClientMsg) : bool * option checkError :=
  match msg with
  | None => (false, None)
  | Some (ofClientEventMsg msg) =>
      if negb (ClientEventMsgValid msg) then (false, None) else
      match msg with
      | None => (false, None)
      | Some msg =>
          match Verify (Event_ msg) with
          | (_, Some err) => (false, Some (ErrFailedToVerify err))
          | (ok, None) => (ok, None)
          end
      end
  | Some (ofClientReqMsg msg) => (ClientReqMsgValid msg, None)
  | Some (ofClientCloseMsg msg) => (ClientCloseMsgValid msg, None)
  | Some (ofClientAuthMsg msg) => (ClientAuthMsgValid msg, None)
  | Some (ofClientCountMsg msg) => (ClientCountMsgValid msg, None)
  | Some (ofClientUnknownMsg _) => (false, None)
  end.

End Collaborators.
End MocrelayCheck.

(** ** Facts about the validators and the check *)

Module MocrelayCheckFacts.
Import Mocrelay MocrelayCheck.

Lemma isLowerHex_fromHexChar (b : ascii) :
  isLowerHex b = true -> exists d, Relay.fromHexChar b = Some d.
Proof.
  unfold isLowerHex, Relay.fromHexChar. cbn zeta. intros H.
  destruct ((48 <=? nat_of_ascii b)%nat && (nat_of_ascii b <=? 57)%nat); [by eexists|].
  cbn [orb] in H. rewrite H. by eexists.
Qed.

(** A string of [2 * n] lower-case hexadecimal digits decodes to [n]
    bytes. *)
Lemma hex_DecodeString_lower (n : nat) (s : string) :
  String.length s = (2 * n)%nat ->
  allLowerHex s = true ->
  exists bin, Relay.hex_DecodeString s = Some bin /\ String.length bin = n.
Proof.
  revert s. induction n as [|n IH]; intros s Hlen Hhex.
  - destruct s; [|done]. by exists "".
  - destruct s as [|a [|b s]]; cbn [String.length] in Hlen; [lia | lia |].
    cbn [allLowerHex] in Hhex.
    destruct (isLowerHex a) eqn:Ha; cbn [negb] in Hhex; [|done].
    destruct (isLowerHex b) eqn:Hb; cbn [negb] in Hhex; [|done].
    destruct (isLowerHex_fromHexChar a Ha) as [hi Hhi].
    destruct (isLowerHex_fromHexChar b Hb) as [lo Hlo].
    destruct (IH s) as (bin & Hbin & Hn); [lia | done |].
    cbn [Relay.hex_DecodeString]. rewrite Hhi, Hlo, Hbin. cbn.
    eexists. split; [done|]. cbn [String.length]. by rewrite Hn.
Qed.

Lemma len_string_length (s : string) (n : nat) :
  len_string s = Z.of_nat n -> String.length s = n.
Proof. unfold len_string. lia. Qed.

Lemma validHex_decodes (n : nat) (s : string) :
  (len_string s =? Z.of_nat (2 * n)) && validHexString s = true ->
  exists bin, Relay.hex_DecodeString s = Some bin /\ String.length bin = n.
Proof.
  intros H. apply andb_true_iff in H as [Hl Hv]. apply Z.eqb_eq in Hl.
  apply len_string_length in Hl.
  apply hex_DecodeString_lower; [done|].
  unfold validHexString in Hv. by destruct (len_string s =? 0).
Qed.

Lemma validID_decodes (id : string) :
  validID id = true ->
  exists bin, Relay.hex_DecodeString id = Some bin /\ String.length bin = 32%nat.
Proof. apply (validHex_decodes 32). Qed.

Lemma validPubkey_decodes (pubkey : string) :
  validPubkey pubkey = true ->
  exists bin, Relay.hex_DecodeString pubkey = Some bin /\ String.length bin = 32%nat.
Proof. apply (validHex_decodes 32). Qed.

Lemma validSig_decodes (sig : string) :
  validSig sig = true ->
  exists bin, Relay.hex_DecodeString sig = Some bin /\ String.length bin = 64%nat.
Proof. apply (validHex_decodes 64). Qed.

(** The parts of [Event.Valid]. *)
Lemma EventValid_parts (ev : Event) :
  EventValid (Some ev) = true ->
  validID (ID ev) = true /\ validPubkey (Pubkey ev) = true /\
  validSig (Sig ev) = true /\
  exists tags, Tags ev = Some tags /\ forall tag, tag ∈ tags -> validTag tag = true.
Proof.
  unfold EventValid. rewrite !andb_true_iff. intros [[[Hi Hp] _] Ht].
  destruct (Tags ev) as [tags|]; [|done].
  apply andb_true_iff in Ht as [Ht Hs]. repeat split; try done.
  exists tags. split; [done|]. intros tag Hin.
  rewrite sliceAllFunc_forallb, forallb_forall in Ht. apply Ht.
  by apply list_elem_of_In.
Qed.

(** *** [strings.Split(s, ":")] *)

Fixpoint noColon (s : string) : bool :=
  match s with
  | EmptyString => true
  | String b s' => negb (Ascii.eqb b ":") && noColon s'
  end.

Lemma splitColon_nonempty (s : string) : splitColon s <> [].
Proof.
  induction s as [|b s IH]; cbn [splitColon]; [done|].
  destruct (Ascii.eqb b ":"); [done|]. by destruct (splitColon s).
Qed.

Lemma splitColon_noColon (s : string) : noColon s = true -> splitColon s = [s].
Proof.
  induction s as [|b s IH]; cbn [splitColon noColon]; [done|]. intros H.
  apply andb_true_iff in H as [Hb Hs]. apply negb_true_iff in Hb.
  by rewrite Hb, IH.
Qed.

Lemma splitColon_app (a rest : string) :
  noColon a = true -> splitColon (a ++ ":" ++ rest) = a :: splitColon rest.
Proof.
  induction a as [|b a IH]; cbn [noColon]; intros H.
  - change ("" ++ ":" ++ rest)%string with (String ":" rest). done.
  - apply andb_true_iff in H as [Hb Ha]. apply negb_true_iff in Hb.
    change (String b a ++ ":" ++ rest)%string with (String b (a ++ ":" ++ rest)).
    cbn [splitColon]. by rewrite Hb, IH.
Qed.

(** The first piece has no separator, and what follows it is either
    nothing or a separator and the string of the other pieces. *)
Lemma splitColon_cons (s piece : string) (pieces : list string) :
  splitColon s = piece :: pieces ->
  noColon piece = true /\
  match pieces with
  | [] => s = piece
  | _ => exists rest, s = (piece ++ ":" ++ rest)%string /\ splitColon rest = pieces
  end.
Proof.
  revert piece pieces. induction s as [|b s IH]; intros piece pieces; cbn [splitColon].
  - by intros [= <- <-].
  - destruct (Ascii.eqb_spec b ":") as [->|Hb].
    + intros [= <- <-]. split; [done|].
      pose proof (splitColon_nonempty s) as Hne.
      destruct (splitColon s) as [|p ps] eqn:Hs; [done|]. by exists s.
    + destruct (splitColon s) as [|p ps] eqn:Hs; [by destruct (splitColon_nonempty s)|].
      intros [= <- <-]. destruct (IH p ps eq_refl) as [Hp Hrest]. split.
      * cbn [noColon]. rewrite Hp. by destruct (Ascii.eqb_spec b ":").
      * destruct ps as [|p' ps]; [by rewrite Hrest|].
        destruct Hrest as (rest & -> & Hr). by exists rest.
Qed.

Lemma allLowerHex_noColon (s : string) : allLowerHex s = true -> noColon s = true.
Proof.
  induction s as [|b s IH]; cbn [allLowerHex noColon]; [done|].
  destruct (isLowerHex b) eqn:Hb; cbn [negb]; [|done]. intros Hs.
  rewrite IH by done. rewrite andb_true_r. apply negb_true_iff.
  destruct (Ascii.eqb_spec b ":") as [->|]; [|done]. by vm_compute in Hb.
Qed.

Lemma validPubkey_noColon (pubkey : string) :
  validPubkey pubkey = true -> noColon pubkey = true.
Proof.
  unfold validPubkey, validHexString. intros H. apply andb_true_iff in H as [_ H].
  apply allLowerHex_noColon. by destruct (len_string pubkey =? 0).
Qed.

End MocrelayCheckFacts.


(** ** Facts about entity.go's [NewFilter] *)

Module MainEntityFacts.
Import Main MainEntity.

(** The entries of a field that may be nil. *)
Definition entries (field : option (list string)) : list string :=
  match field with
  | Some ids => ids
  | None => []
  end.

(** The prefixes a filter object lists under ids, authors, #p and #e. *)
Definition listed (json : FilterJSON) : list string :=
  entries (IDs json) ++ entries (Authors json) ++
  entries (Ptags json) ++ entries (Etags json).

Lemma anyShort_false (MinPrefix : Z) (field : option (list string)) :
  anyShort MinPrefix field = false <->
  forall id, id ∈ entries field -> MinPrefix <= len_string id.
Proof.
  unfold anyShort, entries. destruct field as [ids|].
  - rewrite <- not_true_iff_false, ContainsFunc_true. split.
    + intros Hno id Hin. destruct (Z.ltb_spec (len_string id) MinPrefix); [|done].
      exfalso. apply Hno. exists id. split; [done|]. by apply Z.ltb_lt.
    + intros Hall (id & Hin & Hlt). apply Z.ltb_lt in Hlt. specialize (Hall id Hin). lia.
  - split; [|done]. intros _ id Hin. by apply elem_of_nil in Hin.
Qed.

Lemma nilOrEmpty_true (field : option (list string)) :
  nilOrEmpty field = true <-> entries field = [].
Proof.
  unfold nilOrEmpty, entries, len. destruct field as [[|id ids]|]; [done| |done].
  cbn [length]. split; [|done]. intros H. apply Z.eqb_eq in H. lia.
Qed.

Lemma NewFilter_inl (MinPrefix : Z) (json : option FilterJSON) (fil : Filter) :
  NewFilter MinPrefix json = inl fil <->
  json = Some (FilterJSON_ fil) /\
  listed (FilterJSON_ fil) <> [] /\
  forall id, id ∈ listed (FilterJSON_ fil) -> MinPrefix <= len_string id.
Proof.
  unfold NewFilter. destruct json as [json|]; [|by split; [|intros [? _]]].
  assert ((forall id, id ∈ listed json -> MinPrefix <= len_string id) <->
          anyShort MinPrefix (IDs json) = false /\ anyShort MinPrefix (Authors json) = false /\
          anyShort MinPrefix (Ptags json) = false /\ anyShort MinPrefix (Etags json) = false)
    as Hlong.
  { rewrite !anyShort_false. unfold listed. setoid_rewrite elem_of_app.
    setoid_rewrite elem_of_app. setoid_rewrite elem_of_app. naive_solver. }
  assert (listed json = [] <->
          nilOrEmpty (IDs json) && nilOrEmpty (Authors json) &&
          nilOrEmpty (Ptags json) && nilOrEmpty (Etags json) = true) as Hempty.
  { rewrite !andb_true_iff, !nilOrEmpty_true. unfold listed.
    destruct (entries (IDs json)), (entries (Authors json)), (entries (Ptags json)),
      (entries (Etags json)); cbn; naive_solver. }
  split.
  - intros H.
    destruct (anyShort MinPrefix (IDs json)) eqn:H1; [done|].
    destruct (anyShort MinPrefix (Authors json)) eqn:H2; [done|].
    destruct (anyShort MinPrefix (Ptags json)) eqn:H3; [done|].
    destruct (anyShort MinPrefix (Etags json)) eqn:H4; [done|].
    destruct (nilOrEmpty (IDs json) && nilOrEmpty (Authors json) &&
              nilOrEmpty (Ptags json) && nilOrEmpty (Etags json)) eqn:H5; [done|].
    injection H as <-. cbn [FilterJSON_]. split; [done|]. split.
    + intros He. apply Hempty in He. congruence.
    + by apply Hlong.
  - intros [[= ->] [Hne Hall]]. apply Hlong in Hall as (-> & -> & -> & ->).
    destruct (nilOrEmpty (IDs (FilterJSON_ fil)) && nilOrEmpty (Authors (FilterJSON_ fil)) &&
              nilOrEmpty (Ptags (FilterJSON_ fil)) && nilOrEmpty (Etags (FilterJSON_ fil))).
    + by destruct Hne; apply Hempty.
    + by destruct fil.
Qed.

(** The loop returns the filters of all the objects, or the error of the
    first object that [NewFilter] refuses. *)
Lemma NewFiltersLoop_inl (MinPrefix : Z) (jsons : list (option FilterJSON))
    (res : list Filter) :
  NewFiltersLoop MinPrefix jsons = inl res <->
  Forall2 (fun json fil => NewFilter MinPrefix json = inl fil) jsons res.
Proof.
  revert res. induction jsons as [|json jsons IH]; intros res; cbn [NewFiltersLoop].
  - split; [intros [= <-]; constructor | by intros ->%Forall2_nil_inv_l].
  - destruct (NewFilter MinPrefix json) as [fil|err] eqn:Hn.
    + destruct (NewFiltersLoop MinPrefix jsons) as [res'|err'] eqn:Hl.
      * split.
        -- intros [= <-]. constructor; [done|]. by apply IH.
        -- intros (fil' & res'' & Hf & Hr & ->)%Forall2_cons_inv_l.
           apply IH in Hr. congruence.
      * split; [done|].
        intros (fil' & res'' & Hf & Hr & ->)%Forall2_cons_inv_l. by apply IH in Hr.
    + split; [done|]. intros (fil' & res'' & Hf & Hr & ->)%Forall2_cons_inv_l. congruence.
Qed.

Lemma NewFiltersLoop_inr (MinPrefix : Z) (jsons : list (option FilterJSON)) (err : error) :
  NewFiltersLoop MinPrefix jsons = inr err <->
  exists (i : nat) json,
    jsons !! i = Some json /\ NewFilter MinPrefix json = inr err /\
    forall (j : nat) json', (j < i)%nat -> jsons !! j = Some json' ->
                            exists fil, NewFilter MinPrefix json' = inl fil.
Proof.
  induction jsons as [|json jsons IH]; cbn [NewFiltersLoop].
  - split; [done|]. by intros (i & json & Hi & _).
  - destruct (NewFilter MinPrefix json) as [fil|err0] eqn:Hn.
    + assert (match NewFiltersLoop MinPrefix jsons with
              | inl res => inl (fil :: res)
              | inr err' => inr err'
              end = inr err <-> NewFiltersLoop MinPrefix jsons = inr err) as ->.
      { destruct (NewFiltersLoop MinPrefix jsons); split; congruence. }
      rewrite IH. split.
      * intros (i & json' & Hi & He & Hb). exists (S i), json'. split; [done|].
        split; [done|]. intros [|j] json'' Hj Hl.
        -- injection Hl as <-. by exists fil.
        -- apply (Hb j); [lia | done].
      * intros ([|i] & json' & Hi & He & Hb).
        -- injection Hi as <-. congruence.
        -- exists i, json'. split; [done|]. split; [done|].
           intros j json'' Hj Hl. apply (Hb (S j)); [lia | done].
    + split.
      * intros [= <-]. exists 0%nat, json. split; [done|]. split; [done|]. lia.
      * intros ([|i] & json' & Hi & He & Hb).
        -- injection Hi as <-. congruence.
        -- destruct (Hb 0%nat json) as [fil Hf]; [lia | done | congruence].
Qed.

End MainEntityFacts.


(** ** package mocrelay: [ReqFilter.UnmarshalJSON] (data_structure.go) *)

Module MocrelayFilterJSON.
Import Mocrelay.

(** [var ret ReqFilter]. *)
Definition zeroReqFilter : ReqFilter :=
  {| fIDs := None; fAuthors := None; fKinds := None; fTags := None;
     fSince := None; fUntil := None; fLimit := None |}.

(** One iteration of the loop over the decoded object, on the member
    [k: v]: the [switch] on the key.  [None] is a [return] with an
    error. *)
Definition unmarshalMember (ret : ReqFilter) (k : string) (v : json) : option ReqFilter :=
  if String.eqb k "ids" then
    sli ← asArray v;
    ids ← anySliceAs asString sli;
    Some {| fIDs := Some ids; fAuthors := fAuthors ret; fKinds := fKinds ret;
            fTags := fTags ret; fSince := fSince ret; fUntil := fUntil ret;
            fLimit := fLimit ret |}
  else if String.eqb k "authors" then
    sli ← asArray v;
    authors ← anySliceAs asString sli;
    Some {| fIDs := fIDs ret; fAuthors := Some authors; fKinds := fKinds ret;
            fTags := fTags ret; fSince := fSince ret; fUntil := fUntil ret;
            fLimit := fLimit ret |}
  else if String.eqb k "kinds" then
    sli ← asArray v;
    numKinds ← anySliceAs asNumber sli;
    kinds ← mapM ParseInt numKinds;
    Some {| fIDs := fIDs ret; fAuthors := fAuthors ret; fKinds := Some kinds;
            fTags := fTags ret; fSince := fSince ret; fUntil := fUntil ret;
            fLimit := fLimit ret |}
  else if validTagKey k then
    let tags := match fTags ret with Some tags => tags | None => ∅ end in
    sli ← asArray v;
    vs ← anySliceAs asString sli;
    Some {| fIDs := fIDs ret; fAuthors := fAuthors ret; fKinds := fKinds ret;
            fTags := Some (<[k := Some vs]> tags); fSince := fSince ret;
            fUntil := fUntil ret; fLimit := fLimit ret |}
  else if String.eqb k "since" then
    numSince ← asNumber v;
    since ← ParseInt numSince;
    Some {| fIDs := fIDs ret; fAuthors := fAuthors ret; fKinds := fKinds ret;
            fTags := fTags ret; fSince := Some since; fUntil := fUntil ret;
            fLimit := fLimit ret |}
  else if String.eqb k "until" then
    numUntil ← asNumber v;
    until ← ParseInt numUntil;
    Some {| fIDs := fIDs ret; fAuthors := fAuthors ret; fKinds := fKinds ret;
            fTags := fTags ret; fSince := fSince ret; fUntil := Some until;
            fLimit := fLimit ret |}
  else if String.eqb k "limit" then
    numLimit ← asNumber v;
    limit ← ParseInt numLimit;
    Some {| fIDs := fIDs ret; fAuthors := fAuthors ret; fKinds := fKinds ret;
            fTags := fTags ret; fSince := fSince ret; fUntil := fUntil ret;
            fLimit := Some limit |}
  else None.

(** [for k, v := range obj { ... }], on the members in the order in which
    the iteration yields them. *)
Fixpoint unmarshalLoop (members : list (string * json)) (ret : ReqFilter)
    : option ReqFilter :=
  match members with
  | [] => Some ret
  | (k, v) :: members' =>
      ret' ← unmarshalMember ret k v;
      unmarshalLoop members' ret'
  end.

(** [ReqFilter.UnmarshalJSON] as [json.Unmarshal] calls it, on the value
    it has read: the receiver after a nil error, [None] for an error (the
    receiver is then left as it was).  Go does not fix the order in which
    [range] yields the entries of a map; [order] is that order. *)
Definition ReqFilterUnmarshalJSON (order : gmap string json -> list (string * json))
    (fil : ReqFilter) (b : json) : option ReqFilter :=
  match b with
  | JNull => Some fil
  | JObject members => unmarshalLoop (order (decodeObject members)) zeroReqFilter
  | _ => None
  end.

End MocrelayFilterJSON.

(** ** Facts about [ReqFilter.UnmarshalJSON] *)

Module MocrelayFilterJSONFacts.
Import Mocrelay MocrelayFilterJSON.

(** A JSON array of strings, of integers; a JSON integer. *)
Definition stringsOf (v : json) : option (list string) :=
  sli ← asArray v; mapM asString sli.

Definition intOf (v : json) : option Z :=
  num ← asNumber v; ParseInt num.

Definition intsOf (v : json) : option (list Z) :=
  sli ← asArray v; mapM intOf sli.

(** The members a filter object may hold. *)
Definition wellFormed (k : string) (v : json) : bool :=
  if String.eqb k "ids" || String.eqb k "authors" || validTagKey k
  then bool_decide (is_Some (stringsOf v))
  else if String.eqb k "kinds" then bool_decide (is_Some (intsOf v))
  else if String.eqb k "since" || String.eqb k "until" || String.eqb k "limit"
  then bool_decide (is_Some (intOf v))
  else false.

(** The entries of [obj] under the keys [#x], [x] a letter. *)
Definition tagMembers (obj : gmap string json) : gmap string json :=
  filter (fun kv => validTagKey kv.1 = true) obj.

(** The filter that an object of well-formed members stands for. *)
Definition filterOf (obj : gmap string json) : ReqFilter :=
  {| fIDs := v ← obj !! "ids"; stringsOf v;
     fAuthors := v ← obj !! "authors"; stringsOf v;
     fKinds := v ← obj !! "kinds"; intsOf v;
     fTags := if decide (tagMembers obj = ∅) then None
              else Some (stringsOf <$> tagMembers obj);
     fSince := v ← obj !! "since"; intOf v;
     fUntil := v ← obj !! "until"; intOf v;
     fLimit := v ← obj !! "limit"; intOf v |}.

Lemma mapM_bind {A B C} (f : A -> option B) (g : B -> option C) (l : list A) :
  (l' ← mapM f l; mapM g l') = mapM (fun x => y ← f x; g y) l.
Proof.
  induction l as [|x l IH]; [done|]. cbn.
  destruct (f x) as [y|]; cbn; [|done].
  rewrite <- IH. destruct (mapM f l) as [l'|]; cbn; [|by destruct (g y)].
  done.
Qed.

Inductive keyClass :=
  | KIds | KAuthors | KKinds | KTag | KSince | KUntil | KLimit | KOther.

Definition classify (k : string) : keyClass :=
  if String.eqb k "ids" then KIds
  else if String.eqb k "authors" then KAuthors
  else if String.eqb k "kinds" then KKinds
  else if validTagKey k then KTag
  else if String.eqb k "since" then KSince
  else if String.eqb k "until" then KUntil
  else if String.eqb k "limit" then KLimit
  else KOther.

Lemma classify_fixed (k : string) :
  match classify k with
  | KIds => k = "ids"
  | KAuthors => k = "authors"
  | KKinds => k = "kinds"
  | KTag => validTagKey k = true
  | KSince => k = "since"
  | KUntil => k = "until"
  | KLimit => k = "limit"
  | KOther => validTagKey k = false
  end.
Proof.
  unfold classify.
  destruct (String.eqb_spec k "ids"); [done|].
  destruct (String.eqb_spec k "authors"); [done|].
  destruct (String.eqb_spec k "kinds"); [done|].
  destruct (validTagKey k); [done|].
  destruct (String.eqb_spec k "since"); [done|].
  destruct (String.eqb_spec k "until"); [done|].
  by destruct (String.eqb_spec k "limit").
Qed.

(** What one iteration does, by the class of the key. *)
Lemma unmarshalMember_classify (ret : ReqFilter) (k : string) (v : json) :
  unmarshalMember ret k v =
  match classify k with
  | KIds => ids ← stringsOf v;
            Some {| fIDs := Some ids; fAuthors := fAuthors ret; fKinds := fKinds ret;
                    fTags := fTags ret; fSince := fSince ret; fUntil := fUntil ret;
                    fLimit := fLimit ret |}
  | KAuthors => authors ← stringsOf v;
            Some {| fIDs := fIDs ret; fAuthors := Some authors; fKinds := fKinds ret;
                    fTags := fTags ret; fSince := fSince ret; fUntil := fUntil ret;
                    fLimit := fLimit ret |}
  | KKinds => kinds ← intsOf v;
            Some {| fIDs := fIDs ret; fAuthors := fAuthors ret; fKinds := Some kinds;
                    fTags := fTags ret; fSince := fSince ret; fUntil := fUntil ret;
                    fLimit := fLimit ret |}
  | KTag => vs ← stringsOf v;
            Some {| fIDs := fIDs ret; fAuthors := fAuthors ret; fKinds := fKinds ret;
                    fTags := Some (<[k := Some vs]> (default ∅ (fTags ret)));
                    fSince := fSince ret; fUntil := fUntil ret; fLimit := fLimit ret |}
  | KSince => since ← intOf v;
            Some {| fIDs := fIDs ret; fAuthors := fAuthors ret; fKinds := fKinds ret;
                    fTags := fTags ret; fSince := Some since; fUntil := fUntil ret;
                    fLimit := fLimit ret |}
  | KUntil => until ← intOf v;
            Some {| fIDs := fIDs ret; fAuthors := fAuthors ret; fKinds := fKinds ret;
                    fTags := fTags ret; fSince := fSince ret; fUntil := Some until;
                    fLimit := fLimit ret |}
  | KLimit => limit ← intOf v;
            Some {| fIDs := fIDs ret; fAuthors := fAuthors ret; fKinds := fKinds ret;
                    fTags := fTags ret; fSince := fSince ret; fUntil := fUntil ret;
                    fLimit := Some limit |}
  | KOther => None
  end.
Proof.
  unfold unmarshalMember, classify, stringsOf, intsOf, intOf, anySliceAs.
  destruct (String.eqb k "ids"); [by destruct (asArray v)|].
  destruct (String.eqb k "authors"); [by destruct (asArray v)|].
  destruct (String.eqb k "kinds").
  { destruct (asArray v) as [sli|]; [|done].
    change (Some sli ≫= ?f) with (f sli). cbn beta.
    rewrite <- mapM_bind. by destruct (mapM asNumber sli). }
  destruct (validTagKey k).
  { cbn zeta. destruct (asArray v) as [sli|]; cbn; [|done].
    by destruct (fTags ret). }
  destruct (String.eqb k "since"); [by destruct (asNumber v)|].
  destruct (String.eqb k "until"); [by destruct (asNumber v)|].
  destruct (String.eqb k "limit"); [by destruct (asNumber v)|].
  done.
Qed.

Lemma wellFormed_classify (k : string) (v : json) :
  wellFormed k v =
  match classify k with
  | KIds | KAuthors | KTag => bool_decide (is_Some (stringsOf v))
  | KKinds => bool_decide (is_Some (intsOf v))
  | KSince | KUntil | KLimit => bool_decide (is_Some (intOf v))
  | KOther => false
  end.
Proof.
  unfold wellFormed, classify.
  destruct (String.eqb_spec k "ids") as [->|]; [done|].
  destruct (String.eqb_spec k "authors") as [->|]; [done|].
  destruct (String.eqb_spec k "kinds") as [->|]; [done|].
  destruct (validTagKey k); [done|]. cbn [orb].
  destruct (String.eqb_spec k "since") as [->|]; [done|].
  destruct (String.eqb_spec k "until") as [->|]; [done|].
  by destruct (String.eqb_spec k "limit") as [->|].
Qed.

(** The field read from the member [key] when the object has one, and
    left as it was otherwise. *)
Definition pick {A} (parse : json -> option A) (m : gmap string json) (key : string)
    (old : option A) : option A :=
  match m !! key with
  | Some v => parse v
  | None => old
  end.

Lemma pick_insert_ne {A} (parse : json -> option A) (m : gmap string json)
    (k key : string) (v : json) (old : option A) :
  k <> key -> pick parse (<[k := v]> m) key old = pick parse m key old.
Proof. intros Hne. unfold pick. by rewrite lookup_insert_ne. Qed.

Lemma pick_insert_absent {A} (parse : json -> option A) (m : gmap string json)
    (key : string) (v : json) (old : option A) (x : A) :
  m !! key = None -> parse v = Some x ->
  pick parse (<[key := v]> m) key old = pick parse m key (Some x).
Proof. intros Hm Hv. unfold pick. by rewrite lookup_insert_eq, Hm. Qed.

(** What the loop has read from the members [m], starting from [ret]. *)
Record Reads (m : gmap string json) (ret r : ReqFilter) : Prop := {
  reads_ids : fIDs r = pick stringsOf m "ids" (fIDs ret);
  reads_authors : fAuthors r = pick stringsOf m "authors" (fAuthors ret);
  reads_kinds : fKinds r = pick intsOf m "kinds" (fKinds ret);
  reads_since : fSince r = pick intOf m "since" (fSince ret);
  reads_until : fUntil r = pick intOf m "until" (fUntil ret);
  reads_limit : fLimit r = pick intOf m "limit" (fLimit ret);
  reads_no_tags : fTags r = None <-> fTags ret = None /\ tagMembers m = ∅;
  reads_tags : forall k,
    default ∅ (fTags r) !! k =
      match tagMembers m !! k with
      | Some v => Some (stringsOf v)
      | None => default ∅ (fTags ret) !! k
      end
}.

Lemma Reads_nil (ret : ReqFilter) : Reads ∅ ret ret.
Proof.
  split; try done.
  split; [|by intros []]. intros Hn. split; [done|]. apply map_filter_empty.
Qed.

Lemma tagMembers_insert_other (m : gmap string json) (k : string) (v : json) :
  validTagKey k = false -> tagMembers (<[k := v]> m) = tagMembers m.
Proof.
  intros Hk. unfold tagMembers. apply map_filter_insert_not. intros y. cbn. congruence.
Qed.

Lemma tagMembers_insert_tag (m : gmap string json) (k : string) (v : json) :
  validTagKey k = true -> tagMembers (<[k := v]> m) = <[k := v]> (tagMembers m).
Proof. intros Hk. unfold tagMembers. by apply map_filter_insert_True. Qed.

Lemma tagMembers_lookup_None (m : gmap string json) (k : string) :
  m !! k = None -> tagMembers m !! k = None.
Proof. intros Hk. unfold tagMembers. apply map_lookup_filter_None. by left. Qed.

Ltac other_key Hc :=
  let E := fresh in intros E; rewrite <- E in Hc; vm_compute in Hc; discriminate Hc.

(** One more member, read before the others. *)
Lemma Reads_step (m : gmap string json) (ret ret' r : ReqFilter) (k : string) (v : json) :
  unmarshalMember ret k v = Some ret' ->
  m !! k = None ->
  Reads m ret' r ->
  Reads (<[k := v]> m) ret r.
Proof.
  rewrite unmarshalMember_classify. intros Hstep Hk [Hi Ha Hki Hs Hu Hl Hnt Ht].
  pose proof (classify_fixed k) as Hfix.
  destruct (classify k) eqn:Hc; try done.
  - subst k. destruct (stringsOf v) as [x|] eqn:Hv; [|done]. injection Hstep as <-.
    cbn in *. split; rewrite ?tagMembers_insert_other by done;
      rewrite ?(pick_insert_ne _ _ "ids") by done; try done.
    by rewrite (pick_insert_absent _ _ _ _ _ x).
  - subst k. destruct (stringsOf v) as [x|] eqn:Hv; [|done]. injection Hstep as <-.
    cbn in *. split; rewrite ?tagMembers_insert_other by done;
      rewrite ?(pick_insert_ne _ _ "authors") by done; try done.
    by rewrite (pick_insert_absent _ _ _ _ _ x).
  - subst k. destruct (intsOf v) as [x|] eqn:Hv; [|done]. injection Hstep as <-.
    cbn in *. split; rewrite ?tagMembers_insert_other by done;
      rewrite ?(pick_insert_ne _ _ "kinds") by done; try done.
    by rewrite (pick_insert_absent _ _ _ _ _ x).
  - destruct (stringsOf v) as [x|] eqn:Hv; [|done]. injection Hstep as <-.
    cbn in *.
    assert ("ids" <> k) by other_key Hc. assert ("authors" <> k) by other_key Hc.
    assert ("kinds" <> k) by other_key Hc. assert ("since" <> k) by other_key Hc.
    assert ("until" <> k) by other_key Hc. assert ("limit" <> k) by other_key Hc.
    split; rewrite ?tagMembers_insert_tag by done; rewrite ?pick_insert_ne by done;
      try done.
    + split.
      * intros Hn. apply Hnt in Hn as [Hn _]. done.
      * intros [_ He]. by apply insert_non_empty in He.
    + intros k'. rewrite Ht. destruct (decide (k' = k)) as [->|Hne].
      * rewrite tagMembers_lookup_None by done. by rewrite !lookup_insert_eq, Hv.
      * by rewrite !lookup_insert_ne.
  - subst k. destruct (intOf v) as [x|] eqn:Hv; [|done]. injection Hstep as <-.
    cbn in *. split; rewrite ?tagMembers_insert_other by done;
      rewrite ?(pick_insert_ne _ _ "since") by done; try done.
    by rewrite (pick_insert_absent _ _ _ _ _ x).
  - subst k. destruct (intOf v) as [x|] eqn:Hv; [|done]. injection Hstep as <-.
    cbn in *. split; rewrite ?tagMembers_insert_other by done;
      rewrite ?(pick_insert_ne _ _ "until") by done; try done.
    by rewrite (pick_insert_absent _ _ _ _ _ x).
  - subst k. destruct (intOf v) as [x|] eqn:Hv; [|done]. injection Hstep as <-.
    cbn in *. split; rewrite ?tagMembers_insert_other by done;
      rewrite ?(pick_insert_ne _ _ "limit") by done; try done.
    by rewrite (pick_insert_absent _ _ _ _ _ x).
Qed.

Lemma unmarshalMember_wellFormed (ret : ReqFilter) (k : string) (v : json) :
  is_Some (unmarshalMember ret k v) <-> wellFormed k v = true.
Proof.
  rewrite unmarshalMember_classify, wellFormed_classify, <- not_eq_None_Some.
  destruct (classify k);
    rewrite ?bool_decide_eq_true, <- ?not_eq_None_Some;
    try (destruct (stringsOf v)); try (destruct (intsOf v)); try (destruct (intOf v));
    cbn; naive_solver.
Qed.

(** The loop over members of distinct keys: it fails exactly when some
    member is not well-formed, and otherwise has read every member. *)
Lemma unmarshalLoop_spec (members : list (string * json)) (ret : ReqFilter) :
  NoDup members.*1 ->
  match unmarshalLoop members ret with
  | Some r => Forall (fun kv => wellFormed kv.1 kv.2 = true) members /\
              Reads (list_to_map members) ret r
  | None => Exists (fun kv => wellFormed kv.1 kv.2 = false) members
  end.
Proof.
  revert ret. induction members as [|[k v] members IH]; intros ret Hnd.
  - cbn. split; [constructor | apply Reads_nil].
  - apply NoDup_cons in Hnd as [Hk Hnd]. cbn [unmarshalLoop list_to_map foldr uncurry].
    pose proof (unmarshalMember_wellFormed ret k v) as Hwf.
    destruct (unmarshalMember ret k v) as [ret'|] eqn:Hstep; cbn.
    + specialize (IH ret' Hnd). destruct (unmarshalLoop members ret') as [r|].
      * destruct IH as [Hall HR]. split.
        -- constructor; [|done]. apply Hwf. by eexists.
        -- eapply Reads_step; [done | | done]. by apply not_elem_of_list_to_map_1.
      * by apply Exists_cons_tl.
    + apply Exists_cons_hd. cbn. apply not_true_is_false. intros Ht.
      apply Hwf in Ht as [? ?]. done.
Qed.

(** A filter that has read every member of [obj], starting from the zero
    value, is [filterOf obj]. *)
Lemma Reads_filterOf (obj : gmap string json) (r : ReqFilter) :
  Reads obj zeroReqFilter r -> r = filterOf obj.
Proof.
  intros [Hi Ha Hki Hs Hu Hl Hnt Ht]. destruct r as [i a ki t s u l]. cbn in *.
  unfold filterOf, pick in *.
  assert (t = if decide (tagMembers obj = ∅) then None
              else Some (stringsOf <$> tagMembers obj)) as ->.
  { destruct (decide (tagMembers obj = ∅)) as [He|Hne].
    - by apply Hnt.
    - destruct t as [tags|]; [|by destruct Hne; apply Hnt]. f_equal. apply map_eq. intros k.
      specialize (Ht k). cbn in Ht. rewrite Ht, lookup_fmap.
      by destruct (tagMembers obj !! k). }
  subst. f_equal;
    match goal with |- context [obj !! ?key] => by destruct (obj !! key) end.
Qed.

End MocrelayFilterJSONFacts.


(** ** package mocrelay: [UnmarshalJSON] of the client messages
    (data_structure.go) *)

Module MocrelayClientJSON.
Import Mocrelay MocrelayCheck MocrelayFilterJSON.

(** *** What [json.Unmarshal] does for the targets these methods use.
    A JSON null leaves a string as it is, here the empty string of a new
    variable, without an error; it sets a pointer to nil. *)

(** [json.Unmarshal(raw, &s)] for a new [string]. *)
Definition unmarshalString (v : json) : option string :=
  match v with
  | JString s => Some s
  | JNull => Some ""
  | _ => None
  end.

(** [json.Unmarshal(b, &elems)] for [var elems []string]. *)
Definition unmarshalStrings (b : json) : option (list string) :=
  match b with
  | JArray elems => mapM unmarshalString elems
  | JNull => Some []
  | _ => None
  end.

(** [json.Unmarshal(b, &elems)] for [var elems []json.RawMessage]: the
    elements as they are. *)
Definition unmarshalRawMessages (b : json) : option (list json) :=
  match b with
  | JArray elems => Some elems
  | JNull => Some []
  | _ => None
  end.

(** [json.Unmarshal(raw, &ret.ReqFilters[i])] on a nil [*ReqFilter]: null
    leaves the pointer nil; any other value is handed to
    [UnmarshalJSON] of a new [ReqFilter]. *)
Definition unmarshalReqFilter (order : gmap string json -> list (string * json))
    (v : json) : option (option ReqFilter) :=
  match v with
  | JNull => Some None
  | _ => fil ← ReqFilterUnmarshalJSON order zeroReqFilter v; Some (Some fil)
  end.

(** [json.Unmarshal(raw, &event)] for [var event Event]: every value, null
    too, is handed to [Event.UnmarshalJSON]. *)
Definition unmarshalEvent (v : json) : option Event :=
  match UnmarshalJSON v with
  | inl event => Some event
  | inr _ => None
  end.

(** *** The methods.  The result is the receiver after a nil error;
    [None] is an error, which leaves the receiver as it was. *)

Definition ClientEventMsgUnmarshalJSON (msg : ClientEventMsg) (b : json)
    : option ClientEventMsg :=
  match b with
  | JNull => Some msg
  | _ =>
      elems ← unmarshalRawMessages b;
      if negb (len elems =? 2) then None else
      match elems with
      | e0 :: e1 :: _ =>
          label ← unmarshalString e0;
          if negb (String.eqb label "EVENT") then None else
          event ← unmarshalEvent e1;
          Some {| Event_ := Some event |}
      | _ => None
      end
  end.

(** The loop that fills [ret.ReqFilters]: it returns at the first
    error. *)
Definition unmarshalReqFilters (order : gmap string json -> list (string * json))
    (raws : list json) : option (list (option ReqFilter)) :=
  mapM (unmarshalReqFilter order) raws.

Definition ClientReqMsgUnmarshalJSON (order : gmap string json -> list (string * json))
    (msg : ClientReqMsg) (b : json) : option ClientReqMsg :=
  match b with
  | JNull => Some msg
  | _ =>
      elems ← unmarshalRawMessages b;
      if len elems <? 3 then None else
      match elems with
      | e0 :: e1 :: raws =>
          label ← unmarshalString e0;
          if negb (String.eqb label "REQ") then None else
          subID ← unmarshalString e1;
          filters ← unmarshalReqFilters order raws;
          Some {| ReqSubscriptionID := subID; ReqFilters := filters |}
      | _ => None
      end
  end.

Definition ClientCloseMsgUnmarshalJSON (msg : ClientCloseMsg) (b : json)
    : option ClientCloseMsg :=
  match b with
  | JNull => Some msg
  | _ =>
      elems ← unmarshalStrings b;
      if negb (len elems =? 2) then None else
      match elems with
      | e0 :: e1 :: _ =>
          if negb (String.eqb e0 "CLOSE") then None else
          Some {| CloseSubscriptionID := e1 |}
      | _ => None
      end
  end.

Definition ClientAuthMsgUnmarshalJSON (msg : ClientAuthMsg) (b : json)
    : option ClientAuthMsg :=
  match b with
  | JNull => Some msg
  | _ =>
      elems ← unmarshalStrings b;
      if negb (len elems =? 2) then None else
      match elems with
      | e0 :: e1 :: _ =>
          if negb (String.eqb e0 "AUTH") then None else
          Some {| Challenge := e1 |}
      | _ => None
      end
  end.

Definition ClientCountMsgUnmarshalJSON (order : gmap string json -> list (string * json))
    (msg : ClientCountMsg) (b : json) : option ClientCountMsg :=
  match b with
  | JNull => Some msg
  | _ =>
      elems ← unmarshalRawMessages b;
      if len elems <? 3 then None else
      match elems with
      | e0 :: e1 :: raws =>
          label ← unmarshalString e0;
          if negb (String.eqb label "COUNT") then None else
          subID ← unmarshalString e1;
          filters ← unmarshalReqFilters order raws;
          Some {| CountSubscriptionID := subID; CountReqFilters := filters |}
      | _ => None
      end
  end.

End MocrelayClientJSON.

(** ** Facts about the parsed client messages *)

Module MocrelayClientJSONFacts.
Import Mocrelay MocrelayCheck MocrelayFilterJSON MocrelayClientJSON.

Lemma unmarshalString_label (v : json) (label : string) :
  label <> "" ->
  unmarshalString v = Some label -> v = JString label.
Proof. intros Hne. destruct v; cbn; intros [= <-]; done. Qed.

(** The filters read from the elements after the subscription id: one
    per element, nil exactly for a null. *)
Lemma unmarshalReqFilters_shape (order : gmap string json -> list (string * json))
    (raws : list json) (filters : list (option ReqFilter)) :
  unmarshalReqFilters order raws = Some filters ->
  length filters = length raws /\
  forall (i : nat), raws !! i = Some JNull <-> filters !! i = Some None.
Proof.
  unfold unmarshalReqFilters. intros Hm. apply mapM_Some in Hm.
  split; [symmetry; by eapply Forall2_length|].
  intros i. split.
  - intros Hi. destruct (Forall2_lookup_l _ _ _ _ _ Hm Hi) as (f & Hf & Hp).
    cbn in Hp. congruence.
  - intros Hi. destruct (Forall2_lookup_r _ _ _ _ _ Hm Hi) as (v & Hv & Hp).
    rewrite Hv. f_equal. unfold unmarshalReqFilter in Hp.
    destruct v; try done;
      by destruct (ReqFilterUnmarshalJSON order zeroReqFilter _).
Qed.

(** [Valid] of a message with at least one filter. *)
Lemma filtersValid_spec (filters : list (option ReqFilter)) :
  filtersValid filters = true <->
  filters <> [] /\ forall fil, fil ∈ filters -> ReqFilterValid fil = true.
Proof.
  unfold filtersValid, len.
  destruct filters as [|f filters]; [by split; [|intros []]|].
  destruct (Z.eqb_spec (Z.of_nat (length (f :: filters))) 0) as [H0|_];
    [cbn [length] in H0; lia|].
  rewrite sliceAllFunc_forallb.
  destruct (forallb ReqFilterValid (f :: filters)) eqn:Hall; cbn [negb].
  - split; [|done]. intros _. split; [done|]. intros fil Hin.
    rewrite forallb_forall in Hall. apply Hall. by apply list_elem_of_In.
  - split; [done|]. intros [_ Hv]. rewrite <- Hall. apply forallb_forall.
    intros fil Hin. apply Hv. by apply list_elem_of_In.
Qed.

End MocrelayClientJSONFacts.


(** ** Concrete inputs *)

Module Inputs.

(** The event of the repository's tests, as package main and package
    nostr hold it. *)
Definition testEventJSON : Main.EventJSON :=
  {| Main.ID := "49d58222bd85ddabfc19b8052d35bcce2bad8f1f3030c0bc7dc9f10dba82a8a2";
     Main.Pubkey := "dbf0becf24bf8dd7d779d7fb547e6112964ff042b77a42cc2d8488636eed9f5e";
     Main.CreatedAt := 1693157791;
     Main.Kind := 1;
     Main.Tags := [["e"; "d2ea747b6e3a35d2a8b759857b73fcaba5e9f3cfb6f38d317e034bddc0bf0d1c"; ""; "root"];
                   ["p"; "dbf0becf24bf8dd7d779d7fb547e6112964ff042b77a42cc2d8488636eed9f5e"]];
     Main.Content := "powa";
     Main.Sig := "795e51656e8b863805c41b3a6e1195ed63bf8c5df1fc3a4078cd45aaf0d8838f2dc57b802819443364e8e38c0f35c97e409181680bfff83e58949500f5a8f0c8";
     Main.Raw := "" |}.

Definition testMainEvent : Main.Event :=
  {| Main.EventJSON_ := testEventJSON; Main.ReceivedAt := 1693157800 |}.

Definition emptyFilterJSON : Main.FilterJSON :=
  {| Main.IDs := None; Main.Authors := None; Main.Kinds := None; Main.Etags := None;
     Main.Ptags := None; Main.Since := None; Main.Until := None; Main.Limit := None |}.

(** [{"since": 1693157791}] and [{"until": 1693157791}]. *)
Definition sinceFilter : Main.Filter :=
  {| Main.FilterJSON_ :=
       {| Main.IDs := None; Main.Authors := None; Main.Kinds := None; Main.Etags := None;
          Main.Ptags := None; Main.Since := Some 1693157791; Main.Until := None;
          Main.Limit := None |} |}.

Definition untilFilter : Main.Filter :=
  {| Main.FilterJSON_ :=
       {| Main.IDs := None; Main.Authors := None; Main.Kinds := None; Main.Etags := None;
          Main.Ptags := None; Main.Since := None; Main.Until := Some 1693157791;
          Main.Limit := None |} |}.

(** [{"limit": 1}]. *)
Definition limitOneFilter : Main.Filter :=
  {| Main.FilterJSON_ :=
       {| Main.IDs := None; Main.Authors := None; Main.Kinds := None; Main.Etags := None;
          Main.Ptags := None; Main.Since := None; Main.Until := None;
          Main.Limit := Some 1 |} |}.

(** [{"ids": ["ab"]}] and [{"ids": ["abcdef"]}]. *)
Definition idsFilterJSON (ids : list string) : Main.FilterJSON :=
  {| Main.IDs := Some ids; Main.Authors := None; Main.Kinds := None; Main.Etags := None;
     Main.Ptags := None; Main.Since := None; Main.Until := None; Main.Limit := None |}.

(** An event whose only tag is [["e"]], and the filter [{"#e": ["abc"]}]. *)
Definition bareTagEvent : Nostr.Event :=
  {| Nostr.ID := "49d58222bd85ddabfc19b8052d35bcce2bad8f1f3030c0bc7dc9f10dba82a8a2";
     Nostr.Pubkey := "dbf0becf24bf8dd7d779d7fb547e6112964ff042b77a42cc2d8488636eed9f5e";
     Nostr.CreatedAt := 1693157791;
     Nostr.Kind := 1;
     Nostr.Tags := [["e"]];
     Nostr.Content := "powa";
     Nostr.Sig := "795e51656e8b863805c41b3a6e1195ed63bf8c5df1fc3a4078cd45aaf0d8838f2dc57b802819443364e8e38c0f35c97e409181680bfff83e58949500f5a8f0c8" |}.

Definition etagFilter : Nostr.ReqFilter :=
  {| Nostr.fIDs := None; Nostr.fAuthors := None; Nostr.fKinds := None;
     Nostr.fTags := Some {[ "#e" := ["abc"] ]};
     Nostr.fSince := None; Nostr.fUntil := None; Nostr.fLimit := None |}.

(** A filter whose tag map has the key ["e"], of one byte. *)
Definition oneByteKeyFilter : Nostr.ReqFilter :=
  {| Nostr.fIDs := None; Nostr.fAuthors := None; Nostr.fKinds := None;
     Nostr.fTags := Some {[ "e" := ["abc"] ]};
     Nostr.fSince := None; Nostr.fUntil := None; Nostr.fLimit := None |}.

(** The members of the test event's JSON object, and one more. *)
Definition testMembers : list (string * json) :=
  [("kind", JNumber "1");
   ("pubkey", JString "dbf0becf24bf8dd7d779d7fb547e6112964ff042b77a42cc2d8488636eed9f5e");
   ("created_at", JNumber "1693157791");
   ("tags", JArray
      [JArray [JString "e";
               JString "d2ea747b6e3a35d2a8b759857b73fcaba5e9f3cfb6f38d317e034bddc0bf0d1c";
               JString ""; JString "root"];
       JArray [JString "p";
               JString "dbf0becf24bf8dd7d779d7fb547e6112964ff042b77a42cc2d8488636eed9f5e"]]);
   ("content", JString "powa");
   ("id", JString "49d58222bd85ddabfc19b8052d35bcce2bad8f1f3030c0bc7dc9f10dba82a8a2");
   ("sig", JString "795e51656e8b863805c41b3a6e1195ed63bf8c5df1fc3a4078cd45aaf0d8838f2dc57b802819443364e8e38c0f35c97e409181680bfff83e58949500f5a8f0c8")].

Definition extraMembers : list (string * json) :=
  testMembers ++ [("powa", JString "meu")].

(** [cmp.Compare] on integers. *)
Definition compareInt (a b : Z) : Z :=
  match a ?= b with
  | Lt => -1
  | Eq => 0
  | Gt => 1
  end.

(** A generator whose every draw gives a node of height 1. *)
Definition lowDraws (i : nat) : Z := 65535.

(** The test event with an identifier of 64 zeros. *)
Definition wrongIdEvent : Main.EventJSON :=
  {| Main.ID := "0000000000000000000000000000000000000000000000000000000000000000";
     Main.Pubkey := Main.Pubkey testEventJSON;
     Main.CreatedAt := Main.CreatedAt testEventJSON;
     Main.Kind := Main.Kind testEventJSON;
     Main.Tags := Main.Tags testEventJSON;
     Main.Content := Main.Content testEventJSON;
     Main.Sig := Main.Sig testEventJSON;
     Main.Raw := Main.Raw testEventJSON |}.

(** Stand-ins for the collaborators of the relay, to run the handler on:
    the "hash" of an event is its content, every key and signature
    parses, no signature verifies, the cache is a list, the router
    delivers nothing. *)
Definition toySerialize (e : Main.EventJSON) : option string := Some (Main.Content e).
Definition toyHash (ser : string) : string := ser.
Definition toyParse (bin : string) : option unit := Some tt.
Definition toyVerify (sig : unit) (hash : string) (key : unit) : bool := false.
Definition toySave (e : Main.Event) (w : list Main.Event) : list Main.Event := e :: w.
Definition toyPublish (e : Main.Event) (w : list Main.Event) (queued : list Relay.ServerMsg)
    : list Main.Event * list Relay.ServerMsg * bool := (w, queued, false).

End Inputs.

(** ** The skip list over [int] keys ordered by [cmp.Compare] *)

Module SkipListInt.
Import Inputs SkipList SkipListFacts.

Lemma compareInt_eq (a b : Z) : compareInt a b = 0 <-> a = b.
Proof.
  unfold compareInt. destruct (Z.compare_spec a b); split; intros; (done || lia).
Qed.

Lemma compareInt_flip (a b : Z) : compareInt a b < 0 <-> 0 < compareInt b a.
Proof.
  unfold compareInt.
  destruct (Z.compare_spec a b), (Z.compare_spec b a); split; intros; (done || lia).
Qed.

Lemma compareInt_trans (a b c : Z) :
  compareInt a b < 0 -> compareInt b c < 0 -> compareInt a c < 0.
Proof.
  unfold compareInt.
  destruct (Z.compare_spec a b), (Z.compare_spec b c), (Z.compare_spec a c);
    intros; (done || lia).
Qed.

(** [sequential_spec] for [newSkipList[int, string](cmp.Compare)]. *)
Lemma sequential_int (draws : nat -> Z) (ops : list call) (k : Z) (v : string)
    (fuel : nat) :
  (S (length ops) < fuel)%nat ->
  k <> 0 ->
  exists rs l,
    performAll compareInt fuel (newSkipList 0 "" draws) ops = Some (rs, l) /\
    Len l = wrap_int64 (net ops rs) /\
    exists added l',
      Add compareInt 1 fuel l k v = Some (added, l') /\
      (added = true <-> Find compareInt fuel l k = Some None) /\
      (added = true -> Find compareInt fuel l' k = Some (Some v)) /\
      (added = false -> l' = l) /\
      Len l' = wrap_int64 (Len l + if added then 1 else 0).
Proof.
  intros Hfuel Hk.
  apply (sequential_spec 0 "" compareInt compareInt_eq compareInt_flip compareInt_trans);
    [done|].
  intros H0. apply (proj1 (compareInt_eq 0 k)) in H0. by apply Hk.
Qed.

End SkipListInt.

(** ** The claims *)

Module Claims.
Import Inputs.

(** C1 (defect in req_filter.go).  The claim asks for inclusive bounds.
    [Filter.MatchSince] and [Filter.MatchUntil] compare strictly: an event
    whose [created_at] equals the [since] bound, or the [until] bound, is
    refused, by the two predicates and by [Filter.Match]. *)
Theorem C1_MatchSince_MatchUntil_refuse_the_bound :
  Main.CreatedAt (Main.EventJSON_ testMainEvent) = 1693157791 /\
  Main.MatchSince (Some sinceFilter) testMainEvent = false /\
  Main.Match (Some sinceFilter) testMainEvent = false /\
  Main.MatchUntil (Some untilFilter) testMainEvent = false /\
  Main.Match (Some untilFilter) testMainEvent = false.
Proof. repeat split; reflexivity. Qed.

(** C4 (defect in data_structure.go).  [validKind] is the disjunction
    [0 <= kind || kind <= 65535], true of every integer: kinds below 0 and
    above 65535 pass it, [Event.Valid] accepts the test event with kind
    70000 and [ReqFilter.Valid] a filter with the kinds 70000 and -1. *)
Theorem C4_Valid_accepts_kinds_out_of_range :
  Mocrelay.validKind (-1) = true /\
  Mocrelay.validKind 65536 = true /\
  Mocrelay.EventValid (Some (ValidFacts.testEvent 70000)) = true /\
  Mocrelay.ReqFilterValid (Some (ValidFacts.kindsFilter [70000; -1])) = true.
Proof. repeat split; vm_compute; reflexivity. Qed.

(** C6 (defect in utils.go).  The claim lets no tag without a value
    satisfy an entry.  In [ReqFilterEventMatcher.Match] the test
    [len(tagArr) == 1 || ...] accepts it: the event whose only tag is
    [["e"]] matches the filter [{"#e": ["abc"]}]. *)
Theorem C6_tag_without_value_satisfies_entry :
  NostrFacts.keys_ok etagFilter /\
  Nostr.tagEntryMatch bareTagEvent "#e" ["abc"] = Some true /\
  Nostr.Match {| Nostr.cnt := 0; Nostr.f := etagFilter |} bareTagEvent = Some true.
Proof.
  split; [|split; reflexivity].
  unfold NostrFacts.keys_ok, etagFilter. cbn.
  apply map_Forall_singleton. by eexists.
Qed.

(** C7 (defect in entity.go).  With a minimal prefix of 4, the request
    with the filters [{"ids": ["ab"]}] and [{"ids": ["abcdef"]}]: entity.go's
    [NewFiltersFromFilterJSONs] returns at the first short prefix with no
    filter at all, where req_filter.go's returns the second filter and the
    collected error. *)
Theorem C7_entity_NewFilters_returns_no_filter :
  MainEntity.NewFiltersFromFilterJSONs 4 50
    [Some (idsFilterJSON ["ab"]); Some (idsFilterJSON ["abcdef"])] =
    (None, Some (MainEntity.ErrTooShort "too short id prefix")) /\
  Main.NewFiltersFromFilterJSONs 4 50
    [Some (idsFilterJSON ["ab"]); Some (idsFilterJSON ["abcdef"])] =
    (Some [ {| Main.FilterJSON_ := idsFilterJSON ["abcdef"] |} ],
     Some (Main.joinError [Main.ReqFilterMinPrefixError "ids" 2])).
Proof. split; reflexivity. Qed.

(** C8 (defect in entity.go).  The object of the test event with the
    additional member ["powa": "meu"]: [ParseEventJSON] decodes it into an
    event, where [Event.UnmarshalJSON] refuses it. *)
Theorem C8_ParseEventJSON_accepts_unknown_field :
  MainJSON.ParseEventJSON "" (JObject extraMembers) = inl testEventJSON /\
  Mocrelay.UnmarshalJSON (JObject extraMembers) = inr "contains some extra fields".
Proof. split; vm_compute; reflexivity. Qed.

(** C10 (defect in data_structure.go).  A list over [int] keys ordered by
    [cmp.Compare], empty, whose next node gets a height below 16:
    [Add(0, "v")] returns true and [Len] becomes 1, and [Find(0)] then
    returns [ok = false].  At the top level [Find] stands on the head, whose
    key is the zero value 0, and returns at once.  For the key 5 the same
    calls find the value; [SkipListFacts.sequential_spec] gives what the
    list does for every key other than the zero value. *)
Theorem C10_Find_misses_the_zero_key :
  let l0 := SkipList.newSkipList 0 "" lowDraws in
  (exists l1,
     SkipList.Add compareInt 1 1 l0 0 "v" = Some (true, l1) /\
     SkipList.Len l1 = 1 /\
     SkipList.Find compareInt 1 l1 0 = Some None) /\
  (exists l1,
     SkipList.Add compareInt 1 1 l0 5 "v" = Some (true, l1) /\
     SkipList.Len l1 = 1 /\
     SkipList.Find compareInt 2 l1 5 = Some (Some "v")).
Proof.
  split.
  - eexists. split; [vm_compute; reflexivity|]. split; vm_compute; reflexivity.
  - eexists. split; [vm_compute; reflexivity|]. split; vm_compute; reflexivity.
Qed.

(** The matchers of utils.go index [tag[1]] of every key of the tag map:
    with a key of one byte, and an event that has a tag, [CountMatch]
    panics, alone and in a set. *)
Lemma CountMatch_panics_on_a_one_byte_tag_key :
  Nostr.CountMatch {| Nostr.cnt := 0; Nostr.f := oneByteKeyFilter |} bareTagEvent = None /\
  Nostr.CountMatchSet
    [{| Nostr.cnt := 0; Nostr.f := NostrFacts.emptyFilter |};
     {| Nostr.cnt := 0; Nostr.f := oneByteKeyFilter |}] bareTagEvent = None.
Proof. split; reflexivity. Qed.




(** C3, as the code has it.  When the verification of the event of an
    EVENT message does not succeed, [serveClientEventMsgJSON] returns an
    error and the receiver loop writes it to its log.  The state is the one
    before the call: nothing is queued on the send channel of the
    connection, nothing is saved in the cache, nothing is published. *)
Theorem C3_unverified_event_changes_nothing
    (Serialize : Main.EventJSON -> option string) (sha256 : string -> string)
    (PubKey Signature : Type)
    (ParsePubKey : string -> option PubKey) (ParseSignature : string -> option Signature)
    (sigVerify : Signature -> string -> PubKey -> bool)
    (World : Type) (Save : Main.Event -> World -> World)
    (Publish : Main.Event -> World -> list Relay.ServerMsg ->
               World * list Relay.ServerMsg * bool)
    (now : Z) (st : Relay.State World) (logStderr : list Relay.serveError)
    (msg : option Main.EventJSON) :
  Relay.Verify Serialize sha256 PubKey Signature ParsePubKey ParseSignature sigVerify msg
    <> (true, false) ->
  exists err,
    (err = Relay.ErrVerify \/ err = Relay.ErrInvalidSignature) /\
    Relay.serveClientEventMsgJSON Serialize sha256 PubKey Signature ParsePubKey
      ParseSignature sigVerify World Save Publish now st msg = (st, Some err) /\
    Relay.receiveEventMsg Serialize sha256 PubKey Signature ParsePubKey
      ParseSignature sigVerify World Save Publish now st logStderr msg =
      (st, logStderr ++ [err]).
Proof.
  intros Hv.
  destruct (RelayFacts.serve_unverified Serialize sha256 PubKey Signature ParsePubKey
              ParseSignature sigVerify World Save Publish now st msg Hv) as (err & Hs & He).
  exists err. split; [done|]. split; [done|].
  unfold Relay.receiveEventMsg. by rewrite Hs.
Qed.

(** The handler run on the event with the wrong identifier. *)
Lemma C3_witness :
  exists err,
    (err = Relay.ErrVerify \/ err = Relay.ErrInvalidSignature) /\
    Relay.serveClientEventMsgJSON toySerialize toyHash unit unit toyParse toyParse
      toyVerify (list Main.Event) toySave toyPublish 1693157800000000000
      {| Relay.world := []; Relay.sender := []; Relay.promEventCounter := 0 |}
      (Some wrongIdEvent) =
      ({| Relay.world := []; Relay.sender := []; Relay.promEventCounter := 0 |}, Some err) /\
    Relay.receiveEventMsg toySerialize toyHash unit unit toyParse toyParse
      toyVerify (list Main.Event) toySave toyPublish 1693157800000000000
      {| Relay.world := []; Relay.sender := []; Relay.promEventCounter := 0 |} []
      (Some wrongIdEvent) =
      ({| Relay.world := []; Relay.sender := []; Relay.promEventCounter := 0 |}, [] ++ [err]).
Proof.
  apply (C3_unverified_event_changes_nothing toySerialize toyHash unit unit toyParse
           toyParse toyVerify (list Main.Event) toySave toyPublish).
  vm_compute. discriminate.
Defined.

(** C3, as claimed, fails.  The test event with an identifier of 64
    zeros: the identifier decodes, and whenever it is not the hash of the
    serialization the receiver loop ends with the state it began with and
    one more line in its log.  No OK message is queued on the connection's
    send channel. *)
Lemma C3_no_OK_message_is_sent :
  is_Some (Relay.hex_DecodeString (Main.ID wrongIdEvent)) /\
  forall (Serialize : Main.EventJSON -> option string) (sha256 : string -> string)
    (PubKey Signature : Type)
    (ParsePubKey : string -> option PubKey) (ParseSignature : string -> option Signature)
    (sigVerify : Signature -> string -> PubKey -> bool)
    (World : Type) (Save : Main.Event -> World -> World)
    (Publish : Main.Event -> World -> list Relay.ServerMsg ->
               World * list Relay.ServerMsg * bool)
    (now : Z) (st : Relay.State World) (logStderr : list Relay.serveError)
    (ser idBin : string),
    Serialize wrongIdEvent = Some ser ->
    Relay.hex_DecodeString (Main.ID wrongIdEvent) = Some idBin ->
    String.eqb (sha256 ser) idBin = false ->
    let after := Relay.receiveEventMsg Serialize sha256 PubKey Signature ParsePubKey
                   ParseSignature sigVerify World Save Publish now st logStderr
                   (Some wrongIdEvent) in
    after = (st, logStderr ++ [Relay.ErrInvalidSignature]) /\
    Relay.sender World after.1 = Relay.sender World st.
Proof.
  split; [by eexists|].
  intros Serialize sha256 PubKey Signature ParsePubKey ParseSignature sigVerify World
    Save Publish now st logStderr ser idBin Hs Hid Hne.
  assert (Relay.serveClientEventMsgJSON Serialize sha256 PubKey Signature ParsePubKey
            ParseSignature sigVerify World Save Publish now st (Some wrongIdEvent) =
          (st, Some Relay.ErrInvalidSignature)) as Hserve.
  { unfold Relay.serveClientEventMsgJSON.
    by rewrite (RelayFacts.Verify_wrong_id Serialize sha256 PubKey Signature ParsePubKey
                  ParseSignature sigVerify wrongIdEvent ser idBin Hs Hid Hne). }
  cbv zeta. unfold Relay.receiveEventMsg. rewrite Hserve. done.
Qed.

(** C5, as claimed, fails for [FilterCounter].  The counter of the filter
    [{"limit": 1}] accepts the test event once; it is then done, and on
    the same event, which its filter accepts, [Match] returns false and
    the count stays 1. *)
Lemma C5_done_counter_refuses_matching_event :
  let fc0 := Main.NewFilterCounter limitOneFilter in
  let fc1 := {| Main.Filter_ := limitOneFilter; Main.count := 1 |} in
  Main.CounterMatch fc0 testMainEvent = (true, fc1) /\
  Main.Done fc1 = true /\
  Main.Match (Some (Main.Filter_ fc1)) testMainEvent = true /\
  Main.CounterMatch fc1 testMainEvent = (false, fc1).
Proof. repeat split; reflexivity. Qed.

(** C5, as the code has it.  For a [ReqFilterEventMatcher] whose filter
    has tag keys of at least two bytes (a shorter key makes [Match] panic
    on [tag[1]]) and whose count is not negative and, with the calls made,
    stays below 2^63: [CountMatch] does not panic, returns the value of
    the filter's predicate and adds one to the count exactly when it is
    true.  [FilterCounter.Match] does so while the counter is not done; a
    counter that is done returns false and keeps its count.  For both,
    [Done] is true exactly when the filter has a limit and the count has
    reached it, and a sequence of calls never takes [Done] from true back
    to false. *)
Theorem C5_counted_matcher
    (m : Nostr.ReqFilterEventMatcher) (event : Nostr.Event) (events : list Nostr.Event)
    (fc : Main.FilterCounter) (mevent : Main.Event) (mevents : list Main.Event) :
  NostrFacts.keys_ok (Nostr.f m) ->
  0 <= Nostr.cnt m ->
  Nostr.cnt m + Z.of_nat (length events) < int64_max ->
  (Nostr.Match m event = Some (NostrFacts.matchSpec (Nostr.f m) event) /\
   Nostr.CountMatch m event =
     Some (NostrFacts.matchSpec (Nostr.f m) event, CountFacts.step m event) /\
   Nostr.f (CountFacts.step m event) = Nostr.f m /\
   Nostr.cnt (CountFacts.step m event) =
     (if NostrFacts.matchSpec (Nostr.f m) event then Nostr.cnt m + 1 else Nostr.cnt m) /\
   (Nostr.Done m = true <->
    exists limit, Nostr.fLimit (Nostr.f m) = Some limit /\ limit <= Nostr.cnt m) /\
   (exists m', CountFacts.run m events = Some m' /\
               (Nostr.Done m = true -> Nostr.Done m' = true))) /\
  ((Main.Done fc = false ->
    Main.CounterMatch fc mevent =
      (Main.Match (Some (Main.Filter_ fc)) mevent,
       if Main.Match (Some (Main.Filter_ fc)) mevent
       then {| Main.Filter_ := Main.Filter_ fc;
               Main.count := wrap_int64 (Main.count fc + 1) |}
       else fc)) /\
   (Main.Done fc = true -> Main.CounterMatch fc mevent = (false, fc)) /\
   (Main.Done fc = true <->
    exists limit, Main.Limit (Main.FilterJSON_ (Main.Filter_ fc)) = Some limit /\
                  limit <= Main.count fc) /\
   (Main.Done fc = true -> Main.Done (MainFacts.counterRun fc mevents) = true)).
Proof.
  intros Hk Hlo Hhi. split.
  - split; [by apply NostrFacts.Match_pure|]. split; [by apply CountFacts.CountMatch_pure|].
    split; [apply CountFacts.f_step|]. split; [|split].
    + rewrite CountFacts.cnt_step.
      destruct (NostrFacts.matchSpec (Nostr.f m) event); [|done].
      apply wrap_int64_small. unfold int64_min, int64_max in *. lia.
    + apply CountFacts.Done_iff.
    + destruct (CountFacts.run_pure events m Hk) as (m' & Hrun & Hf & Hc).
      * unfold int64_min. lia.
      * lia.
      * exists m'. split; [done|]. apply CountFacts.Done_mono; [done | lia].
  - split; [apply MainFacts.CounterMatch_not_done|].
    split; [apply MainFacts.CounterMatch_done|].
    split; [apply MainFacts.CounterDone_iff|].
    apply MainFacts.counterRun_Done_stays.
Qed.

(** The matcher of [{"#e": ["abc"]}] before its first call, and two events. *)
Lemma C5_witness :
  Nostr.CountMatch {| Nostr.cnt := 0; Nostr.f := etagFilter |} bareTagEvent =
    Some (NostrFacts.matchSpec etagFilter bareTagEvent,
          CountFacts.step {| Nostr.cnt := 0; Nostr.f := etagFilter |} bareTagEvent).
Proof.
  apply (C5_counted_matcher {| Nostr.cnt := 0; Nostr.f := etagFilter |} bareTagEvent
           [bareTagEvent; bareTagEvent]
           (Main.NewFilterCounter limitOneFilter) testMainEvent [testMainEvent]).
  - unfold NostrFacts.keys_ok. cbn. apply map_Forall_singleton. by eexists.
  - cbn. lia.
  - vm_compute. reflexivity.
Defined.

(** C9.  A cache of capacity at least 1, from [newRandCache], after any
    sequence of [Set] and [Get], whatever entry each eviction picks: the
    number of entries is at most the capacity.  And in any cache, [Set] on
    a key that is present returns false and returns the cache as it was,
    so [Get] still yields the value stored before. *)
Theorem C9_randCache_bounded_and_Set_keeps_present_key
    (K V : Type) `{Countable K} (zeroK : K) (capacity : Z)
    (ops : list (@RandCache.op K V)) :
  1 <= capacity ->
  Z.of_nat (size (RandCache.c (RandCache.run zeroK (RandCache.newRandCache capacity) ops)))
    <= capacity /\
  (forall (cache : @RandCache.randCache K V _ _) (key : K) (value old : V) (pick : nat),
     RandCache.Get cache key = Some old ->
     RandCache.Set_ zeroK cache key value pick = (false, cache) /\
     RandCache.Get (RandCache.Set_ zeroK cache key value pick).2 key = Some old).
Proof.
  intros Hcap. split.
  - pose proof (RandCache.run_size zeroK ops (RandCache.newRandCache capacity)) as Hr.
    cbn [RandCache.Cap RandCache.newRandCache] in Hr. apply Hr; [done|].
    cbn [RandCache.c RandCache.newRandCache]. rewrite map_size_empty. lia.
  - intros cache key value old pick Hget. unfold RandCache.Get in *.
    rewrite (RandCache.Set_present zeroK cache key value old pick Hget). done.
Qed.

(** A cache of capacity 2 after three insertions and a lookup. *)
Lemma C9_witness :
  Z.of_nat (size (RandCache.c
    (RandCache.run 0 (RandCache.newRandCache 2)
       [RandCache.OpSet 1 "a" 0%nat; RandCache.OpSet 2 "b" 7%nat;
        RandCache.OpSet 3 "c" 1%nat; RandCache.OpGet 1]))) <= 2.
Proof.
  apply (C9_randCache_bounded_and_Set_keeps_present_key Z string 0 2
           [RandCache.OpSet 1 "a" 0%nat; RandCache.OpSet 2 "b" 7%nat;
            RandCache.OpSet 3 "c" 1%nat; RandCache.OpGet 1]).
  lia.
Defined.

End Claims.

(** ** Concrete inputs for the further properties *)

Module CoverageInputs.

(** A ring buffer of integers of capacity 2, new and after two
    [Enqueue]s. *)
Definition newBuffer : @RingBuffer.ringBuffer Z :=
  {| RingBuffer.Cap := 2; RingBuffer.s := [0; 0];
     RingBuffer.head := 0; RingBuffer.tail := 0 |}.

Definition fullBuffer : @RingBuffer.ringBuffer Z :=
  {| RingBuffer.Cap := 2; RingBuffer.s := [7; 8];
     RingBuffer.head := 0; RingBuffer.tail := 2 |}.

Definition twoEnqueues : list (@RingBufferFacts.qop Z) :=
  [RingBufferFacts.OpEnqueue 7; RingBufferFacts.OpEnqueue 8].

(** A cache of capacity 1 that holds one entry. *)
Definition fullCache : @RandCache.randCache Z string _ _ :=
  {| RandCache.Cap := 1; RandCache.c := {[ 1 := "a" ]} |}.

(** An event whose id is the hexadecimal form of its content, for the
    stand-ins below. *)
Definition signedEventJSON : Main.EventJSON :=
  {| Main.ID := "706f7761";
     Main.Pubkey := "dbf0becf24bf8dd7d779d7fb547e6112964ff042b77a42cc2d8488636eed9f5e";
     Main.CreatedAt := 1693157791;
     Main.Kind := 1;
     Main.Tags := [];
     Main.Content := "powa";
     Main.Sig := "00";
     Main.Raw := "" |}.

(** Stand-ins for the collaborators of the relay on which verification
    succeeds: the serialization of an event is its content, the hash of a
    string is the string, every key and signature parses, every signature
    verifies, the cache is a list, the router delivers nothing. *)
Definition contentOf (e : Main.EventJSON) : option string := Some (Main.Content e).
Definition sameString (ser : string) : string := ser.
Definition anyParses (bin : string) : option unit := Some tt.
Definition anyVerifies (sig : unit) (hash : string) (key : unit) : bool := true.
Definition saveToList (e : Main.Event) (w : list Main.Event) : list Main.Event := e :: w.
Definition publishNothing (e : Main.Event) (w : list Main.Event)
    (queued : list Relay.ServerMsg) : list Main.Event * list Relay.ServerMsg * bool :=
  (w, queued, false).

(** The clock one second after the event's [created_at]. *)
Definition clock : Z := 1693157792 * 1000000000.

Definition emptyState : Relay.State (list Main.Event) :=
  {| Relay.world := []; Relay.sender := []; Relay.promEventCounter := 0 |}.

(** An encoder that fails, for the error path of [CheckClientMsg]. *)
Definition marshalFails (ev : Mocrelay.Event) : option string := None.

Definition testEventMsg : MocrelayCheck.ClientMsg :=
  MocrelayCheck.ofClientEventMsg
    (Some {| MocrelayCheck.Event_ := Some (ValidFacts.testEvent 1) |}).

(** The members of [{"ids": ["ab"], "#e": ["cd"], "since": 10}]. *)
Definition filterMembers : list (string * json) :=
  [("ids", JArray [JString "ab"]); ("#e", JArray [JString "cd"]);
   ("since", JNumber "10")].

(** [["REQ", "sub", {"ids": ["ab"], "since": 10}, null]] and the message
    it parses to. *)
Definition reqValue : json :=
  JArray [JString "REQ"; JString "sub";
          JObject [("ids", JArray [JString "ab"]); ("since", JNumber "10")]; JNull].

Definition reqMsg : MocrelayCheck.ClientReqMsg :=
  {| MocrelayCheck.ReqSubscriptionID := "sub";
     MocrelayCheck.ReqFilters :=
       [Some {| Mocrelay.fIDs := Some ["ab"]; Mocrelay.fAuthors := None;
                Mocrelay.fKinds := None; Mocrelay.fTags := None;
                Mocrelay.fSince := Some 10; Mocrelay.fUntil := None;
                Mocrelay.fLimit := None |};
        None] |}.

Definition zeroReqMsg : MocrelayCheck.ClientReqMsg :=
  {| MocrelayCheck.ReqSubscriptionID := ""; MocrelayCheck.ReqFilters := [] |}.

Definition zeroCountMsg : MocrelayCheck.ClientCountMsg :=
  {| MocrelayCheck.CountSubscriptionID := ""; MocrelayCheck.CountReqFilters := [] |}.

Definition zeroCloseMsg : MocrelayCheck.ClientCloseMsg :=
  {| MocrelayCheck.CloseSubscriptionID := "" |}.

Definition zeroAuthMsg : MocrelayCheck.ClientAuthMsg :=
  {| MocrelayCheck.Challenge := "" |}.

Definition zeroEventMsg : MocrelayCheck.ClientEventMsg :=
  {| MocrelayCheck.Event_ := None |}.

End CoverageInputs.

(** ** Further properties of the code *)

Module Coverage.
Import Inputs CoverageInputs.

(** *** The ring buffer *)

Section RingBufferProperties.
Import RingBuffer RingBufferFacts.
Context {T : Type}.
Variable zeroT : T.

(** X1 (ringBuffer: newRingBuffer, Enqueue, Dequeue, Swap, Len, At).  A
    buffer made with a positive capacity, under fewer than 2^63 calls of
    [Enqueue], [Dequeue] and [Swap], does what a first-in-first-out queue
    of at most [capacity] elements does: a call panics exactly when the
    queue refuses it ([Enqueue] on [capacity] elements, [Dequeue] on none,
    [Swap] out of range), every [Dequeue] returns the oldest element, and
    afterwards [Len] is the number of elements and [At(i)] the [i]-th
    newest one, a panic for [i] out of range. *)
Theorem X1_ringBuffer_is_a_bounded_queue (capacity : Z) (ops : list qop) :
  0 < capacity ->
  Z.of_nat (length ops) < int64_max ->
  exists rb0,
    newRingBuffer zeroT capacity = Some rb0 /\
    match runQueue capacity [] ops with
    | None => runOps zeroT rb0 ops = None
    | Some (out, q) =>
        exists rb,
          runOps zeroT rb0 ops = Some (out, rb) /\
          Len rb = len q /\
          forall i, At rb i =
                      if (0 <=? i) && (i <? len q) then reverse q !! Z.to_nat i else None
    end.
Proof.
  intros Hc Hlen. destruct (new_Holds zeroT capacity Hc) as (rb0 & Hnew & HH0 & Hc0).
  exists rb0. split; [done|].
  pose proof (runOps_Holds zeroT ops rb0 [] HH0) as HR. rewrite Hc0 in HR.
  assert (tail rb0 = 0) as Ht0.
  { unfold newRingBuffer in Hnew. destruct (capacity <=? 0); [done|]. by injection Hnew as <-. }
  rewrite Ht0 in HR. specialize (HR Hlen).
  destruct (runQueue capacity [] ops) as [[out q]|]; [|done].
  destruct HR as (rb & Hrun & HH & _). exists rb. split; [done|].
  split; [by apply Len_Holds|]. intros i. by apply At_Holds.
Qed.

(** X2 (ringBuffer.Swap, ringBuffer.idx).  On a buffer reached from a new
    one by fewer than 2^63 calls, [Swap(i, j)] with both indices in range
    exchanges the [i]-th and the [j]-th newest element and leaves every
    other element and [Len] as they were; with an index out of range it
    panics. *)
Theorem X2_Swap_exchanges_two_elements (capacity : Z) (ops : list qop)
    (rb0 rb : ringBuffer) (out : list T) (i j : Z) :
  newRingBuffer zeroT capacity = Some rb0 ->
  runOps zeroT rb0 ops = Some (out, rb) ->
  Z.of_nat (length ops) < int64_max ->
  if (0 <=? i) && (i <? Len rb) && (0 <=? j) && (j <? Len rb)
  then exists rb',
         Swap rb i j = Some rb' /\
         Len rb' = Len rb /\
         At rb' i = At rb j /\
         At rb' j = At rb i /\
         forall k, k <> i -> k <> j -> At rb' k = At rb k
  else Swap rb i j = None.
Proof.
  intros Hnew Hrun Hlen.
  destruct (reached_Holds zeroT capacity ops rb0 rb out Hnew Hrun Hlen) as (q & _ & HH & _).
  pose proof (Swap_Holds rb q i j HH) as HS. rewrite (Len_Holds rb q HH).
  destruct (Z.leb_spec 0 i), (Z.ltb_spec i (len q)), (Z.leb_spec 0 j), (Z.ltb_spec j (len q));
    cbn [andb] in *; try done.
  destruct HS as (rb' & a & b & xa & xb & -> & -> & Ha & Hb & HS & HH' & _).
  exists rb'. split; [done|]. unfold len in *.
  split; [rewrite (Len_Holds rb' _ HH'); unfold len; by rewrite !length_insert|].
  assert (forall k, At rb' k =
            if (0 <=? k) && (k <? Z.of_nat (length q))
            then (<[(length q - S (Z.to_nat j))%nat := xa]>
                    (<[(length q - S (Z.to_nat i))%nat := xb]> q))
                   !! (length q - S (Z.to_nat k))%nat
            else None) as Hat'.
  { intros k. rewrite (At_Holds rb' _ k HH'). unfold len. rewrite !length_insert.
    destruct (Z.leb_spec 0 k), (Z.ltb_spec k (Z.of_nat (length q))); cbn [andb]; try done.
    rewrite reverse_lookup by (rewrite !length_insert; lia). by rewrite !length_insert. }
  assert (forall k, At rb k =
            if (0 <=? k) && (k <? Z.of_nat (length q))
            then q !! (length q - S (Z.to_nat k))%nat
            else None) as Hat.
  { intros k. rewrite (At_Holds rb _ k HH). unfold len.
    destruct (Z.leb_spec 0 k), (Z.ltb_spec k (Z.of_nat (length q))); cbn [andb]; try done.
    by rewrite reverse_lookup by lia. }
  split; [|split].
  - rewrite Hat', Hat.
    destruct (Z.leb_spec 0 i), (Z.ltb_spec i (Z.of_nat (length q))); try lia.
    destruct (Z.leb_spec 0 j), (Z.ltb_spec j (Z.of_nat (length q))); try lia. cbn [andb].
    rewrite Hb. destruct (decide (i = j)) as [->|Hne].
    + rewrite list_lookup_insert_eq by (rewrite length_insert; lia). congruence.
    + rewrite list_lookup_insert_ne by lia. apply list_lookup_insert_eq. lia.
  - rewrite Hat', Hat.
    destruct (Z.leb_spec 0 i), (Z.ltb_spec i (Z.of_nat (length q))); try lia.
    destruct (Z.leb_spec 0 j), (Z.ltb_spec j (Z.of_nat (length q))); try lia. cbn [andb].
    rewrite Ha. apply list_lookup_insert_eq. rewrite length_insert. lia.
  - intros k Hki Hkj. rewrite Hat', Hat.
    destruct (Z.leb_spec 0 k), (Z.ltb_spec k (Z.of_nat (length q))); cbn [andb]; try done.
    rewrite !list_lookup_insert_ne by lia. done.
Qed.

(** X3 (ringBuffer.IdxFunc).  On a buffer reached from a new one by fewer
    than 2^63 calls, [IdxFunc(f)] does not panic; it returns the least index [r] whose
    element satisfies [f], counting from the newest element, and -1 when
    no element of the buffer satisfies [f]. *)
Theorem X3_IdxFunc_finds_the_newest_match (capacity : Z) (ops : list qop)
    (rb0 rb : ringBuffer) (out : list T) (f : T -> bool) :
  newRingBuffer zeroT capacity = Some rb0 ->
  runOps zeroT rb0 ops = Some (out, rb) ->
  Z.of_nat (length ops) < int64_max ->
  exists r,
    IdxFunc rb f = Some r /\
    ((r = -1 /\ forall i x, At rb i = Some x -> f x = false) \/
     (0 <= r < Len rb /\
      (exists x, At rb r = Some x /\ f x = true) /\
      forall i x, 0 <= i < r -> At rb i = Some x -> f x = false)).
Proof.
  intros Hnew Hrun Hlen.
  destruct (reached_Holds zeroT capacity ops rb0 rb out Hnew Hrun Hlen) as (q & _ & HH & _).
  rewrite (IdxFunc_Holds rb q f HH), (Len_Holds rb q HH). eexists. split; [done|].
  assert (forall i, At rb i =
            if (0 <=? i) && (i <? len q) then reverse q !! Z.to_nat i else None) as Hat
    by (intros i; by apply At_Holds).
  destruct (proj2 (firstIndex_spec f (reverse q) 0) ltac:(lia))
    as [[Hr Hall]|(k & x & Hr & Hk & Hx & Hbefore)].
  - left. split; [done|]. intros i x Hi. rewrite Hat in Hi.
    destruct ((0 <=? i) && (i <? len q)); [|done].
    rewrite Forall_forall in Hall. apply Hall. by eapply list_elem_of_lookup_2.
  - right. rewrite Hr. pose proof (lookup_lt_Some _ _ _ Hk) as Hklt.
    rewrite length_reverse in Hklt. unfold len.
    split; [lia|]. split.
    + exists x. split; [|done]. rewrite Hat. unfold len.
      destruct (Z.leb_spec 0 (0 + Z.of_nat k)), (Z.ltb_spec (0 + Z.of_nat k) (Z.of_nat (length q)));
        try lia. cbn [andb]. by rewrite Z.add_0_l, Nat2Z.id.
    + intros i y Hi Hy. rewrite Hat in Hy.
      destruct ((0 <=? i) && (i <? len q)); [|done].
      apply (Hbefore (Z.to_nat i) y); [lia | done].
Qed.

End RingBufferProperties.

(** A buffer of capacity 2 under two [Enqueue]s and a [Dequeue]. *)
Lemma X1_witness :
  exists rb0,
    RingBuffer.newRingBuffer 0 2 = Some rb0 /\
    exists rb,
      RingBufferFacts.runOps 0 rb0 (twoEnqueues ++ [RingBufferFacts.OpDequeue]) =
        Some ([7], rb) /\
      RingBuffer.Len rb = 1 /\
      forall i, RingBuffer.At rb i =
                  if (0 <=? i) && (i <? 1) then [8] !! Z.to_nat i else None.
Proof.
  refine (@X1_ringBuffer_is_a_bounded_queue Z 0 2
            (twoEnqueues ++ [RingBufferFacts.OpDequeue]) _ _);
    [lia | reflexivity].
Defined.

(** The two elements of a full buffer of capacity 2, exchanged. *)
Lemma X2_witness :
  exists rb',
    RingBuffer.Swap fullBuffer 0 1 = Some rb' /\
    RingBuffer.Len rb' = RingBuffer.Len fullBuffer /\
    RingBuffer.At rb' 0 = RingBuffer.At fullBuffer 1 /\
    RingBuffer.At rb' 1 = RingBuffer.At fullBuffer 0 /\
    forall k, k <> 0 -> k <> 1 -> RingBuffer.At rb' k = RingBuffer.At fullBuffer k.
Proof.
  refine (@X2_Swap_exchanges_two_elements Z 0 2 twoEnqueues newBuffer fullBuffer [] 0 1
            _ _ _); reflexivity.
Defined.

(** The search for 7, the older of the two elements. *)
Lemma X3_witness :
  exists r,
    RingBuffer.IdxFunc fullBuffer (fun v => v =? 7) = Some r /\
    ((r = -1 /\ forall i x, RingBuffer.At fullBuffer i = Some x -> (x =? 7) = false) \/
     (0 <= r < RingBuffer.Len fullBuffer /\
      (exists x, RingBuffer.At fullBuffer r = Some x /\ (x =? 7) = true) /\
      forall i x, 0 <= i < r -> RingBuffer.At fullBuffer i = Some x -> (x =? 7) = false)).
Proof.
  refine (@X3_IdxFunc_finds_the_newest_match Z 0 2 twoEnqueues newBuffer fullBuffer []
            (fun v => v =? 7) _ _ _); reflexivity.
Defined.


(** *** The random-evict cache *)

Section RandCacheProperties.
Import RandCache RandCacheFacts.
Context {K V : Type} `{Countable K}.
Variable zeroK : K.

(** X4 (randCache.Get, newRandCache, randCache.Set).  A new cache finds no
    key.  [Get(key)] right after [Set(key, value)] always finds the key:
    with [value] when the key was absent, with the value stored before
    when it was present. *)
Theorem X4_Get_finds_what_Set_stored (capacity : Z) (cache : randCache) (key : K)
    (value : V) (pick : nat) :
  Get (V:=V) (newRandCache capacity) key = None /\
  Get (Set_ zeroK cache key value pick).2 key =
    Some (default value (Get cache key)).
Proof.
  split; [apply lookup_empty|]. rewrite Get_Set. by destruct (Get cache key).
Qed.

(** X5 (randCache.Set).  [Set] of an absent key into a cache with fewer
    than [Cap] entries adds the entry and evicts nothing: every other key
    is found as before. *)
Theorem X5_Set_below_capacity_keeps_every_entry (cache : randCache) (key : K)
    (value : V) (pick : nat) :
  Get cache key = None ->
  Z.of_nat (size (c cache)) < Cap cache ->
  (Set_ zeroK cache key value pick).1 = true /\
  size (c (Set_ zeroK cache key value pick).2) = S (size (c cache)) /\
  forall k', Get (Set_ zeroK cache key value pick).2 k' =
               if decide (k' = key) then Some value else Get cache k'.
Proof.
  intros Hk Hroom. split; [|split].
  - unfold Set_, Get in *. by rewrite Hk.
  - unfold Set_, Get in *. rewrite Hk. cbn [snd c].
    destruct (Z.geb_spec (Z.of_nat (size (c cache))) (Cap cache)); [lia|].
    by apply map_size_insert_None.
  - intros k'. by apply Set_room.
Qed.

(** X6 (randCache.Set).  [Set] of an absent key into a cache that holds
    [Cap] entries or more (and at least one) evicts exactly one entry, the
    one the map iteration yields first: the number of entries stays the
    same, the victim is no longer found, the new key is found with its
    value, and every other key is found as before. *)
Theorem X6_Set_at_capacity_evicts_one_entry (cache : randCache) (key : K)
    (value : V) (pick : nat) :
  Get cache key = None ->
  Z.of_nat (size (c cache)) >= Cap cache ->
  (1 <= size (c cache))%nat ->
  exists victim old,
    Get cache victim = Some old /\ victim <> key /\
    size (c (Set_ zeroK cache key value pick).2) = size (c cache) /\
    forall k', Get (Set_ zeroK cache key value pick).2 k' =
                 if decide (k' = key) then Some value
                 else if decide (k' = victim) then None
                 else Get cache k'.
Proof.
  intros Hk Hfull Hsize. apply Set_full; try done.
  apply map_size_non_empty_iff. lia.
Qed.

(** X7 (newRandCache, randCache.Set).  [newRandCache] takes a capacity
    that is not positive as it is.  Such a cache never holds more than
    one entry, and a [Set] that adds a key leaves that key as the only
    entry: whatever was stored is evicted, and the cache holds one entry
    although [Cap] allows none. *)
Theorem X7_cache_without_capacity_holds_one_entry (capacity : Z) (ops : list (@op K V))
    (key : K) (value : V) (pick : nat) :
  capacity <= 0 ->
  let cache := run zeroK (newRandCache capacity) ops in
  (size (c cache) <= 1)%nat /\
  (Get cache key = None ->
   Set_ zeroK cache key value pick =
     (true, {| Cap := capacity; c := {[key := value]} |})).
Proof.
  intros Hcap cache.
  assert (Cap cache = capacity) as HC by (unfold cache; by rewrite run_Cap).
  assert (size (c cache) <= 1)%nat as Hsize.
  { unfold cache. apply run_no_capacity; cbn; [done|]. rewrite map_size_empty. lia. }
  split; [done|]. intros Hk. rewrite <- HC. apply Set_no_capacity; [lia | done | done].
Qed.

End RandCacheProperties.

(** A first entry in a new cache of capacity 2. *)
Lemma X5_witness :
  (RandCache.Set_ 0 (RandCache.newRandCache 2) 1 "a" 0%nat).1 = true /\
  size (RandCache.c (RandCache.Set_ 0 (RandCache.newRandCache 2) 1 "a" 0%nat).2) =
    S (size (RandCache.c (RandCache.newRandCache (K:=Z) (V:=string) 2))) /\
  forall k', RandCache.Get (RandCache.Set_ 0 (RandCache.newRandCache 2) 1 "a" 0%nat).2 k' =
               if decide (k' = 1) then Some "a"
               else RandCache.Get (RandCache.newRandCache 2) k'.
Proof.
  refine (@X5_Set_below_capacity_keeps_every_entry Z string _ _ 0
            (RandCache.newRandCache 2) 1 "a" 0%nat _ _); reflexivity.
Defined.

(** A second key into a cache of capacity 1 that holds one. *)
Lemma X6_witness :
  exists victim old,
    RandCache.Get fullCache victim = Some old /\ victim <> 2 /\
    size (RandCache.c (RandCache.Set_ 0 fullCache 2 "b" 0%nat).2) =
      size (RandCache.c fullCache) /\
    forall k', RandCache.Get (RandCache.Set_ 0 fullCache 2 "b" 0%nat).2 k' =
                 if decide (k' = 2) then Some "b"
                 else if decide (k' = victim) then None
                 else RandCache.Get fullCache k'.
Proof.
  refine (@X6_Set_at_capacity_evicts_one_entry Z string _ _ 0 fullCache 2 "b" 0%nat _ _ _);
    [reflexivity | vm_compute; discriminate | vm_compute; lia].
Defined.

(** A cache of capacity 0 after one [Set]. *)
Lemma X7_witness :
  (size (RandCache.c (RandCache.run 0 (RandCache.newRandCache 0)
                        [RandCache.OpSet 1 "a" 0%nat])) <= 1)%nat.
Proof.
  refine (proj1 (@X7_cache_without_capacity_holds_one_entry Z string _ _ 0 0
                   [RandCache.OpSet 1 "a" 0%nat] 2 "b" 0%nat _)).
  lia.
Defined.


(** *** The skip list *)

Section SkipListProperties.
Import SkipList SkipListFacts.
Context {K V : Type}.
Variable zeroK : K.
Variable zeroV : V.
Variable Cmp : K -> K -> Z.

Hypothesis Cmp_eq : forall a b, Cmp a b = 0 <-> a = b.
Hypothesis Cmp_flip : forall a b, Cmp a b < 0 <-> 0 < Cmp b a.
Hypothesis Cmp_trans : forall a b c, Cmp a b < 0 -> Cmp b c < 0 -> Cmp a c < 0.

(** X8 (skipList.Delete, tryDelete, tryDeleteRemove).  On a list reached
    from a new one by [Add]s and [Delete]s, used by one goroutine, and for
    a key [k] other than the zero value of the key type: [Delete(k)]
    returns true exactly when [Find(k)] finds the key; afterwards
    [Find(k)] finds nothing; a [Delete] that returns false leaves the list
    as it was; [Len] goes down by one exactly when it returns true; and
    every other key that is not the zero value either is found with the
    same value as before. *)
Theorem X8_Delete_removes_the_key_and_nothing_else (draws : nat -> Z) (ops : list call)
    (k : K) (fuel : nat) :
  (S (length ops) < fuel)%nat ->
  Cmp zeroK k <> 0 ->
  exists rs l,
    performAll Cmp fuel (newSkipList zeroK zeroV draws) ops = Some (rs, l) /\
    exists deleted l',
      Delete Cmp 1 fuel l k = Some (deleted, l') /\
      (deleted = false <-> Find Cmp fuel l k = Some None) /\
      Find Cmp fuel l' k = Some None /\
      (deleted = false -> l' = l) /\
      Len l' = wrap_int64 (Len l - if deleted then 1 else 0) /\
      forall k', Cmp zeroK k' <> 0 -> Cmp k k' <> 0 ->
                 Find Cmp fuel l' k' = Find Cmp fuel l k'.
Proof.
  intros Hfuel Hz.
  destruct (performAll_spec zeroK zeroV Cmp Cmp_eq Cmp_flip Cmp_trans fuel ops
              (newSkipList zeroK zeroV draws) [] (Model_new zeroK zeroV Cmp draws))
    as (rs & l & xs & Hrun & Hrs & HM & Hle & Hlen); [cbn [length]; lia|].
  cbn [length] in Hle. exists rs, l. split; [done|].
  pose proof (model_len _ _ _ _ _ HM) as HLen. unfold Len.
  assert (forall k', Cmp zeroK k' <> 0 -> Find Cmp fuel l k' = Some (lookup_key Cmp k' xs)) as HF.
  { intros k' Hz'.
    apply (Find_spec zeroK zeroV Cmp Cmp_eq Cmp_flip Cmp_trans l xs k' fuel); try done.
    - apply HM.
    - lia. }
  pose proof (Delete_spec zeroK zeroV Cmp Cmp_eq Cmp_flip Cmp_trans l xs k 0 fuel HM) as HD.
  rewrite (HF k Hz).
  destruct (lookup_key Cmp k xs) as [w|] eqn:Hlk.
  - destruct HD as (l' & xs' & HD & HM' & Hlen' & Hlk'); [lia|].
    exists true, l'. split; [done|]. split; [done|].
    assert (forall k', Cmp zeroK k' <> 0 ->
              Find Cmp fuel l' k' = Some (lookup_key Cmp k' xs')) as HF'.
    { intros k' Hz'.
      apply (Find_spec zeroK zeroV Cmp Cmp_eq Cmp_flip Cmp_trans l' xs' k' fuel); try done.
      - apply HM'.
      - lia. }
    split.
    + rewrite (HF' k Hz), Hlk'.
      rewrite (proj2 (Cmp_eq k k) eq_refl). done.
    + split; [done|]. split.
      * rewrite (model_len _ _ _ _ _ HM'), HLen, <- Z.add_opp_r, wrap_int64_add. f_equal. lia.
      * intros k' Hz' Hne. rewrite (HF' k' Hz'), (HF k' Hz'), Hlk'.
        destruct (Z.eqb_spec (Cmp k k') 0); [congruence | done].
  - exists false, l. split; [apply HD; lia|]. split; [done|].
    split; [by rewrite (HF k Hz), Hlk|].
    split; [done|]. split; [|done].
    rewrite Z.sub_0_r, HLen. symmetry. apply wrap_int64_small. apply wrap_int64_range.
Qed.

(** X9 (skipList.Add, tryAdd, tryAddInsert).  On a list reached from a
    new one by [Add]s and [Delete]s, used by one goroutine, [Add(k, v)]
    of any key, the zero value included, returns after one attempt and
    leaves every other key (other than the zero value) found with the
    same value as before. *)
Theorem X9_Add_leaves_the_other_keys (draws : nat -> Z) (ops : list call)
    (k : K) (v : V) (fuel : nat) :
  (S (length ops) < fuel)%nat ->
  exists rs l added l',
    performAll Cmp fuel (newSkipList zeroK zeroV draws) ops = Some (rs, l) /\
    Add Cmp 1 fuel l k v = Some (added, l') /\
    forall k', Cmp zeroK k' <> 0 -> Cmp k k' <> 0 ->
               Find Cmp fuel l' k' = Find Cmp fuel l k'.
Proof.
  intros Hfuel.
  destruct (performAll_spec zeroK zeroV Cmp Cmp_eq Cmp_flip Cmp_trans fuel ops
              (newSkipList zeroK zeroV draws) [] (Model_new zeroK zeroV Cmp draws))
    as (rs & l & xs & Hrun & Hrs & HM & Hle & Hlen); [cbn [length]; lia|].
  cbn [length] in Hle. exists rs, l.
  assert (forall k', Cmp zeroK k' <> 0 -> Find Cmp fuel l k' = Some (lookup_key Cmp k' xs)) as HF.
  { intros k' Hz'.
    apply (Find_spec zeroK zeroV Cmp Cmp_eq Cmp_flip Cmp_trans l xs k' fuel); try done.
    - apply HM.
    - lia. }
  pose proof (Add_spec zeroK zeroV Cmp Cmp_eq Cmp_flip Cmp_trans l xs k v 0 fuel HM) as HA.
  destruct (lookup_key Cmp k xs) as [w|] eqn:Hlk.
  - exists false, l. split; [done|]. split; [apply HA; lia | done].
  - destruct HA as (l' & xs' & HA & HM' & Hlen' & Hlk'); [lia|].
    exists true, l'. split; [done|]. split; [done|].
    intros k' Hz' Hne. rewrite (HF k' Hz').
    rewrite (Find_spec zeroK zeroV Cmp Cmp_eq Cmp_flip Cmp_trans l' xs' k' fuel);
      [| apply HM' | done | lia].
    rewrite Hlk'. destruct (Z.eqb_spec (Cmp k k') 0); [congruence | done].
Qed.

End SkipListProperties.

(** [Delete(1)] on the list of integers that holds the key 1. *)
Lemma X8_witness :
  exists rs l,
    SkipListFacts.performAll compareInt 5 (SkipList.newSkipList 0 "" lowDraws)
      [SkipListFacts.CallAdd 1 "a"] = Some (rs, l) /\
    exists deleted l',
      SkipList.Delete compareInt 1 5 l 1 = Some (deleted, l') /\
      (deleted = false <-> SkipList.Find compareInt 5 l 1 = Some None) /\
      SkipList.Find compareInt 5 l' 1 = Some None /\
      (deleted = false -> l' = l) /\
      SkipList.Len l' = wrap_int64 (SkipList.Len l - if deleted then 1 else 0) /\
      forall k', compareInt 0 k' <> 0 -> compareInt 1 k' <> 0 ->
                 SkipList.Find compareInt 5 l' k' = SkipList.Find compareInt 5 l k'.
Proof.
  refine (@X8_Delete_removes_the_key_and_nothing_else Z string 0 "" compareInt
            SkipListInt.compareInt_eq SkipListInt.compareInt_flip SkipListInt.compareInt_trans
            lowDraws [SkipListFacts.CallAdd 1 "a"] 1 5%nat _ _);
    [cbn; lia | vm_compute; discriminate].
Defined.

(** [Add(2, "b")] on the list of integers that holds the key 1. *)
Lemma X9_witness :
  exists rs l added l',
    SkipListFacts.performAll compareInt 5 (SkipList.newSkipList 0 "" lowDraws)
      [SkipListFacts.CallAdd 1 "a"] = Some (rs, l) /\
    SkipList.Add compareInt 1 5 l 2 "b" = Some (added, l') /\
    forall k', compareInt 0 k' <> 0 -> compareInt 2 k' <> 0 ->
               SkipList.Find compareInt 5 l' k' = SkipList.Find compareInt 5 l k'.
Proof.
  refine (@X9_Add_leaves_the_other_keys Z string 0 "" compareInt
            SkipListInt.compareInt_eq SkipListInt.compareInt_flip SkipListInt.compareInt_trans
            lowDraws [SkipListFacts.CallAdd 1 "a"] 2 "b" 5%nat _).
  cbn. lia.
Defined.


(** X10 (skipList.newHeight).  Whatever the generator draws, the height
    of a new node is at least 1 and at most [skipListMaxHeight], the
    number of levels of the head and of the search stack. *)
Theorem X10_newHeight_is_between_1_and_16 (n : Z) :
  (1 <= SkipList.heightOf n <= SkipList.skipListMaxHeight)%nat.
Proof. apply SkipListFacts.heightOf_bounds. Qed.

(** *** Filters and counters of req_filter.go *)

Section MainProperties.
Import Main MainFacts MainMatchFacts.

(** X11 (Filter.Match, MatchIDs, MatchAuthors, MatchKinds, MatchPtags of
    req_filter.go).  A nil filter matches every event.  A filter matches
    an event exactly when every entry that is present holds: the event's
    id begins with one of [ids], its pubkey begins with one of [authors],
    its kind is one of [kinds], some ["e"] tag (some ["p"] tag) has a value
    beginning with one of the listed strings, and the event is strictly
    newer than [since] and strictly older than [until].  An entry that is
    absent constrains nothing; an entry that is present and empty matches
    no event. *)
Theorem X11_Filter_Match_is_the_conjunction_of_its_entries (fil : Filter) (event : Event) :
  Match None event = true /\
  (Match (Some fil) event = true <->
   (forall ids, IDs (FilterJSON_ fil) = Some ids -> prefixed (ID (EventJSON_ event)) ids) /\
   (forall ids, Authors (FilterJSON_ fil) = Some ids ->
                prefixed (Pubkey (EventJSON_ event)) ids) /\
   (forall kinds, Kinds (FilterJSON_ fil) = Some kinds -> Kind (EventJSON_ event) ∈ kinds) /\
   (forall ids, Etags (FilterJSON_ fil) = Some ids -> tagged "e" ids event) /\
   (forall ids, Ptags (FilterJSON_ fil) = Some ids -> tagged "p" ids event) /\
   (forall since, Since (FilterJSON_ fil) = Some since ->
                  since < CreatedAt (EventJSON_ event)) /\
   (forall bound, Until (FilterJSON_ fil) = Some bound ->
                  CreatedAt (EventJSON_ event) < bound)) /\
  (IDs (FilterJSON_ fil) = Some [] -> Match (Some fil) event = false).
Proof.
  split; [done|]. split.
  - unfold Match. rewrite !andb_true_iff.
    unfold MatchIDs, MatchAuthors, MatchKinds, MatchEtags, MatchPtags, MatchSince, MatchUntil.
    destruct (IDs (FilterJSON_ fil)) as [ids|], (Authors (FilterJSON_ fil)) as [authors|],
      (Kinds (FilterJSON_ fil)) as [kinds|], (Etags (FilterJSON_ fil)) as [etags|],
      (Ptags (FilterJSON_ fil)) as [ptags|], (Since (FilterJSON_ fil)) as [since|],
      (Until (FilterJSON_ fil)) as [bound|];
      rewrite ?ContainsFunc_prefixed, ?ContainsFunc_kind, ?tag_loops_spec,
        ?Z.gtb_ltb, ?Z.ltb_lt;
      (split;
       [ intros [[[[[[? ?] ?] ?] ?] ?] ?]; repeat split; intros ? [= <-]; done
       | intros (? & ? & ? & ? & ? & ? & ?); repeat split; auto ]).
  - intros Hids. unfold Match, MatchIDs. by rewrite Hids.
Qed.

(** X12 (FilterCounter.Match, FilterCounter.Done, NewFilterCounter,
    Filter.Match).  A counter with limit [limit] accepts exactly the first
    [limit] events that its filter matches, and none when [limit <= 0]:
    after any sequence of [Match] calls on a new counter the count is the
    number of matching events so far, capped at [max(0, limit)], and the
    next call returns true exactly when the event matches and fewer than
    [limit] events have matched so far. *)
Theorem X12_FilterCounter_accepts_the_first_limit_matches (fil : Filter)
    (events : list Event) (limit : Z) (event : Event) :
  Limit (FilterJSON_ fil) = Some limit ->
  limit <= int64_max ->
  let fc := counterRun (NewFilterCounter fil) events in
  count fc = Z.min (matching fil events) (Z.max 0 limit) /\
  (CounterMatch fc event).1 =
    Match (Some fil) event && (matching fil events <? limit).
Proof.
  intros HL Hmax fc.
  pose proof (counterRun_count events (NewFilterCounter fil) limit HL Hmax ltac:(done)) as Hc.
  cbn [NewFilterCounter count Filter_] in Hc. fold fc in Hc.
  pose proof (matching_nonneg fil events) as Hm.
  assert (count fc = Z.min (matching fil events) (Z.max 0 limit)) as Hcount.
  { rewrite Hc. destruct (Z.geb_spec 0 limit); lia. }
  split; [done|].
  assert (Filter_ fc = fil) as Hf by apply counterRun_Filter.
  unfold CounterMatch, Done. rewrite Hf, HL.
  destruct (Z.geb_spec (count fc) limit), (Z.ltb_spec (matching fil events) limit);
    try lia; cbn [fst].
  - by rewrite andb_false_r.
  - rewrite andb_true_r. by destruct (Match (Some fil) event).
Qed.

(** X13 (FiltersCounter.Done, FiltersCounter.Match, NewFiltersCounter).
    [Done] of a set of counters is true exactly when every member is done,
    so it is true of the empty set.  Once the set is done, [Match] returns
    false for every event and changes no counter.  [NewFiltersCounter]
    makes one counter per filter, in order, each with count 0. *)
Theorem X13_FiltersCounter_done_set_matches_nothing (fils : list FilterCounter)
    (filters : list Filter) (event : Event) :
  (FiltersCounterDone fils = true <-> forall fc, fc ∈ fils -> Done fc = true) /\
  (FiltersCounterDone fils = true -> FiltersCounterMatch fils event = (false, fils)) /\
  NewFiltersCounter filters = (fun fil => {| Filter_ := fil; count := 0 |}) <$> filters.
Proof.
  assert (FiltersCounterDone fils = true <-> forall fc, fc ∈ fils -> Done fc = true) as Hall.
  { induction fils as [|fc fils IH]; cbn [FiltersCounterDone].
    - split; [intros _ fc Hin; by apply elem_of_nil in Hin | done].
    - destruct (Done fc) eqn:Hd; cbn [negb].
      + rewrite IH. split.
        * intros Hrest fc' Hin. apply elem_of_cons in Hin as [->|Hin]; auto.
        * intros Hrest fc' Hin. apply Hrest. by apply list_elem_of_further.
      + split; [done|]. intros Hrest. rewrite <- Hd. symmetry. rewrite Hd.
        specialize (Hrest fc (list_elem_of_here _ _)). congruence. }
  split; [done|]. split; [|done].
  intros Hd0. rewrite FiltersCounterMatch_spec. pose proof (proj1 Hall Hd0) as Hd. f_equal.
  - apply not_true_is_false. intros Hex. apply existsb_exists in Hex as (fc & Hin & Hm).
    apply list_elem_of_In in Hin. by rewrite (CounterMatch_done fc event (Hd fc Hin)) in Hm.
  - rewrite <- (list_fmap_id fils) at 2. apply list_fmap_ext.
    intros i fc Hi. rewrite CounterMatch_done; [done|].
    apply Hd. by eapply list_elem_of_lookup_2.
Qed.

(** X14 (NewFiltersFromFilterJSONs, NewFilter of req_filter.go).  A
    request with more than [MaxFilters + 2] filter objects is refused with
    "filter is too long" and no filter; a request within that bound that
    holds a nil filter object is refused with "nil filter" and no filter,
    whatever the other filter objects are. *)
Theorem X14_NewFilters_refuses_long_requests_and_nil_filters (MinPrefix MaxFilters : Z)
    (jsons : list (option FilterJSON)) :
  (len jsons > wrap_int64 (MaxFilters + 2) ->
   NewFiltersFromFilterJSONs MinPrefix MaxFilters jsons = (None, Some ErrFilterTooLong)) /\
  (len jsons <= wrap_int64 (MaxFilters + 2) -> None ∈ jsons ->
   NewFiltersFromFilterJSONs MinPrefix MaxFilters jsons = (None, Some ErrNilFilter)).
Proof.
  unfold NewFiltersFromFilterJSONs. split.
  - intros Hlong. destruct (Z.gtb_spec (len jsons) (wrap_int64 (MaxFilters + 2))); [done | lia].
  - intros Hlen Hin.
    destruct (Z.gtb_spec (len jsons) (wrap_int64 (MaxFilters + 2))); [lia|].
    by apply NewFiltersLoop_nil.
Qed.

End MainProperties.

(** The counter of [{"limit": 1}] after one event. *)
Lemma X12_witness :
  Main.count (MainFacts.counterRun (Main.NewFilterCounter limitOneFilter) [testMainEvent]) =
    Z.min (MainMatchFacts.matching limitOneFilter [testMainEvent]) (Z.max 0 1).
Proof.
  refine (proj1 (X12_FilterCounter_accepts_the_first_limit_matches limitOneFilter
                   [testMainEvent] 1 testMainEvent _ _));
    [reflexivity | vm_compute; discriminate].
Defined.


(** *** Matchers of utils.go *)

Section NostrProperties.
Import Nostr NostrFacts CountFacts MainMatchFacts NostrMatchFacts.

(** X15 (ReqFilterEventMatcher.Match of utils.go).  On a filter whose tag
    keys have at least two bytes, [Match] does not panic, and it returns
    true exactly when every entry that is present holds: the event's id
    begins with one of [ids], its kind is one of [kinds], its pubkey
    begins with one of [authors], every entry of the tag map holds, and
    [since <= created_at <= until].  An absent entry constrains nothing. *)
Theorem X15_Match_is_the_conjunction_of_its_entries (m : ReqFilterEventMatcher)
    (event : Event) :
  keys_ok (f m) ->
  exists r,
    Match m event = Some r /\
    (r = true <->
     (forall ids, fIDs (f m) = Some ids -> prefixed (ID event) ids) /\
     (forall kinds, fKinds (f m) = Some kinds -> Kind event ∈ kinds) /\
     (forall authors, fAuthors (f m) = Some authors -> prefixed (Pubkey event) authors) /\
     (forall tags key vs, fTags (f m) = Some tags -> tags !! key = Some vs ->
                          entry_holds event key vs) /\
     (forall since, fSince (f m) = Some since -> since <= CreatedAt event) /\
     (forall bound, fUntil (f m) = Some bound -> CreatedAt event <= bound)).
Proof.
  intros Hk. exists (matchSpec (f m) event). split; [by apply Match_pure|].
  apply matchSpec_spec.
Qed.

(** X16 (EventCountMatchers.Match, EventCountMatchers.Done).  [Match] of
    a set calls [Match] of every member: it panics when a member does, and
    otherwise returns true exactly when some member matches, so false for
    the empty set.  [Done] of a set is true exactly when every member is
    done, so true for the empty set. *)
Theorem X16_matcher_set_Match_and_Done {T : Type} `{EventCountMatcher T}
    (ms : list T) (event : Event) :
  (MatchSet ms event = None <-> exists mm, mm ∈ ms /\ ecmMatch mm event = None) /\
  (MatchSet ms event = Some true <->
   (forall mm, mm ∈ ms -> ecmMatch mm event <> None) /\
   exists mm, mm ∈ ms /\ ecmMatch mm event = Some true) /\
  (DoneSet ms = true <-> forall mm, mm ∈ ms -> ecmDone mm = true).
Proof.
  unfold MatchSet. rewrite MatchLoop_spec.
  assert (mapM (fun mm => ecmMatch mm event) ms = None <->
          exists mm, mm ∈ ms /\ ecmMatch mm event = None) as Hnone.
  { induction ms as [|mm ms IH]; cbn.
    - split; [done | intros (? & Hin & _); by apply elem_of_nil in Hin].
    - destruct (ecmMatch mm event) as [r|] eqn:Hr; cbn.
      + destruct (mapM _ ms) as [rs|]; cbn.
        * split; [done|]. intros (mm' & Hin & Hm).
          apply elem_of_cons in Hin as [->|Hin]; [congruence|].
          assert (Some rs = None) as Hn by (apply IH; by exists mm').
          done.
        * split; [|done]. intros _. destruct (proj1 IH eq_refl) as (mm' & Hin & Hm).
          exists mm'. split; [by apply list_elem_of_further | done].
      + split; [|done]. intros _. exists mm. split; [apply list_elem_of_here | done]. }
  split; [|split].
  - destruct (mapM _ ms) as [rs|] eqn:Hrs; cbn.
    + split; [done|]. intros Hex. by apply Hnone in Hex.
    + split; [intros _; by apply Hnone | done].
  - destruct (mapM _ ms) as [rs|] eqn:Hrs; cbn.
    + rewrite orb_false_r. apply mapM_Some in Hrs.
      split.
      * intros [= Hex]. split.
        -- intros mm Hin Hm. apply list_elem_of_lookup in Hin as [i Hi].
           destruct (Forall2_lookup_l _ _ _ _ _ Hrs Hi) as (r & _ & Hr). congruence.
        -- apply existsb_exists in Hex as (r & Hin & Hr). unfold id in Hr. subst r.
           apply list_elem_of_In, list_elem_of_lookup in Hin as [i Hi].
           destruct (Forall2_lookup_r _ _ _ _ _ Hrs Hi) as (mm & Hmm & Hr).
           exists mm. split; [by eapply list_elem_of_lookup_2 | done].
      * intros [_ (mm & Hin & Hm)]. f_equal. apply existsb_exists.
        apply list_elem_of_lookup in Hin as [i Hi].
        destruct (Forall2_lookup_l _ _ _ _ _ Hrs Hi) as (r & Hr & Hmr).
        rewrite Hm in Hmr. injection Hmr as <-.
        exists true. split; [|done]. apply list_elem_of_In. by eapply list_elem_of_lookup_2.
    + split; [done|]. intros [Hall _]. destruct (proj1 Hnone eq_refl) as (mm & Hin & Hm).
      by destruct (Hall mm Hin).
  - rewrite DoneSet_spec, forallb_forall. split.
    + intros Hall mm Hin. apply Hall. by apply list_elem_of_In.
    + intros Hall mm Hin. apply Hall. by apply list_elem_of_In.
Qed.

(** X17 (NewReqFilterMatcher, NewReqFiltersEventMatchers).  The
    constructors panic on a nil filter, on a nil slice and on a slice
    that holds a nil filter; otherwise [NewReqFiltersEventMatchers]
    returns one matcher per filter, in order, each around its filter and
    with count 0. *)
Theorem X17_matcher_constructors (filters : list ReqFilter)
    (pointers : list (option ReqFilter)) :
  NewReqFilterMatcher None = None /\
  NewReqFiltersEventMatchers None = None /\
  (None ∈ pointers -> NewReqFiltersEventMatchers (Some pointers) = None) /\
  NewReqFiltersEventMatchers (Some (Some <$> filters)) =
    Some ((fun fl => {| cnt := 0; f := fl |}) <$> filters).
Proof.
  split; [done|]. split; [done|]. split.
  - intros Hin. cbn. induction pointers as [|p ps IH]; [by apply elem_of_nil in Hin|].
    apply elem_of_cons in Hin as [<-|Hin]; [done|].
    cbn. destruct (NewReqFilterMatcher p); cbn; [|done]. by rewrite IH.
  - cbn. induction filters as [|fl fls IH]; cbn; [done|]. by rewrite IH.
Qed.

End NostrProperties.

(** The matcher of [{"#e": ["abc"]}] on an event whose only tag is
    [["e"]]. *)
Lemma X15_witness :
  exists r,
    Nostr.Match {| Nostr.cnt := 0; Nostr.f := etagFilter |} bareTagEvent = Some r /\
    (r = true <->
     (forall ids, Nostr.fIDs etagFilter = Some ids ->
                  MainMatchFacts.prefixed (Nostr.ID bareTagEvent) ids) /\
     (forall kinds, Nostr.fKinds etagFilter = Some kinds -> Nostr.Kind bareTagEvent ∈ kinds) /\
     (forall authors, Nostr.fAuthors etagFilter = Some authors ->
                      MainMatchFacts.prefixed (Nostr.Pubkey bareTagEvent) authors) /\
     (forall tags key vs, Nostr.fTags etagFilter = Some tags -> tags !! key = Some vs ->
                          NostrMatchFacts.entry_holds bareTagEvent key vs) /\
     (forall since, Nostr.fSince etagFilter = Some since ->
                    since <= Nostr.CreatedAt bareTagEvent) /\
     (forall bound, Nostr.fUntil etagFilter = Some bound ->
                    Nostr.CreatedAt bareTagEvent <= bound)).
Proof.
  refine (X15_Match_is_the_conjunction_of_its_entries
            {| Nostr.cnt := 0; Nostr.f := etagFilter |} bareTagEvent _).
  unfold NostrFacts.keys_ok. cbn. apply map_Forall_singleton. by eexists.
Defined.


(** *** The EVENT handler of relay.go and entity.go *)

Section RelayProperties.
Import Main Relay.

Variable Serialize : EventJSON -> option string.
Variable sha256 : string -> string.
Variable PubKey Signature : Type.
Variable ParsePubKey : string -> option PubKey.
Variable ParseSignature : string -> option Signature.
Variable sigVerify : Signature -> string -> PubKey -> bool.
Variable World : Type.
Variable Save : Event -> World -> World.
Variable Publish : Event -> World -> list ServerMsg -> World * list ServerMsg * bool.

Abbreviation Verify := (Verify Serialize sha256 PubKey Signature ParsePubKey ParseSignature sigVerify).
Abbreviation serve := (serveClientEventMsgJSON Serialize sha256 PubKey Signature ParsePubKey
                     ParseSignature sigVerify World Save Publish).

(** X18 (Event.ValidCreatedAt of entity.go).  An event is timely exactly
    when its [created_at], taken as seconds, lies no more than ten minutes
    before and no more than five minutes after the clock; both ends are
    included, to the nanosecond.  The saturation of [time.Until] never
    decides the answer. *)
Theorem X18_ValidCreatedAt_is_a_closed_window (now : Z) (e : Event) :
  ValidCreatedAt now e = true <->
  now - 10 * Minute <= CreatedAt (EventJSON_ e) * 1000000000 <= now + 5 * Minute.
Proof.
  unfold ValidCreatedAt, saturate, Minute, int64_min, int64_max.
  rewrite andb_true_iff, !Z.leb_le. lia.
Qed.

(** X19 (EventJSON.Verify of entity.go).  [Verify] reports [ok] without an
    error exactly when the event is not nil, its id is the hex form of the
    SHA-256 of its serialization, its pubkey and its signature decode and
    parse, and the signature verifies over that hash under that key.  It
    never reports [ok] together with an error. *)
Theorem X19_Verify_accepts_exactly_the_signed_events (e : option EventJSON) :
  (Verify e = (true, false) <->
   exists json ser pKeyBin pKey sigBin sig,
     e = Some json /\
     Serialize json = Some ser /\
     hex_DecodeString (ID json) = Some (sha256 ser) /\
     hex_DecodeString (Pubkey json) = Some pKeyBin /\
     ParsePubKey pKeyBin = Some pKey /\
     hex_DecodeString (Sig json) = Some sigBin /\
     ParseSignature sigBin = Some sig /\
     sigVerify sig (sha256 ser) pKey = true) /\
  Verify e <> (true, true).
Proof.
  split; [split|].
  - unfold Relay.Verify. intros H.
    destruct e as [json|]; [|done].
    destruct (Serialize json) as [ser|] eqn:Hs; [|done].
    destruct (hex_DecodeString (ID json)) as [idBin|] eqn:Hi; [|done].
    destruct (String.eqb_spec (sha256 ser) idBin) as [<-|]; cbn [negb] in H; [|done].
    destruct (hex_DecodeString (Pubkey json)) as [pKeyBin|] eqn:Hp; [|done].
    destruct (ParsePubKey pKeyBin) as [pKey|] eqn:Hpk; [|done].
    destruct (hex_DecodeString (Sig json)) as [sigBin|] eqn:Hg; [|done].
    destruct (ParseSignature sigBin) as [sig|] eqn:Hsg; [|done].
    exists json, ser, pKeyBin, pKey, sigBin, sig.
    repeat split; try done. by injection H.
  - intros (json & ser & pKeyBin & pKey & sigBin & sig
              & -> & Hs & Hi & Hp & Hpk & Hg & Hsg & Hv).
    unfold Relay.Verify. by rewrite Hs, Hi, String.eqb_refl, Hp, Hpk, Hg, Hsg, Hv.
  - unfold Relay.Verify.
    destruct e as [json|]; [|done].
    destruct (Serialize json) as [ser|]; [|done].
    destruct (hex_DecodeString (ID json)) as [idBin|]; [|done].
    destruct (negb _); [done|].
    destruct (hex_DecodeString (Pubkey json)) as [pKeyBin|]; [|done].
    destruct (ParsePubKey pKeyBin) as [pKey|]; [|done].
    destruct (hex_DecodeString (Sig json)) as [sigBin|]; [|done].
    destruct (ParseSignature sigBin) as [sig|]; [|done].
    by destruct (sigVerify _ _ _).
Qed.

(** X20 (serveClientEventMsgJSON of relay.go).  A verified event is counted
    in [promEventCounter] whether or not it is timely.  An untimely one is
    refused with the "invalid created_at" error and is neither saved nor
    published.  A timely one is saved to the cache, then published from
    the cache that holds it; when publishing fails the error is returned
    and the event stays saved. *)
Theorem X20_serve_saves_then_publishes_a_timely_verified_event (now : Z)
    (st : State World) (msg : option EventJSON) :
  Verify msg = (true, false) ->
  exists json,
    msg = Some json /\
    let event := {| EventJSON_ := json; ReceivedAt := now |} in
    if ValidCreatedAt now event
    then exists w queued failed,
           Publish event (Save event (world World st)) (sender World st) =
             (w, queued, failed) /\
           serve now st msg =
             ({| world := w; sender := queued;
                 promEventCounter := promEventCounter World st + 1 |},
              if failed then Some ErrPublish else None)
    else serve now st msg =
           ({| world := world World st; sender := sender World st;
               promEventCounter := promEventCounter World st + 1 |},
            Some ErrInvalidCreatedAt).
Proof.
  intros Hv. destruct msg as [json|]; [|done].
  exists json. split; [done|]. cbn zeta.
  unfold serveClientEventMsgJSON. rewrite Hv. cbn zeta.
  destruct (ValidCreatedAt now _); cbn [negb]; [|done].
  cbn [world sender promEventCounter].
  destruct (Publish _ _ _) as [[w queued] failed] eqn:Hp.
  exists w, queued, failed. split; [done|]. by destruct failed.
Qed.

End RelayProperties.

(** A verified event, one second old, on the stand-ins. *)
Lemma X20_witness :
  exists json,
    Some signedEventJSON = Some json /\
    exists w queued failed,
      publishNothing {| Main.EventJSON_ := json; Main.ReceivedAt := clock |}
        (saveToList {| Main.EventJSON_ := json; Main.ReceivedAt := clock |}
           (Relay.world _ emptyState)) (Relay.sender _ emptyState) = (w, queued, failed) /\
      Relay.serveClientEventMsgJSON contentOf sameString unit unit anyParses anyParses
        anyVerifies (list Main.Event) saveToList publishNothing clock emptyState
        (Some signedEventJSON) =
        ({| Relay.world := w; Relay.sender := queued;
            Relay.promEventCounter := Relay.promEventCounter _ emptyState + 1 |},
         if failed then Some Relay.ErrPublish else None).
Proof.
  destruct (X20_serve_saves_then_publishes_a_timely_verified_event contentOf sameString
              unit unit anyParses anyParses anyVerifies (list Main.Event) saveToList
              publishNothing clock emptyState (Some signedEventJSON) eq_refl)
    as (json & Hjson & Hserve).
  exists json. split; [exact Hjson|].
  injection Hjson as <-. exact Hserve.
Defined.


(** *** Validation and verification in package mocrelay *)

Section MocrelayProperties.
Import Mocrelay MocrelayCheck MocrelayCheckFacts.

Variable Marshal : Event -> option string.
Variable sha256 : string -> string.
Variable PubKey Signature : Type.
Variable ParsePubKey : string -> option PubKey.
Variable ParseSignature : string -> option Signature.
Variable sigVerify : Signature -> string -> PubKey -> bool.

Abbreviation Verify := (Verify Marshal sha256 PubKey Signature ParsePubKey ParseSignature sigVerify).
Abbreviation CheckClientMsg :=
  (CheckClientMsg Marshal sha256 PubKey Signature ParsePubKey ParseSignature sigVerify).

(** X21 (Event.Valid, validID, validPubkey, validSig, validHexString).  The
    id, the pubkey and the signature of a valid event are what
    [hex.DecodeString] decodes without error, to 32, 32 and 64 bytes. *)
Theorem X21_a_valid_event_has_hex_of_the_right_length (ev : Event) :
  EventValid (Some ev) = true ->
  exists idBin pubkeyBin sigBin,
    Relay.hex_DecodeString (ID ev) = Some idBin /\ String.length idBin = 32%nat /\
    Relay.hex_DecodeString (Pubkey ev) = Some pubkeyBin /\
    String.length pubkeyBin = 32%nat /\
    Relay.hex_DecodeString (Sig ev) = Some sigBin /\ String.length sigBin = 64%nat.
Proof.
  intros Hv. apply EventValid_parts in Hv as (Hi & Hp & Hs & _).
  destruct (validID_decodes _ Hi) as (idBin & ? & ?).
  destruct (validPubkey_decodes _ Hp) as (pubkeyBin & ? & ?).
  destruct (validSig_decodes _ Hs) as (sigBin & ? & ?).
  by exists idBin, pubkeyBin, sigBin.
Qed.

(** X22 (CheckClientMsg, ClientEventMsg.Valid, Event.Valid, Event.Verify).
    [CheckClientMsg] accepts an EVENT message, with no error, exactly when
    the message and its event are not nil, the event is valid, its id is
    the hex form of the SHA-256 of its serialization, its pubkey and
    signature parse, and the signature verifies over that hash under that
    key. *)
Theorem X22_CheckClientMsg_accepts_the_valid_signed_events (msg : option ClientEventMsg) :
  CheckClientMsg (Some (ofClientEventMsg msg)) = (true, None) <->
  exists ev serialized pubkeyBin pubkey sigBin sig,
    msg = Some {| Event_ := Some ev |} /\
    EventValid (Some ev) = true /\
    Marshal ev = Some serialized /\
    Relay.hex_DecodeString (ID ev) = Some (sha256 serialized) /\
    Relay.hex_DecodeString (Pubkey ev) = Some pubkeyBin /\
    ParsePubKey pubkeyBin = Some pubkey /\
    Relay.hex_DecodeString (Sig ev) = Some sigBin /\
    ParseSignature sigBin = Some sig /\
    sigVerify sig (sha256 serialized) pubkey = true.
Proof.
  split.
  - unfold MocrelayCheck.CheckClientMsg, ClientEventMsgValid. intros H.
    destruct msg as [[[ev|]]|]; cbn [Event_] in H; [|done|done].
    destruct (EventValid (Some ev)) eqn:Hvalid; cbn [negb] in H; [|done].
    unfold MocrelayCheck.Verify, Serialize in H.
    destruct (Marshal ev) as [serialized|] eqn:Hs; [|done].
    destruct (Relay.hex_DecodeString (ID ev)) as [idBin|] eqn:Hi; [|done].
    cbn zeta in H.
    destruct (String.eqb_spec idBin (sha256 serialized)) as [->|]; cbn [negb] in H; [|done].
    destruct (Relay.hex_DecodeString (Pubkey ev)) as [pubkeyBin|] eqn:Hp; [|done].
    destruct (ParsePubKey pubkeyBin) as [pubkey|] eqn:Hpk; [|done].
    destruct (Relay.hex_DecodeString (Sig ev)) as [sigBin|] eqn:Hg; [|done].
    destruct (ParseSignature sigBin) as [sig|] eqn:Hsg; [|done].
    exists ev, serialized, pubkeyBin, pubkey, sigBin, sig.
    repeat split; try done. by injection H.
  - intros (ev & serialized & pubkeyBin & pubkey & sigBin & sig
              & -> & Hvalid & Hs & Hi & Hp & Hpk & Hg & Hsg & Hv).
    unfold MocrelayCheck.CheckClientMsg, ClientEventMsgValid. cbn [Event_].
    rewrite Hvalid. cbn [negb].
    unfold MocrelayCheck.Verify, Serialize.
    by rewrite Hs, Hi, String.eqb_refl, Hp, Hpk, Hg, Hsg, Hv.
Qed.

(** X23 (CheckClientMsg, Event.Verify).  [CheckClientMsg] returns an error
    only for an EVENT message that carries a valid event, never together
    with [ok]; and since a valid event's id, pubkey and signature decode,
    the error then comes from the serialization or from the parsers of the
    Schnorr library, not from [hex.DecodeString]. *)
Theorem X23_CheckClientMsg_fails_only_in_serialization_or_parsing
    (msg : option ClientMsg) (ok : bool) (err : checkError) :
  CheckClientMsg msg = (ok, Some err) ->
  ok = false /\
  exists ev,
    msg = Some (ofClientEventMsg (Some {| Event_ := Some ev |})) /\
    EventValid (Some ev) = true /\
    (err = ErrFailedToVerify ErrEventSerialize \/
     err = ErrFailedToVerify ErrParsePubkey \/
     err = ErrFailedToVerify ErrParseSig).
Proof.
  unfold MocrelayCheck.CheckClientMsg. intros H.
  destruct msg as [[m|m|m|m|m|m]|]; try done.
  unfold ClientEventMsgValid in H.
  destruct m as [[[ev|]]|]; cbn [Event_] in H; [|done|done].
  destruct (EventValid (Some ev)) eqn:Hvalid; cbn [negb] in H; [|done].
  destruct (EventValid_parts ev Hvalid) as (Hi & Hp & Hs & _).
  destruct (validID_decodes _ Hi) as (idBin & Hid & _).
  destruct (validPubkey_decodes _ Hp) as (pubkeyBin & Hpb & _).
  destruct (validSig_decodes _ Hs) as (sigBin & Hsb & _).
  unfold MocrelayCheck.Verify, Serialize in H. rewrite Hid, Hpb, Hsb in H. cbn zeta in H.
  assert (forall e, (ok, Some err) = (false, Some (ErrFailedToVerify e)) ->
                    ok = false /\ err = ErrFailedToVerify e) as Hinj.
  { intros e [= -> ->]. done. }
  destruct (Marshal ev) as [serialized|].
  - destruct (negb _); [done|].
    destruct (ParsePubKey pubkeyBin) as [pubkey|].
    + destruct (ParseSignature sigBin) as [sig|]; [done|].
      symmetry in H. apply Hinj in H as [-> ->]. split; [done|]. exists ev. auto.
    + symmetry in H. apply Hinj in H as [-> ->]. split; [done|]. exists ev. auto.
  - symmetry in H. apply Hinj in H as [-> ->]. split; [done|]. exists ev. auto.
Qed.

End MocrelayProperties.

(** The event of the repository's tests. *)
Lemma X21_witness :
  exists idBin pubkeyBin sigBin,
    Relay.hex_DecodeString (Mocrelay.ID (ValidFacts.testEvent 1)) = Some idBin /\
    String.length idBin = 32%nat /\
    Relay.hex_DecodeString (Mocrelay.Pubkey (ValidFacts.testEvent 1)) = Some pubkeyBin /\
    String.length pubkeyBin = 32%nat /\
    Relay.hex_DecodeString (Mocrelay.Sig (ValidFacts.testEvent 1)) = Some sigBin /\
    String.length sigBin = 64%nat.
Proof.
  refine (X21_a_valid_event_has_hex_of_the_right_length (ValidFacts.testEvent 1) _).
  reflexivity.
Defined.

(** The same event in an EVENT message, with an encoder that fails. *)
Lemma X23_witness :
  false = false /\
  exists ev,
    Some testEventMsg =
      Some (MocrelayCheck.ofClientEventMsg (Some {| MocrelayCheck.Event_ := Some ev |})) /\
    Mocrelay.EventValid (Some ev) = true /\
    (MocrelayCheck.ErrFailedToVerify MocrelayCheck.ErrEventSerialize =
       MocrelayCheck.ErrFailedToVerify MocrelayCheck.ErrEventSerialize \/
     MocrelayCheck.ErrFailedToVerify MocrelayCheck.ErrEventSerialize =
       MocrelayCheck.ErrFailedToVerify MocrelayCheck.ErrParsePubkey \/
     MocrelayCheck.ErrFailedToVerify MocrelayCheck.ErrEventSerialize =
       MocrelayCheck.ErrFailedToVerify MocrelayCheck.ErrParseSig).
Proof.
  refine (X23_CheckClientMsg_fails_only_in_serialization_or_parsing marshalFails sameString
            unit unit anyParses anyParses anyVerifies (Some testEventMsg) false
            (MocrelayCheck.ErrFailedToVerify MocrelayCheck.ErrEventSerialize) _).
  reflexivity.
Defined.


Section NaddrProperties.
Import Mocrelay MocrelayCheckFacts.

(** X24 (validNaddr, validPubkey, validKind).  An address is accepted
    exactly when it is [kind:pubkey:d] where [kind] is what
    [strconv.ParseInt] reads as a 64-bit integer, of any value, [pubkey]
    is valid, and neither [kind] nor [d] holds a colon: an address whose
    last part holds a colon is refused. *)
Theorem X24_validNaddr_is_three_parts_between_colons (naddr : string) :
  validNaddr naddr = true <->
  exists kind pubkey d,
    naddr = (kind ++ ":" ++ pubkey ++ ":" ++ d)%string /\
    noColon kind = true /\ noColon d = true /\
    ParseInt kind <> None /\
    validPubkey pubkey = true.
Proof.
  unfold validNaddr. split.
  - destruct (splitColon naddr) as [|e0 [|e1 [|e2 [|e3 rest]]]] eqn:Hs; try done.
    intros H.
    destruct (ParseInt e0) as [kind|] eqn:Hk; [|done].
    destruct (validKind kind); cbn [negb] in H; [|done].
    destruct (validPubkey e1) eqn:Hp; cbn [negb] in H; [|done].
    apply splitColon_cons in Hs as (H0 & r0 & -> & Hs).
    apply splitColon_cons in Hs as (H1 & r1 & -> & Hs).
    apply splitColon_cons in Hs as (H2 & ->).
    exists e0, e1, e2. rewrite Hk. done.
  - intros (kind & pubkey & d & -> & Hk & Hd & Hp & Hv).
    rewrite splitColon_app by done.
    rewrite splitColon_app by by apply validPubkey_noColon.
    rewrite splitColon_noColon by done.
    destruct (ParseInt kind) as [k|]; [|done].
    by rewrite ValidFacts.validKind_always, Hv.
Qed.

End NaddrProperties.

Section EntityProperties.
Import Main MainEntity MainEntityFacts.

(** X25 (NewFilter of entity.go).  [NewFilter] accepts a filter object
    exactly when it is not nil, it lists at least one prefix under ids,
    authors, #p or #e, and every prefix listed there has at least
    [MinPrefix] bytes; the filter it returns holds that object. *)
Theorem X25_entity_NewFilter_wants_a_long_enough_prefix (MinPrefix : Z)
    (json : option FilterJSON) (fil : Filter) :
  NewFilter MinPrefix json = inl fil <->
  json = Some (FilterJSON_ fil) /\
  listed (FilterJSON_ fil) <> [] /\
  forall id, id ∈ listed (FilterJSON_ fil) -> MinPrefix <= len_string id.
Proof. apply NewFilter_inl. Qed.

(** X26 (NewFiltersFromFilterJSONs of entity.go).  The result is all or
    nothing.  Within the bound of [MaxFilters + 2] objects, either every
    object is accepted and the filters come back one per object, in order,
    with no error; or no filter comes back and the error is that of the
    first object [NewFilter] refuses.  Beyond the bound nothing is looked
    at. *)
Theorem X26_entity_NewFilters_is_all_or_nothing (MinPrefix MaxFilters : Z)
    (jsons : list (option FilterJSON)) :
  match NewFiltersFromFilterJSONs MinPrefix MaxFilters jsons with
  | (Some res, None) =>
      len jsons <= wrap_int64 (MaxFilters + 2) /\
      Forall2 (fun json fil => NewFilter MinPrefix json = inl fil) jsons res
  | (None, Some err) =>
      (len jsons > wrap_int64 (MaxFilters + 2) /\ err = ErrFilterTooLong) \/
      (len jsons <= wrap_int64 (MaxFilters + 2) /\
       exists (i : nat) json,
         jsons !! i = Some json /\ NewFilter MinPrefix json = inr err /\
         forall (j : nat) json', (j < i)%nat -> jsons !! j = Some json' ->
                                 exists fil, NewFilter MinPrefix json' = inl fil)
  | _ => False
  end.
Proof.
  unfold NewFiltersFromFilterJSONs.
  destruct (Z.gtb_spec (len jsons) (wrap_int64 (MaxFilters + 2))) as [Hlong|Hle].
  - left. split; [lia | done].
  - destruct (NewFiltersLoop MinPrefix jsons) as [res|err] eqn:Hl.
    + split; [done|]. by apply NewFiltersLoop_inl.
    + right. split; [done|]. by apply NewFiltersLoop_inr.
Qed.

End EntityProperties.


Section FilterJSONProperties.
Import Mocrelay MocrelayFilterJSON MocrelayFilterJSONFacts.

(** X27 (ReqFilter.UnmarshalJSON, anySliceAs).  The loop of
    [UnmarshalJSON] ranges over a Go map, in an order that Go does not
    fix.  Whatever the order, a JSON object is accepted exactly when each
    of its members is well-formed (ids, authors and [#x] hold arrays of
    strings, kinds an array of integers, since, until and limit an
    integer, and there is no other member), and the filter then holds
    what the members say and nothing else.  The tag map of an accepted
    filter is nil or has an entry; each of its keys is [#] and a letter,
    and none of its lists is nil. *)
Theorem X27_ReqFilter_UnmarshalJSON_is_independent_of_the_map_order
    (order : gmap string json -> list (string * json)) (fil : ReqFilter)
    (members : list (string * json)) :
  (forall m, order m ≡ₚ map_to_list m) ->
  let obj := decodeObject members in
  (map_Forall (fun k v => wellFormed k v = true) obj ->
   ReqFilterUnmarshalJSON order fil (JObject members) = Some (filterOf obj)) /\
  (~ map_Forall (fun k v => wellFormed k v = true) obj ->
   ReqFilterUnmarshalJSON order fil (JObject members) = None) /\
  (forall ret tags,
     ReqFilterUnmarshalJSON order fil (JObject members) = Some ret ->
     fTags ret = Some tags ->
     tags <> ∅ /\
     map_Forall (fun k vs => validTagKey k = true /\ is_Some vs) tags).
Proof.
  intros Horder obj. cbn [ReqFilterUnmarshalJSON]. fold obj.
  assert (NoDup (order obj).*1) as Hnd.
  { rewrite (Horder obj). apply NoDup_fst_map_to_list. }
  assert (list_to_map (order obj) = obj) as Hmap.
  { rewrite (list_to_map_proper (order obj) (map_to_list obj) Hnd (Horder obj)).
    apply list_to_map_to_list. }
  assert (Forall (fun kv => wellFormed kv.1 kv.2 = true) (order obj) <->
          map_Forall (fun k v => wellFormed k v = true) obj) as Hall.
  { rewrite (Horder obj), map_Forall_to_list. apply Forall_proper; [|done]. by intros []. }
  pose proof (unmarshalLoop_spec (order obj) zeroReqFilter Hnd) as Hspec.
  rewrite Hmap in Hspec.
  assert (forall ret, unmarshalLoop (order obj) zeroReqFilter = Some ret ->
            map_Forall (fun k v => wellFormed k v = true) obj /\ ret = filterOf obj) as Hsome.
  { intros ret Hret. rewrite Hret in Hspec. destruct Hspec as [Hwf HR].
    split; [by apply Hall | by apply Reads_filterOf]. }
  split; [|split].
  - intros Hwf. destruct (unmarshalLoop (order obj) zeroReqFilter) as [r|].
    + f_equal. by apply Hsome.
    + apply Exists_exists in Hspec as ([k v] & Hin & Hbad).
      apply Hall in Hwf.
      rewrite Forall_forall in Hwf. specialize (Hwf (k, v) Hin). cbn in *. congruence.
  - intros Hnot. destruct (unmarshalLoop (order obj) zeroReqFilter) as [r|]; [|done].
    destruct Hnot. by apply (Hsome r).
  - intros ret tags Hret Htags. apply Hsome in Hret as [Hwf ->].
    cbn [filterOf fTags] in Htags.
    destruct (decide (tagMembers obj = ∅)) as [|Hne]; [done|]. injection Htags as <-.
    split.
    + intros He. by apply fmap_empty_inv in He.
    + intros k vs Hk. rewrite lookup_fmap in Hk.
      destruct (tagMembers obj !! k) as [v|] eqn:Hv; [|done]. injection Hk as <-.
      apply map_lookup_filter_Some in Hv as [Hv Hkey]. cbn in Hkey. split; [done|].
      specialize (Hwf k v Hv). cbn in Hwf. unfold wellFormed in Hwf.
      rewrite Hkey, !orb_true_r in Hwf. cbn in Hwf.
      by apply bool_decide_eq_true in Hwf.
Qed.

End FilterJSONProperties.

(** [{"ids": ["ab"], "#e": ["cd"], "since": 10}], ranged over in the order
    of the keys. *)
Lemma X27_witness :
  MocrelayFilterJSON.ReqFilterUnmarshalJSON map_to_list MocrelayFilterJSON.zeroReqFilter
    (JObject filterMembers) =
  Some (MocrelayFilterJSONFacts.filterOf (decodeObject filterMembers)).
Proof.
  refine (proj1 (X27_ReqFilter_UnmarshalJSON_is_independent_of_the_map_order
                   map_to_list MocrelayFilterJSON.zeroReqFilter filterMembers _) _).
  - intros m. reflexivity.
  - unfold decodeObject, filterMembers. cbn [fold_left fst snd].
    repeat (apply map_Forall_insert_2; [reflexivity|]). apply map_Forall_empty.
Defined.

Section ClientJSONProperties.
Import Mocrelay MocrelayCheck MocrelayFilterJSON MocrelayClientJSON MocrelayClientJSONFacts.

(** X28 (ClientReqMsg.UnmarshalJSON, ClientReqMsg.Valid,
    ClientCountMsg.UnmarshalJSON, ClientCountMsg.Valid).  A REQ message
    that [UnmarshalJSON] accepts, from a value other than null, came from
    an array that begins with the string ["REQ"] and a subscription id
    and goes on with at least one element; it holds one filter per such
    element, in order, a nil filter exactly for a null.  So [Valid] never
    fails for want of a filter: it is true exactly when every filter is
    valid, and a null in the place of a filter makes the message invalid.
    The same holds of a COUNT message. *)
Theorem X28_a_parsed_REQ_holds_a_filter_per_element
    (order : gmap string json -> list (string * json)) (b : json)
    (req req' : ClientReqMsg) (count count' : ClientCountMsg) :
  b <> JNull ->
  (ClientReqMsgUnmarshalJSON order req b = Some req' ->
   exists sub raws,
     b = JArray (JString "REQ" :: sub :: raws) /\
     unmarshalString sub = Some (ReqSubscriptionID req') /\
     raws <> [] /\
     length (ReqFilters req') = length raws /\
     (forall i : nat, raws !! i = Some JNull <-> ReqFilters req' !! i = Some None) /\
     (ClientReqMsgValid (Some req') = true <->
      forall fil, fil ∈ ReqFilters req' -> ReqFilterValid fil = true)) /\
  (ClientCountMsgUnmarshalJSON order count b = Some count' ->
   exists sub raws,
     b = JArray (JString "COUNT" :: sub :: raws) /\
     unmarshalString sub = Some (CountSubscriptionID count') /\
     raws <> [] /\
     length (CountReqFilters count') = length raws /\
     (forall i : nat, raws !! i = Some JNull <-> CountReqFilters count' !! i = Some None) /\
     (ClientCountMsgValid (Some count') = true <->
      forall fil, fil ∈ CountReqFilters count' -> ReqFilterValid fil = true)).
Proof.
  intros Hb. split.
  - unfold ClientReqMsgUnmarshalJSON. intros H.
    destruct b as [| | | |elems|]; try done. cbn in H.
    destruct (Z.ltb_spec (len elems) 3) as [|Hlen]; [done|].
    destruct elems as [|e0 [|e1 raws]]; try done.
    destruct (unmarshalString e0) as [label|] eqn:H0; cbn in H; [|done].
    destruct (String.eqb_spec label "REQ") as [->|]; cbn in H; [|done].
    apply unmarshalString_label in H0; [|done]. subst e0.
    destruct (unmarshalString e1) as [subID|] eqn:H1; cbn in H; [|done].
    destruct (unmarshalReqFilters order raws) as [filters|] eqn:Hf; cbn in H; [|done].
    injection H as <-. cbn [ReqSubscriptionID ReqFilters ClientReqMsgValid].
    destruct (unmarshalReqFilters_shape order raws filters Hf) as [Hl Hnull].
    assert (raws <> []) as Hne.
    { intros ->. unfold len in Hlen. cbn in Hlen. lia. }
    exists e1, raws. do 5 (split; [done|]).
    rewrite filtersValid_spec. split; [by intros [_ Hv]|].
    intros Hv. split; [|done]. intros ->. by destruct raws.
  - unfold ClientCountMsgUnmarshalJSON. intros H.
    destruct b as [| | | |elems|]; try done. cbn in H.
    destruct (Z.ltb_spec (len elems) 3) as [|Hlen]; [done|].
    destruct elems as [|e0 [|e1 raws]]; try done.
    destruct (unmarshalString e0) as [label|] eqn:H0; cbn in H; [|done].
    destruct (String.eqb_spec label "COUNT") as [->|]; cbn in H; [|done].
    apply unmarshalString_label in H0; [|done]. subst e0.
    destruct (unmarshalString e1) as [subID|] eqn:H1; cbn in H; [|done].
    destruct (unmarshalReqFilters order raws) as [filters|] eqn:Hf; cbn in H; [|done].
    injection H as <-. cbn [CountSubscriptionID CountReqFilters ClientCountMsgValid].
    destruct (unmarshalReqFilters_shape order raws filters Hf) as [Hl Hnull].
    assert (raws <> []) as Hne.
    { intros ->. unfold len in Hlen. cbn in Hlen. lia. }
    exists e1, raws. do 5 (split; [done|]).
    rewrite filtersValid_spec. split; [by intros [_ Hv]|].
    intros Hv. split; [|done]. intros ->. by destruct raws.
Qed.

(** X29 (ClientCloseMsg.UnmarshalJSON, ClientAuthMsg.UnmarshalJSON).  From a
    value other than null, a CLOSE message is accepted exactly for an
    array of two elements whose first is the string ["CLOSE"] and whose
    second is a string or null; the subscription id is that string, and
    the empty string for null.  The same holds of an AUTH message and its
    challenge. *)
Theorem X29_CLOSE_and_AUTH_take_a_label_and_a_string (b : json)
    (close close' : ClientCloseMsg) (auth auth' : ClientAuthMsg) :
  b <> JNull ->
  (ClientCloseMsgUnmarshalJSON close b = Some close' <->
   exists sub, b = JArray [JString "CLOSE"; sub] /\
               unmarshalString sub = Some (CloseSubscriptionID close')) /\
  (ClientAuthMsgUnmarshalJSON auth b = Some auth' <->
   exists challenge, b = JArray [JString "AUTH"; challenge] /\
                     unmarshalString challenge = Some (Challenge auth')).
Proof.
  intros Hb. split.
  - unfold ClientCloseMsgUnmarshalJSON. split.
    + intros H. destruct b as [| | | |elems|]; try done. cbn in H.
      destruct (mapM unmarshalString elems) as [ss|] eqn:Hm; cbn in H; [|done].
      destruct (Z.eqb_spec (len ss) 2) as [Hlen|]; cbn in H; [|done].
      destruct ss as [|s0 [|s1 [|s2 ss]]]; try done;
        [|unfold len in Hlen; cbn [length] in Hlen; lia].
      destruct (String.eqb_spec s0 "CLOSE") as [->|]; cbn in H; [|done].
      injection H as <-. apply mapM_Some in Hm.
      apply Forall2_cons_inv_r in Hm as (e0 & rest & H0 & Hm & ->).
      apply Forall2_cons_inv_r in Hm as (e1 & rest' & H1 & Hm & ->).
      apply Forall2_nil_inv_r in Hm as ->.
      apply unmarshalString_label in H0; [|done]. subst e0. by exists e1.
    + intros (sub & -> & Hs). cbn. rewrite Hs. cbn. by destruct close'.
  - unfold ClientAuthMsgUnmarshalJSON. split.
    + intros H. destruct b as [| | | |elems|]; try done. cbn in H.
      destruct (mapM unmarshalString elems) as [ss|] eqn:Hm; cbn in H; [|done].
      destruct (Z.eqb_spec (len ss) 2) as [Hlen|]; cbn in H; [|done].
      destruct ss as [|s0 [|s1 [|s2 ss]]]; try done;
        [|unfold len in Hlen; cbn [length] in Hlen; lia].
      destruct (String.eqb_spec s0 "AUTH") as [->|]; cbn in H; [|done].
      injection H as <-. apply mapM_Some in Hm.
      apply Forall2_cons_inv_r in Hm as (e0 & rest & H0 & Hm & ->).
      apply Forall2_cons_inv_r in Hm as (e1 & rest' & H1 & Hm & ->).
      apply Forall2_nil_inv_r in Hm as ->.
      apply unmarshalString_label in H0; [|done]. subst e0. by exists e1.
    + intros (sub & -> & Hs). cbn. rewrite Hs. cbn. by destruct auth'.
Qed.

(** X30 (ClientEventMsg.UnmarshalJSON, Event.UnmarshalJSON).  From a value
    other than null, an EVENT message is accepted exactly for an array of
    two elements, the string ["EVENT"] and an object that
    [Event.UnmarshalJSON] accepts; the message then holds that event, the
    object has the seven fields of an event and no other, and the tags of
    the event are not nil. *)
Theorem X30_a_parsed_EVENT_holds_the_event_of_its_object (b : json)
    (msg msg' : ClientEventMsg) :
  b <> JNull ->
  ClientEventMsgUnmarshalJSON msg b = Some msg' <->
  exists members event,
    b = JArray [JString "EVENT"; JObject members] /\
    UnmarshalJSON (JObject members) = inl event /\
    msg' = {| Event_ := Some event |} /\
    dom (decodeObject members) = UnmarshalFacts.eventKeys /\
    Tags event <> None.
Proof.
  intros Hb. unfold ClientEventMsgUnmarshalJSON. split.
  - intros H. destruct b as [| | | |elems|]; try done. cbn in H.
    destruct (Z.eqb_spec (len elems) 2) as [Hlen|]; cbn in H; [|done].
    destruct elems as [|e0 [|e1 [|e2 elems]]]; try done;
      [|unfold len in Hlen; cbn [length] in Hlen; lia].
    destruct (unmarshalString e0) as [label|] eqn:H0; cbn in H; [|done].
    destruct (String.eqb_spec label "EVENT") as [->|]; cbn in H; [|done].
    apply unmarshalString_label in H0; [|done]. subst e0.
    unfold unmarshalEvent in H.
    destruct (UnmarshalJSON e1) as [event|err] eqn:Hu; cbn in H; [|done].
    injection H as <-.
    destruct (UnmarshalFacts.UnmarshalJSON_fields e1 event Hu) as (members & -> & Hdom).
    exists members, event. repeat split; try done.
    unfold UnmarshalJSON in Hu.
    repeat match type of Hu with
           | context [orErr ?o _] => destruct o; cbn [orErr] in Hu; [|discriminate Hu]
           | context [negb ?c] => destruct c; cbn [negb] in Hu; [|discriminate Hu]
           end.
    by injection Hu as <-.
  - intros (members & event & -> & Hu & -> & _). cbn.
    unfold unmarshalEvent. by rewrite Hu.
Qed.

End ClientJSONProperties.

(** A REQ with a filter object and a null. *)
Lemma X28_witness :
  exists sub raws,
    reqValue = JArray (JString "REQ" :: sub :: raws) /\
    raws <> [] /\
    length (MocrelayCheck.ReqFilters reqMsg) = length raws /\
    (MocrelayCheck.ClientReqMsgValid (Some reqMsg) = true <->
     forall fil, fil ∈ MocrelayCheck.ReqFilters reqMsg ->
                 Mocrelay.ReqFilterValid fil = true).
Proof.
  destruct (proj1 (X28_a_parsed_REQ_holds_a_filter_per_element map_to_list reqValue
                     zeroReqMsg reqMsg zeroCountMsg zeroCountMsg ltac:(discriminate))
              eq_refl)
    as (sub & raws & Hb & _ & Hne & Hlen & _ & Hvalid).
  by exists sub, raws.
Defined.

(** [["CLOSE", null]]. *)
Lemma X29_witness :
  MocrelayClientJSON.ClientCloseMsgUnmarshalJSON zeroCloseMsg
    (JArray [JString "CLOSE"; JNull]) = Some zeroCloseMsg <->
  exists sub, JArray [JString "CLOSE"; JNull] = JArray [JString "CLOSE"; sub] /\
              MocrelayClientJSON.unmarshalString sub =
                Some (MocrelayCheck.CloseSubscriptionID zeroCloseMsg).
Proof.
  refine (proj1 (X29_CLOSE_and_AUTH_take_a_label_and_a_string
                   (JArray [JString "CLOSE"; JNull]) zeroCloseMsg zeroCloseMsg
                   zeroAuthMsg zeroAuthMsg _)).
  discriminate.
Defined.

(** The event of the repository's tests in an EVENT message. *)
Lemma X30_witness :
  MocrelayClientJSON.ClientEventMsgUnmarshalJSON zeroEventMsg
    (JArray [JString "EVENT"; JObject testMembers]) =
    Some {| MocrelayCheck.Event_ := Some (ValidFacts.testEvent 1) |} <->
  exists members event,
    JArray [JString "EVENT"; JObject testMembers] =
      JArray [JString "EVENT"; JObject members] /\
    Mocrelay.UnmarshalJSON (JObject members) = inl event /\
    {| MocrelayCheck.Event_ := Some (ValidFacts.testEvent 1) |} =
      {| MocrelayCheck.Event_ := Some event |} /\
    dom (decodeObject members) = UnmarshalFacts.eventKeys /\
    Mocrelay.Tags event <> None.
Proof.
  refine (X30_a_parsed_EVENT_holds_the_event_of_its_object
            (JArray [JString "EVENT"; JObject testMembers]) zeroEventMsg
            {| MocrelayCheck.Event_ := Some (ValidFacts.testEvent 1) |} _).
  discriminate.
Defined.

End Coverage.
